(** * A shallow embedding of the grid layout engine

    The embedded code is [src/lib/utils.js] (collision test, lookup and
    replacement of items, sorting, compaction, bounds correction, the
    move engine, the resize handlers and the validation of a layout)
    and the coordinate calculations of the grid item
    ([calcGridColWidth], [calcGridItemWHPx], [calcGridItemPosition],
    [calcXY], [calcWH], [clamp]).

    Conventions of the embedding.

    - Grid coordinates and sizes are JavaScript numbers that the layout
      engine only ever adds, subtracts and compares; they are modelled
      as [Z].  The numbers of the coordinate converter go through
      multiplications, a division and [Math.round], and may be any
      number; they are IEEE 754 doubles, modelled by the type [Number]:
      each operation rounds its exact result to the nearest double and
      has the special cases of the standard for [NaN], the infinities
      and the signed zeros.
    - A layout item is a JavaScript object.  Fields that may be absent
      ([moved], [static], [isDraggable], ...) are options, [None]
      standing for [undefined]; a test such as [if (l.static)] is the
      truthiness of the field.
    - Objects are shared and mutated.  Where the code mutates items that
      are reachable from several arrays, the embedding keeps a store
      (a list of items, addressed by position) and arrays of addresses.
    - Loops whose trip count is not bounded by the data at hand, and the
      recursive functions, take a [fuel] argument and return [None] when
      it runs out. *)

From Stdlib Require Import ZArith QArith Qround Qabs Qpower Lia Lqa.
From Stdlib Require Import Permutation Sorted.
From stdpp Require Import base option list strings pretty.

Local Open Scope Z_scope.

(** ** Layout items *)

Module Item.
Record t : Type := mk {
  w : Z;
  h : Z;
  x : Z;
  y : Z;
  i : string;
  minW : option Z;
  maxW : option Z;
  minH : option Z;
  maxH : option Z;
  moved : option bool;
  static : option bool;
  isDraggable : option bool;
  isResizable : option bool;
  resizeHandles : option (list string);
  isBounded : option bool
}.

Definition with_x (v : Z) (l : t) : t :=
  mk (w l) (h l) v (y l) (i l) (minW l) (maxW l) (minH l) (maxH l)
     (moved l) (static l) (isDraggable l) (isResizable l)
     (resizeHandles l) (isBounded l).

Definition with_y (v : Z) (l : t) : t :=
  mk (w l) (h l) (x l) v (i l) (minW l) (maxW l) (minH l) (maxH l)
     (moved l) (static l) (isDraggable l) (isResizable l)
     (resizeHandles l) (isBounded l).

Definition with_w (v : Z) (l : t) : t :=
  mk v (h l) (x l) (y l) (i l) (minW l) (maxW l) (minH l) (maxH l)
     (moved l) (static l) (isDraggable l) (isResizable l)
     (resizeHandles l) (isBounded l).

Definition with_moved (v : bool) (l : t) : t :=
  mk (w l) (h l) (x l) (y l) (i l) (minW l) (maxW l) (minH l) (maxH l)
     (Some v) (static l) (isDraggable l) (isResizable l)
     (resizeHandles l) (isBounded l).
End Item.

Abbreviation LayoutItem := Item.t.
Abbreviation Layout := (list Item.t).

(** JavaScript truthiness of an optional boolean field. *)
Definition truthy (b : option bool) : bool :=
  match b with
  | Some true => true
  | _ => false
  end.

Definition is_static (l : LayoutItem) : bool := truthy (Item.static l).
Definition is_moved (l : LayoutItem) : bool := truthy (Item.moved l).

(** The compaction mode: ["vertical"], ["horizontal"] or [null]. *)
Inductive CompactType : Type :=
  | Horizontal
  | Vertical
  | NoCompaction.

Inductive Axis : Type :=
  | AxisX
  | AxisY.

Definition get_axis (a : Axis) (l : LayoutItem) : Z :=
  match a with
  | AxisX => Item.x l
  | AxisY => Item.y l
  end.

Definition set_axis (a : Axis) (v : Z) (l : LayoutItem) : LayoutItem :=
  match a with
  | AxisX => Item.with_x v l
  | AxisY => Item.with_y v l
  end.

(** [heightWidth = { x: "w", y: "h" }] followed by the field read. *)
Definition sizeProp (a : Axis) (l : LayoutItem) : Z :=
  match a with
  | AxisX => Item.w l
  | AxisY => Item.h l
  end.

(** ** Elementary layout functions *)

(** [bottom]: the loop keeps the running maximum, starting from 0. *)
Definition bottom (layout : Layout) : Z :=
  fold_left
    (fun max l =>
       let bottomY := Item.y l + Item.h l in
       if bottomY >? max then bottomY else max)
    layout 0.

Definition cloneLayoutItem (layoutItem : LayoutItem) : LayoutItem :=
  Item.mk (Item.w layoutItem) (Item.h layoutItem)
          (Item.x layoutItem) (Item.y layoutItem) (Item.i layoutItem)
          (Item.minW layoutItem) (Item.maxW layoutItem)
          (Item.minH layoutItem) (Item.maxH layoutItem)
          (Some (truthy (Item.moved layoutItem)))
          (Some (truthy (Item.static layoutItem)))
          (Item.isDraggable layoutItem) (Item.isResizable layoutItem)
          (Item.resizeHandles layoutItem) (Item.isBounded layoutItem).

Definition cloneLayout (layout : Layout) : Layout :=
  map cloneLayoutItem layout.

Definition collides (l1 l2 : LayoutItem) : bool :=
  if String.eqb (Item.i l1) (Item.i l2) then false
  else if Item.x l1 + Item.w l1 <=? Item.x l2 then false
  else if Item.x l1 >=? Item.x l2 + Item.w l2 then false
  else if Item.y l1 + Item.h l1 <=? Item.y l2 then false
  else if Item.y l1 >=? Item.y l2 + Item.h l2 then false
  else true.

Fixpoint getFirstCollision (layout : Layout) (layoutItem : LayoutItem)
  : option LayoutItem :=
  match layout with
  | [] => None
  | c :: rest =>
      if collides c layoutItem then Some c
      else getFirstCollision rest layoutItem
  end.

Definition getAllCollisions (layout : Layout) (layoutItem : LayoutItem)
  : Layout :=
  filter (fun l => collides l layoutItem = true) layout.

Definition getStatics (layout : Layout) : Layout :=
  filter (fun l => is_static l = true) layout.

(** ** Sorting

    [Array.prototype.sort] is modelled by a stable insertion sort driven
    by the comparator: an element is placed in front of the first
    element it compares strictly below.  The sort functions are stated
    over any element type that carries a layout item, so that callers
    can keep track of which object each sorted entry is. *)

Section Sorting.
Context {A : Type}.
Variable item_of : A -> LayoutItem.

Fixpoint sort_insert (cmp : A -> A -> Z) (a : A) (sorted : list A)
  : list A :=
  match sorted with
  | [] => [a]
  | b :: rest =>
      if cmp a b <? 0 then a :: b :: rest
      else b :: sort_insert cmp a rest
  end.

Definition js_sort (cmp : A -> A -> Z) (l : list A) : list A :=
  fold_left (fun acc a => sort_insert cmp a acc) l [].

Definition compareRowCol (a b : A) : Z :=
  let a := item_of a in
  let b := item_of b in
  if (Item.y a >? Item.y b)
     || ((Item.y a =? Item.y b) && (Item.x a >? Item.x b))
  then 1
  else if (Item.y a =? Item.y b) && (Item.x a =? Item.x b) then 0
  else -1.

Definition compareColRow (a b : A) : Z :=
  let a := item_of a in
  let b := item_of b in
  if (Item.x a >? Item.x b)
     || ((Item.x a =? Item.x b) && (Item.y a >? Item.y b))
  then 1
  else -1.

Definition sortLayoutItemsByRowCol (layout : list A) : list A :=
  js_sort compareRowCol layout.

Definition sortLayoutItemsByColRow (layout : list A) : list A :=
  js_sort compareColRow layout.

Definition sortLayoutItems (layout : list A) (compactType : CompactType)
  : list A :=
  match compactType with
  | Horizontal => sortLayoutItemsByColRow layout
  | Vertical => sortLayoutItemsByRowCol layout
  | NoCompaction => layout
  end.
End Sorting.

(** ** Compaction *)

(** [ids.indexOf(id)]: the first position holding [id], or -1. *)
Fixpoint indexOf (ids : list string) (id : string) : Z :=
  match ids with
  | [] => -1
  | j :: rest =>
      if String.eqb j id then 0
      else let r := indexOf rest id in
           if r <? 0 then -1 else r + 1
  end.

(** [resolveCompactionCollision] mutates [item] and the items of
    [layout] it pushes.  At the outermost call [item] is the clone being
    compacted, which is no element of [layout]; in the recursive calls
    it is an element of [layout].  Both are objects of one store: the
    store holds the [n] objects of the array [layout] at the addresses
    [0 .. n-1], in array order, and the clone at address [n]; [item] is
    an address. *)

Section Scan.
(** The recursive call, abstracted: store, address of [otherItem],
    new [moveToCoord]. *)
Variable recur : Layout -> nat -> Z -> option Layout.
Variable item : nat.
Variable moveToCoord : Z.
Variable axis : Axis.

(** The [for] loop of [resolveCompactionCollision], from index [i],
    with [count] indices left before [layout.length]. *)
Fixpoint scanLater (count : nat) (i : nat) (store : Layout)
  : option Layout :=
  match count with
  | O => Some store
  | S count' =>
      match store !! i, store !! item with
      | Some otherItem, Some it =>
          if is_static otherItem then scanLater count' (S i) store
          else if Item.y otherItem >? Item.y it + Item.h it
          then Some store
          else if collides it otherItem then
            match recur store i (moveToCoord + sizeProp axis it) with
            | Some store' => scanLater count' (S i) store'
            | None => None
            end
          else scanLater count' (S i) store
      | _, _ => Some store
      end
  end.
End Scan.

Fixpoint resolveCompactionCollision (fuel : nat) (n : nat)
    (store : Layout) (item : nat) (moveToCoord : Z) (axis : Axis)
  : option Layout :=
  match fuel with
  | O => None
  | S fuel' =>
      let store1 :=
        alter (fun l => set_axis axis (get_axis axis l + 1) l) item store in
      match store1 !! item with
      | None => Some store1
      | Some it =>
          let itemIndex := indexOf (map Item.i (take n store1)) (Item.i it) in
          let start := Z.to_nat (itemIndex + 1) in
          match scanLater
                  (fun s k mv => resolveCompactionCollision fuel' n s k mv axis)
                  item moveToCoord axis (n - start) start store1 with
          | None => None
          | Some store2 => Some (alter (set_axis axis moveToCoord) item store2)
          end
      end
  end.

(** [while (l[axis] > 0 && !getFirstCollision(compareWith, l)) l[axis]--]
    runs at most [l[axis]] times; [count] is that bound. *)
Fixpoint pullBack (axis : Axis) (compareWith : Layout) (count : nat)
    (l : LayoutItem) : LayoutItem :=
  match count with
  | O => l
  | S count' =>
      if (get_axis axis l >? 0)
         && negb (bool_decide (is_Some (getFirstCollision compareWith l)))
      then pullBack axis compareWith count'
             (set_axis axis (get_axis axis l - 1) l)
      else l
  end.

Definition pullToOrigin (axis : Axis) (compareWith : Layout)
    (l : LayoutItem) : LayoutItem :=
  pullBack axis compareWith (Z.to_nat (get_axis axis l)) l.

Definition isHorizontal (compactType : CompactType) : bool :=
  match compactType with Horizontal => true | _ => false end.

Definition isVertical (compactType : CompactType) : bool :=
  match compactType with Vertical => true | _ => false end.

Definition isNull (compactType : CompactType) : bool :=
  match compactType with NoCompaction => true | _ => false end.

(** The second [while] loop of [compactItem]; it returns the item and
    the (mutated) objects of [fullLayout]. *)
Fixpoint pushForward (fuel : nat) (compareWith : Layout)
    (compactType : CompactType) (cols : Z) (allowOverlap : bool)
    (l : LayoutItem) (fullLayout : Layout)
  : option (LayoutItem * Layout) :=
  match getFirstCollision compareWith l with
  | None => Some (l, fullLayout)
  | Some collides_ =>
      if isNull compactType && allowOverlap then Some (l, fullLayout)
      else
        match fuel with
        | O => None
        | S fuel' =>
            let n := length fullLayout in
            let compactH := isHorizontal compactType in
            let resolved :=
              if compactH
              then resolveCompactionCollision fuel' n (fullLayout ++ [l]) n
                     (Item.x collides_ + Item.w collides_) AxisX
              else resolveCompactionCollision fuel' n (fullLayout ++ [l]) n
                     (Item.y collides_ + Item.h collides_) AxisY in
            match resolved with
            | None => None
            | Some store =>
                let fullLayout' := take n store in
                let l1 := default l (store !! n) in
                let l2 :=
                  if compactH && (Item.x l1 + Item.w l1 >? cols)
                  then pullToOrigin AxisX compareWith
                         (Item.with_y (Item.y l1 + 1)
                            (Item.with_x (cols - Item.w l1) l1))
                  else l1 in
                pushForward fuel' compareWith compactType cols allowOverlap
                  l2 fullLayout'
            end
        end
  end.

Definition compactItem (fuel : nat) (compareWith : Layout) (l : LayoutItem)
    (compactType : CompactType) (cols : Z) (fullLayout : Layout)
    (allowOverlap : bool) : option (LayoutItem * Layout) :=
  let l1 :=
    match compactType with
    | Vertical =>
        pullToOrigin AxisY compareWith
          (Item.with_y (Z.min (bottom compareWith) (Item.y l)) l)
    | Horizontal => pullToOrigin AxisX compareWith l
    | NoCompaction => l
    end in
  match pushForward fuel compareWith compactType cols allowOverlap
          l1 fullLayout with
  | None => None
  | Some (l2, fullLayout') =>
      let l3 := Item.with_y (Z.max (Item.y l2) 0) l2 in
      Some (Item.with_x (Z.max (Item.x l3) 0) l3, fullLayout')
  end.

(** The state of the loop of [compact]: the comparison array, the
    objects of [sorted] (which are the objects of the input layout, so
    what [resolveCompactionCollision] does to them is seen when their
    turn comes), and the output array under construction ([None] is a
    hole of [Array(layout.length)]). *)
Record CompactState : Type := mkCompactState {
  cs_compareWith : Layout;
  cs_sorted : Layout;
  cs_out : list (option LayoutItem)
}.

(** One turn of the loop, for [sorted[i]], the object at position
    [origin] of the input layout. *)
Definition compactStep (fuel : nat) (compactType : CompactType) (cols : Z)
    (allowOverlap : bool) (i origin : nat) (st : CompactState)
  : option CompactState :=
  match cs_sorted st !! i with
  | None => Some st
  | Some sorted_i =>
      let l := cloneLayoutItem sorted_i in
      if negb (is_static l) then
        match compactItem fuel (cs_compareWith st) l compactType cols
                (cs_sorted st) allowOverlap with
        | None => None
        | Some (l', sorted') =>
            let l'' := Item.with_moved false l' in
            Some (mkCompactState (cs_compareWith st ++ [l'']) sorted'
                    (<[origin := Some l'']> (cs_out st)))
        end
      else
        let l'' := Item.with_moved false l in
        Some (mkCompactState (cs_compareWith st) (cs_sorted st)
                (<[origin := Some l'']> (cs_out st)))
  end.

Fixpoint compactLoop (fuel : nat) (compactType : CompactType) (cols : Z)
    (allowOverlap : bool) (i : nat) (origins : list nat) (st : CompactState)
  : option CompactState :=
  match origins with
  | [] => Some st
  | origin :: rest =>
      match compactStep fuel compactType cols allowOverlap i origin st with
      | None => None
      | Some st' =>
          compactLoop fuel compactType cols allowOverlap (S i) rest st'
      end
  end.

(** Each entry of the input array with its position: the object
    identity that [layout.indexOf(sorted[i])] recovers. *)
Definition withOrigins (layout : Layout) : list (nat * LayoutItem) :=
  imap (fun k l => (k, l)) layout.

Definition compact (fuel : nat) (layout : Layout)
    (compactType : CompactType) (cols : Z) (allowOverlap : bool)
  : option (list (option LayoutItem)) :=
  let compareWith := getStatics layout in
  let sorted := sortLayoutItems snd (withOrigins layout) compactType in
  match compactLoop fuel compactType cols allowOverlap 0 (map fst sorted)
          (mkCompactState compareWith (map snd sorted)
             (replicate (length layout) None)) with
  | None => None
  | Some st => Some (cs_out st)
  end.

(** ** Bounds correction *)

Module Bounds.
Record t : Type := mk { cols : Z }.
End Bounds.

(** The objects an array of addresses refers to, as the store has them
    now. *)
Definition objects (store : Layout) (addrs : list nat) : Layout :=
  omap (fun a => store !! a) addrs.

(** [while (getFirstCollision(collidesWith, l)) l.y++] for the object at
    address [i].  [collidesWith] holds objects of the layout itself, so
    it is an array of addresses.  The loop runs at most [count] times. *)
Fixpoint pushDown (collidesWith : list nat) (i : nat) (count : nat)
    (store : Layout) : Layout :=
  match count with
  | O => store
  | S count' =>
      match store !! i with
      | None => store
      | Some l =>
          match getFirstCollision (objects store collidesWith) l with
          | Some _ =>
              pushDown collidesWith i count'
                (alter (fun l => Item.with_y (Item.y l + 1) l) i store)
          | None => store
          end
      end
  end.

(** One turn of the loop of [correctBounds], for [layout[i]]. *)
Definition correctBoundsStep (bounds : Bounds.t) (i : nat)
    (st : list nat * Layout) : list nat * Layout :=
  let '(collidesWith, store) := st in
  match store !! i with
  | None => st
  | Some l =>
      let l1 :=
        if Item.x l + Item.w l >? Bounds.cols bounds
        then Item.with_x (Bounds.cols bounds - Item.w l) l else l in
      let l2 :=
        if Item.x l1 <? 0
        then Item.with_w (Bounds.cols bounds) (Item.with_x 0 l1) else l1 in
      let store2 := <[i := l2]> store in
      if negb (is_static l2) then (collidesWith ++ [i], store2)
      else
        (* once [l.y] has reached the bottom of the comparison set
           nothing collides with it: this bounds the loop *)
        let count :=
          Z.to_nat (bottom (objects store2 collidesWith) - Item.y l2) in
        (collidesWith, pushDown collidesWith i count store2)
  end.

Definition staticAddrs (layout : Layout) : list nat :=
  map fst (filter (fun p => is_static (snd p) = true) (withOrigins layout)).

Definition correctBounds (layout : Layout) (bounds : Bounds.t) : Layout :=
  snd (fold_left (fun st i => correctBoundsStep bounds i st)
         (seq 0 (length layout)) (staticAddrs layout, layout)).

(** ** The move engine

    [moveElement] and [moveElementAwayFromCollision] mutate the items of
    the layout while passing arrays of them around: a layout is an
    array of addresses into a store of objects.  [cloneLayout] allocates
    its clones at the end of the store. *)

Abbreviation Store := (list Item.t).

Definition sortAddrs (store : Store) (addrs : list nat)
    (by_ : list (nat * LayoutItem) -> list (nat * LayoutItem)) : list nat :=
  map fst (by_ (omap (fun a => pair a <$> store !! a) addrs)).

Definition fakeItem (x y w h : Z) : LayoutItem :=
  Item.mk w h x y "-1" None None None None None None None None None None.

Definition is_null {A} (o : option A) : bool :=
  match o with None => true | Some _ => false end.

Section MoveElementAwayFromCollision.
(** The recursive call to [moveElement], which is always made without
    the [allowOverlap] argument. *)
Variable moveElement_ :
  list nat -> nat -> option Z -> option Z -> bool -> bool ->
  CompactType -> Z -> Store -> option (list nat * Store).

Definition moveElementAwayFromCollision (layout : list nat)
    (collidesWith itemToMove : nat) (isUserAction : bool)
    (compactType : CompactType) (cols : Z) (noCompactTypeMovingUp : bool)
    (store : Store) : option (list nat * Store) :=
  match store !! collidesWith, store !! itemToMove with
  | Some cw, Some itm =>
      let compactH := isHorizontal compactType in
      let compactV := isVertical compactType in
      let preventCollision := is_static cw in
      let fallback (store : Store) :=
        match store !! itemToMove with
        | None => None
        | Some itm =>
            let newX := if compactH then Some (Item.x itm + 1) else None in
            let newY := if compactV then Some (Item.y itm + 1) else None in
            if is_null newX && is_null newY then Some (layout, store)
            else moveElement_ layout itemToMove newX newY false
                   preventCollision compactType cols store
        end in
      if isUserAction then
        let fake0 :=
          fakeItem
            (if compactH then Z.max (Item.x cw - Item.w itm) 0
             else Item.x itm)
            (if compactV then Z.max (Item.y cw - Item.h itm) 0
             else Item.y itm)
            (Item.w itm) (Item.h itm) in
        let fake :=
          if isNull compactType && negb noCompactTypeMovingUp
          then fakeItem (Item.x itm) (Z.max (Item.y cw - Item.h itm) 0)
                 (Item.w itm) (Item.h itm)
          else fake0 in
        match getFirstCollision (objects store layout) fake with
        | None =>
            if isNull compactType && negb noCompactTypeMovingUp
            then moveElement_ layout itemToMove None (Some (Item.y fake))
                   false preventCollision compactType cols store
            else moveElement_ layout itemToMove
                   (if compactH then Some (Item.x fake) else None)
                   (if compactV then Some (Item.y fake) else None)
                   false preventCollision compactType cols store
        | Some firstCollision =>
            let collisionNorth :=
              Item.y firstCollision + Item.h firstCollision >? Item.y cw in
            let collisionWest :=
              Item.x cw + Item.w cw >? Item.x firstCollision in
            if collisionNorth && compactV then
              moveElement_ layout itemToMove None (Some (Item.y cw + 1))
                false preventCollision compactType cols store
            else if collisionNorth && isNull compactType then
              let moved_ :=
                if noCompactTypeMovingUp then
                  Some (alter (Item.with_y (Item.y cw + Item.h cw))
                          itemToMove store)
                else
                  snd <$> moveElement_ layout itemToMove None
                            (Some (Item.y itm + 1)) false preventCollision
                            compactType cols store in
              match moved_ with
              | None => None
              | Some store' =>
                  Some (sortAddrs store' layout (sortLayoutItemsByRowCol snd),
                        store')
              end
            else if collisionWest && compactH then
              moveElement_ layout collidesWith (Some (Item.x itm)) None
                false preventCollision compactType cols store
            else fallback store
        end
      else fallback store
  | _, _ => None
  end.

(** The loop of [moveElement] over the collisions found. *)
Fixpoint cascade (collisions : list nat) (l : nat) (isUserAction : bool)
    (compactType : CompactType) (cols : Z) (noCompactTypeMovingUp : bool)
    (layout : list nat) (store : Store) : option (list nat * Store) :=
  match collisions with
  | [] => Some (layout, store)
  | collision :: rest =>
      match store !! collision with
      | None => None
      | Some c =>
          if is_moved c then
            cascade rest l isUserAction compactType cols
              noCompactTypeMovingUp layout store
          else
            let r :=
              if is_static c then
                moveElementAwayFromCollision layout collision l
                  isUserAction compactType cols noCompactTypeMovingUp store
              else
                moveElementAwayFromCollision layout l collision
                  isUserAction compactType cols noCompactTypeMovingUp store
            in
            match r with
            | None => None
            | Some (layout', store') =>
                cascade rest l isUserAction compactType cols
                  noCompactTypeMovingUp layout' store'
            end
      end
  end.
End MoveElementAwayFromCollision.

(** [x === v] for a field that holds a number and an argument that may
    be [undefined]. *)
Definition strict_eq (field : Z) (arg : option Z) : bool :=
  match arg with
  | Some v => field =? v
  | None => false
  end.

Definition is_true (b : option bool) : bool :=
  match b with Some true => true | _ => false end.

Fixpoint moveElement (fuel : nat) (layout : list nat) (l : nat)
    (x y : option Z) (isUserAction preventCollision : bool)
    (compactType : CompactType) (cols : Z) (allowOverlap : bool)
    (store : Store) : option (list nat * Store) :=
  match store !! l with
  | None => None
  | Some l0 =>
      if is_static l0 && negb (is_true (Item.isDraggable l0))
      then Some (layout, store)
      else if strict_eq (Item.y l0) y && strict_eq (Item.x l0) x
      then Some (layout, store)
      else
        let oldX := Item.x l0 in
        let oldY := Item.y l0 in
        let l1 := match x with Some v => Item.with_x v l0 | None => l0 end in
        let l2 := match y with Some v => Item.with_y v l1 | None => l1 end in
        let l3 := Item.with_moved true l2 in
        let store1 := <[l := l3]> store in
        let sorted := sortAddrs store1 layout
                        (fun t => sortLayoutItems snd t compactType) in
        let movingUp :=
          match compactType, x, y with
          | Vertical, _, Some y => oldY >=? y
          | Horizontal, Some x, _ => oldX >=? x
          | _, _, _ => false
          end in
        let sorted := if movingUp then reverse sorted else sorted in
        let noCompactTypeMovingUp :=
          match compactType, y with
          | NoCompaction, Some y => oldY >=? y
          | _, _ => false
          end in
        let collisions :=
          filter (fun a => match store1 !! a with
                           | Some c => collides c l3
                           | None => false
                           end = true)
                 sorted in
        let hasCollisions := 0 <? Z.of_nat (length collisions) in
        if hasCollisions && allowOverlap then
          let clones := cloneLayout (objects store1 layout) in
          Some (seq (length store1) (length clones), store1 ++ clones)
        else if hasCollisions && preventCollision then
          Some (layout,
                <[l := Item.with_moved false
                         (Item.with_y oldY (Item.with_x oldX l3))]> store1)
        else
          cascade
            (match fuel with
             | O => fun _ _ _ _ _ _ _ _ _ => None
             | S fuel' =>
                 fun layout l x y isUserAction preventCollision compactType
                     cols store =>
                   moveElement fuel' layout l x y isUserAction
                     preventCollision compactType cols false store
             end)
            collisions l isUserAction compactType cols noCompactTypeMovingUp
            layout store1
  end.

(** ** Resizing by a handle *)

Module Position.
Record t : Type := mk {
  left : Z;
  top : Z;
  width : Z;
  height : Z
}.
End Position.

Definition constrainWidth (left currentWidth newWidth containerWidth : Z)
  : Z :=
  if left + newWidth >? containerWidth then currentWidth else newWidth.

Definition constrainHeight (top currentHeight newHeight : Z) : Z :=
  if top <? 0 then currentHeight else newHeight.

Definition constrainLeft (left : Z) : Z := Z.max 0 left.

Definition constrainTop (top : Z) : Z := Z.max 0 top.

Definition resizeNorth (currentSize newSize : Position.t)
    (_containerWidth : Z) : Position.t :=
  let top :=
    Position.top currentSize
    - (Position.height newSize - Position.height currentSize) in
  {| Position.left := Position.left newSize;
     Position.width := Position.width newSize;
     Position.height :=
       constrainHeight top (Position.height currentSize)
         (Position.height newSize);
     Position.top := constrainTop top |}.

Definition resizeEast (currentSize newSize : Position.t)
    (containerWidth : Z) : Position.t :=
  {| Position.top := Position.top newSize;
     Position.height := Position.height newSize;
     Position.width :=
       constrainWidth (Position.left currentSize)
         (Position.width currentSize) (Position.width newSize)
         containerWidth;
     Position.left := constrainLeft (Position.left newSize) |}.

Definition resizeWest (currentSize newSize : Position.t)
    (containerWidth : Z) : Position.t :=
  let left :=
    Position.left currentSize
    - (Position.width newSize - Position.width currentSize) in
  {| Position.height := Position.height newSize;
     Position.width :=
       if left <? 0 then Position.width currentSize
       else constrainWidth (Position.left currentSize)
              (Position.width currentSize) (Position.width newSize)
              containerWidth;
     Position.top := constrainTop (Position.top newSize);
     Position.left := constrainLeft left |}.

Definition resizeSouth (currentSize newSize : Position.t)
    (containerWidth : Z) : Position.t :=
  {| Position.width := Position.width newSize;
     Position.left := Position.left newSize;
     Position.height :=
       constrainHeight (Position.top newSize) (Position.height currentSize)
         (Position.height newSize);
     Position.top := constrainTop (Position.top newSize) |}.

Definition resizeNorthEast (currentSize newSize : Position.t)
    (containerWidth : Z) : Position.t :=
  resizeNorth currentSize (resizeEast currentSize newSize containerWidth)
    containerWidth.

Definition resizeNorthWest (currentSize newSize : Position.t)
    (containerWidth : Z) : Position.t :=
  resizeNorth currentSize (resizeWest currentSize newSize containerWidth)
    containerWidth.

Definition resizeSouthEast (currentSize newSize : Position.t)
    (containerWidth : Z) : Position.t :=
  resizeSouth currentSize (resizeEast currentSize newSize containerWidth)
    containerWidth.

Definition resizeSouthWest (currentSize newSize : Position.t)
    (containerWidth : Z) : Position.t :=
  resizeSouth currentSize (resizeWest currentSize newSize containerWidth)
    containerWidth.

Definition ordinalResizeHandlerMap
  : list (string * (Position.t -> Position.t -> Z -> Position.t)) :=
  [ ("n", resizeNorth); ("ne", resizeNorthEast); ("e", resizeEast);
    ("se", resizeSouthEast); ("s", resizeSouth); ("sw", resizeSouthWest);
    ("w", resizeWest); ("nw", resizeNorthWest) ]%string.

Fixpoint handlerFor {H : Type} (map : list (string * H)) (direction : string)
  : option H :=
  match map with
  | [] => None
  | (k, v) :: rest =>
      if String.eqb k direction then Some v else handlerFor rest direction
  end.

(** [{ ...currentSize, ...newSize }] where [newSize] carries the four
    fields of a position: every field comes from [newSize]. *)
Definition spreadOver (currentSize newSize : Position.t) : Position.t :=
  {| Position.left := Position.left newSize;
     Position.top := Position.top newSize;
     Position.width := Position.width newSize;
     Position.height := Position.height newSize |}.

Definition resizeItemInDirection (direction : string)
    (currentSize newSize : Position.t) (containerWidth : Z) : Position.t :=
  match handlerFor ordinalResizeHandlerMap direction with
  | None => newSize
  | Some ordinalHandler =>
      ordinalHandler currentSize (spreadOver currentSize newSize)
        containerWidth
  end.

(** ** JavaScript numbers

    A number of the coordinate converter is an IEEE 754 double: [NaN],
    an infinity, [-0], or a rational; [+0] is [Fin 0].  The rational of
    a result is in lowest terms, so that equal results are equal terms.
    An arithmetic operation gives the double nearest to the exact
    result, ties going to the even significand ([roundDouble]; that
    its result is a nearest double is [roundDouble_nearest]). *)

Local Open Scope Q_scope.

Inductive Number : Type :=
  | NaN
  | Infinity (negative : bool)
  | NegZero
  | Fin (q : Q).

Definition ofZ (z : Z) : Number := Fin (inject_Z z).

Definition pow2 (e : Z) : Q := 2 ^ e.

(** The integer nearest to [v], the even one of the two when [v] is
    half way. *)
Definition roundHalfEven (v : Q) : Z :=
  let f := Qfloor v in
  match Qcompare (v - inject_Z f) (1 # 2) with
  | Lt => f
  | Gt => (f + 1)%Z
  | Eq => if Z.even f then f else (f + 1)%Z
  end.

(** The exponent [e] of [q <> 0]: [2 ^ e <= |q| < 2 ^ (e + 1)]. *)
Definition ilog2 (q : Q) : Z :=
  let e0 := (Z.log2 (Z.abs (Qnum q)) - Z.log2 (Zpos (Qden q)))%Z in
  if Qle_bool (pow2 e0) (Qabs q) then e0 else (e0 - 1)%Z.

(** The double nearest to the rational [q]: a significand of 53 bits,
    the least exponent that of the subnormal numbers, an infinity from
    [2 ^ 1024] on, a zero with the sign of [q] below half the least
    positive double. *)
Definition roundDouble (q : Q) : Number :=
  let q := Qred q in
  if Qeq_bool q 0 then Fin 0
  else
    let ulp := pow2 (Z.max (ilog2 q - 52) (-1074)) in
    let m := roundHalfEven (q / ulp) in
    let r := inject_Z m * ulp in
    if Qle_bool (pow2 1024) (Qabs r) then Infinity (negb (Qle_bool 0 q))
    else if (m =? 0)%Z then (if Qle_bool 0 q then Fin 0 else NegZero)
    else Fin (Qred r).

Definition valueOf (a : Number) : Q :=
  match a with Fin q => q | _ => 0 end.

(** The sign bit; [NaN] has none that matters. *)
Definition isNegative (a : Number) : bool :=
  match a with
  | NaN => false
  | Infinity negative => negative
  | NegZero => true
  | Fin q => negb (Qle_bool 0 q)
  end.

Definition isInfinite (a : Number) : bool :=
  match a with Infinity _ => true | _ => false end.

Definition isZero (a : Number) : bool :=
  match a with NegZero => true | Fin q => Qeq_bool q 0 | _ => false end.

(** [Number.isFinite] *)
Definition Number_isFinite (a : Number) : bool :=
  match a with NegZero | Fin _ => true | _ => false end.

Definition signedZero (negative : bool) : Number :=
  if negative then NegZero else Fin 0.

(** [-a] *)
Definition Number_neg (a : Number) : Number :=
  match a with
  | NaN => NaN
  | Infinity negative => Infinity (negb negative)
  | NegZero => Fin 0
  | Fin q => if Qeq_bool q 0 then NegZero else Fin (- q)
  end.

(** [a + b]: opposite infinities give [NaN], two negative zeros give
    [-0], an exact sum of zero gives [+0]. *)
Definition Number_add (a b : Number) : Number :=
  match a, b with
  | NaN, _ | _, NaN => NaN
  | Infinity s, Infinity t => if Bool.eqb s t then Infinity s else NaN
  | Infinity s, _ => Infinity s
  | _, Infinity t => Infinity t
  | NegZero, NegZero => NegZero
  | _, _ => roundDouble (valueOf a + valueOf b)
  end.

(** [a - b] *)
Definition Number_sub (a b : Number) : Number :=
  Number_add a (Number_neg b).

(** [a * b]: an infinity times a zero is [NaN]; the sign of the result
    is the product of the signs. *)
Definition Number_mul (a b : Number) : Number :=
  match a, b with
  | NaN, _ | _, NaN => NaN
  | _, _ =>
      let negative := xorb (isNegative a) (isNegative b) in
      if isInfinite a || isInfinite b
      then (if isZero a || isZero b then NaN else Infinity negative)
      else if isZero a || isZero b then signedZero negative
      else roundDouble (valueOf a * valueOf b)
  end.

(** [a / b]: a zero by a zero and an infinity by an infinity are [NaN],
    anything else by a zero is an infinity. *)
Definition Number_div (a b : Number) : Number :=
  match a, b with
  | NaN, _ | _, NaN => NaN
  | _, _ =>
      let negative := xorb (isNegative a) (isNegative b) in
      if isInfinite a
      then (if isInfinite b then NaN else Infinity negative)
      else if isInfinite b then signedZero negative
      else if isZero b
      then (if isZero a then NaN else Infinity negative)
      else if isZero a then signedZero negative
      else roundDouble (valueOf a / valueOf b)
  end.

(** [a] is below [b] in the order of [Math.max] and [Math.min], in
    which [-0] is below [+0]; [false] when one of them is [NaN]. *)
Definition Number_below (a b : Number) : bool :=
  match a, b with
  | NaN, _ | _, NaN => false
  | Infinity s, Infinity t => s && negb t
  | Infinity s, _ => s
  | _, Infinity t => negb t
  | _, _ =>
      if Qeq_bool (valueOf a) (valueOf b)
      then isZero a && isNegative a && negb (isNegative b)
      else Qle_bool (valueOf a) (valueOf b)
  end.

Definition Math_max (a b : Number) : Number :=
  match a, b with
  | NaN, _ | _, NaN => NaN
  | _, _ => if Number_below a b then b else a
  end.

Definition Math_min (a b : Number) : Number :=
  match a, b with
  | NaN, _ | _, NaN => NaN
  | _, _ => if Number_below b a then b else a
  end.

(** [Math.round]: the nearest integer, halves going up; [-0] for a
    negative number that rounds to zero; [NaN], the infinities and the
    zeros are returned as they are. *)
Definition Math_round (a : Number) : Number :=
  match a with
  | Fin q =>
      let n := Qfloor (q + (1 # 2)) in
      if (n =? 0)%Z && negb (Qle_bool 0 q) then NegZero else Fin (inject_Z n)
  | _ => a
  end.

Local Close Scope Q_scope.

Declare Scope number_scope.
Delimit Scope number_scope with number.
Bind Scope number_scope with Number.
Infix "+" := Number_add : number_scope.
Infix "-" := Number_sub : number_scope.
Infix "*" := Number_mul : number_scope.
Infix "/" := Number_div : number_scope.
Notation "0" := (ofZ 0) : number_scope.
Notation "1" := (ofZ 1) : number_scope.
Notation "2" := (ofZ 2) : number_scope.

(** ** Pixels and grid units *)

Module PositionParams.
Record t : Type := mk {
  margin : Number * Number;
  containerPadding : Number * Number;
  containerWidth : Number;
  cols : Number;
  rowHeight : Number;
  maxRows : Number
}.
End PositionParams.

(** The [dragging] and [resizing] overrides of [calcGridItemPosition];
    [None] for a [top] or [left] that is not a number. *)
Module OverrideState.
Record dragging_t : Type := mkDragging { d_top : Number; d_left : Number }.
Record resizing_t : Type := mkResizing {
  r_width : Number;
  r_height : Number;
  r_top : option Number;
  r_left : option Number
}.
Record t : Type := mk {
  dragging : option dragging_t;
  resizing : option resizing_t
}.
End OverrideState.

Local Open Scope number_scope.

Definition calcGridColWidth (positionParams : PositionParams.t) : Number :=
  let margin := PositionParams.margin positionParams in
  let containerPadding := PositionParams.containerPadding positionParams in
  let containerWidth := PositionParams.containerWidth positionParams in
  let cols := PositionParams.cols positionParams in
  (containerWidth - fst margin * (cols - 1) - fst containerPadding * 2) / cols.

Definition calcGridItemWHPx (gridUnits colOrRowSize marginPx : Number)
  : Number :=
  if negb (Number_isFinite gridUnits) then gridUnits
  else Math_round (colOrRowSize * gridUnits
                   + Math_max 0 (gridUnits - 1) * marginPx).

Module PixelPosition.
Record t : Type := mk {
  width : Number;
  height : Number;
  top : Number;
  left : Number
}.
End PixelPosition.

Definition calcGridItemPosition (positionParams : PositionParams.t)
    (x y w h : Number) (state : option OverrideState.t) : PixelPosition.t :=
  let margin := PositionParams.margin positionParams in
  let containerPadding := PositionParams.containerPadding positionParams in
  let rowHeight := PositionParams.rowHeight positionParams in
  let colWidth := calcGridColWidth positionParams in
  let '(width, height) :=
    match state ≫= OverrideState.resizing with
    | Some r =>
        (Math_round (OverrideState.r_width r),
         Math_round (OverrideState.r_height r))
    | None =>
        (calcGridItemWHPx w colWidth (fst margin),
         calcGridItemWHPx h rowHeight (snd margin))
    end in
  let computed :=
    (Math_round ((rowHeight + snd margin) * y + snd containerPadding),
     Math_round ((colWidth + fst margin) * x + fst containerPadding)) in
  let '(top_px, left_px) :=
    match state ≫= OverrideState.dragging with
    | Some d =>
        (Math_round (OverrideState.d_top d),
         Math_round (OverrideState.d_left d))
    | None =>
        match state ≫= OverrideState.resizing with
        | Some r =>
            match OverrideState.r_top r, OverrideState.r_left r with
            | Some t, Some l => (Math_round t, Math_round l)
            | _, _ => computed
            end
        | None => computed
        end
    end in
  PixelPosition.mk width height top_px left_px.

Definition clamp (num lowerBound upperBound : Number) : Number :=
  Math_max (Math_min num upperBound) lowerBound.

Definition calcXY (positionParams : PositionParams.t) (top left : Number)
    (w h : Number) : Number * Number :=
  let margin := PositionParams.margin positionParams in
  let cols := PositionParams.cols positionParams in
  let rowHeight := PositionParams.rowHeight positionParams in
  let maxRows := PositionParams.maxRows positionParams in
  let containerPadding := PositionParams.containerPadding positionParams in
  let colWidth := calcGridColWidth positionParams in
  let x :=
    Math_round ((left - fst containerPadding) / (colWidth + fst margin)) in
  let y :=
    Math_round ((top - snd containerPadding) / (rowHeight + snd margin)) in
  let x := clamp x 0 (cols - w) in
  let y := clamp y 0 (maxRows - h) in
  (x, y).

Local Close Scope number_scope.

(** ** Looking an item up and replacing it *)

(** [getLayoutItem]: the first item with the given id; [None] stands for
    the [undefined] the function returns when the loop finds none. *)
Fixpoint getLayoutItem (layout : Layout) (id : string) : option LayoutItem :=
  match layout with
  | [] => None
  | l :: rest =>
      if String.eqb (Item.i l) id then Some l else getLayoutItem rest id
  end.

(** [modifyLayout]: a new array in which every entry with the id of
    [layoutItem] is [layoutItem]. *)
Definition modifyLayout (layout : Layout) (layoutItem : LayoutItem) : Layout :=
  map (fun l => if String.eqb (Item.i layoutItem) (Item.i l)
                then layoutItem else l)
      layout.

(** [withLayoutItem]: the pair [[layout, item]], [None] for [null]. *)
Definition withLayoutItem (layout : Layout) (itemKey : string)
    (cb : LayoutItem -> LayoutItem) : Layout * option LayoutItem :=
  match getLayoutItem layout itemKey with
  | None => (layout, None)
  | Some item =>
      let item := cb (cloneLayoutItem item) in
      (modifyLayout layout item, Some item)
  end.

(** ** Pixels to grid sizes *)

(** [[...].indexOf(handle) !== -1] *)
Definition includes (handles : list string) (handle : string) : bool :=
  negb (indexOf handles handle =? -1).

Definition calcWH (positionParams : PositionParams.t)
    (width height : Number) (x y : Number) (handle : string)
  : Number * Number :=
  let margin := PositionParams.margin positionParams in
  let maxRows := PositionParams.maxRows positionParams in
  let cols := PositionParams.cols positionParams in
  let rowHeight := PositionParams.rowHeight positionParams in
  let colWidth := calcGridColWidth positionParams in
  let w :=
    Math_round ((width + fst margin) / (colWidth + fst margin))%number in
  let h :=
    Math_round ((height + snd margin) / (rowHeight + snd margin))%number in
  let _w := clamp w (ofZ 0) (cols - x)%number in
  let _h := clamp h (ofZ 0) (maxRows - y)%number in
  let _w :=
    if includes ["sw"; "w"; "nw"]%string handle
    then clamp w (ofZ 0) cols else _w in
  let _h :=
    if includes ["nw"; "n"; "ne"]%string handle
    then clamp h (ofZ 0) maxRows else _h in
  (_w, _h).

(** ** Validation of a layout

    [validateLayout] is called on values that have not been checked:
    its argument is an arbitrary JavaScript value.  Numbers are
    rationals here; [NaN] and the infinities, which are numbers for
    [typeof] as well, are not represented. *)

#[warnings="-register-all"] Inductive JsValue : Type :=
  | JsUndefined
  | JsNull
  | JsBoolean (b : bool)
  | JsNumber (n : Q)
  | JsString (s : string)
  | JsObject (fields : list (string * JsValue))
  | JsArray (items : list JsValue).

(** [typeof v === "number"] *)
Definition isNumber (v : JsValue) : bool :=
  match v with JsNumber _ => true | _ => false end.

(** [item[key]] for one of the keys "x", "y", "w", "h": the field of an
    object, [undefined] when the object has no such field or when
    [item] is an array or a primitive value; reading a property of
    [null] or [undefined] raises a [TypeError], which is [None]. *)
Definition getProp (item : JsValue) (key : string) : option JsValue :=
  match item with
  | JsUndefined | JsNull => None
  | JsObject fields => Some (default JsUndefined (handlerFor fields key))
  | _ => Some JsUndefined
  end.

(** How a call ends: normally, with [throw new Error(message)], or with
    the [TypeError] of the engine. *)
Inductive Outcome : Type :=
  | Returns
  | Throws (message : string)
  | TypeError.

Definition subProps : list string := ["x"; "y"; "w"; "h"]%string.

(** The inner loop, over the properties still to check of item [i]. *)
Fixpoint validateProps (item : JsValue) (contextName : string) (i : nat)
    (props : list string) : Outcome :=
  match props with
  | [] => Returns
  | prop :: rest =>
      match getProp item prop with
      | None => TypeError
      | Some v =>
          if isNumber v then validateProps item contextName i rest
          else Throws ("ReactGridLayout: " +:+ contextName +:+ "["
                       +:+ pretty i +:+ "]." +:+ prop
                       +:+ " must be a number!")
      end
  end.

(** The outer loop, from index [i]. *)
Fixpoint validateItems (items : list JsValue) (contextName : string)
    (i : nat) : Outcome :=
  match items with
  | [] => Returns
  | item :: rest =>
      match validateProps item contextName i subProps with
      | Returns => validateItems rest contextName (S i)
      | thrown => thrown
      end
  end.

(** [contextName] is [None] when the argument is omitted. *)
Definition validateLayout (layout : JsValue) (contextName : option string)
  : Outcome :=
  let contextName := default "Layout"%string contextName in
  match layout with
  | JsArray items => validateItems items contextName 0
  | _ => Throws (contextName +:+ " must be an array!")
  end.

(** ** Notions used by the properties *)

(** Half the gap between 1 and the next double, [2 ^ -53]. *)
Definition unitRoundoff : Q := 1 # 9007199254740992.

(** Half the least positive double, [2 ^ -1075]. *)
Definition halfLeast : Q := pow2 (-1075).

(** [r] is a double: an integer of at most 53 bits times a power of two
    whose exponent is between -1074 and 971. *)
Definition isDouble (r : Q) : Prop :=
  exists m e : Z,
    Z.abs m < 2 ^ 53 /\ -1074 <= e <= 971
    /\ (r == inject_Z m * pow2 e)%Q.

(** The number [a] is finite and within [err] of the rational [v]. *)
Definition closeTo (a : Number) (v err : Q) : Prop :=
  Number_isFinite a = true /\ (Qabs (valueOf a - v) <= err)%Q.

(** The number [a] is the integer [n], possibly as [-0]. *)
Definition integral (a : Number) (n : Z) : Prop :=
  a = ofZ n \/ (n = 0 /\ a = NegZero).

(** The number [a] is finite and lies between [lo] and [hi]. *)
Definition between (lo hi : Q) (a : Number) : Prop :=
  Number_isFinite a = true /\ (lo <= valueOf a <= hi)%Q.

(** The integer [n] is at most [limit], which is [Infinity] or an
    integer up to [2 ^ 52]. *)
Definition fits (limit : Number) (n : Z) : Prop :=
  limit = Infinity false
  \/ exists c, limit = ofZ c /\ n <= c <= 4503599627370496.

(** The distance in pixels from one column to the next, and from one
    row to the next, as [calcGridItemPosition], [calcXY] and [calcWH]
    compute them. *)
Definition columnStep (p : PositionParams.t) : Number :=
  (calcGridColWidth p + fst (PositionParams.margin p))%number.

Definition rowStep (p : PositionParams.t) : Number :=
  (PositionParams.rowHeight p + snd (PositionParams.margin p))%number.

(** Grid position to pixels and back, with no drag or resize override. *)
Definition roundTrip (p : PositionParams.t) (x y w h : Number)
  : Number * Number :=
  let pos := calcGridItemPosition p x y w h None in
  calcXY p (PixelPosition.top pos) (PixelPosition.left pos) w h.

(** Twelve columns in a container six pixels wide: half a pixel each. *)
Definition narrowParams : PositionParams.t :=
  PositionParams.mk (ofZ 0, ofZ 0) (ofZ 0, ofZ 0) (ofZ 6) (ofZ 12) (ofZ 30)
    (ofZ 100).

(** The grid of the specification's scenarios. *)
Definition scenarioParams : PositionParams.t :=
  PositionParams.mk (ofZ 10, ofZ 10) (ofZ 10, ofZ 10) (ofZ 1200) (ofZ 12)
    (ofZ 30) (ofZ 100).

(** A row height of [1/2 + 2 ^ -53] and a vertical margin of [1/2]:
    more than one pixel together, exactly one pixel in doubles. *)
Definition unitStepParams : PositionParams.t :=
  PositionParams.mk (ofZ 0, Fin (1 # 2)) (ofZ 0, Fin (1 # 2)) (ofZ 1200)
    (ofZ 12) (Fin (4503599627370497 # 9007199254740992)) (ofZ 100).

(** Seven columns in a container of 529.5 pixels. *)
Definition oddWidthParams : PositionParams.t :=
  PositionParams.mk (ofZ 10, ofZ 10) (ofZ 10, ofZ 10) (Fin (1059 # 2))
    (ofZ 7) (ofZ 30) (ofZ 100).

(** A container that its paddings fill: no width is left for a
    column. *)
Definition zeroStepParams : PositionParams.t :=
  PositionParams.mk (ofZ 0, ofZ 0) (ofZ 10, ofZ 10) (ofZ 20) (ofZ 12)
    (ofZ 30) (ofZ 100).

(** What [clamp] with a lower bound of 0 guarantees of its result [v]:
    it is [NaN], or it is not below [+0] and, when the upper bound is
    not below [+0] either, not above the upper bound. *)
Definition clamped (v upperBound : Number) : Prop :=
  v = NaN
  \/ (Number_below v (ofZ 0) = false
      /\ (Number_below upperBound (ofZ 0) = false ->
          Number_below upperBound v = false)).

(** The upper bounds that [calcWH] clamps a width and a height to. *)
Definition widthBound (p : PositionParams.t) (x : Number) (handle : string)
  : Number :=
  if includes ["sw"; "w"; "nw"]%string handle
  then PositionParams.cols p else (PositionParams.cols p - x)%number.

Definition heightBound (p : PositionParams.t) (y : Number) (handle : string)
  : Number :=
  if includes ["nw"; "n"; "ne"]%string handle
  then PositionParams.maxRows p else (PositionParams.maxRows p - y)%number.

(** A layout item with the optional fields absent. *)
Definition plainItem (i : string) (x y w h : Z) : LayoutItem :=
  Item.mk w h x y i None None None None None None None None None None.

Definition staticItem (i : string) (x y w h : Z) : LayoutItem :=
  Item.mk w h x y i None None None None None (Some true) None None None None.

(** The rectangles of the resize scenario. *)
Definition scenarioCurrent : Position.t :=
  {| Position.left := 100; Position.top := 100;
     Position.width := 200; Position.height := 150 |}.

Definition scenarioProposed : Position.t :=
  {| Position.left := 80; Position.top := 80;
     Position.width := 220; Position.height := 170 |}.

(** Fields that neither [correctBounds] nor [compact] assigns. *)
Definition sameOtherFields (l l' : LayoutItem) : Prop :=
  Item.h l' = Item.h l /\ Item.i l' = Item.i l
  /\ Item.minW l' = Item.minW l /\ Item.maxW l' = Item.maxW l
  /\ Item.minH l' = Item.minH l /\ Item.maxH l' = Item.maxH l
  /\ Item.isDraggable l' = Item.isDraggable l
  /\ Item.isResizable l' = Item.isResizable l
  /\ Item.resizeHandles l' = Item.resizeHandles l
  /\ Item.isBounded l' = Item.isBounded l.

(** The item [l'] that [correctBounds] makes of [l]: the two horizontal
    corrections, applied in sequence, and for a static item a move down
    by a whole number of units. *)
Definition correctedItem (cols : Z) (l l' : LayoutItem) : Prop :=
  let x1 :=
    if Item.x l + Item.w l >? cols then cols - Item.w l else Item.x l in
  Item.x l' = (if x1 <? 0 then 0 else x1)
  /\ Item.w l' = (if x1 <? 0 then cols else Item.w l)
  /\ (if is_static l
      then exists n : nat, Item.y l' = Item.y l + Z.of_nat n
      else Item.y l' = Item.y l)
  /\ Item.static l' = Item.static l /\ Item.moved l' = Item.moved l
  /\ sameOtherFields l l'.

(** What the comparison array of [correctBounds] holds, beside the item
    itself, when the loop reaches index [k]: the items before [k], as
    the loop has left them, and the static items after [k], which the
    loop has not reached yet. *)
Definition obstacle (layout : Layout) (bounds : Bounds.t) (k j : nat)
    (c : LayoutItem) : Prop :=
  ((j < k)%nat /\ correctBounds layout bounds !! j = Some c)
  \/ ((k < j)%nat /\ layout !! j = Some c /\ is_static c = true).

(** A static item [l'] of the corrected layout, [l] before the
    correction, has been moved down one unit at a time for as long as
    it collided with an obstacle, and no longer. *)
Definition pushedClear (layout : Layout) (bounds : Bounds.t) (k : nat)
    (l l' : LayoutItem) : Prop :=
  (forall j c, obstacle layout bounds k j c -> collides c l' = false)
  /\ (forall y, Item.y l <= y < Item.y l' ->
        exists j c, obstacle layout bounds k j c
                    /\ collides c (Item.with_y y l') = true).

(** The item [l0] as [moveElement] has it once the target coordinates
    are assigned and the item is marked as moved. *)
Definition moveTarget (x y : option Z) (l0 : LayoutItem) : LayoutItem :=
  let l1 := match x with Some v => Item.with_x v l0 | None => l0 end in
  let l2 := match y with Some v => Item.with_y v l1 | None => l1 end in
  Item.with_moved true l2.

(** Some item of the layout collides with the item at its target. *)
Definition targetCollides (store : Store) (layout : list nat)
    (x y : option Z) (l0 : LayoutItem) : Prop :=
  exists a c, a ∈ layout /\ store !! a = Some c
              /\ collides c (moveTarget x y l0) = true.

(** The first guard of [moveElement]. *)
Definition pinned (l0 : LayoutItem) : bool :=
  is_static l0 && negb (is_true (Item.isDraggable l0)).

(** The second guard of [moveElement]. *)
Definition alreadyThere (x y : option Z) (l0 : LayoutItem) : bool :=
  strict_eq (Item.y l0) y && strict_eq (Item.x l0) x.

(** Two items side by side, the first one marked as moved. *)
Definition movedPair : Store :=
  [Item.with_moved true (plainItem "a" 0 0 1 1); plainItem "b" 1 0 1 1].

(** A static item next to an ordinary one. *)
Definition staticPair : Store :=
  [staticItem "s" 0 0 1 1; plainItem "b" 1 0 1 1].

(** Two ordinary items side by side. *)
Definition plainPair : Store :=
  [plainItem "a" 0 0 1 1; plainItem "b" 1 0 1 1].

(** [s'] has the objects of [s], each with at most its coordinate on
    [axis] changed, and the static ones unchanged. *)
Definition axisFrame (axis : Axis) (s s' : Layout) : Prop :=
  length s' = length s
  /\ forall k a, s !! k = Some a ->
       (exists v, s' !! k = Some (set_axis axis v a))
       /\ (is_static a = true -> s' !! k = Some a).

(** The compaction axis of a mode: x for horizontal, y otherwise. *)
Definition axisOf (compactType : CompactType) : Axis :=
  if isHorizontal compactType then AxisX else AxisY.

(** One turn of the second loop of [compactItem], as far as the item is
    concerned: [l] goes right after the collider [c] and, in horizontal
    mode, wraps to the next row when it overflows. *)
Definition advance (compareWith : Layout) (compactType : CompactType)
    (cols : Z) (l c : LayoutItem) : LayoutItem :=
  let axis := axisOf compactType in
  let l1 := set_axis axis (get_axis axis c + sizeProp axis c) l in
  if isHorizontal compactType && (Item.x l1 + Item.w l1 >? cols)
  then pullToOrigin AxisX compareWith
         (Item.with_y (Item.y l1 + 1) (Item.with_x (cols - Item.w l1) l1))
  else l1.

(** The positions the item goes through in that loop, from [l] to the
    one it leaves the loop with. *)
Inductive pushTrace (compareWith : Layout) (compactType : CompactType)
    (cols : Z) (allowOverlap : bool) : LayoutItem -> LayoutItem -> Prop :=
  | pushTrace_clear (l : LayoutItem) :
      getFirstCollision compareWith l = None ->
      pushTrace compareWith compactType cols allowOverlap l l
  | pushTrace_overlap (l : LayoutItem) :
      isNull compactType && allowOverlap = true ->
      pushTrace compareWith compactType cols allowOverlap l l
  | pushTrace_step (l c l' : LayoutItem) :
      getFirstCollision compareWith l = Some c ->
      isNull compactType && allowOverlap = false ->
      pushTrace compareWith compactType cols allowOverlap
        (advance compareWith compactType cols l c) l' ->
      pushTrace compareWith compactType cols allowOverlap l l'.

(** The first loop of [compactItem]. *)
Definition pulled (compareWith : Layout) (compactType : CompactType)
    (l : LayoutItem) : LayoutItem :=
  match compactType with
  | Vertical =>
      pullToOrigin AxisY compareWith
        (Item.with_y (Z.min (bottom compareWith) (Item.y l)) l)
  | Horizontal => pullToOrigin AxisX compareWith l
  | NoCompaction => l
  end.

(** The last two assignments of [compactItem]. *)
Definition clampOrigin (l : LayoutItem) : LayoutItem :=
  Item.with_x (Z.max (Item.x l) 0) (Item.with_y (Z.max (Item.y l) 0) l).

(** The item that [compact] puts in its output for the non-static item
    [a], given the comparison array. *)
Definition placement (compareWith : Layout) (compactType : CompactType)
    (cols : Z) (allowOverlap : bool) (a l' : LayoutItem) : Prop :=
  exists l2,
    pushTrace compareWith compactType cols allowOverlap
      (pulled compareWith compactType (cloneLayoutItem a)) l2
    /\ l' = Item.with_moved false (clampOrigin l2).

(** [r] is [l] at another position. *)
Definition movedTo (l r : LayoutItem) : Prop :=
  r = Item.with_x (Item.x r) (Item.with_y (Item.y r) l).

(** [o] is what [compact] may return for the input item [a]: the clone
    of [a], at some position, with the [moved] flag cleared. *)
Definition compactedFrom (a o : LayoutItem) : Prop :=
  o = Item.with_moved false
        (Item.with_x (Item.x o) (Item.with_y (Item.y o) (cloneLayoutItem a))).

(** The sorted array of [compact], as positions of the input and as
    items. *)
Definition sortedOrigins (layout : Layout) (compactType : CompactType)
  : list nat :=
  map fst (sortLayoutItems snd (withOrigins layout) compactType).

Definition sortedItems (layout : Layout) (compactType : CompactType)
  : Layout :=
  map snd (sortLayoutItems snd (withOrigins layout) compactType).

(** The invariant of the loop of [compact] that holds for every input:
    the objects of [sorted] only move along the compaction axis, and
    each slot of the output is a hole or holds the item of the input at
    that position, moved. *)
Definition frameInv (layout : Layout) (compactType : CompactType)
    (j : nat) (st : CompactState) : Prop :=
  length (cs_out st) = length layout
  /\ axisFrame (axisOf compactType) (sortedItems layout compactType)
       (cs_sorted st)
  /\ (forall k e, cs_out st !! k = Some e ->
        e = None
        \/ exists o a, e = Some o /\ layout !! k = Some a
                       /\ compactedFrom a o)
  /\ (forall j' k, (j' < j)%nat ->
        sortedOrigins layout compactType !! j' = Some k ->
        exists o, cs_out st !! k = Some (Some o)).

(** An item in the positive quadrant, with sizes that are not
    negative, and, in horizontal mode, no wider than the grid. *)
Definition wellFormed (compactType : CompactType) (cols : Z)
    (a : LayoutItem) : Prop :=
  0 <= Item.x a /\ 0 <= Item.y a /\ 0 <= Item.w a /\ 0 <= Item.h a
  /\ (isHorizontal compactType = true -> Item.w a <= cols).

(** [l] sits immediately after [c] along [axis] and overlaps it on the
    other axis. *)
Definition supports (axis : Axis) (c l : LayoutItem) : Prop :=
  Item.i c <> Item.i l
  /\ get_axis axis c + sizeProp axis c = get_axis axis l
  /\ match axis with
     | AxisX =>
         Item.y l < Item.y c + Item.h c /\ Item.y c < Item.y l + Item.h l
     | AxisY =>
         Item.x l < Item.x c + Item.w c /\ Item.x c < Item.x l + Item.w l
     end.

(** [l] is at the origin of the axis, or collides with an item of the
    comparison array, or sits right after one. *)
Definition held (compareWith : Layout) (axis : Axis) (l : LayoutItem)
  : Prop :=
  get_axis axis l <= 0
  \/ is_Some (getFirstCollision compareWith l)
  \/ exists c, c ∈ compareWith /\ supports axis c l.

(** What the loop of [compact] guarantees of an item [o] it has placed,
    [compareWith] being the comparison array. *)
Definition goodPlaced (compareWith : Layout) (compactType : CompactType)
    (cols : Z) (allowOverlap : bool) (o : LayoutItem) : Prop :=
  is_static o = false
  /\ wellFormed compactType cols o
  /\ (isHorizontal compactType = true -> Item.x o + Item.w o <= cols)
  /\ (isNull compactType && allowOverlap = false ->
      forall c, c ∈ compareWith -> collides c o = false)
  /\ (isNull compactType = false ->
      get_axis (axisOf compactType) o = 0
      \/ exists c, c ∈ compareWith /\ supports (axisOf compactType) c o).

(** The invariant of the loop of [compact] on well-formed input: the
    comparison array is the static items followed by the items placed
    so far, each of them well placed, and every filled slot of the
    output holds a placed item or the clone of a static item. *)
Definition placedInv (layout : Layout) (compactType : CompactType)
    (cols : Z) (allowOverlap : bool) (j : nat) (st : CompactState) : Prop :=
  Forall (wellFormed compactType cols) (cs_sorted st)
  /\ exists placed,
       cs_compareWith st = getStatics layout ++ placed
       /\ Forall (goodPlaced (cs_compareWith st) compactType cols
                    allowOverlap) placed
       /\ (forall k o, cs_out st !! k = Some (Some o) ->
             (is_static o = false /\ o ∈ placed)
             \/ (exists a, layout !! k = Some a /\ is_static a = true
                           /\ o = Item.with_moved false (cloneLayoutItem a)))
       /\ (forall o, o ∈ placed ->
             exists j' k,
               (j' < j)%nat
               /\ sortedOrigins layout compactType !! j' = Some k
               /\ cs_out st !! k = Some (Some o)).

Definition passInv (layout : Layout) (compactType : CompactType)
    (cols : Z) (allowOverlap : bool) (j : nat) (st : CompactState) : Prop :=
  frameInv layout compactType j st
  /\ placedInv layout compactType cols allowOverlap j st.

(** The layout of the counterexample to the absence of collisions: the
    second item starts left of the grid. *)
Definition leftOfGrid : Layout :=
  [plainItem "a" 0 0 1 1; plainItem "b" (-1) 1 1 1].

(** The scan of [resolveCompactionCollision] as its comment and the
    specification describe it: it stops at the first later item that
    starts, on the axis of the push, beyond the far edge of [item] on
    that axis.  The code compares [y] and [h] whatever the axis. *)
Section ScanAlongAxis.
Variable recur : Layout -> nat -> Z -> option Layout.
Variable item : nat.
Variable moveToCoord : Z.
Variable axis : Axis.

Fixpoint scanLaterAlongAxis (count : nat) (i : nat) (store : Layout)
  : option Layout :=
  match count with
  | O => Some store
  | S count' =>
      match store !! i, store !! item with
      | Some otherItem, Some it =>
          if is_static otherItem then scanLaterAlongAxis count' (S i) store
          else if get_axis axis otherItem
                  >? get_axis axis it + sizeProp axis it
          then Some store
          else if collides it otherItem then
            match recur store i (moveToCoord + sizeProp axis it) with
            | Some store' => scanLaterAlongAxis count' (S i) store'
            | None => None
            end
          else scanLaterAlongAxis count' (S i) store
      | _, _ => Some store
      end
  end.
End ScanAlongAxis.

Fixpoint resolveAlongAxis (fuel : nat) (n : nat)
    (store : Layout) (item : nat) (moveToCoord : Z) (axis : Axis)
  : option Layout :=
  match fuel with
  | O => None
  | S fuel' =>
      let store1 :=
        alter (fun l => set_axis axis (get_axis axis l + 1) l) item store in
      match store1 !! item with
      | None => Some store1
      | Some it =>
          let itemIndex := indexOf (map Item.i (take n store1)) (Item.i it) in
          let start := Z.to_nat (itemIndex + 1) in
          match scanLaterAlongAxis
                  (fun s k mv => resolveAlongAxis fuel' n s k mv axis)
                  item moveToCoord axis (n - start) start store1 with
          | None => None
          | Some store2 => Some (alter (set_axis axis moveToCoord) item store2)
          end
      end
  end.

(** A layout sorted by column then row, as [compact] has it in
    horizontal mode when the first item has just collided with a static
    item "s" at (1, 1): "b" is far below "a", "c" is next to it. *)
Definition sortedByColumn : Layout :=
  [plainItem "a" 0 0 2 2; plainItem "b" 0 5 1 1; plainItem "c" 1 0 1 1;
   staticItem "s" 1 1 1 1].

(** The order of the sort of a mode: by the coordinate on the
    compaction axis, then by the other coordinate. *)
Definition sortOrder (compactType : CompactType) (u v : LayoutItem) : Prop :=
  match compactType with
  | Horizontal =>
      Item.x u < Item.x v \/ (Item.x u = Item.x v /\ Item.y u <= Item.y v)
  | _ =>
      Item.y u < Item.y v \/ (Item.y u = Item.y v /\ Item.x u <= Item.x v)
  end.

(** An item as [compact] returns it: cloning it and clearing its
    [moved] flag changes nothing. *)
Definition normal (a : LayoutItem) : Prop :=
  Item.with_moved false (cloneLayoutItem a) = a.

(** A layout as [compact] leaves well-formed input with sizes of at
    least one unit. *)
Definition settled (compactType : CompactType) (cols : Z)
    (allowOverlap : bool) (L : Layout) : Prop :=
  NoDup (map Item.i L)
  /\ Forall normal L
  /\ Forall (fun a => 1 <= Item.w a /\ 1 <= Item.h a) L
  /\ (forall a, a ∈ L -> is_static a = false ->
        0 <= Item.x a /\ 0 <= Item.y a
        /\ (isHorizontal compactType = true -> Item.x a + Item.w a <= cols))
  /\ (isNull compactType && allowOverlap = false ->
      forall a b, a ∈ L -> b ∈ L -> is_static b = false ->
                  collides a b = false)
  /\ (isNull compactType = false ->
      forall l, l ∈ L -> is_static l = false ->
        get_axis (axisOf compactType) l = 0
        \/ exists c, c ∈ L /\ supports (axisOf compactType) c l).

(** The layout of the counterexample to idempotence, compacted once and
    twice. *)
Definition leftOfGridOnce : Layout :=
  [Item.with_moved false (cloneLayoutItem (plainItem "a" 0 0 1 1));
   Item.with_moved false (cloneLayoutItem (plainItem "b" 0 0 1 1))].

Definition leftOfGridTwice : Layout :=
  [Item.with_moved false (cloneLayoutItem (plainItem "a" 0 0 1 1));
   Item.with_moved false (cloneLayoutItem (plainItem "b" 0 1 1 1))].

(** The state of the loop of [compact] on a settled layout, before turn
    [j]: nothing has moved. *)
Definition resettledInv (L : Layout) (compactType : CompactType)
    (j : nat) (st : CompactState) : Prop :=
  cs_sorted st = sortedItems L compactType
  /\ cs_compareWith st
     = getStatics L
       ++ filter (fun a => is_static a = false)
            (take j (sortedItems L compactType))
  /\ length (cs_out st) = length L
  /\ (forall k e, cs_out st !! k = Some e -> e = None \/ e = L !! k)
  /\ (forall j' k, (j' < j)%nat ->
        sortedOrigins L compactType !! j' = Some k ->
        cs_out st !! k = Some (L !! k)).

(** Layouts on which a second compaction still moves an item although
    no coordinate is negative: one with items of height or width zero,
    one with an item wider than the two columns of the grid. *)
Definition withEmptyItems : Layout :=
  [plainItem "a" 1 2 2 0; staticItem "s" 2 1 0 2; plainItem "b" 0 3 2 2].

Definition widerThanGrid : Layout :=
  [staticItem "s" 2 2 3 3; plainItem "a" 0 3 4 3].

Definition positions (out : option (list (option LayoutItem)))
  : option (list (option (Z * Z))) :=
  fmap (M := option)
    (fmap (M := list) (fmap (M := option) (fun o => (Item.x o, Item.y o))))
    out.

(** What [compact] puts in its output for the input item [a]: the
    clone of a static item, and for another item a placement of the
    item as it is when its turn comes, that is, possibly pushed along
    the compaction axis by the items compacted before it. *)
Definition slotSpec (compactType : CompactType) (cols : Z)
    (allowOverlap : bool) (a o : LayoutItem) : Prop :=
  if is_static a then o = Item.with_moved false (cloneLayoutItem a)
  else exists compareWith v,
         placement compareWith compactType cols allowOverlap
           (set_axis (axisOf compactType) v a) o.

Definition slotInv (layout : Layout) (compactType : CompactType)
    (cols : Z) (allowOverlap : bool) (j : nat) (st : CompactState) : Prop :=
  frameInv layout compactType j st
  /\ forall k a o, layout !! k = Some a ->
       cs_out st !! k = Some (Some o) ->
       slotSpec compactType cols allowOverlap a o.

(** A static item between two others, for the examples. *)
Definition aroundStatic : Layout :=
  [plainItem "a" 0 4 2 1; staticItem "s" 0 2 2 1; plainItem "b" 1 9 2 2].

(** What [compact] returns for an item when there is no compaction mode
    and overlap is allowed. *)
Definition keptInPlace (a : LayoutItem) : LayoutItem :=
  Item.with_moved false
    (if is_static a then cloneLayoutItem a
     else clampOrigin (cloneLayoutItem a)).

Definition overlapInv (layout : Layout) (j : nat) (st : CompactState)
  : Prop :=
  cs_sorted st = layout
  /\ forall k a o, layout !! k = Some a ->
       cs_out st !! k = Some (Some o) -> o = keptInPlace a.

(** [a'] is [a] with at most [x], [y] and [moved] changed. *)
Definition sameButPosition (a a' : LayoutItem) : Prop :=
  Item.w a' = Item.w a /\ Item.h a' = Item.h a /\ Item.i a' = Item.i a
  /\ Item.static a' = Item.static a
  /\ Item.isDraggable a' = Item.isDraggable a
  /\ sameOtherFields a a'.

(** What the move engine may do to the objects of a store: it may add
    objects, and change the position and the [moved] flag of an object
    that is not pinned. *)
Definition moveFrame (s s' : Store) : Prop :=
  (length s <= length s')%nat
  /\ forall k a, s !! k = Some a ->
       exists a', s' !! k = Some a'
                  /\ sameButPosition a a'
                  /\ (pinned a = true -> a' = a).

(** Three items in a column, for the examples of the move engine. *)
Definition column : Store :=
  [plainItem "a" 0 0 2 2; plainItem "b" 0 2 2 2; staticItem "s" 0 4 2 1].

(** What a call of the move engine on [layout] and [s] guarantees of
    its result: the objects are changed within [moveFrame], and the
    array returned holds the addresses of [layout], in some order, when
    these are addresses of objects. *)
Definition moveOk (layout : list nat) (s : Store)
    (result : option (list nat * Store)) : Prop :=
  forall r s', result = Some (r, s') ->
    moveFrame s s'
    /\ (Forall (fun a => is_Some (s !! a)) layout -> r ≡ₚ layout).

(** An item with numbers for its four coordinates. *)
Definition numericItem (item : JsValue) : Prop :=
  Forall (fun prop => exists n, getProp item prop = Some (JsNumber n))
         subProps.

(** The first of the four properties that is not a number. *)
Definition firstBadProp (item : JsValue) : option string :=
  head (filter (fun prop => match getProp item prop with
                            | Some v => isNumber v
                            | None => false
                            end = false)
               subProps).

(** An array whose second item has a string for its width. *)
Definition stringWidth : list JsValue :=
  [JsObject [("x", JsNumber 0); ("y", JsNumber 0);
             ("w", JsNumber 1); ("h", JsNumber 1)]%string;
   JsObject [("x", JsNumber 0); ("y", JsNumber 1);
             ("w", JsString "2"); ("i", JsString "b")]%string].

(** Two items stacked at the top left, as [compact] returns them. *)
Definition stacked : Layout :=
  [Item.with_moved false (cloneLayoutItem (plainItem "a" 0 0 2 1));
   Item.with_moved false (cloneLayoutItem (plainItem "b" 1 1 2 2))].

(* ================================================================= *)
(** * Properties *)

(** ** Collision test *)

Lemma collides_iff (a b : LayoutItem) :
  collides a b = true <->
  Item.i a <> Item.i b
  /\ Item.x b < Item.x a + Item.w a /\ Item.x a < Item.x b + Item.w b
  /\ Item.y b < Item.y a + Item.h a /\ Item.y a < Item.y b + Item.h b.
Proof.
  unfold collides.
  destruct (String.eqb_spec (Item.i a) (Item.i b)) as [E | E].
  - split; [discriminate | tauto].
  - rewrite !Z.geb_leb.
    destruct (Item.x a + Item.w a <=? Item.x b) eqn:E1;
      [split; [discriminate | lia] |].
    destruct (Item.x b + Item.w b <=? Item.x a) eqn:E2;
      [split; [discriminate | lia] |].
    destruct (Item.y a + Item.h a <=? Item.y b) eqn:E3;
      [split; [discriminate | lia] |].
    destruct (Item.y b + Item.h b <=? Item.y a) eqn:E4;
      [split; [discriminate | lia] |].
    split; [intros _ | reflexivity].
    split; [exact E | lia].
Qed.

Lemma collides_same_id (a b : LayoutItem) :
  Item.i a = Item.i b -> collides a b = false.
Proof.
  intros E. unfold collides. rewrite E, String.eqb_refl. reflexivity.
Qed.

Lemma collides_sym (a b : LayoutItem) : collides a b = collides b a.
Proof.
  destruct (collides a b) eqn:E1, (collides b a) eqn:E2; try reflexivity.
  - apply collides_iff in E1.
    assert (collides b a = true) by (apply collides_iff; intuition congruence).
    congruence.
  - apply collides_iff in E2.
    assert (collides a b = true) by (apply collides_iff; intuition congruence).
    congruence.
Qed.

Lemma getFirstCollision_None (layout : Layout) (l : LayoutItem) :
  getFirstCollision layout l = None <->
  forall c, c ∈ layout -> collides c l = false.
Proof.
  induction layout as [| c rest IH]; simpl.
  - split; [intros _ c Hc; inversion Hc | reflexivity].
  - destruct (collides c l) eqn:E.
    + split; [discriminate |].
      intros H. specialize (H c (list_elem_of_here _ _)). congruence.
    + rewrite IH. split.
      * intros H c' Hc'. apply elem_of_cons in Hc' as [-> | Hc']; auto.
      * intros H c' Hc'. apply H. apply elem_of_cons. auto.
Qed.

Lemma getFirstCollision_Some (layout : Layout) (l c : LayoutItem) :
  getFirstCollision layout l = Some c -> c ∈ layout /\ collides c l = true.
Proof.
  induction layout as [| c' rest IH]; simpl; [discriminate |].
  destruct (collides c' l) eqn:E.
  - intros [= <-]. split; [apply list_elem_of_here | exact E].
  - intros H. destruct (IH H) as [H1 H2]. split; [| exact H2].
    apply elem_of_cons. auto.
Qed.

Lemma bottom_fold_ge (F : Z -> LayoutItem -> Z) (layout : Layout) (acc : Z) :
  (forall m l, F m l = if Item.y l + Item.h l >? m
                       then Item.y l + Item.h l else m) ->
  acc <= fold_left F layout acc
  /\ forall c, c ∈ layout -> Item.y c + Item.h c <= fold_left F layout acc.
Proof.
  intros HF. revert acc.
  induction layout as [| a rest IH]; intros acc; cbn [fold_left].
  - split; [lia | intros c Hc; inversion Hc].
  - destruct (IH (F acc a)) as [H1 H2]. rewrite HF in H1, H2 |- *.
    destruct (Z.gtb_spec (Item.y a + Item.h a) acc) as [Hgt | Hle].
    + split; [lia |].
      intros c Hc. apply elem_of_cons in Hc as [-> | Hc]; [lia | auto].
    + split; [lia |].
      intros c Hc. apply elem_of_cons in Hc as [-> | Hc]; [lia | auto].
Qed.

Lemma bottom_ge (layout : Layout) (c : LayoutItem) :
  c ∈ layout -> Item.y c + Item.h c <= bottom layout.
Proof. intros Hc. apply (bottom_fold_ge _ layout 0); [reflexivity | exact Hc]. Qed.

Lemma bottom_nonneg (layout : Layout) : 0 <= bottom layout.
Proof. apply (bottom_fold_ge _ layout 0). reflexivity. Qed.

Lemma elem_of_objects (store : Layout) (addrs : list nat) (c : LayoutItem) :
  c ∈ objects store addrs <-> exists a, a ∈ addrs /\ store !! a = Some c.
Proof. unfold objects. apply list_elem_of_omap. Qed.

(** ** Doubles: rounding to the nearest double and its error *)

Local Open Scope Q_scope.


Lemma pow2_pos (e : Z) : 0 < pow2 e.
Proof. apply Qpower_0_lt. reflexivity. Qed.

Lemma pow2_add (a b : Z) : pow2 (a + b) == pow2 a * pow2 b.
Proof. apply Qpower_plus. discriminate. Qed.

Lemma pow2_Z (n : Z) : (0 <= n)%Z -> pow2 n == inject_Z (2 ^ n).
Proof.
  intros H. unfold pow2. rewrite Zpower_Qpower by exact H. reflexivity.
Qed.

Lemma roundHalfEven_error (v : Q) :
  Qabs (inject_Z (roundHalfEven v) - v) <= 1 # 2.
Proof.
  unfold roundHalfEven.
  pose proof (Qfloor_le v) as Hlo. pose proof (Qlt_floor v) as Hhi.
  rewrite inject_Z_plus in Hhi. change (inject_Z 1) with 1 in Hhi.
  apply Qabs_Qle_condition.
  destruct (Qcompare_spec (v - inject_Z (Qfloor v)) (1 # 2)) as [E | E | E].
  - destruct (Z.even (Qfloor v)); rewrite ?inject_Z_plus;
      change (inject_Z 1) with 1; lra.
  - lra.
  - rewrite inject_Z_plus. change (inject_Z 1) with 1. lra.
Qed.

Lemma roundHalfEven_Z (v : Q) (z : Z) :
  v == inject_Z z -> roundHalfEven v = z.
Proof.
  intros E. unfold roundHalfEven.
  rewrite (Qfloor_comp _ _ E), Qfloor_Z.
  destruct (Qcompare_spec (v - inject_Z z) (1 # 2)) as [E' | E' | E'].
  - lra.
  - reflexivity.
  - lra.
Qed.

Lemma ilog2_le (q : Q) : ~ q == 0 -> pow2 (ilog2 q) <= Qabs q.
Proof.
  intros Hq. unfold ilog2.
  set (e0 := (Z.log2 (Z.abs (Qnum q)) - Z.log2 (Z.pos (Qden q)))%Z).
  destruct (Qle_bool (pow2 e0) (Qabs q)) eqn:E.
  - apply Qle_bool_iff. exact E.
  - clear E. destruct q as [n d]. unfold e0. cbn [Qnum Qden].
    assert (Hn : (0 < Z.abs n)%Z).
    { destruct n; [| reflexivity | reflexivity].
      exfalso. apply Hq. reflexivity. }
    destruct (Z.log2_spec (Z.abs n) Hn) as [Hln _].
    destruct (Z.log2_spec (Z.pos d) eq_refl) as [_ Hld].
    pose proof (Z.log2_nonneg (Z.abs n)) as Hln0.
    pose proof (Z.log2_nonneg (Z.pos d)) as Hld0.
    set (ln := Z.log2 (Z.abs n)) in *. set (ld := Z.log2 (Z.pos d)) in *.
    replace (ln - ld - 1)%Z with (ln + - (Z.succ ld))%Z by lia.
    rewrite pow2_add. unfold pow2 at 2. rewrite Qpower_opp.
    fold (pow2 (Z.succ ld)).
    rewrite !pow2_Z by lia.
    rewrite <- Zabs_Qabs, Qmake_Qdiv.
    assert (H1 : inject_Z (2 ^ ln) <= inject_Z (Z.abs n)).
    { rewrite <- Zle_Qle. exact Hln. }
    assert (H2 : inject_Z (Z.pos d) < inject_Z (2 ^ Z.succ ld)).
    { rewrite <- Zlt_Qlt. exact Hld. }
    assert (H3 : 0 < inject_Z (Z.pos d)).
    { change 0 with (inject_Z 0). rewrite <- Zlt_Qlt. reflexivity. }
    assert (H4 : 0 <= inject_Z (2 ^ ln)).
    { change 0 with (inject_Z 0). rewrite <- Zle_Qle. lia. }
    set (a := inject_Z (2 ^ ln)) in *.
    set (b := inject_Z (2 ^ Z.succ ld)) in *.
    set (c := inject_Z (Z.abs n)) in *.
    set (dd := inject_Z (Z.pos d)) in *.
    apply Qle_shift_div_r; [lra |].
    assert (Ht : c / dd * dd == c) by (field; lra).
    assert (Ht0 : 0 <= c / dd).
    { apply Qle_shift_div_l; [exact H3 | lra]. }
    set (t := c / dd) in *. nra.
Qed.

Lemma roundDouble_comp (q q' : Q) :
  q == q' -> roundDouble q = roundDouble q'.
Proof.
  intros E. unfold roundDouble. rewrite (Qred_complete _ _ E). reflexivity.
Qed.

Lemma no_overflow : pow2 1000 * (1 + unitRoundoff) + halfLeast < pow2 1024.
Proof. vm_compute. reflexivity. Qed.

Lemma halfLeast_nonneg : 0 <= halfLeast.
Proof. apply Qlt_le_weak. apply pow2_pos. Qed.

Lemma roundDouble_closeTo (q M : Q) :
  Qabs q <= M -> M <= pow2 1000 ->
  closeTo (roundDouble q) q (M * unitRoundoff + halfLeast).
Proof.
  intros HM Hbig.
  pose proof (Qabs_nonneg q) as Hq0.
  pose proof halfLeast_nonneg as Heta.
  assert (Hu : 0 < unitRoundoff) by reflexivity.
  assert (Herr0 : 0 <= M * unitRoundoff + halfLeast) by nra.
  unfold roundDouble.
  pose proof (Qred_correct q) as Hred. set (q' := Qred q) in *.
  destruct (Qeq_bool q' 0) eqn:Ez.
  { apply Qeq_bool_eq in Ez. split; [reflexivity |]. cbn [valueOf].
    rewrite <- Hred, Ez. exact Herr0. }
  apply Qeq_bool_neq in Ez.
  pose proof (ilog2_le q' Ez) as He. set (e := ilog2 q') in *.
  set (k := Z.max (e - 52) (-1074)).
  pose proof (pow2_pos k) as Hulp. set (ulp := pow2 k) in *.
  pose proof (roundHalfEven_error (q' / ulp)) as Hm.
  set (m := roundHalfEven (q' / ulp)) in *.
  assert (Hg : q' / ulp * ulp == q') by (field; lra).
  assert (Hr : Qabs (inject_Z m * ulp - q) <= ulp * (1 # 2)).
  { apply Qabs_Qle_condition. apply Qabs_Qle_condition in Hm.
    rewrite <- Hred. set (g := q' / ulp) in *. nra. }
  assert (Hhalf : ulp * (1 # 2) <= M * unitRoundoff + halfLeast).
  { unfold ulp, k. destruct (Z.max_spec (e - 52) (-1074)) as [[_ ->] | [Hk ->]].
    - assert (E : pow2 (-1074) * (1 # 2) == halfLeast)
        by (vm_compute; reflexivity).
      rewrite E. nra.
    - replace (e - 52)%Z with (e + -52)%Z by lia. rewrite pow2_add.
      assert (E : pow2 (-52) == 2 * unitRoundoff)
        by (vm_compute; reflexivity).
      rewrite E. rewrite Hred in He. nra. }
  assert (Hrabs : Qabs (inject_Z m * ulp) < pow2 1024).
  { eapply Qle_lt_trans; [| exact no_overflow].
    apply Qabs_Qle_condition. apply Qabs_Qle_condition in Hr.
    apply Qabs_Qle_condition in HM. nra. }
  destruct (Qle_bool (pow2 1024) (Qabs (inject_Z m * ulp))) eqn:Eo.
  { apply Qle_bool_iff in Eo. lra. }
  destruct (Z.eqb_spec m 0) as [Em | Em].
  - assert (Hv : Qabs (0 - q) <= M * unitRoundoff + halfLeast).
    { rewrite Em in Hr. change (inject_Z 0) with 0 in Hr.
      apply Qabs_Qle_condition. apply Qabs_Qle_condition in Hr. lra. }
    destruct (Qle_bool 0 q'); (split; [reflexivity | exact Hv]).
  - split; [reflexivity |]. cbn [valueOf]. rewrite Qred_correct.
    lra.
Qed.

Lemma Qred_inject_Z (n : Z) : Qred (inject_Z n) = inject_Z n.
Proof.
  unfold Qred, inject_Z.
  pose proof (Z.ggcd_gcd n 1) as Hg.
  pose proof (Z.ggcd_correct_divisors n 1) as Hd.
  destruct (Z.ggcd n 1) as [g [aa bb]]. cbn [fst] in Hg.
  rewrite Z.gcd_1_r in Hg. subst g. destruct Hd as [Ha Hb].
  rewrite Z.mul_1_l in Ha, Hb. subst aa bb. reflexivity.
Qed.

Lemma ilog2_inject_Z (n : Z) :
  n <> 0%Z -> ilog2 (inject_Z n) = Z.log2 (Z.abs n).
Proof.
  intros Hn. unfold ilog2. cbv zeta. cbn [inject_Z Qnum Qden].
  change (Z.log2 1) with 0%Z. rewrite Z.sub_0_r.
  assert (H : pow2 (Z.log2 (Z.abs n)) <= Qabs (n # 1)).
  { rewrite pow2_Z by apply Z.log2_nonneg.
    rewrite <- Zabs_Qabs. change (Z.abs n # 1) with (inject_Z (Z.abs n)).
    rewrite <- Zle_Qle. apply Z.log2_spec. lia. }
  apply Qle_bool_iff in H. change (n # 1) with (inject_Z n) in H.
  rewrite H. reflexivity.
Qed.

(** Integers below [2 ^ 53] in magnitude are doubles. *)
Lemma roundDouble_int (n : Z) :
  (Z.abs n < 2 ^ 53)%Z -> roundDouble (inject_Z n) = ofZ n.
Proof.
  intros Hn. destruct (Z.eq_dec n 0%Z) as [-> | Hn0]; [reflexivity |].
  unfold roundDouble. rewrite Qred_inject_Z.
  assert (Ez : Qeq_bool (inject_Z n) 0 = false).
  { destruct (Qeq_bool (inject_Z n) 0) eqn:E; [| reflexivity].
    apply Qeq_bool_eq in E.
    exfalso. apply Hn0. apply inject_Z_injective. exact E. }
  rewrite Ez, (ilog2_inject_Z n Hn0).
  set (e := Z.log2 (Z.abs n)).
  assert (He : (0 <= e < 53)%Z).
  { split; [apply Z.log2_nonneg |]. apply Z.log2_lt_pow2; lia. }
  rewrite Z.max_l by lia.
  assert (Hdiv : inject_Z n / pow2 (e - 52) == inject_Z (n * 2 ^ (52 - e))).
  { rewrite inject_Z_mult, <- pow2_Z by lia.
    replace (52 - e)%Z with (- (e - 52))%Z by lia.
    unfold pow2. rewrite Qpower_opp. reflexivity. }
  rewrite (roundHalfEven_Z _ _ Hdiv).
  assert (Hr : inject_Z (n * 2 ^ (52 - e)) * pow2 (e - 52) == inject_Z n).
  { rewrite <- Hdiv. field. pose proof (pow2_pos (e - 52)). lra. }
  assert (Ho : Qle_bool (pow2 1024) (Qabs (inject_Z (n * 2 ^ (52 - e))
                                           * pow2 (e - 52))) = false).
  { destruct (Qle_bool _ _) eqn:E; [| reflexivity].
    apply Qle_bool_iff in E. rewrite Hr in E.
    change (inject_Z n) with (n # 1) in E. rewrite <- Zabs_Qabs in E.
    change (Z.abs n # 1) with (inject_Z (Z.abs n)) in E.
    assert (H53 : inject_Z (Z.abs n) < inject_Z (2 ^ 53)).
    { rewrite <- Zlt_Qlt. exact Hn. }
    assert (Hc : inject_Z (2 ^ 53) < pow2 1024) by (vm_compute; reflexivity).
    lra. }
  rewrite Ho.
  assert (Hm : (n * 2 ^ (52 - e) =? 0)%Z = false).
  { apply Z.eqb_neq. apply Z.neq_mul_0. split; [exact Hn0 |].
    apply Z.pow_nonzero; lia. }
  rewrite Hm. unfold ofZ. f_equal.
  rewrite (Qred_complete _ _ Hr). apply Qred_inject_Z.
Qed.

Lemma closeTo_comp (a : Number) (v v' err : Q) :
  closeTo a v err -> v == v' -> closeTo a v' err.
Proof. intros [Hf He] E. split; [exact Hf | rewrite <- E; exact He]. Qed.

Lemma closeTo_ofZ (n : Z) : closeTo (ofZ n) (inject_Z n) 0.
Proof.
  split; [reflexivity |]. cbn [ofZ valueOf].
  apply Qabs_Qle_condition. lra.
Qed.

Lemma integral_closeTo (a : Number) (n : Z) :
  integral a n -> closeTo a (inject_Z n) 0.
Proof.
  intros [-> | [-> ->]]; [apply closeTo_ofZ |].
  split; [reflexivity |]. cbn [valueOf]. change (inject_Z 0) with 0.
  apply Qabs_Qle_condition. lra.
Qed.

Lemma isZero_value (a : Number) :
  Number_isFinite a = true -> isZero a = Qeq_bool (valueOf a) 0.
Proof. destruct a; try discriminate; reflexivity. Qed.

Lemma valueOf_signedZero (negative : bool) : valueOf (signedZero negative) = 0.
Proof. destruct negative; reflexivity. Qed.

Lemma finite_signedZero (negative : bool) :
  Number_isFinite (signedZero negative) = true.
Proof. destruct negative; reflexivity. Qed.

(** The sum of two numbers known up to an error. *)
Lemma Number_add_closeTo (a b : Number) (va vb ea eb M : Q) :
  closeTo a va ea -> closeTo b vb eb ->
  Qabs (va + vb) + ea + eb <= M -> M <= pow2 1000 ->
  closeTo (Number_add a b) (va + vb) (ea + eb + (M * unitRoundoff + halfLeast)).
Proof.
  intros [Hfa Ha] [Hfb Hb] HM Hbig.
  pose proof halfLeast_nonneg as Heta.
  assert (Hu : 0 < unitRoundoff) by reflexivity.
  apply Qabs_Qle_condition in Ha. apply Qabs_Qle_condition in Hb.
  assert (Hsum : Qabs (valueOf a + valueOf b) <= M).
  { pose proof (Qabs_nonneg (va + vb)) as H0.
    assert (H1 : Qabs (va + vb) <= M - ea - eb) by lra.
    apply Qabs_Qle_condition in H1. apply Qabs_Qle_condition. lra. }
  pose proof (roundDouble_closeTo _ _ Hsum Hbig) as [Hf Hr].
  apply Qabs_Qle_condition in Hr.
  assert (Hgen : closeTo (roundDouble (valueOf a + valueOf b)) (va + vb)
                   (ea + eb + (M * unitRoundoff + halfLeast))).
  { split; [exact Hf |]. apply Qabs_Qle_condition. lra. }
  destruct a as [| | | qa]; try discriminate;
    destruct b as [| | | qb]; try discriminate; exact Hgen.
Qed.

Lemma Number_neg_closeTo (a : Number) (va ea : Q) :
  closeTo a va ea -> closeTo (Number_neg a) (- va) ea.
Proof.
  intros [Hf Ha]. apply Qabs_Qle_condition in Ha.
  destruct a as [| | | q]; try discriminate; cbn [Number_neg valueOf] in *.
  - split; [reflexivity |]. apply Qabs_Qle_condition. cbn [valueOf]. lra.
  - destruct (Qeq_bool q 0) eqn:E.
    + apply Qeq_bool_eq in E. split; [reflexivity |].
      apply Qabs_Qle_condition. cbn [valueOf]. lra.
    + split; [reflexivity |]. apply Qabs_Qle_condition. cbn [valueOf]. lra.
Qed.

Lemma Number_sub_closeTo (a b : Number) (va vb ea eb M : Q) :
  closeTo a va ea -> closeTo b vb eb ->
  Qabs (va - vb) + ea + eb <= M -> M <= pow2 1000 ->
  closeTo (Number_sub a b) (va - vb) (ea + eb + (M * unitRoundoff + halfLeast)).
Proof.
  intros Ha Hb HM Hbig. unfold Number_sub.
  apply (Number_add_closeTo a (Number_neg b) va (- vb) ea eb M);
    [exact Ha | apply Number_neg_closeTo; exact Hb | exact HM | exact Hbig].
Qed.

Lemma closeTo_exact (a : Number) (v : Q) : closeTo a v 0 -> valueOf a == v.
Proof.
  intros [_ H]. apply Qabs_Qle_condition in H. lra.
Qed.

Lemma Number_mul_finite (a b : Number) :
  Number_isFinite a = true -> Number_isFinite b = true ->
  Number_mul a b
  = if isZero a || isZero b
    then signedZero (xorb (isNegative a) (isNegative b))
    else roundDouble (valueOf a * valueOf b).
Proof.
  destruct a; try discriminate; destruct b; try discriminate; reflexivity.
Qed.

Lemma Number_div_finite (a b : Number) :
  Number_isFinite a = true -> Number_isFinite b = true ->
  isZero b = false ->
  Number_div a b
  = if isZero a
    then signedZero (xorb (isNegative a) (isNegative b))
    else roundDouble (valueOf a / valueOf b).
Proof.
  destruct a; try discriminate; destruct b; try discriminate;
    cbn [isZero]; try discriminate; intros _ _ E;
    cbn [Number_div isInfinite isZero]; rewrite ?E; reflexivity.
Qed.

(** The product of two numbers known exactly. *)
Lemma Number_mul_closeTo (a b : Number) (va vb M : Q) :
  closeTo a va 0 -> closeTo b vb 0 ->
  Qabs (va * vb) <= M -> M <= pow2 1000 ->
  closeTo (Number_mul a b) (va * vb) (M * unitRoundoff + halfLeast).
Proof.
  intros Ha Hb HM Hbig.
  pose proof (closeTo_exact _ _ Ha) as Eva.
  pose proof (closeTo_exact _ _ Hb) as Evb.
  destruct Ha as [Hfa _], Hb as [Hfb _].
  pose proof halfLeast_nonneg as Heta.
  assert (Hu : 0 < unitRoundoff) by reflexivity.
  pose proof (Qabs_nonneg (va * vb)) as H0.
  rewrite (Number_mul_finite a b Hfa Hfb).
  rewrite (isZero_value a Hfa), (isZero_value b Hfb).
  destruct (Qeq_bool (valueOf a) 0 || Qeq_bool (valueOf b) 0) eqn:Ez.
  - split; [apply finite_signedZero |]. rewrite valueOf_signedZero.
    assert (E : va * vb == 0).
    { apply orb_true_iff in Ez as [E | E]; apply Qeq_bool_eq in E;
        rewrite <- Eva, <- Evb, E; ring. }
    rewrite E. apply Qabs_Qle_condition. nra.
  - assert (E : valueOf a * valueOf b == va * vb)
      by (rewrite Eva, Evb; reflexivity).
    rewrite (roundDouble_comp _ _ E).
    apply roundDouble_closeTo; assumption.
Qed.

(** The quotient of a number known up to an error by a positive number
    known exactly. *)
Lemma Number_div_closeTo (a b : Number) (va vb ea K M : Q) :
  closeTo a va ea -> closeTo b vb 0 -> 0 < vb ->
  ea <= K * vb -> Qabs va + ea <= M * vb -> M <= pow2 1000 ->
  closeTo (Number_div a b) (va / vb) (K + (M * unitRoundoff + halfLeast)).
Proof.
  intros [Hfa Ha] Hb Hpos HK HM Hbig.
  pose proof (closeTo_exact _ _ Hb) as Evb. destruct Hb as [Hfb _].
  pose proof halfLeast_nonneg as Heta.
  assert (Hu : 0 < unitRoundoff) by reflexivity.
  assert (Hzb : isZero b = false).
  { rewrite (isZero_value b Hfb).
    destruct (Qeq_bool (valueOf b) 0) eqn:E; [| reflexivity].
    apply Qeq_bool_eq in E. lra. }
  rewrite (Number_div_finite a b Hfa Hfb Hzb).
  rewrite (isZero_value a Hfa).
  apply Qabs_Qle_condition in Ha.
  assert (Hva : Qabs va <= M * vb - ea) by lra.
  apply Qabs_Qle_condition in Hva.
  assert (Hg : va / vb * vb == va) by (field; lra).
  set (g := va / vb) in *.
  assert (HM0 : 0 <= M).
  { pose proof (Qabs_nonneg va). nra. }
  destruct (Qeq_bool (valueOf a) 0) eqn:Ez.
  - apply Qeq_bool_eq in Ez. split; [apply finite_signedZero |].
    rewrite valueOf_signedZero. apply Qabs_Qle_condition. nra.
  - assert (E : valueOf a / valueOf b == valueOf a / vb)
      by (rewrite Evb; reflexivity).
    rewrite (roundDouble_comp _ _ E).
    assert (Hh : valueOf a / vb * vb == valueOf a) by (field; lra).
    set (h := valueOf a / vb) in *.
    assert (Hq : Qabs h <= M).
    { apply Qabs_Qle_condition. nra. }
    destruct (roundDouble_closeTo h M Hq Hbig) as [Hf Hr].
    split; [exact Hf |].
    apply Qabs_Qle_condition in Hr. apply Qabs_Qle_condition. nra.
Qed.

Lemma Qfloor_unique (q : Q) (z : Z) :
  inject_Z z <= q -> q < inject_Z z + 1 -> Qfloor q = z.
Proof.
  intros Hlo Hhi.
  pose proof (Qfloor_le q) as H1. pose proof (Qlt_floor q) as H2.
  rewrite inject_Z_plus in H2. change (inject_Z 1) with 1 in H2.
  assert (H3 : inject_Z (Qfloor q) < inject_Z (z + 1)).
  { rewrite inject_Z_plus. change (inject_Z 1) with 1. lra. }
  assert (H4 : inject_Z z < inject_Z (Qfloor q + 1)).
  { rewrite inject_Z_plus. change (inject_Z 1) with 1. lra. }
  rewrite <- Zlt_Qlt in H3, H4. lia.
Qed.

Lemma Math_round_Fin (q : Q) :
  integral (Math_round (Fin q)) (Qfloor (q + (1 # 2))).
Proof.
  cbn [Math_round].
  destruct (Z.eqb_spec (Qfloor (q + (1 # 2))) 0) as [E | E]; cbn [andb].
  - destruct (negb (Qle_bool 0 q)); [right; auto | left; reflexivity].
  - left. reflexivity.
Qed.

(** [Math.round] of a number that is known to be within half a unit of
    the integer [z]. *)
Lemma Math_round_closeTo (a : Number) (va ea : Q) (z : Z) :
  closeTo a va ea ->
  inject_Z z - (1 # 2) + ea <= va -> va + ea < inject_Z z + (1 # 2) ->
  integral (Math_round a) z.
Proof.
  intros [Hf Ha] Hlo Hhi. apply Qabs_Qle_condition in Ha.
  destruct a as [| | | q]; try discriminate; cbn [valueOf] in Ha.
  - right. split; [| reflexivity].
    assert (H1 : inject_Z z < inject_Z 1) by (change (inject_Z 1) with 1; lra).
    assert (H2 : inject_Z (-1) < inject_Z z)
      by (change (inject_Z (-1)) with (-1 # 1); lra).
    rewrite <- Zlt_Qlt in H1, H2. lia.
  - rewrite <- (Qfloor_unique (q + (1 # 2)) z) by lra. apply Math_round_Fin.
Qed.

(** [Math.round] of a finite number is an integer within half a unit. *)
Lemma Math_round_finite (a : Number) :
  Number_isFinite a = true ->
  exists n, integral (Math_round a) n
            /\ inject_Z n - (1 # 2) <= valueOf a
            /\ valueOf a < inject_Z n + (1 # 2).
Proof.
  intros Hf. destruct a as [| | | q]; try discriminate.
  - exists 0%Z. split; [right; auto |]. cbn.
    split; [discriminate | reflexivity].
  - exists (Qfloor (q + (1 # 2))). split; [apply Math_round_Fin |].
    pose proof (Qfloor_le (q + (1 # 2))) as H1.
    pose proof (Qlt_floor (q + (1 # 2))) as H2.
    rewrite inject_Z_plus in H2. change (inject_Z 1) with 1 in H2.
    cbn [valueOf]. lra.
Qed.

Lemma Number_sub_ofZ (c w : Z) :
  (Z.abs (c - w) < 2 ^ 53)%Z ->
  Number_sub (ofZ c) (ofZ w) = ofZ (c - w).
Proof.
  intros H. rewrite <- (roundDouble_int _ H).
  unfold Number_sub, ofZ, Number_neg.
  destruct (Qeq_bool (inject_Z w) 0) eqn:E; cbn [Number_add valueOf];
    apply roundDouble_comp.
  - apply Qeq_bool_eq in E. unfold Zminus.
    rewrite inject_Z_plus, inject_Z_opp, E.
    ring.
  - unfold Zminus. rewrite inject_Z_plus, inject_Z_opp. reflexivity.
Qed.

Lemma Number_sub_Infinity (h : Z) :
  Number_sub (Infinity false) (ofZ h) = Infinity false.
Proof.
  unfold Number_sub, ofZ, Number_neg.
  destruct (Qeq_bool (inject_Z h) 0); reflexivity.
Qed.

Lemma Qeq_bool_false (a b : Q) : ~ a == b -> Qeq_bool a b = false.
Proof.
  intros H. destruct (Qeq_bool a b) eqn:E; [| reflexivity].
  apply Qeq_bool_eq in E. contradiction.
Qed.

Lemma Qle_bool_false (a b : Q) : b < a -> Qle_bool a b = false.
Proof.
  intros H. destruct (Qle_bool a b) eqn:E; [| reflexivity].
  apply Qle_bool_iff in E. lra.
Qed.

Lemma Qle_bool_true (a b : Q) : a <= b -> Qle_bool a b = true.
Proof. apply Qle_bool_iff. Qed.

(** [clamp] leaves alone an integer between 0 and the upper bound, but
    for the sign of a zero. *)
Lemma clamp_integral (a : Number) (n : Z) (upperBound : Number) :
  integral a n -> (0 <= n)%Z ->
  upperBound = Infinity false
  \/ (Number_isFinite upperBound = true /\ inject_Z n <= valueOf upperBound) ->
  clamp a (ofZ 0) upperBound = ofZ n.
Proof.
  intros Ha Hn HU.
  assert (Hn' : 0 <= inject_Z n).
  { change 0 with (inject_Z 0). rewrite <- Zle_Qle. exact Hn. }
  assert (Hmax : forall b, integral b n -> Math_max b (ofZ 0) = ofZ n).
  { intros b [-> | [-> ->]]; [| reflexivity].
    unfold Math_max, ofZ, Number_below. cbn [valueOf isZero isNegative].
    change (inject_Z 0) with 0.
    destruct (Qeq_bool (inject_Z n) 0) eqn:E.
    - rewrite (Qle_bool_true 0 (inject_Z n) Hn'). cbn. reflexivity.
    - apply Qeq_bool_neq in E.
      rewrite Qle_bool_false; [reflexivity | lra]. }
  unfold clamp.
  destruct HU as [-> | [Hf HU]].
  - replace (Math_min a (Infinity false)) with a; [apply Hmax; exact Ha |].
    destruct Ha as [-> | [_ ->]]; reflexivity.
  - destruct upperBound as [| | | q]; try discriminate; cbn [valueOf] in HU.
    + (* the bound is -0 *)
      assert (n = 0%Z).
      { assert (H : inject_Z n <= inject_Z 0) by exact HU.
        rewrite <- Zle_Qle in H. lia. }
      subst n. destruct Ha as [-> | [_ ->]]; reflexivity.
    + destruct Ha as [-> | [-> ->]].
      * replace (Math_min (ofZ n) (Fin q)) with (ofZ n);
          [apply Hmax; left; reflexivity |].
        unfold Math_min, ofZ, Number_below. cbn [valueOf isZero isNegative].
        destruct (Qeq_bool q (inject_Z n)) eqn:E.
        -- apply Qeq_bool_eq in E.
           rewrite (Qle_bool_true 0 q) by lra. cbn [negb].
           rewrite ?andb_false_r. reflexivity.
        -- apply Qeq_bool_neq in E.
           rewrite Qle_bool_false; [reflexivity |].
           apply Qle_lteq in HU as [H | H]; [exact H |].
           exfalso. apply E. symmetry. exact H.
      * replace (Math_min NegZero (Fin q)) with NegZero; [reflexivity |].
        change (inject_Z 0) with 0 in HU.
        unfold Math_min, Number_below. cbn [valueOf isZero isNegative].
        destruct (Qeq_bool q 0) eqn:E.
        -- apply Qeq_bool_eq in E.
           rewrite (Qle_bool_true 0 q) by lra. cbn [negb].
           rewrite ?andb_false_r. reflexivity.
        -- apply Qeq_bool_neq in E.
           rewrite Qle_bool_false; [reflexivity |].
           apply Qle_lteq in HU as [H | H]; [exact H |].
           exfalso. apply E. symmetry. exact H.
Qed.

(** ** Doubles: the rounding is to a nearest double *)

Lemma ilog2_lt (q : Q) : Qabs q < pow2 (ilog2 q + 1).
Proof.
  unfold ilog2.
  set (e0 := (Z.log2 (Z.abs (Qnum q)) - Z.log2 (Z.pos (Qden q)))%Z).
  destruct (Qle_bool (pow2 e0) (Qabs q)) eqn:E.
  - clear E. destruct q as [n d]. unfold e0. cbn [Qnum Qden].
    destruct (Z.eq_dec n 0%Z) as [-> | Hn0].
    { assert (E : Qabs (0 # d) == 0) by reflexivity.
      rewrite E. apply pow2_pos. }
    assert (Hn : (0 < Z.abs n)%Z) by lia.
    destruct (Z.log2_spec (Z.abs n) Hn) as [_ Hln].
    destruct (Z.log2_spec (Z.pos d) eq_refl) as [Hld _].
    pose proof (Z.log2_nonneg (Z.abs n)) as Hln0.
    pose proof (Z.log2_nonneg (Z.pos d)) as Hld0.
    set (ln := Z.log2 (Z.abs n)) in *. set (ld := Z.log2 (Z.pos d)) in *.
    replace (ln - ld + 1)%Z with (Z.succ ln + - ld)%Z by lia.
    rewrite pow2_add. unfold pow2 at 2. rewrite Qpower_opp.
    fold (pow2 ld).
    rewrite !pow2_Z by lia.
    rewrite <- Zabs_Qabs, Qmake_Qdiv.
    assert (H1 : inject_Z (Z.abs n) < inject_Z (2 ^ Z.succ ln)).
    { rewrite <- Zlt_Qlt. exact Hln. }
    assert (H2 : inject_Z (2 ^ ld) <= inject_Z (Z.pos d)).
    { rewrite <- Zle_Qle. exact Hld. }
    assert (H3 : 0 < inject_Z (2 ^ ld)).
    { change 0 with (inject_Z 0). rewrite <- Zlt_Qlt.
      apply Z.pow_pos_nonneg; lia. }
    assert (H4 : 0 <= inject_Z (Z.abs n)).
    { change 0 with (inject_Z 0). rewrite <- Zle_Qle. lia. }
    set (a := inject_Z (Z.abs n)) in *.
    set (b := inject_Z (Z.pos d)) in *.
    set (c := inject_Z (2 ^ Z.succ ln)) in *.
    set (dd := inject_Z (2 ^ ld)) in *.
    apply Qlt_shift_div_r; [lra |].
    change (c * / dd) with (c / dd).
    assert (Ht : c / dd * dd == c) by (field; lra).
    assert (Ht0 : 0 < c / dd).
    { apply Qlt_shift_div_l; lra. }
    set (t := c / dd) in *. nra.
  - replace (e0 - 1 + 1)%Z with e0 by lia.
    destruct (Qlt_le_dec (Qabs q) (pow2 e0)) as [H | H]; [exact H |].
    apply Qle_bool_iff in H. congruence.
Qed.

(** [roundHalfEven] gives a nearest integer. *)
Lemma roundHalfEven_nearest (v : Q) (z : Z) :
  Qabs (inject_Z (roundHalfEven v) - v) <= Qabs (inject_Z z - v).
Proof.
  pose proof (roundHalfEven_error v) as Hm.
  set (m := roundHalfEven v) in *.
  destruct (Z.eq_dec z m) as [-> | Hne]; [lra |].
  apply Qabs_Qle_condition in Hm.
  assert (H : inject_Z z <= inject_Z m - 1 \/ inject_Z m + 1 <= inject_Z z).
  { destruct (Z_lt_le_dec z m) as [Hlt | Hge].
    - left. change 1 with (inject_Z 1). unfold Qminus.
      rewrite <- inject_Z_opp, <- inject_Z_plus, <- Zle_Qle. lia.
    - right. change 1 with (inject_Z 1).
      rewrite <- inject_Z_plus, <- Zle_Qle. lia. }
  eapply Qle_trans; [apply Qabs_Qle_condition; exact Hm |].
  destruct H as [H | H].
  - rewrite Qabs_neg by lra. lra.
  - rewrite Qabs_pos by lra. lra.
Qed.

Lemma pow2_le (a b : Z) : (a <= b)%Z -> pow2 a <= pow2 b.
Proof. intros H. apply Qpower_le_compat_l; [exact H | discriminate]. Qed.

Lemma Qabs_inject_Z (m : Z) : Qabs (inject_Z m) == inject_Z (Z.abs m).
Proof. unfold inject_Z. rewrite <- Zabs_Qabs. reflexivity. Qed.

(** The grid on which [roundDouble] rounds [q]: its spacing [ulp] and
    the integer [m] nearest to [q / ulp]. *)
Lemma roundDouble_grid (q : Q) :
  ~ q == 0 ->
  let k := Z.max (ilog2 q - 52) (-1074) in
  let m := roundHalfEven (q / pow2 k) in
  Qabs (q / pow2 k) < pow2 53
  /\ ((-1074 < k)%Z -> pow2 52 <= Qabs (q / pow2 k))
  /\ (Z.abs m <= 2 ^ 53)%Z
  /\ ((-1074 < k)%Z -> (2 ^ 52 <= Z.abs m)%Z).
Proof.
  intros Hq. cbv zeta.
  pose proof (ilog2_le q Hq) as Hlo. pose proof (ilog2_lt q) as Hhi.
  set (e := ilog2 q) in *. set (k := Z.max (e - 52) (-1074)).
  pose proof (pow2_pos k) as Hulp.
  assert (Hv : Qabs (q / pow2 k) == Qabs q / pow2 k).
  { unfold Qdiv. rewrite Qabs_Qmult, Qabs_Qinv.
    rewrite (Qabs_pos (pow2 k)) by lra. reflexivity. }
  assert (H1 : Qabs (q / pow2 k) < pow2 53).
  { rewrite Hv. apply Qlt_shift_div_r; [exact Hulp |].
    rewrite <- pow2_add.
    eapply Qlt_le_trans; [exact Hhi |]. apply pow2_le. lia. }
  assert (H2 : (-1074 < k)%Z -> pow2 52 <= Qabs (q / pow2 k)).
  { intros Hk. rewrite Hv. apply Qle_shift_div_l; [exact Hulp |].
    rewrite <- pow2_add. replace (52 + k)%Z with e by lia. exact Hlo. }
  pose proof (roundHalfEven_error (q / pow2 k)) as Hm.
  set (v := q / pow2 k) in *. set (m := roundHalfEven v) in *.
  assert (Hmv : Qabs (inject_Z m) <= Qabs v + (1 # 2)
                /\ Qabs v <= Qabs (inject_Z m) + (1 # 2)).
  { apply Qabs_Qle_condition in Hm.
    split; apply Qabs_Qle_condition;
      destruct (Qlt_le_dec v 0) as [Hn | Hp];
      destruct (Qlt_le_dec (inject_Z m) 0) as [Hn' | Hp'];
      rewrite ?(Qabs_neg v), ?(Qabs_pos v), ?(Qabs_neg (inject_Z m)),
        ?(Qabs_pos (inject_Z m)) by lra; lra. }
  rewrite Qabs_inject_Z in Hmv.
  assert (E53 : pow2 53 == inject_Z (2 ^ 53)) by (apply pow2_Z; lia).
  assert (E52 : pow2 52 == inject_Z (2 ^ 52)) by (apply pow2_Z; lia).
  split; [exact H1 |]. split; [exact H2 |]. split.
  - assert (H : inject_Z (Z.abs m) < inject_Z (2 ^ 53 + 1)).
    { rewrite inject_Z_plus, <- E53. change (inject_Z 1) with 1. lra. }
    rewrite <- Zlt_Qlt in H. lia.
  - intros Hk. specialize (H2 Hk).
    assert (H : inject_Z (2 ^ 52 - 1) < inject_Z (Z.abs m)).
    { unfold Zminus. rewrite inject_Z_plus, <- E52.
      change (inject_Z (- (1))) with (- (1)). lra. }
    rewrite <- Zlt_Qlt in H. lia.
Qed.

Lemma grid_point_nearest (q : Q) (k z : Z) :
  Qabs (inject_Z (roundHalfEven (q / pow2 k)) * pow2 k - q)
  <= Qabs (inject_Z z * pow2 k - q).
Proof.
  pose proof (pow2_pos k) as Hulp.
  pose proof (roundHalfEven_nearest (q / pow2 k) z) as H.
  assert (E : forall a, a * pow2 k - q == (a - q / pow2 k) * pow2 k).
  { intros a. field. lra. }
  rewrite !E, !Qabs_Qmult, (Qabs_pos (pow2 k)) by lra.
  apply Qmult_le_compat_r; [exact H | lra].
Qed.

(** No double is nearer to [q] than the grid point that [roundDouble]
    picks. *)
Lemma grid_nearest (q d : Q) :
  ~ q == 0 -> isDouble d ->
  let k := Z.max (ilog2 q - 52) (-1074) in
  Qabs (inject_Z (roundHalfEven (q / pow2 k)) * pow2 k - q) <= Qabs (d - q).
Proof.
  intros Hq (md & ed & Hmd & Hed & Ed). cbv zeta.
  destruct (roundDouble_grid q Hq) as (_ & Hlo & _). cbv zeta in Hlo.
  set (k := Z.max (ilog2 q - 52) (-1074)) in *.
  pose proof (pow2_pos k) as Hulp.
  destruct (Z_le_gt_dec k ed) as [Hge | Hlt].
  - (* the double is on the grid *)
    assert (E : d == inject_Z (md * 2 ^ (ed - k)) * pow2 k).
    { rewrite Ed, inject_Z_mult, <- pow2_Z by lia.
      rewrite <- Qmult_assoc, <- pow2_add.
      replace (ed - k + k)%Z with ed by lia. reflexivity. }
    rewrite E. apply grid_point_nearest.
  - (* the double is below the least grid point of the binade *)
    assert (Hk : (-1074 < k)%Z) by lia. specialize (Hlo Hk).
    assert (Hqa : pow2 52 * pow2 k <= Qabs q).
    { assert (Hv : Qabs (q / pow2 k) == Qabs q / pow2 k).
      { unfold Qdiv. rewrite Qabs_Qmult, Qabs_Qinv.
        rewrite (Qabs_pos (pow2 k)) by lra. reflexivity. }
      rewrite Hv in Hlo.
      assert (Ht : Qabs q / pow2 k * pow2 k == Qabs q) by (field; lra).
      set (t := Qabs q / pow2 k) in *.
      pose proof (pow2_pos 52). nra. }
    assert (Hda : Qabs d < pow2 52 * pow2 k).
    { rewrite Ed, Qabs_Qmult, Qabs_inject_Z.
      pose proof (pow2_pos ed) as Hped.
      rewrite (Qabs_pos (pow2 ed)) by lra.
      assert (H1 : inject_Z (Z.abs md) < pow2 53).
      { rewrite pow2_Z by lia. rewrite <- Zlt_Qlt. exact Hmd. }
      assert (H2 : pow2 53 * pow2 ed <= pow2 52 * pow2 k).
      { rewrite <- !pow2_add. apply pow2_le. lia. }
      assert (H3 : 0 <= inject_Z (Z.abs md)).
      { change 0 with (inject_Z 0). rewrite <- Zle_Qle. lia. }
      set (a := inject_Z (Z.abs md)) in *. nra. }
    set (g := pow2 52 * pow2 k) in *.
    assert (E52 : pow2 52 == inject_Z (2 ^ 52)) by (apply pow2_Z; lia).
    assert (Hd : - g < d /\ d < g).
    { apply Qabs_Qlt_condition. exact Hda. }
    destruct (Qlt_le_dec q 0) as [Hneg | Hpos].
    + rewrite (Qabs_neg q) in Hqa by lra.
      eapply Qle_trans; [apply (grid_point_nearest q k (- 2 ^ 52)) |].
      rewrite inject_Z_opp, <- E52. fold g.
      rewrite (Qabs_pos (d - q)) by lra.
      apply Qabs_Qle_condition. unfold g in *. lra.
    + rewrite (Qabs_pos q) in Hqa by lra.
      eapply Qle_trans; [apply (grid_point_nearest q k (2 ^ 52)) |].
      rewrite <- E52. fold g.
      rewrite (Qabs_neg (d - q)) by lra.
      apply Qabs_Qle_condition. lra.
Qed.

(** A grid point that does not overflow is a double. *)
Lemma grid_double (q : Q) :
  ~ q == 0 ->
  let k := Z.max (ilog2 q - 52) (-1074) in
  let m := roundHalfEven (q / pow2 k) in
  Qabs (inject_Z m * pow2 k) < pow2 1024 ->
  isDouble (inject_Z m * pow2 k).
Proof.
  intros Hq. cbv zeta.
  destruct (roundDouble_grid q Hq) as (_ & _ & Hhi & Hlo). cbv zeta in Hhi, Hlo.
  set (k := Z.max (ilog2 q - 52) (-1074)) in *.
  set (m := roundHalfEven (q / pow2 k)) in *.
  pose proof (pow2_pos k) as Hulp.
  intros Hfin.
  rewrite Qabs_Qmult, Qabs_inject_Z, (Qabs_pos (pow2 k)) in Hfin by lra.
  assert (Hk0 : (-1074 <= k)%Z) by (unfold k; lia).
  clearbody m k.
  destruct (Z.eq_dec (Z.abs m) (2 ^ 53)%Z) as [Heq | Hne].
  - (* a carry into the next binade *)
    assert (Hk : (k <= 970)%Z).
    { destruct (Z_le_gt_dec k 970) as [H | H]; [exact H |].
      exfalso. rewrite Heq, <- pow2_Z, <- pow2_add in Hfin by lia.
      assert (H' : pow2 1024 <= pow2 (53 + k)) by (apply pow2_le; lia).
      lra. }
    change (2 ^ 53)%Z with 9007199254740992%Z in *.
    assert (Hm : m = 9007199254740992%Z \/ m = (-9007199254740992)%Z) by lia.
    exists (m / 2)%Z, (k + 1)%Z.
    change (2 ^ 53)%Z with 9007199254740992%Z.
    split; [destruct Hm as [-> | ->]; reflexivity |]. split; [lia |].
    rewrite pow2_add. change (pow2 1) with (inject_Z 2).
    rewrite (Qmult_comm (pow2 k)), Qmult_assoc, <- inject_Z_mult.
    destruct Hm as [-> | ->]; reflexivity.
  - exists m, k. change (2 ^ 53)%Z with 9007199254740992%Z in *.
    split; [lia |]. split; [| reflexivity].
    split; [exact Hk0 |].
    destruct (Z_le_gt_dec k 971) as [H | H]; [exact H |].
    exfalso. assert (Hk : (-1074 < k)%Z) by lia. specialize (Hlo Hk).
    assert (H1 : pow2 52 <= inject_Z (Z.abs m)).
    { rewrite pow2_Z by lia. rewrite <- Zle_Qle. exact Hlo. }
    assert (H2 : pow2 1024 <= pow2 52 * pow2 k).
    { rewrite <- pow2_add. apply pow2_le. lia. }
    pose proof (pow2_pos 52).
    set (a := inject_Z (Z.abs m)) in *. nra.
Qed.

(** [roundDouble] rounds to a nearest double: a finite result is a
    double, and no double is nearer to [q]; the result is a zero only
    when no double is nearer to [q] than 0, and [-0] only for a
    negative [q]; it is an infinity, with the sign of [q], only from
    [2 ^ 1024 - 2 ^ 970] on, half way between the greatest double and
    [2 ^ 1024]. *)
Theorem roundDouble_nearest (q : Q) :
  match roundDouble q with
  | NaN => False
  | Infinity negative =>
      negative = negb (Qle_bool 0 q) /\ pow2 1024 - pow2 970 <= Qabs q
  | NegZero =>
      q < 0 /\ forall d, isDouble d -> Qabs (0 - q) <= Qabs (d - q)
  | Fin r =>
      isDouble r /\ forall d, isDouble d -> Qabs (r - q) <= Qabs (d - q)
  end.
Proof.
  unfold roundDouble.
  pose proof (Qred_correct q) as Hred. set (q' := Qred q) in *.
  destruct (Qeq_bool q' 0) eqn:Ez.
  { apply Qeq_bool_eq in Ez. split.
    - exists 0%Z, 0%Z. split; [reflexivity |]. split; [lia | reflexivity].
    - intros d _. rewrite <- Hred, Ez.
      assert (E : Qabs (0 - 0) == 0) by reflexivity.
      rewrite E. apply Qabs_nonneg. }
  apply Qeq_bool_neq in Ez.
  pose proof (grid_double q' Ez) as Hdbl.
  pose proof (fun d => grid_nearest q' d Ez) as Hnear.
  pose proof (ilog2_le q' Ez) as Hlog.
  cbv zeta in Hdbl, Hnear.
  set (k := Z.max (ilog2 q' - 52) (-1074)) in *.
  pose proof (roundHalfEven_error (q' / pow2 k)) as Herr.
  set (m := roundHalfEven (q' / pow2 k)) in *.
  pose proof (pow2_pos k) as Hulp.
  destruct (Qle_bool (pow2 1024) (Qabs (inject_Z m * pow2 k))) eqn:Eo.
  { (* overflow *)
    apply Qle_bool_iff in Eo.
    split; [rewrite <- (Qleb_comp 0 0 (Qeq_refl 0) q' q Hred); reflexivity |].
    rewrite <- Hred.
    pose proof (pow2_pos 970) as H970.
    destruct (Z_le_gt_dec k 971) as [Hk | Hk].
    - assert (Hhalf : pow2 k * (1 # 2) <= pow2 970).
      { assert (E : pow2 k * (1 # 2) == pow2 (k + -1)).
        { rewrite pow2_add. reflexivity. }
        rewrite E. apply pow2_le. lia. }
      assert (Hd : Qabs (inject_Z m * pow2 k - q') <= pow2 k * (1 # 2)).
      { assert (E : inject_Z m * pow2 k - q'
                    == (inject_Z m - q' / pow2 k) * pow2 k) by (field; lra).
        rewrite E, Qabs_Qmult, (Qabs_pos (pow2 k)) by lra.
        set (a := Qabs (inject_Z m - q' / pow2 k)) in *. nra. }
      pose proof (Qabs_triangle_reverse (inject_Z m * pow2 k)
                    (inject_Z m * pow2 k - q')) as Ht.
      assert (E : inject_Z m * pow2 k - (inject_Z m * pow2 k - q') == q')
        by ring.
      rewrite E in Ht. lra.
    - assert (H : pow2 1024 <= pow2 (ilog2 q')).
      { apply pow2_le. unfold k in Hk. lia. }
      lra. }
  assert (Hfin : Qabs (inject_Z m * pow2 k) < pow2 1024).
  { destruct (Qlt_le_dec (Qabs (inject_Z m * pow2 k)) (pow2 1024))
      as [H | H]; [exact H |].
    apply Qle_bool_iff in H. congruence. }
  specialize (Hdbl Hfin).
  assert (Hr : forall r', r' == inject_Z m * pow2 k ->
             isDouble r'
             /\ forall d, isDouble d -> Qabs (r' - q) <= Qabs (d - q)).
  { intros r' E. split.
    - destruct Hdbl as (md & ed & H1 & H2 & H3).
      exists md, ed. split; [exact H1 |]. split; [exact H2 |].
      rewrite E. exact H3.
    - intros d Hd. rewrite E, <- Hred. apply Hnear. exact Hd. }
  destruct (Z.eqb_spec m 0) as [Em | Em].
  - assert (H0 : 0 == inject_Z m * pow2 k) by (rewrite Em; reflexivity).
    destruct (Qle_bool 0 q') eqn:Es.
    + apply Hr. exact H0.
    + split; [| apply Hr; exact H0].
      rewrite <- Hred.
      destruct (Qlt_le_dec q' 0) as [H | H]; [exact H |].
      apply Qle_bool_iff in H. congruence.
  - apply Hr. apply Qred_correct.
Qed.

(** The special cases of double arithmetic, on examples: a sum that is
    not exact, ties going to the even significand, the overflow to an
    infinity, the underflow to a signed zero, the divisions by zero,
    the halves and the negative zero of [Math.round], and the order of
    the zeros. *)
Lemma doubles_by_example :
  Number_add (roundDouble (1 # 10)) (roundDouble (2 # 10))
  <> roundDouble (3 # 10)
  /\ (roundDouble (1 + pow2 (-53)) = ofZ 1
      /\ roundDouble (1 + 3 * pow2 (-53)) = roundDouble (1 + pow2 (-51)))
  /\ (roundDouble (pow2 1024 - pow2 970) = Infinity false
      /\ roundDouble (pow2 970 - pow2 1024) = Infinity true
      /\ roundDouble (pow2 1024 - pow2 970 - 1)
         = Fin (Qred (pow2 1024 - pow2 971)))
  /\ (roundDouble (pow2 (-1075)) = Fin 0
      /\ roundDouble (- pow2 (-1075)) = NegZero
      /\ roundDouble (3 * pow2 (-1076)) = Fin (Qred (pow2 (-1074))))
  /\ (Number_div (ofZ 1) (ofZ 0) = Infinity false
      /\ Number_div (ofZ 1) NegZero = Infinity true
      /\ Number_div (ofZ 0) (ofZ 0) = NaN
      /\ Number_sub (Infinity false) (Infinity false) = NaN
      /\ Number_mul (Infinity true) (ofZ 0) = NaN)
  /\ (Math_round (Fin (5 # 2)) = ofZ 3
      /\ Math_round (Fin (-5 # 2)) = ofZ (-2)
      /\ Math_round (Fin (-1 # 4)) = NegZero
      /\ Math_round (roundDouble ((1 # 2) - pow2 (-54))) = ofZ 0)
  /\ (Math_max NegZero (ofZ 0) = ofZ 0
      /\ Math_min (ofZ 0) NegZero = NegZero
      /\ Math_max NaN (ofZ 1) = NaN).
Proof.
  split; [vm_compute; discriminate |].
  repeat split; vm_compute; reflexivity.
Qed.

(** ** The round trip of a grid position *)

Lemma halfLeast_small : halfLeast <= 1 # 18446744073709551616.
Proof. vm_compute. discriminate. Qed.

Lemma pow2_1000_big : 1267650600228229401496703205376 <= pow2 1000.
Proof. vm_compute. discriminate. Qed.

(** One axis of the round trip: position [n], [step] pixels apart from
    an offset [pad], rounded to a whole pixel, and back. *)
Lemma axis_round_trip (step pad : Number) (n : Z) :
  between (1001 # 1000) 1073741824 step ->
  between (-1073741824) 1073741824 pad ->
  (0 <= n <= 1073741824)%Z ->
  integral
    (Math_round ((Math_round (step * ofZ n + pad) - pad) / step)%number) n.
Proof.
  intros [Hfs Hs] [Hfp Hp] Hn.
  pose proof halfLeast_nonneg as Heta0. pose proof halfLeast_small as Heta.
  pose proof pow2_1000_big as Hbig.
  set (eta := halfLeast) in *.
  assert (Hstep : closeTo step (valueOf step) 0).
  { split; [exact Hfs |]. apply Qabs_Qle_condition. lra. }
  assert (Hpad : closeTo pad (valueOf pad) 0).
  { split; [exact Hfp |]. apply Qabs_Qle_condition. lra. }
  set (s := valueOf step) in *. set (P := valueOf pad) in *.
  assert (Hx : 0 <= inject_Z n <= 1073741824).
  { change 0 with (inject_Z 0).
    change 1073741824 with (inject_Z 1073741824).
    rewrite <- !Zle_Qle. exact Hn. }
  set (x := inject_Z n) in *.
  assert (Hsx : 0 <= s * x /\ s * x <= 1073741824 * s) by nra.
  (* step * n *)
  assert (H1 : closeTo (step * ofZ n)%number (s * x)
                 (s * x * unitRoundoff + eta)).
  { apply Number_mul_closeTo; [exact Hstep | apply closeTo_ofZ | |].
    - apply Qabs_Qle_condition. lra.
    - lra. }
  set (e1 := s * x * unitRoundoff + eta) in *.
  (* ... + pad *)
  assert (H2 : closeTo (step * ofZ n + pad)%number (s * x + P)
                 (e1 + 0
                  + ((s * x + 1073741824 + e1 + 0) * unitRoundoff + eta))).
  { apply Number_add_closeTo; [exact H1 | exact Hpad | |].
    - assert (H : Qabs (s * x + P) <= s * x + 1073741824)
        by (apply Qabs_Qle_condition; lra).
      lra.
    - unfold e1, unitRoundoff. lra. }
  set (e2 := e1 + 0
             + ((s * x + 1073741824 + e1 + 0) * unitRoundoff + eta)) in *.
  (* the pixel *)
  destruct H2 as [Hf2 H2]. apply Qabs_Qle_condition in H2.
  destruct (Math_round_finite _ Hf2) as (m & Hm & Hmlo & Hmhi).
  apply integral_closeTo in Hm.
  set (px := Math_round (step * ofZ n + pad)%number) in *.
  set (b := valueOf (step * ofZ n + pad)%number) in *.
  set (mq := inject_Z m) in *.
  (* px - pad *)
  assert (H3 : closeTo (px - pad)%number (mq - P)
                 (0 + 0 + ((s * x + 1 + e2) * unitRoundoff + eta))).
  { apply Number_sub_closeTo; [exact Hm | exact Hpad | |].
    - assert (H : Qabs (mq - P) <= s * x + (1 # 2) + e2)
        by (apply Qabs_Qle_condition; lra).
      lra.
    - unfold e2, e1, unitRoundoff. lra. }
  set (e3 := 0 + 0 + ((s * x + 1 + e2) * unitRoundoff + eta)) in *.
  (* ... / step *)
  assert (H4 : closeTo ((px - pad) / step)%number ((mq - P) / s)
                 ((1 # 1000000) + (1073741826 * unitRoundoff + eta))).
  { apply (Number_div_closeTo _ _ _ _ e3); [exact H3 | exact Hstep | lra | | |].
    - unfold e3, e2, e1, unitRoundoff. lra.
    - assert (H : Qabs (mq - P) <= s * x + (1 # 2) + e2)
        by (apply Qabs_Qle_condition; lra).
      unfold e3, e2, e1, unitRoundoff in *. lra.
    - lra. }
  (* back to the grid *)
  assert (Hes : 0 <= eta * s /\ eta * s <= (1 # 18446744073709551616) * s)
    by nra.
  eapply Math_round_closeTo; [exact H4 | |].
  - apply Qle_shift_div_l; [lra |].
    unfold e2, e1, unitRoundoff in *. fold x. lra.
  - assert (H : (mq - P) / s
                < x + (1 # 2)
                  - ((1 # 1000000) + (1073741826 * unitRoundoff + eta))).
    { apply Qlt_shift_div_r; [lra |].
      unfold e2, e1, unitRoundoff in *. lra. }
    fold x. lra.
Qed.

Lemma fits_sub (limit : Number) (n size : Z) :
  fits limit (n + size) -> (0 <= n)%Z -> (0 <= size)%Z ->
  (limit - ofZ size)%number = Infinity false
  \/ (Number_isFinite (limit - ofZ size)%number = true
      /\ inject_Z n <= valueOf (limit - ofZ size)%number).
Proof.
  intros [-> | (c & -> & Hc)] Hn Hs.
  - left. apply Number_sub_Infinity.
  - right. rewrite Number_sub_ofZ by lia. split; [reflexivity |].
    cbn [ofZ valueOf]. rewrite <- Zle_Qle. lia.
Qed.

(** C3, as stated, fails: with columns half a pixel wide, the grid
    position (1, 0) of a 1 x 1 item, which is within the bounds of a
    12 x 100 grid, comes back as (2, 0). *)
Lemma C3_round_trip_fails_on_narrow_columns :
  ((0 <= 1)%Z /\ fits (PositionParams.cols narrowParams) (1 + 1)
   /\ (0 <= 0)%Z /\ fits (PositionParams.maxRows narrowParams) (0 + 1))
  /\ roundTrip narrowParams (ofZ 1) (ofZ 0) (ofZ 1) (ofZ 1) = (ofZ 2, ofZ 0)
  /\ roundTrip narrowParams (ofZ 1) (ofZ 0) (ofZ 1) (ofZ 1)
     <> (ofZ 1, ofZ 0).
Proof.
  split.
  { split; [lia |]. split; [right; exists 12%Z; split; [reflexivity | lia] |].
    split; [lia |]. right. exists 100%Z. split; [reflexivity | lia]. }
  split; [vm_compute; reflexivity | vm_compute; discriminate].
Qed.

(** The steps have to be measured as the code computes them: a row
    height of [1/2 + 2 ^ -53] and a margin of [1/2] add up to more than
    one pixel, but to exactly one pixel in doubles, and with a padding
    of half a pixel row 1 comes back as row 2. *)
Lemma round_trip_fails_when_the_step_rounds_to_one :
  1 < valueOf (PositionParams.rowHeight unitStepParams)
      + valueOf (snd (PositionParams.margin unitStepParams))
  /\ rowStep unitStepParams = ofZ 1
  /\ roundTrip unitStepParams (ofZ 0) (ofZ 1) (ofZ 1) (ofZ 1)
     = (ofZ 0, ofZ 2).
Proof.
  split; [reflexivity |]. split; vm_compute; reflexivity.
Qed.

(** C3, amended: when the distance from one column to the next and from
    one row to the next, as the code computes them in doubles, are
    between 1.001 and [2 ^ 30] pixels, and the paddings are at most
    [2 ^ 30] pixels, every position (x, y) of integers between 0 and
    [2 ^ 30] of an item that fits the grid survives the conversion to
    pixels by [calcGridItemPosition] (no override) and back by
    [calcXY]. *)
Theorem C3_round_trip_when_steps_exceed_one_pixel
    (p : PositionParams.t) (x y w h : Z) :
  between (1001 # 1000) 1073741824 (columnStep p) ->
  between (1001 # 1000) 1073741824 (rowStep p) ->
  between (-1073741824) 1073741824
    (fst (PositionParams.containerPadding p)) ->
  between (-1073741824) 1073741824
    (snd (PositionParams.containerPadding p)) ->
  (0 <= x <= 1073741824)%Z -> (0 <= w)%Z ->
  fits (PositionParams.cols p) (x + w) ->
  (0 <= y <= 1073741824)%Z -> (0 <= h)%Z ->
  fits (PositionParams.maxRows p) (y + h) ->
  roundTrip p (ofZ x) (ofZ y) (ofZ w) (ofZ h) = (ofZ x, ofZ y).
Proof.
  intros Hcs Hrs Hp0 Hp1 Hx Hw Hcols Hy Hh Hrows.
  unfold roundTrip, calcXY, calcGridItemPosition.
  cbn [mbind option_bind PixelPosition.top PixelPosition.left].
  fold (columnStep p). fold (rowStep p).
  pose proof (axis_round_trip _ _ x Hcs Hp0 Hx) as Hxi.
  pose proof (axis_round_trip _ _ y Hrs Hp1 Hy) as Hyi.
  f_equal.
  - apply clamp_integral; [exact Hxi | lia |].
    apply fits_sub; [exact Hcols | lia | lia].
  - apply clamp_integral; [exact Hyi | lia |].
    apply fits_sub; [exact Hrows | lia | lia].
Qed.

Lemma C3_round_trip_witness :
  roundTrip scenarioParams (ofZ 3) (ofZ 2) (ofZ 2) (ofZ 2) = (ofZ 3, ofZ 2).
Proof.
  apply (C3_round_trip_when_steps_exceed_one_pixel scenarioParams 3 2 2 2).
  - split; [reflexivity | split; vm_compute; discriminate].
  - split; [reflexivity | split; vm_compute; discriminate].
  - split; [reflexivity | split; vm_compute; discriminate].
  - split; [reflexivity | split; vm_compute; discriminate].
  - lia.
  - lia.
  - right. exists 12%Z. split; [reflexivity | lia].
  - lia.
  - lia.
  - right. exists 100%Z. split; [reflexivity | lia].
Defined.

Local Close Scope Q_scope.

(** ** Sorting comparators *)

Lemma compareRowCol_tie (a b : LayoutItem) :
  Item.y a = Item.y b -> Item.x a = Item.x b ->
  compareRowCol id a b = 0.
Proof.
  intros Hy Hx. unfold compareRowCol, id. rewrite Hy, Hx.
  rewrite !Z.eqb_refl.
  replace (Item.y b >? Item.y b) with false by (symmetry; lia).
  replace (Item.x b >? Item.x b) with false by (symmetry; lia).
  reflexivity.
Qed.

Lemma compareColRow_tie (a b : LayoutItem) :
  Item.y a = Item.y b -> Item.x a = Item.x b ->
  compareColRow id a b = -1.
Proof.
  intros Hy Hx. unfold compareColRow, id. rewrite Hy, Hx.
  rewrite !Z.eqb_refl.
  replace (Item.y b >? Item.y b) with false by (symmetry; lia).
  replace (Item.x b >? Item.x b) with false by (symmetry; lia).
  reflexivity.
Qed.

(** C7, at its failing input: for two items at the same position the
    comparator of the horizontal order answers -1 whichever comes first,
    where the comparator of the vertical order answers 0. *)
Theorem C7_horizontal_comparator_on_a_tie :
  compareColRow id (plainItem "a" 1 2 1 1) (plainItem "b" 1 2 1 1) = -1
  /\ compareColRow id (plainItem "b" 1 2 1 1) (plainItem "a" 1 2 1 1) = -1
  /\ compareRowCol id (plainItem "a" 1 2 1 1) (plainItem "b" 1 2 1 1) = 0.
Proof. repeat split. Qed.

(** ** Resizing *)

(** C9: the handle "nw" runs the west adjuster, then the north adjuster
    on the west adjuster's result; in the scenario the outcome is
    left 80, width 220, top 80, height 170. *)
Theorem C9_resize_north_west_scenario :
  (forall currentSize newSize containerWidth,
      resizeItemInDirection "nw" currentSize newSize containerWidth
      = resizeNorth currentSize
          (resizeWest currentSize newSize containerWidth) containerWidth)
  /\ resizeItemInDirection "nw" scenarioCurrent scenarioProposed 1000
     = {| Position.left := 80; Position.width := 220;
          Position.top := 80; Position.height := 170 |}.
Proof.
  split; [| reflexivity].
  intros currentSize [l t wd ht] containerWidth. reflexivity.
Qed.

(** ** Bounds correction *)

Lemma with_y_same (l : LayoutItem) : Item.with_y (Item.y l) l = l.
Proof. destruct l; reflexivity. Qed.

Lemma alter_as_insert {A} (f : A -> A) (l : list A) (i : nat) (x : A) :
  l !! i = Some x -> alter f i l = <[i := f x]> l.
Proof.
  intros Hx. apply list_eq. intros j.
  destruct (decide (i = j)) as [<- | Hne].
  - rewrite list_lookup_alter_eq, Hx.
    rewrite list_lookup_insert_eq by (eapply lookup_lt_Some; exact Hx).
    reflexivity.
  - rewrite list_lookup_alter_ne, list_lookup_insert_ne by exact Hne.
    reflexivity.
Qed.

(** [pushDown] moves only the object at [i], and only down. *)
Lemma pushDown_spec (collidesWith : list nat) (i : nat) (count : nat) :
  forall (store : Layout) (l : LayoutItem),
    store !! i = Some l ->
    exists n : nat,
      pushDown collidesWith i count store
      = <[i := Item.with_y (Item.y l + Z.of_nat n) l]> store.
Proof.
  induction count as [| count IH]; intros store l Hl; cbn [pushDown].
  - exists 0%nat. rewrite Z.add_0_r, with_y_same.
    symmetry. apply list_insert_id. exact Hl.
  - rewrite Hl.
    destruct (getFirstCollision (objects store collidesWith) l).
    + set (store1 := alter (fun l => Item.with_y (Item.y l + 1) l) i store).
      assert (H1 : store1 !! i = Some (Item.with_y (Item.y l + 1) l)).
      { unfold store1. rewrite list_lookup_alter_eq, Hl. reflexivity. }
      destruct (IH store1 _ H1) as [n Hn].
      exists (S n). rewrite Hn. unfold store1.
      rewrite (alter_as_insert _ _ _ _ Hl), list_insert_insert_eq.
      f_equal. destruct l; unfold Item.with_y; cbn. f_equal. lia.
    + exists 0%nat. rewrite Z.add_0_r, with_y_same.
      symmetry. apply list_insert_id. exact Hl.
Qed.

(** The bound on the trip count of [pushDown] that [correctBoundsStep]
    uses is enough: the loop stops because nothing collides any more. *)
Lemma pushDown_clear (collidesWith : list nat) (i : nat) (B : Z)
    (count : nat) :
  forall (store : Layout) (l : LayoutItem),
    store !! i = Some l ->
    (forall a c, a ∈ collidesWith -> a <> i -> store !! a = Some c ->
                 Item.y c + Item.h c <= B) ->
    B - Item.y l <= Z.of_nat count ->
    forall l', pushDown collidesWith i count store !! i = Some l' ->
    getFirstCollision (objects (pushDown collidesWith i count store)
                         collidesWith) l' = None.
Proof.
  induction count as [| count IH]; intros store l Hl HB Hcount l' Hl';
    cbn [pushDown] in *.
  - assert (l' = l) by congruence. subst l'.
    apply getFirstCollision_None. intros c Hc.
    apply elem_of_objects in Hc as (a & Ha & Hac).
    destruct (decide (a = i)) as [-> | Hne].
    + apply collides_same_id. congruence.
    + specialize (HB a c Ha Hne Hac).
      destruct (collides c l) eqn:E; [| reflexivity].
      apply collides_iff in E. lia.
  - rewrite Hl in *.
    destruct (getFirstCollision (objects store collidesWith) l) eqn:E.
    + eapply IH; [| | | exact Hl'].
      * rewrite list_lookup_alter_eq, Hl. reflexivity.
      * intros a c Ha Hne Hac. rewrite list_lookup_alter_ne in Hac by auto.
        eauto.
      * cbn. lia.
    + assert (l' = l) by congruence. subst l'. exact E.
Qed.

Lemma correctBoundsStep_spec (bounds : Bounds.t) (i : nat)
    (collidesWith : list nat) (store : Layout) (l : LayoutItem) :
  store !! i = Some l ->
  exists l',
    snd (correctBoundsStep bounds i (collidesWith, store))
    = <[i := l']> store
    /\ correctedItem (Bounds.cols bounds) l l'.
Proof.
  intros Hl. unfold correctBoundsStep. rewrite Hl.
  set (cols := Bounds.cols bounds).
  set (l1 := if Item.x l + Item.w l >? cols
             then Item.with_x (cols - Item.w l) l else l).
  set (l2 := if Item.x l1 <? 0
             then Item.with_w cols (Item.with_x 0 l1) else l1).
  assert (Hst : is_static l2 = is_static l).
  { unfold l2, l1.
    destruct (Item.x l + Item.w l >? cols);
      match goal with |- context [if ?b then _ else _] => destruct b end;
      reflexivity. }
  assert (H2 : correctedItem cols l l2
               /\ Item.y l2 = Item.y l).
  { unfold correctedItem, sameOtherFields, l2, l1.
    destruct (Item.x l + Item.w l >? cols); cbn;
      match goal with |- context [if ?b then _ else _] => destruct b end;
      cbn; (split; [| reflexivity]); repeat split;
      destruct (is_static l); try reflexivity; exists 0%nat; lia. }
  destruct H2 as [H2 Hy2].
  destruct (negb (is_static l2)) eqn:Hneg; cbn [snd].
  - exists l2. split; [reflexivity | exact H2].
  - assert (Hl2 : <[i := l2]> store !! i = Some l2).
    { apply list_lookup_insert_eq. eapply lookup_lt_Some. exact Hl. }
    destruct (pushDown_spec collidesWith i
                (Z.to_nat (bottom (objects (<[i:=l2]> store) collidesWith)
                           - Item.y l2))
                _ _ Hl2) as [n Hn].
    exists (Item.with_y (Item.y l2 + Z.of_nat n) l2).
    split; [rewrite Hn; apply list_insert_insert_eq |].
    unfold correctedItem, sameOtherFields in *.
    destruct H2 as (Hx & Hw & Hy & Hs & Hm & Ho).
    cbn. repeat split; try tauto.
    rewrite <- Hst. apply negb_false_iff in Hneg. rewrite Hneg.
    exists n. rewrite Hy2. reflexivity.
Qed.

(** A static item leaves its turn of the loop clear of the comparison
    set: the trip count given to [pushDown] never cuts the loop short. *)
Lemma correctBoundsStep_clear (bounds : Bounds.t) (i : nat)
    (collidesWith : list nat) (store : Layout) (l : LayoutItem) :
  store !! i = Some l ->
  is_static l = true ->
  forall l',
    snd (correctBoundsStep bounds i (collidesWith, store)) !! i = Some l' ->
    getFirstCollision
      (objects (snd (correctBoundsStep bounds i (collidesWith, store)))
         collidesWith) l' = None.
Proof.
  intros Hl Hst l'. unfold correctBoundsStep. rewrite Hl.
  set (cols := Bounds.cols bounds).
  set (l1 := if Item.x l + Item.w l >? cols
             then Item.with_x (cols - Item.w l) l else l).
  set (l2 := if Item.x l1 <? 0
             then Item.with_w cols (Item.with_x 0 l1) else l1).
  assert (Hst2 : is_static l2 = true).
  { rewrite <- Hst. unfold l2, l1.
    destruct (Item.x l + Item.w l >? cols);
      match goal with |- context [if ?b then _ else _] => destruct b end;
      reflexivity. }
  rewrite Hst2. cbn [negb snd]. intros Hl'.
  eapply (pushDown_clear collidesWith i
            (bottom (objects (<[i:=l2]> store) collidesWith)));
    [| | | exact Hl'].
  - apply list_lookup_insert_eq. eapply lookup_lt_Some. exact Hl.
  - intros a c Ha _ Hac. apply bottom_ge. apply elem_of_objects. eauto.
  - lia.
Qed.

Lemma correctBoundsStep_missing (bounds : Bounds.t) (i : nat)
    (st : list nat * Layout) :
  snd st !! i = None -> correctBoundsStep bounds i st = st.
Proof.
  destruct st as [collidesWith store]. cbn [snd]. intros Hl.
  unfold correctBoundsStep. rewrite Hl. reflexivity.
Qed.

(** The loop of [correctBounds] over the indices [a .. a+m-1]: every
    object in that range is corrected from what it was, every other
    object is left alone. *)
Lemma correctBounds_loop (bounds : Bounds.t) (m : nat) :
  forall (a : nat) (collidesWith : list nat) (store : Layout),
    let r := snd (fold_left (fun st i => correctBoundsStep bounds i st)
                    (seq a m) (collidesWith, store)) in
    length r = length store
    /\ forall k l, store !! k = Some l ->
         ((a <= k < a + m)%nat ->
          exists l', r !! k = Some l'
                     /\ correctedItem (Bounds.cols bounds) l l')
         /\ (~ (a <= k < a + m)%nat -> r !! k = Some l).
Proof.
  induction m as [| m IH]; intros a collidesWith store; cbn [seq fold_left].
  - cbn. split; [reflexivity |]. intros k l Hk. split; [lia | auto].
  - destruct (store !! a) as [la |] eqn:Ha.
    + destruct (correctBoundsStep_spec bounds a collidesWith store la Ha)
        as (la' & Hstep & Hcorr).
      destruct (correctBoundsStep bounds a (collidesWith, store))
        as [collidesWith' store'] eqn:E.
      cbn [snd] in Hstep. subst store'.
      destruct (IH (S a) collidesWith' (<[a := la']> store)) as [Hlen Hrest].
      cbn zeta in *. split; [rewrite Hlen; apply length_insert |].
      intros k l Hk.
      destruct (decide (k = a)) as [-> | Hne].
      * assert (l = la) by congruence. subst l.
        assert (Hk' : <[a := la']> store !! a = Some la').
        { apply list_lookup_insert_eq. eapply lookup_lt_Some. exact Ha. }
        destruct (Hrest a la' Hk') as [_ Hout].
        split; [| lia]. intros _. exists la'. split; [| exact Hcorr].
        apply Hout. lia.
      * assert (Hk' : <[a := la']> store !! k = Some l).
        { rewrite list_lookup_insert_ne by auto. exact Hk. }
        destruct (Hrest k l Hk') as [Hin Hout].
        split; [intros Hr; apply Hin; lia | intros Hr; apply Hout; lia].
    + rewrite correctBoundsStep_missing by exact Ha.
      destruct (IH (S a) collidesWith store) as [Hlen Hrest].
      cbn zeta in *. split; [exact Hlen |].
      intros k l Hk.
      assert (k <> a) by congruence.
      destruct (Hrest k l Hk) as [Hin Hout].
      split; [intros Hr; apply Hin; lia | intros Hr; apply Hout; lia].
Qed.

Lemma correctedItem_within (cols : Z) (l l' : LayoutItem) :
  correctedItem cols l l' ->
  0 <= Item.x l' /\ Item.x l' + Item.w l' <= cols.
Proof.
  unfold correctedItem. intros (Hx & Hw & _). rewrite Hx, Hw.
  destruct (Z.gtb_spec (Item.x l + Item.w l) cols);
    match goal with |- context [?u <? 0] => destruct (Z.ltb_spec u 0) end;
    lia.
Qed.

(** ** Sorting is a permutation *)

Lemma sort_insert_perm {A} (cmp : A -> A -> Z) (a : A) (l : list A) :
  sort_insert cmp a l ≡ₚ a :: l.
Proof.
  induction l as [| b rest IH]; cbn [sort_insert]; [reflexivity |].
  destruct (cmp a b <? 0); [reflexivity |].
  rewrite IH. apply perm_swap.
Qed.

Lemma js_sort_perm {A} (cmp : A -> A -> Z) (l : list A) :
  js_sort cmp l ≡ₚ l.
Proof.
  unfold js_sort.
  assert (H : forall acc,
             fold_left (fun acc a => sort_insert cmp a acc) l acc
             ≡ₚ l ++ acc).
  { induction l as [| a rest IH]; intros acc; cbn [fold_left];
      [reflexivity |].
    rewrite IH, sort_insert_perm. cbn.
    symmetry. apply Permutation_middle. }
  rewrite H, app_nil_r. reflexivity.
Qed.

Lemma sortLayoutItems_perm {A} (item_of : A -> LayoutItem) (l : list A)
    (compactType : CompactType) :
  sortLayoutItems item_of l compactType ≡ₚ l.
Proof.
  destruct compactType; cbn [sortLayoutItems];
    [apply js_sort_perm | apply js_sort_perm | reflexivity].
Qed.

(** ** The move engine: the two early exits on a collision *)

Lemma sortAddrs_elem (store : Store) (addrs : list nat)
    (by_ : list (nat * LayoutItem) -> list (nat * LayoutItem)) (a : nat) :
  (forall t, by_ t ≡ₚ t) ->
  a ∈ addrs -> is_Some (store !! a) -> a ∈ sortAddrs store addrs by_.
Proof.
  intros Hperm Ha [c Hc]. unfold sortAddrs.
  apply list_elem_of_fmap. exists (a, c). split; [reflexivity |].
  rewrite Hperm. apply list_elem_of_omap. exists a.
  split; [exact Ha |]. rewrite Hc. reflexivity.
Qed.

Lemma moveTarget_id (x y : option Z) (l0 : LayoutItem) :
  Item.i (moveTarget x y l0) = Item.i l0.
Proof. destruct x, y; reflexivity. Qed.

Lemma moveTarget_revert (x y : option Z) (l0 : LayoutItem) :
  Item.with_moved false
    (Item.with_y (Item.y l0) (Item.with_x (Item.x l0) (moveTarget x y l0)))
  = Item.with_moved false l0.
Proof. destruct l0, x, y; reflexivity. Qed.

(** When an item of the layout collides with the target, the list of
    collisions that [moveElement] computes is not empty. *)
Lemma collisions_found (store : Store) (layout sorted : list nat) (l : nat)
    (x y : option Z) (l0 : LayoutItem) :
  store !! l = Some l0 ->
  targetCollides store layout x y l0 ->
  (forall a, a ∈ layout -> is_Some (store !! a) -> a ∈ sorted) ->
  (0 <? Z.of_nat
          (length
             (filter
                (fun a =>
                   match <[l := moveTarget x y l0]> store !! a with
                   | Some c => collides c (moveTarget x y l0)
                   | None => false
                   end = true) sorted))) = true.
Proof.
  intros Hl (a & c & Ha & Hc & Hcol) Hsorted.
  assert (Hne : a <> l).
  { intros ->. assert (c = l0) by congruence. subst c.
    rewrite collides_same_id in Hcol; [discriminate |].
    symmetry. apply moveTarget_id. }
  set (P := fun a => match <[l := moveTarget x y l0]> store !! a with
                     | Some c => collides c (moveTarget x y l0)
                     | None => false
                     end = true).
  assert (Hin : a ∈ filter P sorted).
  { apply list_elem_of_filter. split.
    - unfold P. cbv beta. rewrite list_lookup_insert_ne by auto. rewrite Hc. exact Hcol.
    - apply Hsorted; [exact Ha | eauto]. }
  destruct (filter P sorted); [inversion Hin |].
  cbn [length]. apply Z.ltb_lt. lia.
Qed.

Lemma moveElement_sorted_elem (store : Store) (layout : list nat)
    (compactType : CompactType) (flip : bool) (a : nat) :
  a ∈ layout -> is_Some (store !! a) ->
  a ∈ (if flip
       then reverse (sortAddrs store layout
                       (fun t => sortLayoutItems snd t compactType))
       else sortAddrs store layout
              (fun t => sortLayoutItems snd t compactType)).
Proof.
  intros Ha Hs.
  assert (H : a ∈ sortAddrs store layout
                    (fun t => sortLayoutItems snd t compactType)).
  { apply sortAddrs_elem; [| exact Ha | exact Hs].
    intros t. apply sortLayoutItems_perm. }
  destruct flip; [apply elem_of_reverse |]; exact H.
Qed.

Lemma is_Some_insert_other (store : Store) (l a : nat) (v : LayoutItem) :
  is_Some (store !! a) -> is_Some (<[l := v]> store !! a).
Proof.
  intros Hs. apply lookup_lt_is_Some. rewrite length_insert.
  apply lookup_lt_is_Some. exact Hs.
Qed.

(** C2, amended: when the item is not pinned (static and not
    draggable), the target differs from its position, some item of the
    layout collides with it at the target, [preventCollision] is set
    and [allowOverlap] is not, [moveElement] returns the input array
    and leaves every object as it was before the call, except that the
    [moved] flag of the item is [false] on return, whatever it was. *)
Theorem C2_prevented_collision_reverts_the_move
    (fuel : nat) (layout : list nat) (l : nat) (x y : option Z)
    (isUserAction : bool) (compactType : CompactType) (cols : Z)
    (store : Store) (l0 : LayoutItem) :
  store !! l = Some l0 ->
  pinned l0 = false ->
  alreadyThere x y l0 = false ->
  targetCollides store layout x y l0 ->
  moveElement fuel layout l x y isUserAction true compactType cols false
    store
  = Some (layout, <[l := Item.with_moved false l0]> store).
Proof.
  intros Hl Hpin Hthere Hcol.
  unfold pinned, alreadyThere in *.
  assert (Hfound := fun flip =>
    collisions_found store layout _ l x y l0 Hl Hcol
      (fun a Ha Hs =>
         moveElement_sorted_elem (<[l := moveTarget x y l0]> store) layout
           compactType flip a Ha
           (is_Some_insert_other store l a _ Hs))).
  destruct fuel; cbn [moveElement]; rewrite Hl, Hpin, Hthere;
    fold (moveTarget x y l0); cbv zeta;
    match goal with
    | |- context [if ?b then reverse _ else _] =>
        rewrite (Hfound b)
    end;
    cbn [andb]; rewrite moveTarget_revert, list_insert_insert_eq;
    reflexivity.
Qed.

Lemma C2_prevented_collision_witness :
  moveElement 1 [0; 1]%nat 0 (Some 1) (Some 0) true true Vertical 12 false
    plainPair
  = Some ([0; 1]%nat,
          <[0%nat := Item.with_moved false (plainItem "a" 0 0 1 1)]>
            plainPair).
Proof.
  apply (C2_prevented_collision_reverts_the_move
           1 [0; 1]%nat 0 (Some 1) (Some 0) true Vertical 12 plainPair
           (plainItem "a" 0 0 1 1)).
  - reflexivity.
  - reflexivity.
  - reflexivity.
  - exists 1%nat, (plainItem "b" 1 0 1 1).
    split; [| split; reflexivity].
    apply elem_of_cons. right. apply list_elem_of_here.
Defined.

(** C2, as stated, fails: an item whose [moved] flag is set before the
    call (as it is when the move engine re-enters [moveElement] for the
    item being moved) comes back with the flag cleared, so not every
    field has its value of before the call. *)
Lemma C2_moved_flag_is_not_restored :
  targetCollides movedPair [0; 1]%nat (Some 1) (Some 0)
    (Item.with_moved true (plainItem "a" 0 0 1 1))
  /\ exists store',
       moveElement 1 [0; 1]%nat 0 (Some 1) (Some 0) true true Vertical 12
         false movedPair = Some ([0; 1]%nat, store')
       /\ Item.moved <$> movedPair !! 0%nat = Some (Some true)
       /\ Item.moved <$> store' !! 0%nat = Some (Some false).
Proof.
  split.
  - exists 1%nat, (plainItem "b" 1 0 1 1).
    split; [| split; reflexivity].
    apply elem_of_cons. right. apply list_elem_of_here.
  - eexists. split; [vm_compute; reflexivity |].
    split; reflexivity.
Qed.

Lemma objects_app_seq (store clones : Layout) :
  objects (store ++ clones) (seq (length store) (length clones)) = clones.
Proof.
  unfold objects. revert store.
  induction clones as [| c cs IH]; intros store; [reflexivity |].
  cbn [length seq omap list_omap].
  rewrite list_lookup_middle by reflexivity.
  f_equal.
  replace (store ++ c :: cs) with ((store ++ [c]) ++ cs)
    by (rewrite <- app_assoc; reflexivity).
  replace (S (length store)) with (length (store ++ [c]))
    by (rewrite length_app; cbn; lia).
  apply IH.
Qed.

Lemma objects_insert_Forall2 (store : Store) (layout : list nat) (l : nat)
    (T : LayoutItem) (f : LayoutItem -> LayoutItem) :
  is_Some (store !! l) ->
  Forall (fun a => is_Some (store !! a)) layout ->
  Forall2
    (fun a c' =>
       if decide (a = l) then c' = f T
       else exists c, store !! a = Some c /\ c' = f c)
    layout (f <$> objects (<[l := T]> store) layout).
Proof.
  intros Hl Hall. unfold objects.
  induction Hall as [| a rest [c Hc] _ IH]; [constructor |].
  cbn [omap list_omap].
  destruct (decide (a = l)) as [-> | Hne].
  - rewrite list_lookup_insert_eq by (apply lookup_lt_is_Some; exact Hl).
    cbn [fmap list_fmap]. constructor; [| exact IH].
    rewrite decide_True by reflexivity. reflexivity.
  - rewrite list_lookup_insert_ne by auto. rewrite Hc.
    cbn [fmap list_fmap]. constructor; [| exact IH].
    rewrite decide_False by exact Hne. eauto.
Qed.

(** C6, amended: when the item is not pinned (static and not
    draggable), the target differs from its position, some item of the
    layout collides with it at the target and [allowOverlap] is set,
    [moveElement] returns an array of fresh objects, the clones of the
    layout's items, where the clone of the moved item is at the target
    and every other clone is the clone of its item as it was before the
    call; of the objects that existed before the call, only the moved
    item changes. *)
Theorem C6_allowed_overlap_returns_clones
    (fuel : nat) (layout : list nat) (l : nat) (x y : option Z)
    (isUserAction preventCollision : bool) (compactType : CompactType)
    (cols : Z) (store : Store) (l0 : LayoutItem) :
  store !! l = Some l0 ->
  Forall (fun a => is_Some (store !! a)) layout ->
  pinned l0 = false ->
  alreadyThere x y l0 = false ->
  targetCollides store layout x y l0 ->
  exists result store',
    moveElement fuel layout l x y isUserAction preventCollision compactType
      cols true store = Some (result, store')
    /\ Forall (fun a => length store <= a)%nat result
    /\ take (length store) store' = <[l := moveTarget x y l0]> store
    /\ Forall2
         (fun a c' =>
            if decide (a = l)
            then c' = cloneLayoutItem (moveTarget x y l0)
            else exists c, store !! a = Some c /\ c' = cloneLayoutItem c)
         layout (objects store' result).
Proof.
  intros Hl Hall Hpin Hthere Hcol.
  unfold pinned, alreadyThere in *.
  assert (Hfound := fun flip =>
    collisions_found store layout _ l x y l0 Hl Hcol
      (fun a Ha Hs =>
         moveElement_sorted_elem (<[l := moveTarget x y l0]> store) layout
           compactType flip a Ha
           (is_Some_insert_other store l a _ Hs))).
  set (store1 := <[l := moveTarget x y l0]> store).
  set (clones := cloneLayout (objects store1 layout)).
  exists (seq (length store1) (length clones)), (store1 ++ clones).
  split; [| split; [| split]].
  - destruct fuel; cbn [moveElement]; rewrite Hl, Hpin, Hthere;
      fold (moveTarget x y l0); cbv zeta;
      match goal with
      | |- context [if ?b then reverse _ else _] =>
          rewrite (Hfound b)
      end;
      reflexivity.
  - apply Forall_forall. intros a Ha. apply elem_of_seq in Ha.
    unfold store1 in Ha. rewrite length_insert in Ha. lia.
  - replace (length store) with (length store1)
      by (unfold store1; apply length_insert).
    apply take_app_length.
  - rewrite objects_app_seq. unfold clones, cloneLayout, store1.
    apply (objects_insert_Forall2 store layout l _ cloneLayoutItem);
      [eauto | exact Hall].
Qed.

Lemma C6_allowed_overlap_witness :
  exists result store',
    moveElement 1 [0; 1]%nat 0 (Some 1) (Some 0) true false Vertical 12 true
      plainPair = Some (result, store')
    /\ Forall (fun a => length plainPair <= a)%nat result
    /\ take (length plainPair) store'
       = <[0%nat := moveTarget (Some 1) (Some 0) (plainItem "a" 0 0 1 1)]>
           plainPair
    /\ Forall2
         (fun a c' =>
            if decide (a = 0%nat)
            then c' = cloneLayoutItem
                        (moveTarget (Some 1) (Some 0)
                           (plainItem "a" 0 0 1 1))
            else exists c, plainPair !! a = Some c
                           /\ c' = cloneLayoutItem c)
         [0; 1]%nat (objects store' result).
Proof.
  apply (C6_allowed_overlap_returns_clones
           1 [0; 1]%nat 0 (Some 1) (Some 0) true false Vertical 12
           plainPair (plainItem "a" 0 0 1 1)).
  - reflexivity.
  - repeat constructor; eexists; reflexivity.
  - reflexivity.
  - reflexivity.
  - exists 1%nat, (plainItem "b" 1 0 1 1).
    split; [| split; reflexivity].
    apply elem_of_cons. right. apply list_elem_of_here.
Defined.

(** C6, as stated, fails: a static item that is not draggable stays
    where it is, and the array returned is the input array, not a
    clone, although an item of the layout occupies the target. *)
Lemma C6_pinned_item_does_not_move :
  targetCollides staticPair [0; 1]%nat (Some 1) (Some 0)
    (staticItem "s" 0 0 1 1)
  /\ moveElement 1 [0; 1]%nat 0 (Some 1) (Some 0) true false Vertical 12 true
       staticPair = Some ([0; 1]%nat, staticPair)
  /\ Item.x <$> staticPair !! 0%nat = Some 0.
Proof.
  split; [| split; reflexivity].
  exists 1%nat, (plainItem "b" 1 0 1 1).
  split; [| split; reflexivity].
  apply elem_of_cons. right. apply list_elem_of_here.
Qed.

(** ** Coordinates along an axis *)

Lemma get_set_axis (axis : Axis) (v : Z) (l : LayoutItem) :
  get_axis axis (set_axis axis v l) = v.
Proof. destruct axis; reflexivity. Qed.

Lemma set_set_axis (axis : Axis) (u v : Z) (l : LayoutItem) :
  set_axis axis v (set_axis axis u l) = set_axis axis v l.
Proof. destruct axis; reflexivity. Qed.

Lemma set_get_axis (axis : Axis) (l : LayoutItem) :
  set_axis axis (get_axis axis l) l = l.
Proof. destruct axis, l; reflexivity. Qed.

Lemma set_axis_i (axis : Axis) (v : Z) (l : LayoutItem) :
  Item.i (set_axis axis v l) = Item.i l.
Proof. destruct axis; reflexivity. Qed.

Lemma set_axis_w (axis : Axis) (v : Z) (l : LayoutItem) :
  Item.w (set_axis axis v l) = Item.w l.
Proof. destruct axis; reflexivity. Qed.

Lemma set_axis_h (axis : Axis) (v : Z) (l : LayoutItem) :
  Item.h (set_axis axis v l) = Item.h l.
Proof. destruct axis; reflexivity. Qed.

Lemma set_axis_static (axis : Axis) (v : Z) (l : LayoutItem) :
  is_static (set_axis axis v l) = is_static l.
Proof. destruct axis; reflexivity. Qed.

(** ** What [resolveCompactionCollision] may change *)

Lemma axisFrame_refl (axis : Axis) (s : Layout) : axisFrame axis s s.
Proof.
  split; [reflexivity |]. intros k a Ha. split; [| auto].
  exists (get_axis axis a). rewrite set_get_axis. exact Ha.
Qed.

Lemma axisFrame_trans (axis : Axis) (s1 s2 s3 : Layout) :
  axisFrame axis s1 s2 -> axisFrame axis s2 s3 -> axisFrame axis s1 s3.
Proof.
  intros [Hlen12 H12] [Hlen23 H23]. split; [congruence |].
  intros k a Ha. destruct (H12 k a Ha) as [[v Hv] Hs12].
  destruct (H23 k _ Hv) as [[u Hu] Hs23]. split.
  - exists u. rewrite Hu, set_set_axis. reflexivity.
  - intros Hst. specialize (Hs12 Hst).
    destruct (H23 k a Hs12) as [_ Hs]. auto.
Qed.

Lemma axisFrame_alter (axis : Axis) (s : Layout) (k : nat) (v : Z) :
  (forall a, s !! k = Some a -> is_static a = false) ->
  axisFrame axis s (alter (set_axis axis v) k s).
Proof.
  intros Hns. split; [apply length_alter |].
  intros j a Ha. destruct (decide (k = j)) as [<- | Hne].
  - rewrite list_lookup_alter_eq, Ha. cbn. split; [eauto |].
    intros Hst. rewrite (Hns a Ha) in Hst. discriminate.
  - rewrite list_lookup_alter_ne by exact Hne. split; [| auto].
    exists (get_axis axis a). rewrite set_get_axis. exact Ha.
Qed.

Lemma axisFrame_bump (axis : Axis) (s : Layout) (k : nat) :
  (forall a, s !! k = Some a -> is_static a = false) ->
  axisFrame axis s
    (alter (fun l => set_axis axis (get_axis axis l + 1) l) k s).
Proof.
  intros Hns. split; [apply length_alter |].
  intros j a Ha. destruct (decide (k = j)) as [<- | Hne].
  - rewrite list_lookup_alter_eq, Ha. cbn. split; [eauto |].
    intros Hst. rewrite (Hns a Ha) in Hst. discriminate.
  - rewrite list_lookup_alter_ne by exact Hne. split; [| auto].
    exists (get_axis axis a). rewrite set_get_axis. exact Ha.
Qed.

Lemma axisFrame_static (axis : Axis) (s s' : Layout) (k : nat)
    (a a' : LayoutItem) :
  axisFrame axis s s' -> s !! k = Some a -> s' !! k = Some a' ->
  is_static a' = is_static a.
Proof.
  intros [_ H] Ha Ha'. destruct (H k a Ha) as [[v Hv] _].
  assert (a' = set_axis axis v a) by congruence. subst a'.
  apply set_axis_static.
Qed.

Lemma scanLater_frame (recur : Layout -> nat -> Z -> option Layout)
    (item : nat) (moveToCoord : Z) (axis : Axis) :
  (forall s k mv s',
      recur s k mv = Some s' ->
      (forall a, s !! k = Some a -> is_static a = false) ->
      axisFrame axis s s') ->
  forall count i s s',
    scanLater recur item moveToCoord axis count i s = Some s' ->
    axisFrame axis s s'.
Proof.
  intros Hrec. induction count as [| count IH]; intros i s s';
    cbn [scanLater].
  - intros [= <-]. apply axisFrame_refl.
  - destruct (s !! i) as [otherItem |] eqn:Ho;
      [| intros [= <-]; apply axisFrame_refl].
    destruct (s !! item) as [it |] eqn:Hit;
      [| intros [= <-]; apply axisFrame_refl].
    destruct (is_static otherItem) eqn:Hst; [apply IH |].
    destruct (Item.y otherItem >? Item.y it + Item.h it);
      [intros [= <-]; apply axisFrame_refl |].
    destruct (collides it otherItem); [| apply IH].
    destruct (recur s i (moveToCoord + sizeProp axis it)) as [s1 |] eqn:Hr;
      [| discriminate].
    intros Hscan. eapply axisFrame_trans; [| eapply IH; exact Hscan].
    eapply Hrec; [exact Hr |]. intros a Ha. congruence.
Qed.

Lemma resolveCompactionCollision_frame (fuel n : nat) :
  forall (s : Layout) (item : nat) (moveToCoord : Z) (axis : Axis)
         (s' : Layout),
    (forall a, s !! item = Some a -> is_static a = false) ->
    resolveCompactionCollision fuel n s item moveToCoord axis = Some s' ->
    axisFrame axis s s'
    /\ forall a, s !! item = Some a ->
                 s' !! item = Some (set_axis axis moveToCoord a).
Proof.
  induction fuel as [| fuel IH]; intros s item moveToCoord axis s' Hns;
    cbn [resolveCompactionCollision]; [discriminate |].
  set (s1 := alter (fun l => set_axis axis (get_axis axis l + 1) l) item s).
  assert (F1 : axisFrame axis s s1) by (apply axisFrame_bump; exact Hns).
  destruct (s1 !! item) as [it |] eqn:Hit.
  - destruct (scanLater _ item moveToCoord axis _ _ s1) as [s2 |] eqn:Hscan;
      [| discriminate].
    intros [= <-].
    assert (F2 : axisFrame axis s1 s2).
    { eapply scanLater_frame; [| exact Hscan].
      intros t k mv t' Hr Hk. cbv beta in Hr.
      eapply IH; [exact Hk | exact Hr]. }
    assert (F12 : axisFrame axis s s2)
      by (eapply axisFrame_trans; eassumption).
    assert (Hns2 : forall a, s2 !! item = Some a -> is_static a = false).
    { intros a2 Ha2.
      destruct (s !! item) as [a |] eqn:Ha.
      - rewrite (axisFrame_static _ _ _ _ _ _ F12 Ha Ha2). auto.
      - apply lookup_ge_None in Ha. apply lookup_lt_Some in Ha2.
        destruct F12 as [Hlen _]. lia. }
    split.
    + eapply axisFrame_trans; [exact F12 |].
      apply axisFrame_alter. exact Hns2.
    + intros a Ha. destruct F12 as [_ H12].
      destruct (H12 item a Ha) as [[v Hv] _].
      rewrite list_lookup_alter_eq, Hv. cbn.
      rewrite set_set_axis. reflexivity.
  - intros [= <-]. split; [exact F1 |].
    intros a Ha. unfold s1 in Hit.
    rewrite list_lookup_alter_eq, Ha in Hit. discriminate.
Qed.

(** ** Fuel: more is as good, and enough exists *)

Lemma scanLater_mono (recur recur' : Layout -> nat -> Z -> option Layout)
    (item : nat) (moveToCoord : Z) (axis : Axis) :
  (forall s k mv s', recur s k mv = Some s' -> recur' s k mv = Some s') ->
  forall count i s s',
    scanLater recur item moveToCoord axis count i s = Some s' ->
    scanLater recur' item moveToCoord axis count i s = Some s'.
Proof.
  intros Hrec. induction count as [| count IH]; intros i s s';
    cbn [scanLater]; [auto |].
  destruct (s !! i) as [otherItem |]; [| auto].
  destruct (s !! item) as [it |]; [| auto].
  destruct (is_static otherItem); [apply IH |].
  destruct (Item.y otherItem >? Item.y it + Item.h it); [auto |].
  destruct (collides it otherItem); [| apply IH].
  destruct (recur s i (moveToCoord + sizeProp axis it)) as [s1 |] eqn:Hr;
    [| discriminate].
  rewrite (Hrec _ _ _ _ Hr). apply IH.
Qed.

Lemma resolveCompactionCollision_mono (fuel fuel' n : nat) :
  (fuel <= fuel')%nat ->
  forall s item moveToCoord axis s',
    resolveCompactionCollision fuel n s item moveToCoord axis = Some s' ->
    resolveCompactionCollision fuel' n s item moveToCoord axis = Some s'.
Proof.
  revert fuel'. induction fuel as [| fuel IH]; intros fuel' Hle
    s item moveToCoord axis s'; cbn [resolveCompactionCollision];
    [discriminate |].
  destruct fuel' as [| fuel']; [lia |]. cbn [resolveCompactionCollision].
  destruct (alter _ item s !! item) as [it |]; [| auto].
  destruct (scanLater _ item moveToCoord axis _ _ _) as [s2 |] eqn:Hscan;
    [| discriminate].
  erewrite scanLater_mono; [eauto | | exact Hscan].
  intros t k mv t' Hr. cbv beta in *. apply (IH fuel'); [lia | exact Hr].
Qed.

Lemma indexOf_range (ids : list string) (id : string) :
  -1 <= indexOf ids id < Z.of_nat (length ids).
Proof.
  induction ids as [| j rest IH]; cbn [indexOf length]; [lia |].
  destruct (String.eqb j id); [lia |].
  destruct (Z.ltb_spec (indexOf rest id) 0); lia.
Qed.

Lemma indexOf_NoDup (ids : list string) (id : string) (k : nat) :
  NoDup ids -> ids !! k = Some id -> indexOf ids id = Z.of_nat k.
Proof.
  intros Hnd. revert k.
  induction Hnd as [| j rest Hj Hnd IH]; intros k Hk; [inversion Hk |].
  cbn [indexOf]. destruct k as [| k]; cbn in Hk.
  - injection Hk as ->. rewrite String.eqb_refl. reflexivity.
  - destruct (String.eqb_spec j id) as [-> | Hne].
    + exfalso. apply Hj. eapply list_elem_of_lookup_2. exact Hk.
    + rewrite (IH k Hk).
      destruct (Z.ltb_spec (Z.of_nat k) 0); lia.
Qed.

Lemma axisFrame_ids (axis : Axis) (n : nat) (s s' : Layout) :
  axisFrame axis s s' ->
  map Item.i (take n s') = map Item.i (take n s).
Proof.
  intros [Hlen H]. apply list_eq. intros k.
  rewrite !list_lookup_fmap.
  destruct (decide (k < n)%nat) as [Hk | Hk].
  - rewrite !lookup_take_lt by exact Hk.
    destruct (s !! k) as [a |] eqn:Ha.
    + destruct (H k a Ha) as [[v Hv] _]. rewrite Hv. cbn.
      rewrite set_axis_i. reflexivity.
    + apply lookup_ge_None in Ha.
      rewrite (lookup_ge_None_2 s' k) by lia. reflexivity.
  - rewrite !lookup_take_ge by lia. reflexivity.
Qed.

Lemma resolveCompactionCollision_terminates (n : nat) (ids : list string) :
  NoDup ids ->
  forall (fuel : nat) (s : Layout) (item : nat) (moveToCoord : Z)
         (axis : Axis) (it : LayoutItem),
    map Item.i (take n s) = ids ->
    s !! item = Some it ->
    is_static it = false ->
    (n - Z.to_nat (indexOf ids (Item.i it) + 1) < fuel)%nat ->
    exists s', resolveCompactionCollision fuel n s item moveToCoord axis
               = Some s'.
Proof.
  intros Hnd. induction fuel as [| fuel IH];
    intros s item moveToCoord axis it Hids Hit Hst Hfuel; [lia |].
  cbn [resolveCompactionCollision].
  set (s1 := alter (fun l => set_axis axis (get_axis axis l + 1) l) item s).
  assert (F1 : axisFrame axis s s1).
  { apply axisFrame_bump. intros a Ha. congruence. }
  assert (Hit1 : s1 !! item
                 = Some (set_axis axis (get_axis axis it + 1) it)).
  { unfold s1. rewrite list_lookup_alter_eq, Hit. reflexivity. }
  rewrite Hit1, set_axis_i.
  rewrite (axisFrame_ids axis n s s1 F1), Hids.
  set (start := Z.to_nat (indexOf ids (Item.i it) + 1)) in *.
  assert (Hstart : (start <= n)%nat).
  { pose proof (indexOf_range ids (Item.i it)) as Hr.
    assert (length ids <= n)%nat.
    { rewrite <- Hids, length_fmap, length_take. lia. }
    unfold start. lia. }
  assert (Hscan : forall count i t,
             (i + count <= n)%nat -> (n - i <= fuel)%nat ->
             map Item.i (take n t) = ids ->
             exists t',
               scanLater
                 (fun s k mv =>
                    resolveCompactionCollision fuel n s k mv axis)
                 item moveToCoord axis count i t = Some t').
  { induction count as [| count IHc]; intros i t Hi Hf Ht;
      cbn [scanLater]; [eauto |].
    destruct (t !! i) as [otherItem |] eqn:Ho; [| eauto].
    destruct (t !! item) as [it' |]; [| eauto].
    destruct (is_static otherItem) eqn:Hso; [apply IHc; [lia | lia | auto] |].
    destruct (Item.y otherItem >? Item.y it' + Item.h it'); [eauto |].
    destruct (collides it' otherItem); [| apply IHc; [lia | lia | auto]].
    assert (Hidx : indexOf ids (Item.i otherItem) = Z.of_nat i).
    { apply indexOf_NoDup; [exact Hnd |].
      rewrite <- Ht, list_lookup_fmap, lookup_take_lt by lia.
      rewrite Ho. reflexivity. }
    destruct (IH t i (moveToCoord + sizeProp axis it') axis otherItem
                Ht Ho Hso) as [t1 Ht1].
    { rewrite Hidx. lia. }
    rewrite Ht1. apply IHc; [lia | lia |].
    rewrite <- Ht. apply (axisFrame_ids axis).
    eapply resolveCompactionCollision_frame; [| exact Ht1].
    intros a Ha. congruence. }
  destruct (Hscan (n - start)%nat start s1) as [s2 Hs2]; [lia | lia | |].
  { rewrite <- Hids. apply (axisFrame_ids axis). exact F1. }
  rewrite Hs2. eauto.
Qed.

(** ** Pulling an item towards the origin *)

Lemma pullBack_spec (axis : Axis) (compareWith : Layout) (count : nat) :
  forall l : LayoutItem,
    exists v,
      pullBack axis compareWith count l = set_axis axis v l
      /\ v <= get_axis axis l
      /\ (0 <= get_axis axis l -> 0 <= v)
      /\ (get_axis axis l <= Z.of_nat count ->
          v <= 0 \/ is_Some (getFirstCollision compareWith
                               (set_axis axis v l))).
Proof.
  induction count as [| count IH]; intros l; cbn [pullBack].
  - exists (get_axis axis l). rewrite set_get_axis.
    repeat split; [lia | auto | intros H; left; lia].
  - destruct (Z.gtb_spec (get_axis axis l) 0) as [Hpos | Hneg];
      cbn [andb].
    + destruct (getFirstCollision compareWith l) as [c |] eqn:Hc.
      * rewrite bool_decide_true by eauto. cbn [negb].
        exists (get_axis axis l). rewrite set_get_axis.
        repeat split; [lia | auto | intros _; right; rewrite Hc; eauto].
      * rewrite bool_decide_false by (intros [? ?]; discriminate).
        cbn [negb].
        destruct (IH (set_axis axis (get_axis axis l - 1) l))
          as (v & Hv & Hle & Hnn & Hexit).
        rewrite get_set_axis in *. rewrite set_set_axis in *.
        exists v. repeat split; [exact Hv | lia | intros; apply Hnn; lia |].
        intros Hcount. apply Hexit. lia.
    + exists (get_axis axis l). rewrite set_get_axis.
      repeat split; [lia | auto | intros _; left; lia].
Qed.

Lemma pullToOrigin_spec (axis : Axis) (compareWith : Layout)
    (l : LayoutItem) :
  exists v,
    pullToOrigin axis compareWith l = set_axis axis v l
    /\ v <= get_axis axis l
    /\ (0 <= get_axis axis l -> 0 <= v)
    /\ (v <= 0 \/ is_Some (getFirstCollision compareWith
                             (set_axis axis v l))).
Proof.
  unfold pullToOrigin.
  destruct (pullBack_spec axis compareWith
              (Z.to_nat (get_axis axis l)) l) as (v & Hv & Hle & Hnn & Hex).
  exists v. repeat split; try assumption.
  destruct (Z.le_gt_cases (get_axis axis l) 0) as [H0 | H0].
  - left. lia.
  - apply Hex. lia.
Qed.

(** ** The outermost call of [resolveCompactionCollision] *)

Lemma resolve_clone (fuel : nat) (fullLayout : Layout) (l : LayoutItem)
    (moveToCoord : Z) (axis : Axis) (store : Layout) :
  is_static l = false ->
  resolveCompactionCollision fuel (length fullLayout) (fullLayout ++ [l])
    (length fullLayout) moveToCoord axis = Some store ->
  store = take (length fullLayout) store ++ [set_axis axis moveToCoord l]
  /\ axisFrame axis fullLayout (take (length fullLayout) store).
Proof.
  intros Hst Hres.
  assert (Hl : (fullLayout ++ [l]) !! length fullLayout = Some l)
    by (apply list_lookup_middle; reflexivity).
  assert (Hns : forall a, (fullLayout ++ [l]) !! length fullLayout = Some a ->
                          is_static a = false)
    by (intros a Ha; congruence).
  destruct (resolveCompactionCollision_frame _ _ _ _ _ _ _ Hns Hres)
    as [[Hlen Hframe] Hitem].
  specialize (Hitem l Hl).
  rewrite length_app in Hlen. cbn [length] in Hlen.
  split.
  - rewrite <- (take_drop (length fullLayout) store) at 1. f_equal.
    apply list_eq. intros k. rewrite lookup_drop.
    destruct k as [| k].
    + rewrite Nat.add_0_r, Hitem. reflexivity.
    + rewrite lookup_ge_None_2 by lia. reflexivity.
  - split; [rewrite length_take; lia |].
    intros k a Ha.
    assert (Hk : (k < length fullLayout)%nat)
      by (eapply lookup_lt_Some; exact Ha).
    rewrite lookup_take_lt by exact Hk.
    apply Hframe. rewrite lookup_app_l by exact Hk. exact Ha.
Qed.

(** ** The second loop of [compactItem] *)

Lemma pullToOrigin_fields (axis : Axis) (compareWith : Layout)
    (l : LayoutItem) :
  pullToOrigin axis compareWith l
  = Item.with_x (Item.x (pullToOrigin axis compareWith l))
      (Item.with_y (Item.y (pullToOrigin axis compareWith l)) l).
Proof.
  destruct (pullToOrigin_spec axis compareWith l) as (v & -> & _).
  destruct axis, l; reflexivity.
Qed.

Lemma pullToOrigin_X_y (compareWith : Layout) (l : LayoutItem) :
  Item.y (pullToOrigin AxisX compareWith l) = Item.y l.
Proof.
  destruct (pullToOrigin_spec AxisX compareWith l) as (v & -> & _).
  reflexivity.
Qed.

Lemma pullToOrigin_Y_x (compareWith : Layout) (l : LayoutItem) :
  Item.x (pullToOrigin AxisY compareWith l) = Item.x l.
Proof.
  destruct (pullToOrigin_spec AxisY compareWith l) as (v & -> & _).
  reflexivity.
Qed.

(** In that loop only the position of the item changes. *)
Lemma advance_fields (compareWith : Layout) (compactType : CompactType)
    (cols : Z) (l c : LayoutItem) :
  advance compareWith compactType cols l c
  = Item.with_x (Item.x (advance compareWith compactType cols l c))
      (Item.with_y (Item.y (advance compareWith compactType cols l c)) l).
Proof.
  unfold advance.
  destruct (isHorizontal compactType && _).
  - rewrite pullToOrigin_fields at 1.
    destruct compactType, l; reflexivity.
  - destruct compactType, l; reflexivity.
Qed.

Lemma advance_static (compareWith : Layout) (compactType : CompactType)
    (cols : Z) (l c : LayoutItem) :
  is_static (advance compareWith compactType cols l c) = is_static l.
Proof. rewrite advance_fields. reflexivity. Qed.

Lemma pushForward_step (fuel : nat) (compareWith : Layout)
    (compactType : CompactType) (cols : Z) (allowOverlap : bool)
    (l c : LayoutItem) (fullLayout : Layout) :
  getFirstCollision compareWith l = Some c ->
  isNull compactType && allowOverlap = false ->
  is_static l = false ->
  pushForward (S fuel) compareWith compactType cols allowOverlap l fullLayout
  = match resolveCompactionCollision fuel (length fullLayout)
            (fullLayout ++ [l]) (length fullLayout)
            (get_axis (axisOf compactType) c
             + sizeProp (axisOf compactType) c) (axisOf compactType) with
    | None => None
    | Some store =>
        pushForward fuel compareWith compactType cols allowOverlap
          (advance compareWith compactType cols l c)
          (take (length fullLayout) store)
    end.
Proof.
  intros Hc Hov Hst. cbn [pushForward]. rewrite Hc, Hov.
  replace (if isHorizontal compactType
           then resolveCompactionCollision fuel (length fullLayout)
                  (fullLayout ++ [l]) (length fullLayout)
                  (Item.x c + Item.w c) AxisX
           else resolveCompactionCollision fuel (length fullLayout)
                  (fullLayout ++ [l]) (length fullLayout)
                  (Item.y c + Item.h c) AxisY)
    with (resolveCompactionCollision fuel (length fullLayout)
            (fullLayout ++ [l]) (length fullLayout)
            (get_axis (axisOf compactType) c
             + sizeProp (axisOf compactType) c) (axisOf compactType))
    by (destruct compactType; reflexivity).
  destruct (resolveCompactionCollision _ _ _ _ _ _) as [store |] eqn:Hres;
    [| reflexivity].
  destruct (resolve_clone _ _ _ _ _ _ Hst Hres) as [Hstore _].
  assert (Hn : store !! length fullLayout
               = Some (set_axis (axisOf compactType)
                         (get_axis (axisOf compactType) c
                          + sizeProp (axisOf compactType) c) l)).
  { rewrite Hstore. apply list_lookup_middle.
    rewrite length_take.
    assert (length store = S (length fullLayout)).
    { apply resolveCompactionCollision_frame in Hres as [[Hlen _] _].
      - rewrite Hlen, length_app. cbn. lia.
      - intros a Ha. rewrite list_lookup_middle in Ha by reflexivity.
        congruence. }
    lia. }
  rewrite Hn. cbn [default]. reflexivity.
Qed.

Lemma pushForward_trace (compareWith : Layout) (compactType : CompactType)
    (cols : Z) (allowOverlap : bool) (fuel : nat) :
  forall (l : LayoutItem) (fullLayout : Layout) (l' : LayoutItem)
         (fullLayout' : Layout),
    is_static l = false ->
    pushForward fuel compareWith compactType cols allowOverlap l fullLayout
    = Some (l', fullLayout') ->
    pushTrace compareWith compactType cols allowOverlap l l'
    /\ axisFrame (axisOf compactType) fullLayout fullLayout'.
Proof.
  induction fuel as [| fuel IH]; intros l fullLayout l' fullLayout' Hst.
  - cbn [pushForward].
    destruct (getFirstCollision compareWith l) as [c |] eqn:Hc.
    + destruct (isNull compactType && allowOverlap) eqn:Hov;
        [| discriminate].
      intros [= <- <-].
      split; [apply pushTrace_overlap; exact Hov | apply axisFrame_refl].
    + intros [= <- <-].
      split; [apply pushTrace_clear; exact Hc | apply axisFrame_refl].
  - destruct (getFirstCollision compareWith l) as [c |] eqn:Hc.
    + destruct (isNull compactType && allowOverlap) eqn:Hov.
      * cbn [pushForward]. rewrite Hc, Hov. intros [= <- <-].
        split; [apply pushTrace_overlap; exact Hov | apply axisFrame_refl].
      * rewrite (pushForward_step _ _ _ _ _ _ _ _ Hc Hov Hst).
        destruct (resolveCompactionCollision _ _ _ _ _ _) as [store |]
          eqn:Hres; [| discriminate].
        intros Hrest.
        destruct (resolve_clone _ _ _ _ _ _ Hst Hres) as [_ Hframe].
        apply IH in Hrest as [Htrace Hframe'];
          [| rewrite advance_static; exact Hst].
        split.
        -- eapply pushTrace_step; eassumption.
        -- eapply axisFrame_trans; eassumption.
    + cbn [pushForward]. rewrite Hc. intros [= <- <-].
      split; [apply pushTrace_clear; exact Hc | apply axisFrame_refl].
Qed.

Lemma pushForward_mono (compareWith : Layout) (compactType : CompactType)
    (cols : Z) (allowOverlap : bool) (fuel fuel' : nat) :
  (fuel <= fuel')%nat ->
  forall l fullLayout r,
    pushForward fuel compareWith compactType cols allowOverlap l fullLayout
    = Some r ->
    pushForward fuel' compareWith compactType cols allowOverlap l fullLayout
    = Some r.
Proof.
  revert fuel'. induction fuel as [| fuel IH]; intros fuel' Hle l fullLayout r.
  - destruct fuel'; cbn [pushForward];
      destruct (getFirstCollision compareWith l); try (intros H; exact H);
      destruct (isNull compactType && allowOverlap); try (intros H; exact H);
      discriminate.
  - destruct fuel' as [| fuel']; [lia |]. cbn [pushForward].
    destruct (getFirstCollision compareWith l) as [c |]; [| auto].
    destruct (isNull compactType && allowOverlap); [auto |].
    destruct (isHorizontal compactType).
    + destruct (resolveCompactionCollision fuel _ _ _ _ _) as [store |]
        eqn:Hres; [| discriminate].
      rewrite (resolveCompactionCollision_mono fuel fuel' _ ltac:(lia)
                 _ _ _ _ _ Hres).
      apply IH. lia.
    + destruct (resolveCompactionCollision fuel _ _ _ _ _) as [store |]
        eqn:Hres; [| discriminate].
      rewrite (resolveCompactionCollision_mono fuel fuel' _ ltac:(lia)
                 _ _ _ _ _ Hres).
      apply IH. lia.
Qed.

Lemma pushForward_clear (fuel : nat) (compareWith : Layout)
    (compactType : CompactType) (cols : Z) (allowOverlap : bool)
    (l : LayoutItem) (fullLayout : Layout) :
  getFirstCollision compareWith l = None ->
  pushForward fuel compareWith compactType cols allowOverlap l fullLayout
  = Some (l, fullLayout).
Proof. intros Hc. destruct fuel; cbn [pushForward]; rewrite Hc; reflexivity. Qed.

Lemma pushForward_overlap (fuel : nat) (compareWith : Layout)
    (compactType : CompactType) (cols : Z) (allowOverlap : bool)
    (l : LayoutItem) (fullLayout : Layout) :
  isNull compactType && allowOverlap = true ->
  pushForward fuel compareWith compactType cols allowOverlap l fullLayout
  = Some (l, fullLayout).
Proof.
  intros Hov. destruct fuel; cbn [pushForward]; rewrite Hov;
    destruct (getFirstCollision compareWith l); reflexivity.
Qed.

Lemma axisFrame_all_ids (axis : Axis) (s s' : Layout) :
  axisFrame axis s s' -> map Item.i s' = map Item.i s.
Proof.
  intros F. pose proof (axisFrame_ids axis (length s) s s' F) as H.
  destruct F as [Hlen _].
  rewrite <- Hlen in H at 1. rewrite !firstn_all in H. exact H.
Qed.

Lemma right_edge_bound (layout : Layout) :
  exists R, forall c, c ∈ layout -> Item.x c + Item.w c <= R.
Proof.
  induction layout as [| a rest [R HR]].
  - exists 0. intros c Hc. inversion Hc.
  - exists (Z.max R (Item.x a + Item.w a)). intros c Hc.
    apply elem_of_cons in Hc as [-> | Hc]; [lia |].
    specialize (HR c Hc). lia.
Qed.

(** Each turn of the loop either takes the item further down, or
    leaves its row and takes it further right. *)
Lemma advance_progress (compareWith : Layout) (compactType : CompactType)
    (cols R : Z) (l c : LayoutItem) :
  (forall c, c ∈ compareWith -> Item.x c + Item.w c <= R) ->
  getFirstCollision compareWith l = Some c ->
  (Item.y l < Item.y (advance compareWith compactType cols l c)
   /\ Item.y l < bottom compareWith)
  \/ (Item.y (advance compareWith compactType cols l c) = Item.y l
      /\ Item.x l < Item.x (advance compareWith compactType cols l c)
      /\ Item.x l < R).
Proof.
  intros HR Hc. apply getFirstCollision_Some in Hc as [Hin Hcol].
  apply collides_iff in Hcol.
  pose proof (bottom_ge compareWith c Hin) as Hb.
  pose proof (HR c Hin) as Hr.
  unfold advance.
  destruct compactType; cbn [isHorizontal axisOf andb get_axis sizeProp
                               set_axis].
  - destruct (Z.gtb_spec
                (Item.x (Item.with_x (Item.x c + Item.w c) l)
                 + Item.w (Item.with_x (Item.x c + Item.w c) l)) cols).
    + left. rewrite pullToOrigin_X_y. cbn. lia.
    + right. cbn. lia.
  - left. cbn. lia.
  - left. cbn. lia.
Qed.

Lemma pushForward_terminates (compareWith : Layout)
    (compactType : CompactType) (cols : Z) (allowOverlap : bool)
    (ids : list string) :
  NoDup ids ->
  forall l : LayoutItem,
    is_static l = false ->
    exists f0 : nat,
      forall fuel fullLayout,
        (f0 <= fuel)%nat -> map Item.i fullLayout = ids ->
        exists r,
          pushForward fuel compareWith compactType cols allowOverlap
            l fullLayout = Some r.
Proof.
  intros Hnd.
  destruct (right_edge_bound compareWith) as [R HR].
  assert (H : forall a b l,
             a = Z.to_nat (bottom compareWith - Item.y l) ->
             b = Z.to_nat (R - Item.x l) ->
             is_static l = false ->
             exists f0 : nat,
               forall fuel fullLayout,
                 (f0 <= fuel)%nat -> map Item.i fullLayout = ids ->
                 exists r,
                   pushForward fuel compareWith compactType cols
                     allowOverlap l fullLayout = Some r).
  { induction a as [a IHa] using lt_wf_ind.
    induction b as [b IHb] using lt_wf_ind.
    intros l Ha Hb Hst.
    destruct (getFirstCollision compareWith l) as [c |] eqn:Hc;
      [| exists 0%nat; intros; rewrite pushForward_clear; eauto].
    destruct (isNull compactType && allowOverlap) eqn:Hov;
      [exists 0%nat; intros; rewrite pushForward_overlap; eauto |].
    assert (Hst2 : is_static (advance compareWith compactType cols l c)
                   = false) by (rewrite advance_static; exact Hst).
    assert (Hnext : exists f0 : nat,
               forall fuel fullLayout,
                 (f0 <= fuel)%nat -> map Item.i fullLayout = ids ->
                 exists r,
                   pushForward fuel compareWith compactType cols
                     allowOverlap
                     (advance compareWith compactType cols l c)
                     fullLayout = Some r).
    { destruct (advance_progress compareWith compactType cols R l c HR Hc)
        as [[Hy Hbot] | (Hy & Hx & HxR)].
      - eapply (IHa (Z.to_nat
                       (bottom compareWith
                        - Item.y (advance compareWith compactType cols
                                    l c))));
          [lia | reflexivity | reflexivity | exact Hst2].
      - eapply (IHb (Z.to_nat
                       (R - Item.x (advance compareWith compactType cols
                                      l c))));
          [lia | rewrite Hy; exact Ha | reflexivity | exact Hst2]. }
    destruct Hnext as [f1 Hf1].
    exists (S (Nat.max (S (length ids)) f1)).
    intros fuel fullLayout Hfuel Hids.
    destruct fuel as [| fuel]; [lia |].
    rewrite (pushForward_step _ _ _ _ _ _ _ _ Hc Hov Hst).
    assert (Hn : length fullLayout = length ids)
      by (rewrite <- Hids, length_fmap; reflexivity).
    destruct (resolveCompactionCollision_terminates
                (length fullLayout) ids Hnd fuel (fullLayout ++ [l])
                (length fullLayout)
                (get_axis (axisOf compactType) c
                 + sizeProp (axisOf compactType) c)
                (axisOf compactType) l) as [store Hstore].
    - rewrite take_app_length. exact Hids.
    - apply list_lookup_middle. reflexivity.
    - exact Hst.
    - lia.
    - rewrite Hstore.
      destruct (resolve_clone _ _ _ _ _ _ Hst Hstore) as [_ Hframe].
      apply Hf1; [lia |].
      rewrite (axisFrame_all_ids _ _ _ Hframe). exact Hids. }
  intros l Hst. eapply H; [reflexivity | reflexivity | exact Hst].
Qed.

(** ** [compactItem] and one turn of the loop of [compact] *)

Lemma compactItem_eq (fuel : nat) (compareWith : Layout) (l : LayoutItem)
    (compactType : CompactType) (cols : Z) (fullLayout : Layout)
    (allowOverlap : bool) :
  compactItem fuel compareWith l compactType cols fullLayout allowOverlap
  = match pushForward fuel compareWith compactType cols allowOverlap
            (pulled compareWith compactType l) fullLayout with
    | None => None
    | Some (l2, fullLayout') => Some (clampOrigin l2, fullLayout')
    end.
Proof. destruct compactType; reflexivity. Qed.

Lemma pulled_fields (compareWith : Layout) (compactType : CompactType)
    (l : LayoutItem) :
  pulled compareWith compactType l
  = Item.with_x (Item.x (pulled compareWith compactType l))
      (Item.with_y (Item.y (pulled compareWith compactType l)) l).
Proof.
  destruct compactType; cbn [pulled].
  - rewrite pullToOrigin_fields at 1. destruct l; reflexivity.
  - rewrite pullToOrigin_fields at 1. destruct l; reflexivity.
  - destruct l; reflexivity.
Qed.

Lemma pulled_static (compareWith : Layout) (compactType : CompactType)
    (l : LayoutItem) :
  is_static (pulled compareWith compactType l) = is_static l.
Proof. rewrite pulled_fields. reflexivity. Qed.

Lemma cloneLayoutItem_static (l : LayoutItem) :
  is_static (cloneLayoutItem l) = is_static l.
Proof. unfold is_static. cbn. destruct (Item.static l) as [[|] |]; reflexivity. Qed.

(** What one turn of the loop of [compact] does. *)
Lemma compactStep_spec (fuel : nat) (compactType : CompactType) (cols : Z)
    (allowOverlap : bool) (i origin : nat) (st st' : CompactState)
    (a : LayoutItem) :
  cs_sorted st !! i = Some a ->
  compactStep fuel compactType cols allowOverlap i origin st = Some st' ->
  (is_static a = true
   /\ st' = mkCompactState (cs_compareWith st) (cs_sorted st)
              (<[origin := Some (Item.with_moved false (cloneLayoutItem a))]>
                 (cs_out st)))
  \/ (is_static a = false
      /\ exists l2 fullLayout',
           pushForward fuel (cs_compareWith st) compactType cols
             allowOverlap
             (pulled (cs_compareWith st) compactType (cloneLayoutItem a))
             (cs_sorted st)
           = Some (l2, fullLayout')
           /\ st' = mkCompactState
                      (cs_compareWith st
                       ++ [Item.with_moved false (clampOrigin l2)])
                      fullLayout'
                      (<[origin := Some (Item.with_moved false
                                           (clampOrigin l2))]>
                         (cs_out st))).
Proof.
  intros Ha. unfold compactStep. rewrite Ha, cloneLayoutItem_static.
  destruct (is_static a) eqn:Hst; cbn [negb].
  - intros [= <-]. left. split; reflexivity.
  - rewrite compactItem_eq.
    destruct (pushForward _ _ _ _ _ _ _) as [[l2 fullLayout'] |] eqn:Hpf;
      [| discriminate].
    intros [= <-]. right. split; [reflexivity |].
    exists l2, fullLayout'. split; reflexivity.
Qed.

Lemma compactStep_missing (fuel : nat) (compactType : CompactType)
    (cols : Z) (allowOverlap : bool) (i origin : nat) (st : CompactState) :
  cs_sorted st !! i = None ->
  compactStep fuel compactType cols allowOverlap i origin st = Some st.
Proof. intros Ha. unfold compactStep. rewrite Ha. reflexivity. Qed.

Lemma compactStep_frame (fuel : nat) (compactType : CompactType) (cols : Z)
    (allowOverlap : bool) (i origin : nat) (st st' : CompactState) :
  compactStep fuel compactType cols allowOverlap i origin st = Some st' ->
  axisFrame (axisOf compactType) (cs_sorted st) (cs_sorted st').
Proof.
  intros Hstep. destruct (cs_sorted st !! i) as [a |] eqn:Ha.
  - destruct (compactStep_spec _ _ _ _ _ _ _ _ _ Ha Hstep)
      as [[_ ->] | (Hst & l2 & full' & Hpf & ->)]; cbn [cs_sorted].
    + apply axisFrame_refl.
    + eapply pushForward_trace; [| exact Hpf].
      rewrite pulled_static, cloneLayoutItem_static. exact Hst.
  - rewrite compactStep_missing in Hstep by exact Ha.
    injection Hstep as <-. apply axisFrame_refl.
Qed.

Lemma compactStep_mono (fuel fuel' : nat) (compactType : CompactType)
    (cols : Z) (allowOverlap : bool) (i origin : nat)
    (st st' : CompactState) :
  (fuel <= fuel')%nat ->
  compactStep fuel compactType cols allowOverlap i origin st = Some st' ->
  compactStep fuel' compactType cols allowOverlap i origin st = Some st'.
Proof.
  intros Hle. unfold compactStep.
  destruct (cs_sorted st !! i) as [a |]; [| auto].
  destruct (negb (is_static (cloneLayoutItem a))); [| auto].
  rewrite !compactItem_eq.
  destruct (pushForward fuel _ _ _ _ _ _) as [r |] eqn:Hpf; [| discriminate].
  rewrite (pushForward_mono _ _ _ _ fuel fuel' Hle _ _ _ Hpf). auto.
Qed.

Lemma compactStep_terminates (compactType : CompactType) (cols : Z)
    (allowOverlap : bool) (i origin : nat) (st : CompactState) :
  NoDup (map Item.i (cs_sorted st)) ->
  exists f0 : nat,
    forall fuel, (f0 <= fuel)%nat ->
      exists st',
        compactStep fuel compactType cols allowOverlap i origin st
        = Some st'.
Proof.
  intros Hnd. unfold compactStep.
  destruct (cs_sorted st !! i) as [a |]; [| exists 0%nat; eauto].
  destruct (negb (is_static (cloneLayoutItem a))) eqn:Hst;
    [| exists 0%nat; eauto].
  apply negb_true_iff in Hst.
  destruct (pushForward_terminates (cs_compareWith st) compactType cols
              allowOverlap _ Hnd
              (pulled (cs_compareWith st) compactType (cloneLayoutItem a)))
    as [f0 Hf0].
  { rewrite pulled_static. exact Hst. }
  exists f0. intros fuel Hfuel.
  destruct (Hf0 fuel (cs_sorted st) Hfuel eq_refl) as [[l2 full'] Hr].
  rewrite compactItem_eq, Hr. eauto.
Qed.

(** ** The loop of [compact] *)

Lemma compactLoop_mono (fuel fuel' : nat) (compactType : CompactType)
    (cols : Z) (allowOverlap : bool) :
  (fuel <= fuel')%nat ->
  forall origins i st st',
    compactLoop fuel compactType cols allowOverlap i origins st = Some st' ->
    compactLoop fuel' compactType cols allowOverlap i origins st = Some st'.
Proof.
  intros Hle. induction origins as [| origin rest IH]; intros i st st';
    cbn [compactLoop]; [auto |].
  destruct (compactStep fuel _ _ _ _ _ _) as [st1 |] eqn:Hstep;
    [| discriminate].
  rewrite (compactStep_mono _ _ _ _ _ _ _ _ _ Hle Hstep). apply IH.
Qed.

Lemma compactLoop_terminates (compactType : CompactType) (cols : Z)
    (allowOverlap : bool) :
  forall origins i st,
    NoDup (map Item.i (cs_sorted st)) ->
    exists f0 : nat,
      forall fuel, (f0 <= fuel)%nat ->
        exists st',
          compactLoop fuel compactType cols allowOverlap i origins st
          = Some st'.
Proof.
  induction origins as [| origin rest IH]; intros i st Hnd.
  - exists 0%nat. intros. cbn. eauto.
  - destruct (compactStep_terminates compactType cols allowOverlap i origin
                st Hnd) as [f1 Hf1].
    destruct (Hf1 f1 (Nat.le_refl _)) as [st1 Hst1].
    destruct (IH (S i) st1) as [f2 Hf2].
    { rewrite (axisFrame_all_ids _ _ _
                 (compactStep_frame _ _ _ _ _ _ _ _ Hst1)).
      exact Hnd. }
    exists (Nat.max f1 f2). intros fuel Hfuel. cbn [compactLoop].
    rewrite (compactStep_mono f1 fuel _ _ _ _ _ _ _ ltac:(lia) Hst1).
    apply Hf2. lia.
Qed.

(** An invariant of the loop: it holds at the end when it holds at the
    start and every turn keeps it. *)
Lemma compactLoop_invariant (I : nat -> CompactState -> Prop) (fuel : nat)
    (compactType : CompactType) (cols : Z) (allowOverlap : bool)
    (tags : list nat) :
  (forall j origin s s',
      I j s -> tags !! j = Some origin ->
      compactStep fuel compactType cols allowOverlap j origin s = Some s' ->
      I (S j) s') ->
  forall origins i st st',
    (forall j origin, origins !! j = Some origin ->
                      tags !! (i + j)%nat = Some origin) ->
    I i st ->
    compactLoop fuel compactType cols allowOverlap i origins st = Some st' ->
    I (i + length origins)%nat st'.
Proof.
  intros Hstep. induction origins as [| origin rest IH];
    intros i st st' Htags HI; cbn [compactLoop length].
  - intros [= <-]. rewrite Nat.add_0_r. exact HI.
  - destruct (compactStep fuel _ _ _ _ _ _) as [st1 |] eqn:Hs;
      [| discriminate].
    intros Hloop.
    replace (i + S (length rest))%nat with (S i + length rest)%nat by lia.
    eapply IH; [| | exact Hloop].
    + intros j o Hj. replace (S i + j)%nat with (i + S j)%nat by lia.
      apply Htags. exact Hj.
    + eapply Hstep; [exact HI | | exact Hs].
      specialize (Htags 0%nat origin eq_refl).
      rewrite Nat.add_0_r in Htags. exact Htags.
Qed.

(** ** The output of [compact], slot by slot *)

Lemma movedTo_refl (l : LayoutItem) : movedTo l l.
Proof. unfold movedTo. destruct l; reflexivity. Qed.

Lemma movedTo_trans (l r s : LayoutItem) :
  movedTo l r -> movedTo r s -> movedTo l s.
Proof.
  unfold movedTo. intros Hr Hs. rewrite Hs at 1. rewrite Hr at 1.
  destruct l; reflexivity.
Qed.

Lemma movedTo_set_axis (axis : Axis) (v : Z) (l : LayoutItem) :
  movedTo l (set_axis axis v l).
Proof. unfold movedTo. destruct axis, l; reflexivity. Qed.

Lemma movedTo_clampOrigin (l : LayoutItem) : movedTo l (clampOrigin l).
Proof. unfold movedTo. destruct l; reflexivity. Qed.

Lemma movedTo_clone (l r : LayoutItem) :
  movedTo l r -> movedTo (cloneLayoutItem l) (cloneLayoutItem r).
Proof. unfold movedTo. intros H. rewrite H at 1. destruct l; reflexivity. Qed.

Lemma pushTrace_movedTo (compareWith : Layout) (compactType : CompactType)
    (cols : Z) (allowOverlap : bool) (l l' : LayoutItem) :
  pushTrace compareWith compactType cols allowOverlap l l' -> movedTo l l'.
Proof.
  induction 1 as [l _ | l _ | l c l' _ _ _ IH];
    [apply movedTo_refl | apply movedTo_refl |].
  eapply movedTo_trans; [| exact IH]. apply advance_fields.
Qed.

Lemma compactedFrom_intro (a r : LayoutItem) :
  movedTo (cloneLayoutItem a) r -> compactedFrom a (Item.with_moved false r).
Proof.
  unfold movedTo, compactedFrom. intros H. rewrite H at 1.
  destruct a; reflexivity.
Qed.

Lemma compactedFrom_fields (a o : LayoutItem) :
  compactedFrom a o ->
  Item.i o = Item.i a /\ Item.w o = Item.w a /\ Item.h o = Item.h a
  /\ Item.moved o = Some false /\ is_static o = is_static a.
Proof.
  unfold compactedFrom. intros ->. cbn.
  repeat split. apply cloneLayoutItem_static.
Qed.

Lemma withOrigins_lookup (layout : Layout) (k : nat) (a : LayoutItem) :
  (k, a) ∈ withOrigins layout <-> layout !! k = Some a.
Proof.
  unfold withOrigins. rewrite elem_of_lookup_imap. split.
  - intros (i & x & [= -> ->] & Hx). exact Hx.
  - intros H. eauto.
Qed.

Lemma sorted_entry (layout : Layout) (compactType : CompactType)
    (j k : nat) :
  sortedOrigins layout compactType !! j = Some k ->
  exists a, sortedItems layout compactType !! j = Some a
            /\ layout !! k = Some a.
Proof.
  unfold sortedOrigins, sortedItems. rewrite !list_lookup_fmap.
  destruct (sortLayoutItems snd (withOrigins layout) compactType !! j)
    as [[k' a] |] eqn:E; [| discriminate].
  cbn. intros [= ->]. exists a. split; [reflexivity |].
  apply withOrigins_lookup.
  rewrite <- (sortLayoutItems_perm snd (withOrigins layout) compactType).
  eapply list_elem_of_lookup_2. exact E.
Qed.

Lemma sorted_covers (layout : Layout) (compactType : CompactType)
    (k : nat) (a : LayoutItem) :
  layout !! k = Some a ->
  exists j, sortedOrigins layout compactType !! j = Some k
            /\ sortedItems layout compactType !! j = Some a.
Proof.
  intros Hk. apply withOrigins_lookup in Hk.
  rewrite <- (sortLayoutItems_perm snd (withOrigins layout) compactType)
    in Hk.
  apply list_elem_of_lookup_1 in Hk as [j Hj].
  exists j. unfold sortedOrigins, sortedItems.
  rewrite !list_lookup_fmap, Hj. split; reflexivity.
Qed.

Lemma sorted_lengths (layout : Layout) (compactType : CompactType) :
  length (sortedOrigins layout compactType) = length layout
  /\ length (sortedItems layout compactType) = length layout.
Proof.
  unfold sortedOrigins, sortedItems. rewrite !length_fmap.
  rewrite (sortLayoutItems_perm snd (withOrigins layout) compactType).
  unfold withOrigins. rewrite length_imap. split; reflexivity.
Qed.

Lemma frameInv_step (layout : Layout) (fuel : nat)
    (compactType : CompactType) (cols : Z) (allowOverlap : bool)
    (j origin : nat) (s s' : CompactState) :
  frameInv layout compactType j s ->
  sortedOrigins layout compactType !! j = Some origin ->
  compactStep fuel compactType cols allowOverlap j origin s = Some s' ->
  frameInv layout compactType (S j) s'.
Proof.
  intros (Hlen & Hframe & Hout & Hdone) Htag Hstep.
  destruct (sorted_entry _ _ _ _ Htag) as (a0 & Ha0 & Hlay).
  destruct Hframe as [Hflen Hf].
  destruct (Hf j a0 Ha0) as [[v Hcur] Hstat].
  pose proof (compactStep_frame _ _ _ _ _ _ _ _ Hstep) as Hframe'.
  assert (Hnew : exists o,
             cs_out s' = <[origin := Some o]> (cs_out s)
             /\ compactedFrom a0 o).
  { destruct (compactStep_spec _ _ _ _ _ _ _ _ _ Hcur Hstep)
      as [[Hst ->] | (Hst & l2 & full' & Hpf & ->)]; cbn [cs_out].
    - eexists. split; [reflexivity |].
      apply compactedFrom_intro. apply movedTo_clone.
      apply movedTo_set_axis.
    - eexists. split; [reflexivity |].
      apply compactedFrom_intro.
      eapply movedTo_trans; [| apply movedTo_clampOrigin].
      eapply movedTo_trans;
        [| eapply pushTrace_movedTo, pushForward_trace; [| exact Hpf]].
      + eapply movedTo_trans; [| apply pulled_fields].
        apply movedTo_clone. apply movedTo_set_axis.
      + rewrite pulled_static, cloneLayoutItem_static. exact Hst. }
  destruct Hnew as (o & Houteq & Hrel).
  assert (Hk : (origin < length (cs_out s))%nat).
  { rewrite Hlen. eapply lookup_lt_Some. exact Hlay. }
  split; [rewrite Houteq, length_insert; exact Hlen |].
  split; [eapply axisFrame_trans; [split; eassumption | exact Hframe'] |].
  split.
  - intros k e. rewrite Houteq.
    destruct (decide (k = origin)) as [-> | Hne].
    + rewrite list_lookup_insert_eq by exact Hk. intros [= <-].
      right. eauto.
    + rewrite list_lookup_insert_ne by auto. apply Hout.
  - intros j' k Hj' Hk'. rewrite Houteq.
    destruct (decide (k = origin)) as [-> | Hne].
    + rewrite list_lookup_insert_eq by exact Hk. eauto.
    + rewrite list_lookup_insert_ne by auto.
      apply (Hdone j'); [| exact Hk'].
      assert (j' <> j) by (intros ->; congruence). lia.
Qed.

(** Whatever the fuel, a result of [compact] has the length of the
    input and holds, at each position, the item of the input at that
    position, moved, with its [moved] flag cleared. *)
Lemma compact_frame (fuel : nat) (layout : Layout)
    (compactType : CompactType) (cols : Z) (allowOverlap : bool)
    (out : list (option LayoutItem)) :
  compact fuel layout compactType cols allowOverlap = Some out ->
  length out = length layout
  /\ forall k a, layout !! k = Some a ->
       exists o, out !! k = Some (Some o) /\ compactedFrom a o.
Proof.
  unfold compact.
  destruct (compactLoop _ _ _ _ _ _ _) as [st |] eqn:Hloop; [| discriminate].
  intros [= <-].
  fold (sortedOrigins layout compactType) in Hloop.
  fold (sortedItems layout compactType) in Hloop.
  assert (HI : frameInv layout compactType
                 (0 + length (sortedOrigins layout compactType)) st).
  { eapply (compactLoop_invariant (frameInv layout compactType));
      [| | | exact Hloop].
    - intros j origin s s'. apply frameInv_step.
    - intros j origin Hj. exact Hj.
    - split; [apply length_replicate |].
      split; [apply axisFrame_refl |].
      split; [| intros j' k Hj'; lia].
      intros k e He. apply lookup_replicate in He as [-> _]. auto. }
  destruct HI as (Hlen & _ & Hout & Hdone).
  split; [exact Hlen |].
  intros k a Hk. destruct (sorted_covers _ compactType _ _ Hk) as (j & Hj & _).
  destruct (Hdone j k) as [o Ho]; [| exact Hj |].
  { apply lookup_lt_Some in Hj. lia. }
  exists o. split; [exact Ho |].
  destruct (Hout k _ Ho) as [Hnone | (o' & a' & [= <-] & Ha' & Hrel)];
    [discriminate |].
  congruence.
Qed.

Lemma compact_mono (fuel fuel' : nat) (layout : Layout)
    (compactType : CompactType) (cols : Z) (allowOverlap : bool)
    (out : list (option LayoutItem)) :
  (fuel <= fuel')%nat ->
  compact fuel layout compactType cols allowOverlap = Some out ->
  compact fuel' layout compactType cols allowOverlap = Some out.
Proof.
  intros Hle. unfold compact.
  destruct (compactLoop fuel _ _ _ _ _ _) as [st |] eqn:Hloop;
    [| discriminate].
  rewrite (compactLoop_mono _ _ _ _ _ Hle _ _ _ _ Hloop). auto.
Qed.

(** The result of [compact] does not depend on the fuel. *)
Lemma compact_deterministic (fuel fuel' : nat) (layout : Layout)
    (compactType : CompactType) (cols : Z) (allowOverlap : bool)
    (out out' : list (option LayoutItem)) :
  compact fuel layout compactType cols allowOverlap = Some out ->
  compact fuel' layout compactType cols allowOverlap = Some out' ->
  out' = out.
Proof.
  intros H H'.
  apply (compact_mono _ (Nat.max fuel fuel')) in H; [| lia].
  apply (compact_mono _ (Nat.max fuel fuel')) in H'; [| lia].
  congruence.
Qed.

Lemma withOrigins_items (layout : Layout) :
  map snd (withOrigins layout) = layout.
Proof.
  unfold withOrigins. apply list_eq. intros k.
  rewrite list_lookup_fmap, list_lookup_imap.
  destruct (layout !! k); reflexivity.
Qed.

Lemma sortedItems_perm (layout : Layout) (compactType : CompactType) :
  sortedItems layout compactType ≡ₚ layout.
Proof.
  unfold sortedItems.
  rewrite (sortLayoutItems_perm snd (withOrigins layout) compactType).
  rewrite withOrigins_items. reflexivity.
Qed.

(** With distinct ids, [compact] returns. *)
Lemma compact_terminates (layout : Layout) (compactType : CompactType)
    (cols : Z) (allowOverlap : bool) :
  NoDup (map Item.i layout) ->
  exists fuel out,
    compact fuel layout compactType cols allowOverlap = Some out.
Proof.
  intros Hnd. unfold compact.
  destruct (compactLoop_terminates compactType cols allowOverlap
              (map fst (sortLayoutItems snd (withOrigins layout)
                          compactType))
              0
              (mkCompactState (getStatics layout)
                 (map snd (sortLayoutItems snd (withOrigins layout)
                             compactType))
                 (replicate (length layout) None))) as [f0 Hf0].
  { cbn [cs_sorted]. fold (sortedItems layout compactType).
    rewrite (sortedItems_perm layout compactType). exact Hnd. }
  destruct (Hf0 f0 (Nat.le_refl _)) as [st Hst].
  exists f0, (cs_out st). rewrite Hst. reflexivity.
Qed.

(** C10: for every layout, mode, column count and overlap flag, an
    array returned by [compact] has the length of the input and no
    holes, and its item at each index is the item of the input at that
    index with only [x], [y] and [moved] assigned: same [i], [w] and
    [h], and [moved] false.  For a layout with distinct ids [compact]
    does return, and the array is the same whatever the fuel. *)
Theorem C10_compact_changes_only_position
    (layout : Layout) (compactType : CompactType) (cols : Z)
    (allowOverlap : bool) :
  (forall fuel out,
      compact fuel layout compactType cols allowOverlap = Some out ->
      length out = length layout
      /\ forall k a, layout !! k = Some a ->
           exists o,
             out !! k = Some (Some o)
             /\ Item.i o = Item.i a /\ Item.w o = Item.w a
             /\ Item.h o = Item.h a /\ Item.moved o = Some false
             /\ compactedFrom a o)
  /\ (NoDup (map Item.i layout) ->
      exists out,
        (exists fuel,
            compact fuel layout compactType cols allowOverlap = Some out)
        /\ (forall fuel out',
               compact fuel layout compactType cols allowOverlap
               = Some out' ->
               out' = out)).
Proof.
  split.
  - intros fuel out Hout.
    destruct (compact_frame _ _ _ _ _ _ Hout) as [Hlen Hall].
    split; [exact Hlen |].
    intros k a Hk. destruct (Hall k a Hk) as (o & Ho & Hrel).
    exists o. split; [exact Ho |].
    destruct (compactedFrom_fields a o Hrel) as (Hi & Hw & Hh & Hm & _).
    auto.
  - intros Hnd.
    destruct (compact_terminates layout compactType cols allowOverlap Hnd)
      as (fuel & out & Hout).
    exists out. split; [eauto |].
    intros fuel' out' H'. eapply compact_deterministic; eassumption.
Qed.

(** ** Compaction keeps well-formed items well-formed *)

Lemma wellFormed_set_axis (compactType : CompactType) (cols : Z)
    (axis : Axis) (v : Z) (a : LayoutItem) :
  wellFormed compactType cols a -> 0 <= v ->
  wellFormed compactType cols (set_axis axis v a).
Proof.
  unfold wellFormed. intros H Hv. destruct axis; cbn; intuition lia.
Qed.

Lemma wellFormed_movedTo (compactType : CompactType) (cols : Z)
    (a r : LayoutItem) :
  wellFormed compactType cols a -> movedTo a r ->
  0 <= Item.x r -> 0 <= Item.y r ->
  wellFormed compactType cols r.
Proof.
  unfold wellFormed, movedTo. intros H Hr Hx Hy.
  rewrite Hr. cbn. intuition lia.
Qed.

Lemma wellFormed_clone (compactType : CompactType) (cols : Z)
    (a : LayoutItem) :
  wellFormed compactType cols a ->
  wellFormed compactType cols (cloneLayoutItem a).
Proof. unfold wellFormed. cbn. auto. Qed.

Lemma scanLater_wellFormed (compactType : CompactType) (cols : Z)
    (recur : Layout -> nat -> Z -> option Layout)
    (item : nat) (moveToCoord : Z) (axis : Axis) :
  0 <= moveToCoord ->
  (forall s k mv s',
      recur s k mv = Some s' -> 0 <= mv ->
      Forall (wellFormed compactType cols) s ->
      Forall (wellFormed compactType cols) s') ->
  forall count i s s',
    scanLater recur item moveToCoord axis count i s = Some s' ->
    Forall (wellFormed compactType cols) s ->
    Forall (wellFormed compactType cols) s'.
Proof.
  intros Hmv Hrec. induction count as [| count IH]; intros i s s';
    cbn [scanLater].
  - intros [= <-]. auto.
  - destruct (s !! i) as [otherItem |] eqn:Ho; [| intros [= <-]; auto].
    destruct (s !! item) as [it |] eqn:Hit; [| intros [= <-]; auto].
    destruct (is_static otherItem); [apply IH |].
    destruct (Item.y otherItem >? Item.y it + Item.h it);
      [intros [= <-]; auto |].
    destruct (collides it otherItem); [| apply IH].
    destruct (recur s i (moveToCoord + sizeProp axis it)) as [s1 |] eqn:Hr;
      [| discriminate].
    intros Hscan Hwf. eapply IH; [exact Hscan |].
    eapply Hrec; [exact Hr | | exact Hwf].
    pose proof (Forall_lookup_1 _ _ _ _ Hwf Hit) as Hw.
    unfold wellFormed in Hw. destruct axis; cbn; lia.
Qed.

Lemma resolveCompactionCollision_wellFormed (compactType : CompactType)
    (cols : Z) (fuel n : nat) :
  forall (s : Layout) (item : nat) (moveToCoord : Z) (axis : Axis)
         (s' : Layout),
    resolveCompactionCollision fuel n s item moveToCoord axis = Some s' ->
    0 <= moveToCoord ->
    Forall (wellFormed compactType cols) s ->
    Forall (wellFormed compactType cols) s'.
Proof.
  induction fuel as [| fuel IH]; intros s item moveToCoord axis s';
    cbn [resolveCompactionCollision]; [discriminate |].
  intros Hres Hmv Hwf.
  set (s1 := alter (fun l => set_axis axis (get_axis axis l + 1) l) item s)
    in *.
  assert (Hwf1 : Forall (wellFormed compactType cols) s1).
  { apply Forall_alter; [exact Hwf |].
    intros a Ha Hwa. apply wellFormed_set_axis; [exact Hwa |].
    unfold wellFormed in Hwa. destruct axis; cbn; lia. }
  destruct (s1 !! item) as [it |]; [| injection Hres as <-; exact Hwf1].
  destruct (scanLater _ item moveToCoord axis _ _ s1) as [s2 |] eqn:Hscan;
    [| discriminate].
  injection Hres as <-.
  apply Forall_alter.
  - eapply (scanLater_wellFormed compactType cols);
      [exact Hmv | | exact Hscan | exact Hwf1].
    intros t k mv t' Hr Hmv' Ht. cbv beta in Hr. eapply IH; eassumption.
  - intros a _ Hwa. apply wellFormed_set_axis; assumption.
Qed.

Lemma advance_wellFormed (compareWith : Layout) (compactType : CompactType)
    (cols : Z) (l c : LayoutItem) :
  wellFormed compactType cols l ->
  getFirstCollision compareWith l = Some c ->
  wellFormed compactType cols (advance compareWith compactType cols l c).
Proof.
  intros Hwf Hc. apply getFirstCollision_Some in Hc as [_ Hcol].
  apply collides_iff in Hcol.
  eapply wellFormed_movedTo; [exact Hwf | apply advance_fields | |];
    unfold advance, wellFormed in *;
    destruct compactType;
      cbn [isHorizontal axisOf andb get_axis sizeProp set_axis];
      try (cbn; lia).
  - destruct (Z.gtb_spec
                (Item.x (Item.with_x (Item.x c + Item.w c) l)
                 + Item.w (Item.with_x (Item.x c + Item.w c) l)) cols).
    + destruct (pullToOrigin_spec AxisX compareWith
                  (Item.with_y
                     (Item.y (Item.with_x (Item.x c + Item.w c) l) + 1)
                     (Item.with_x
                        (cols - Item.w (Item.with_x (Item.x c + Item.w c) l))
                        (Item.with_x (Item.x c + Item.w c) l))))
        as (v & -> & _ & Hnn & _).
      cbn in *. apply Hnn. intuition lia.
    + cbn. lia.
  - destruct (Z.gtb_spec
                (Item.x (Item.with_x (Item.x c + Item.w c) l)
                 + Item.w (Item.with_x (Item.x c + Item.w c) l)) cols).
    + rewrite pullToOrigin_X_y. cbn. lia.
    + cbn. lia.
Qed.

Lemma pulled_wellFormed (compareWith : Layout) (compactType : CompactType)
    (cols : Z) (l : LayoutItem) :
  wellFormed compactType cols l ->
  wellFormed compactType cols (pulled compareWith compactType l).
Proof.
  intros Hwf.
  eapply wellFormed_movedTo; [exact Hwf | apply pulled_fields | |];
    unfold wellFormed in Hwf; destruct compactType; cbn [pulled];
    try tauto.
  - destruct (pullToOrigin_spec AxisX compareWith l)
      as (v & -> & _ & Hnn & _).
    cbn in *. apply Hnn. tauto.
  - rewrite pullToOrigin_Y_x. cbn. tauto.
  - rewrite pullToOrigin_X_y. tauto.
  - pose proof (bottom_nonneg compareWith).
    destruct (pullToOrigin_spec AxisY compareWith
                (Item.with_y (Z.min (bottom compareWith) (Item.y l)) l))
      as (v & -> & _ & Hnn & _).
    cbn in *. apply Hnn. lia.
Qed.

Lemma pushTrace_wellFormed (compareWith : Layout)
    (compactType : CompactType) (cols : Z) (allowOverlap : bool)
    (l l' : LayoutItem) :
  pushTrace compareWith compactType cols allowOverlap l l' ->
  wellFormed compactType cols l -> wellFormed compactType cols l'.
Proof.
  induction 1 as [l _ | l _ | l c l' Hc _ _ IH]; auto.
  intros Hwf. apply IH. apply advance_wellFormed; assumption.
Qed.

Lemma clampOrigin_wellFormed (compactType : CompactType) (cols : Z)
    (l : LayoutItem) :
  wellFormed compactType cols l -> clampOrigin l = l.
Proof.
  unfold wellFormed, clampOrigin. intros (Hx & Hy & _).
  destruct l; cbn in *. rewrite !Z.max_l by lia. reflexivity.
Qed.

(** The loop ends clear of the comparison array, when overlap is not
    allowed without compaction. *)
Lemma pushTrace_clear_end (compareWith : Layout)
    (compactType : CompactType) (cols : Z) (allowOverlap : bool)
    (l l' : LayoutItem) :
  pushTrace compareWith compactType cols allowOverlap l l' ->
  isNull compactType && allowOverlap = false ->
  getFirstCollision compareWith l' = None.
Proof.
  induction 1 as [l Hc | l Hov | l c l' _ _ _ IH]; intros Hno; auto.
  congruence.
Qed.

(** ** Where the item ends up *)

Lemma advance_held (compareWith : Layout) (compactType : CompactType)
    (cols : Z) (l c : LayoutItem) :
  getFirstCollision compareWith l = Some c ->
  held compareWith (axisOf compactType)
    (advance compareWith compactType cols l c).
Proof.
  intros Hc. apply getFirstCollision_Some in Hc as [Hin Hcol].
  apply collides_iff in Hcol.
  assert (Hsup : held compareWith (axisOf compactType)
                   (set_axis (axisOf compactType)
                      (get_axis (axisOf compactType) c
                       + sizeProp (axisOf compactType) c) l)).
  { right. right. exists c. split; [exact Hin |].
    unfold supports. rewrite get_set_axis, set_axis_i.
    split; [tauto |]. split; [reflexivity |].
    destruct compactType; cbn; lia. }
  unfold advance.
  destruct (isHorizontal compactType && _) eqn:Hwrap; [| exact Hsup].
  apply andb_true_iff in Hwrap as [Hh _].
  destruct compactType; try discriminate. cbn [axisOf isHorizontal].
  match goal with
  | |- held _ _ (pullToOrigin AxisX _ ?l0) =>
      destruct (pullToOrigin_spec AxisX compareWith l0)
        as (v & Hv & _ & _ & Hex)
  end.
  rewrite Hv. unfold held. rewrite get_set_axis. tauto.
Qed.

Lemma pulled_held (compareWith : Layout) (compactType : CompactType)
    (l : LayoutItem) :
  isNull compactType = false ->
  held compareWith (axisOf compactType) (pulled compareWith compactType l).
Proof.
  intros Hn. destruct compactType; try discriminate;
    cbn [pulled axisOf isHorizontal].
  - destruct (pullToOrigin_spec AxisX compareWith l)
      as (v & Hv & _ & _ & Hex).
    rewrite Hv. unfold held. rewrite get_set_axis. tauto.
  - destruct (pullToOrigin_spec AxisY compareWith
                (Item.with_y (Z.min (bottom compareWith) (Item.y l)) l))
      as (v & Hv & _ & _ & Hex).
    rewrite Hv. unfold held. rewrite get_set_axis. tauto.
Qed.

(** The loop leaves the item at the origin of the axis or right after
    an item of the comparison array. *)
Lemma pushTrace_held (compareWith : Layout) (compactType : CompactType)
    (cols : Z) (allowOverlap : bool) (l l' : LayoutItem) :
  pushTrace compareWith compactType cols allowOverlap l l' ->
  isNull compactType = false ->
  held compareWith (axisOf compactType) l ->
  get_axis (axisOf compactType) l' <= 0
  \/ exists c, c ∈ compareWith /\ supports (axisOf compactType) c l'.
Proof.
  induction 1 as [l Hc | l Hov | l c l' Hc _ _ IH]; intros Hn Hheld.
  - destruct Hheld as [H0 | [[c' Hs] | Hsup]]; [auto | congruence | auto].
  - rewrite Hn in Hov. discriminate.
  - apply IH; [exact Hn |]. apply advance_held. exact Hc.
Qed.

(** In horizontal mode the loop leaves the item within the columns. *)
Lemma pushTrace_within (compareWith : Layout) (compactType : CompactType)
    (cols : Z) (allowOverlap : bool) (l l' : LayoutItem) :
  pushTrace compareWith compactType cols allowOverlap l l' ->
  isHorizontal compactType = true ->
  Item.x l + Item.w l <= cols
  \/ is_Some (getFirstCollision compareWith l) ->
  Item.x l' + Item.w l' <= cols.
Proof.
  induction 1 as [l Hc | l Hov | l c l' Hc _ _ IH]; intros Hh Hin.
  - destruct Hin as [H | [c' Hs]]; [exact H | congruence].
  - destruct compactType; discriminate.
  - apply IH; [exact Hh |]. left.
    unfold advance. rewrite Hh. cbn [andb].
    destruct compactType; try discriminate.
    cbn [axisOf isHorizontal get_axis sizeProp set_axis].
    destruct (Z.gtb_spec
                (Item.x (Item.with_x (Item.x c + Item.w c) l)
                 + Item.w (Item.with_x (Item.x c + Item.w c) l)) cols)
      as [Hgt | Hle]; [| exact Hle].
    match goal with
    | |- Item.x (pullToOrigin AxisX _ ?l0) + _ <= _ =>
        destruct (pullToOrigin_spec AxisX compareWith l0)
          as (v & Hv & Hvle & _ & _)
    end.
    rewrite Hv. cbn in *. lia.
Qed.

Lemma pulled_within (compareWith : Layout) (cols : Z) (l : LayoutItem) :
  wellFormed Horizontal cols l ->
  Item.x (pulled compareWith Horizontal l)
  + Item.w (pulled compareWith Horizontal l) <= cols
  \/ is_Some (getFirstCollision compareWith
                (pulled compareWith Horizontal l)).
Proof.
  intros (Hx & _ & _ & _ & Hfit). cbn [pulled].
  destruct (pullToOrigin_spec AxisX compareWith l)
    as (v & Hv & Hle & Hnn & Hex).
  rewrite Hv. destruct Hex as [H0 | Hs]; [left | right; exact Hs].
  cbn in *. specialize (Hnn Hx). specialize (Hfit eq_refl). lia.
Qed.

Lemma pushForward_wellFormed (compareWith : Layout)
    (compactType : CompactType) (cols : Z) (allowOverlap : bool)
    (fuel : nat) :
  forall (l : LayoutItem) (fullLayout : Layout) (l' : LayoutItem)
         (fullLayout' : Layout),
    pushForward fuel compareWith compactType cols allowOverlap l fullLayout
    = Some (l', fullLayout') ->
    is_static l = false ->
    wellFormed compactType cols l ->
    Forall (wellFormed compactType cols) fullLayout ->
    Forall (wellFormed compactType cols) fullLayout'.
Proof.
  induction fuel as [| fuel IH]; intros l fullLayout l' fullLayout'.
  - cbn [pushForward].
    destruct (getFirstCollision compareWith l);
      [destruct (isNull compactType && allowOverlap); [| discriminate] |];
      intros [= <- <-]; auto.
  - destruct (getFirstCollision compareWith l) as [c |] eqn:Hc;
      [| rewrite pushForward_clear by exact Hc; intros [= <- <-]; auto].
    destruct (isNull compactType && allowOverlap) eqn:Hov;
      [rewrite pushForward_overlap by exact Hov; intros [= <- <-]; auto |].
    intros Hpf Hst Hwl Hwf.
    rewrite (pushForward_step _ _ _ _ _ _ _ _ Hc Hov Hst) in Hpf.
    destruct (resolveCompactionCollision _ _ _ _ _ _) as [store |] eqn:Hres;
      [| discriminate].
    eapply IH; [exact Hpf | | |].
    + rewrite advance_static. exact Hst.
    + apply advance_wellFormed; assumption.
    + apply Forall_take.
      eapply (resolveCompactionCollision_wellFormed compactType cols);
        [exact Hres | |].
      * apply getFirstCollision_Some in Hc as [_ Hcol].
        apply collides_iff in Hcol. unfold wellFormed in Hwl.
        destruct compactType; cbn; lia.
      * apply Forall_app. split; [exact Hwf |].
        constructor; [exact Hwl | constructor].
Qed.

Lemma supports_with_moved (axis : Axis) (c l : LayoutItem) (b : bool) :
  supports axis c l -> supports axis c (Item.with_moved b l).
Proof. unfold supports. destruct axis; cbn; auto. Qed.

Lemma goodPlaced_grow (compareWith : Layout) (compactType : CompactType)
    (cols : Z) (allowOverlap : bool) (o new : LayoutItem) :
  goodPlaced compareWith compactType cols allowOverlap o ->
  o ∈ compareWith ->
  (isNull compactType && allowOverlap = false ->
   forall c, c ∈ compareWith -> collides c new = false) ->
  goodPlaced (compareWith ++ [new]) compactType cols allowOverlap o.
Proof.
  intros (Hst & Hwf & Hin & Hcol & Hsup) Ho Hnew.
  split; [exact Hst |]. split; [exact Hwf |]. split; [exact Hin |].
  split.
  - intros Hov c Hc. apply elem_of_app in Hc as [Hc | Hc]; [auto |].
    apply list_elem_of_singleton in Hc as ->.
    rewrite collides_sym. apply Hnew; assumption.
  - intros Hn. destruct (Hsup Hn) as [H0 | (c & Hc & Hs)]; [auto |].
    right. exists c. split; [| exact Hs]. apply elem_of_app. auto.
Qed.

Lemma withOrigins_origins (layout : Layout) :
  map fst (withOrigins layout) = seq 0 (length layout).
Proof.
  unfold withOrigins. apply list_eq. intros k.
  rewrite list_lookup_fmap, list_lookup_imap.
  destruct (layout !! k) as [a |] eqn:Ha; cbn.
  - symmetry. apply lookup_seq. split; [reflexivity |].
    eapply lookup_lt_Some. exact Ha.
  - symmetry. apply lookup_ge_None. rewrite length_seq.
    apply lookup_ge_None. exact Ha.
Qed.

Lemma sortedOrigins_NoDup (layout : Layout) (compactType : CompactType) :
  NoDup (sortedOrigins layout compactType).
Proof.
  unfold sortedOrigins.
  rewrite (sortLayoutItems_perm snd (withOrigins layout) compactType).
  rewrite withOrigins_origins. apply NoDup_seq.
Qed.

Lemma placedInv_step (layout : Layout) (fuel : nat)
    (compactType : CompactType) (cols : Z) (allowOverlap : bool)
    (j origin : nat) (s s' : CompactState) :
  passInv layout compactType cols allowOverlap j s ->
  sortedOrigins layout compactType !! j = Some origin ->
  compactStep fuel compactType cols allowOverlap j origin s = Some s' ->
  passInv layout compactType cols allowOverlap (S j) s'.
Proof.
  intros [HF HP] Htag Hstep.
  split; [eapply frameInv_step; eassumption |].
  destruct HF as (Hlen & [Hflen Hf] & _ & _).
  destruct HP as (Hwf & placed & Hcw & Hgood & Hout & Hkept).
  destruct (sorted_entry _ _ _ _ Htag) as (a0 & Ha0 & Hlay).
  assert (Hkept' : forall v o, o ∈ placed ->
             exists j' k,
               (j' < S j)%nat
               /\ sortedOrigins layout compactType !! j' = Some k
               /\ <[origin := v]> (cs_out s) !! k = Some (Some o)).
  { intros v0 o Ho. destruct (Hkept o Ho) as (j' & k & Hj' & Hk' & Hok).
    exists j', k. split; [lia |]. split; [exact Hk' |].
    rewrite list_lookup_insert_ne; [exact Hok |].
    intros <-.
    pose proof (NoDup_lookup _ _ _ _ (sortedOrigins_NoDup layout compactType)
                  Hk' Htag).
    lia. }
  destruct (Hf j a0 Ha0) as [[v Hcur] Hstat].
  assert (Hk : (origin < length (cs_out s))%nat).
  { rewrite Hlen. eapply lookup_lt_Some. exact Hlay. }
  destruct (compactStep_spec _ _ _ _ _ _ _ _ _ Hcur Hstep)
    as [[Hst ->] | (Hst & l2 & full' & Hpf & ->)];
    unfold placedInv; cbn [cs_sorted cs_compareWith cs_out].
  - (* a static item *)
    rewrite set_axis_static in Hst. specialize (Hstat Hst).
    assert (set_axis (axisOf compactType) v a0 = a0) by congruence.
    split; [exact Hwf |]. exists placed.
    split; [exact Hcw |]. split; [exact Hgood |].
    split; [| intros o Ho; apply Hkept'; exact Ho].
    intros k o. destruct (decide (k = origin)) as [-> | Hne].
    + rewrite list_lookup_insert_eq by exact Hk. intros [= <-].
      right. exists a0. rewrite H. auto.
    + rewrite list_lookup_insert_ne by auto. apply Hout.
  - (* an item to place *)
    set (start := pulled (cs_compareWith s) compactType
                    (cloneLayoutItem (set_axis (axisOf compactType) v a0)))
      in *.
    assert (Hstart_st : is_static start = false).
    { unfold start. rewrite pulled_static, cloneLayoutItem_static.
      exact Hst. }
    assert (Hstart_wf : wellFormed compactType cols start).
    { unfold start. apply pulled_wellFormed, wellFormed_clone.
      eapply Forall_lookup_1; [exact Hwf | exact Hcur]. }
    destruct (pushForward_trace _ _ _ _ _ _ _ _ _ Hstart_st Hpf)
      as [Htrace _].
    pose proof (pushTrace_wellFormed _ _ _ _ _ _ Htrace Hstart_wf) as Hwf2.
    rewrite (clampOrigin_wellFormed _ _ _ Hwf2).
    assert (Hst2 : is_static l2 = false).
    { rewrite (pushTrace_movedTo _ _ _ _ _ _ Htrace). exact Hstart_st. }
    assert (Hclear : isNull compactType && allowOverlap = false ->
                     forall c, c ∈ cs_compareWith s ->
                       collides c (Item.with_moved false l2) = false).
    { intros Hov c Hc.
      pose proof (pushTrace_clear_end _ _ _ _ _ _ Htrace Hov) as Hnone.
      rewrite getFirstCollision_None in Hnone. apply (Hnone c Hc). }
    split.
    { eapply pushForward_wellFormed; eassumption. }
    exists (placed ++ [Item.with_moved false l2]).
    split; [rewrite Hcw, app_assoc; reflexivity |].
    split.
    + apply Forall_app. split.
      * apply Forall_forall. intros o Ho.
        apply goodPlaced_grow; [| | exact Hclear].
        -- rewrite Forall_forall in Hgood. apply Hgood. exact Ho.
        -- rewrite Hcw. apply elem_of_app. auto.
      * constructor; [| constructor].
        split; [exact Hst2 |].
        split; [exact Hwf2 |].
        split.
        { intros Hh. destruct compactType; try discriminate.
          eapply (pushTrace_within _ _ _ _ _ _ Htrace eq_refl).
          apply pulled_within. apply wellFormed_clone.
          eapply Forall_lookup_1; [exact Hwf | exact Hcur]. }
        split.
        { intros Hov c Hc. apply elem_of_app in Hc as [Hc | Hc].
          - apply Hclear; assumption.
          - apply list_elem_of_singleton in Hc as ->.
            apply collides_same_id. reflexivity. }
        intros Hn.
        destruct (pushTrace_held _ _ _ _ _ _ Htrace Hn
                    (pulled_held (cs_compareWith s) compactType _ Hn))
          as [H0 | (c & Hc & Hs)].
        -- left. unfold wellFormed in Hwf2.
           destruct compactType; cbn in *; lia.
        -- right. exists c. split; [apply elem_of_app; auto |].
           apply supports_with_moved. exact Hs.
    + split.
      * intros k o. destruct (decide (k = origin)) as [-> | Hne].
        -- rewrite list_lookup_insert_eq by exact Hk. intros [= <-].
           left. split; [exact Hst2 |]. apply elem_of_app. right.
           apply list_elem_of_singleton. reflexivity.
        -- rewrite list_lookup_insert_ne by auto. intros Ho.
           destruct (Hout k o Ho) as [[Hs Hin] | Hr]; [| auto].
           left. split; [exact Hs |]. apply elem_of_app. auto.
      * intros o Ho. apply elem_of_app in Ho as [Ho | Ho];
          [apply Hkept'; exact Ho |].
        apply list_elem_of_singleton in Ho as ->.
        exists j, origin. split; [lia |]. split; [exact Htag |].
        apply list_lookup_insert_eq. exact Hk.
Qed.

Lemma frameInv_start (layout : Layout) (compactType : CompactType) :
  frameInv layout compactType 0
    (mkCompactState (getStatics layout) (sortedItems layout compactType)
       (replicate (length layout) None)).
Proof.
  split; [apply length_replicate |].
  split; [apply axisFrame_refl |].
  split; [| intros j' k Hj'; lia].
  intros k e He. apply lookup_replicate in He as [-> _]. auto.
Qed.

(** The state in which the loop of [compact] ends on well-formed
    input. *)
Lemma compact_pass (fuel : nat) (layout : Layout)
    (compactType : CompactType) (cols : Z) (allowOverlap : bool)
    (out : list (option LayoutItem)) :
  Forall (wellFormed compactType cols) layout ->
  compact fuel layout compactType cols allowOverlap = Some out ->
  exists st,
    cs_out st = out
    /\ passInv layout compactType cols allowOverlap (length layout) st.
Proof.
  intros Hwf. unfold compact.
  destruct (compactLoop _ _ _ _ _ _ _) as [st |] eqn:Hloop; [| discriminate].
  intros [= <-]. exists st. split; [reflexivity |].
  fold (sortedOrigins layout compactType) in Hloop.
  fold (sortedItems layout compactType) in Hloop.
  assert (HI : passInv layout compactType cols allowOverlap
                 (0 + length (sortedOrigins layout compactType)) st).
  { eapply (compactLoop_invariant
              (passInv layout compactType cols allowOverlap));
      [| | | exact Hloop].
    - intros j origin s s'. apply placedInv_step.
    - intros j origin Hj. exact Hj.
    - split; [apply frameInv_start |].
      split; cbn [cs_sorted cs_compareWith cs_out].
      + rewrite (sortedItems_perm layout compactType). exact Hwf.
      + exists []. split; [rewrite app_nil_r; reflexivity |].
        split; [constructor |].
        split; [| intros o Ho; inversion Ho].
        intros k o Ho. apply lookup_replicate in Ho as [[=] _]. }
  rewrite (proj1 (sorted_lengths layout compactType)) in HI. exact HI.
Qed.

Lemma collides_with_moved_clone (a c : LayoutItem) :
  collides (Item.with_moved false (cloneLayoutItem a)) c = collides a c.
Proof. reflexivity. Qed.

Lemma getStatics_elem (layout : Layout) (a : LayoutItem) :
  a ∈ getStatics layout <-> a ∈ layout /\ is_static a = true.
Proof.
  unfold getStatics. rewrite list_elem_of_filter. tauto.
Qed.

(** C1, as stated, fails: an item that starts left of the grid is
    compacted against the others where it stands and only then moved to
    column 0, onto the item that is there. *)
Lemma C1_item_left_of_the_grid_lands_on_another :
  exists o1 o2,
    compact 5 leftOfGrid Vertical 12 false = Some [Some o1; Some o2]
    /\ collides o1 o2 = true
    /\ is_static o1 = false.
Proof.
  eexists _, _. split; [vm_compute; reflexivity |].
  split; reflexivity.
Qed.

(** C1, amended: for a layout with distinct ids whose items have
    coordinates and sizes that are not negative (and, in horizontal
    mode, are no wider than the grid), compacted vertically or
    horizontally with [allowOverlap] false, two items of the output
    collide only if both are static and already collided in the
    input. *)
Theorem C1_compacted_items_do_not_collide
    (layout : Layout) (compactType : CompactType) (cols : Z) :
  NoDup (map Item.i layout) ->
  Forall (wellFormed compactType cols) layout ->
  isNull compactType = false ->
  exists out,
    (exists fuel, compact fuel layout compactType cols false = Some out)
    /\ forall k1 k2 a1 a2 o1 o2,
         layout !! k1 = Some a1 -> layout !! k2 = Some a2 ->
         out !! k1 = Some (Some o1) -> out !! k2 = Some (Some o2) ->
         collides o1 o2 = true ->
         is_static a1 = true /\ is_static a2 = true
         /\ collides a1 a2 = true.
Proof.
  intros Hnd Hwf Hn.
  destruct (compact_terminates layout compactType cols false Hnd)
    as (fuel & out & Hout).
  exists out. split; [eauto |].
  destruct (compact_pass _ _ _ _ _ _ Hwf Hout)
    as (st & <- & _ & _ & placed & Hcw & Hgood & Hslots & _).
  assert (Hov : isNull compactType && false = false)
    by apply andb_false_r.
  assert (Hfree : forall o c, o ∈ placed -> c ∈ cs_compareWith st ->
                              collides c o = false).
  { intros o c Ho Hc. rewrite Forall_forall in Hgood.
    destruct (Hgood o Ho) as (_ & _ & _ & Hcol & _). auto. }
  assert (Hmixed : forall k a o o',
             layout !! k = Some a -> cs_out st !! k = Some (Some o) ->
             o' ∈ placed -> collides o o' = false).
  { intros k a o o' Hk Ho Ho'.
    destruct (Hslots k o Ho) as [[_ Hin] | (a' & Ha' & Hst & ->)].
    - apply Hfree; [exact Ho' |]. rewrite Hcw. apply elem_of_app. auto.
    - rewrite collides_with_moved_clone. apply Hfree; [exact Ho' |].
      rewrite Hcw. apply elem_of_app. left. apply getStatics_elem.
      split; [eapply list_elem_of_lookup_2; exact Ha' | exact Hst]. }
  intros k1 k2 a1 a2 o1 o2 Hk1 Hk2 Ho1 Ho2 Hcol.
  destruct (Hslots k1 o1 Ho1) as [[_ Hin1] | (a1' & Ha1 & Hst1 & E1)].
  { rewrite collides_sym, (Hmixed k2 a2 o2 o1 Hk2 Ho2 Hin1) in Hcol.
    discriminate. }
  destruct (Hslots k2 o2 Ho2) as [[_ Hin2] | (a2' & Ha2 & Hst2 & E2)].
  { rewrite (Hmixed k1 a1 o1 o2 Hk1 Ho1 Hin2) in Hcol. discriminate. }
  assert (a1' = a1) by congruence. assert (a2' = a2) by congruence.
  subst a1' a2' o1 o2. auto.
Qed.

Lemma C1_compacted_items_witness :
  exists out,
    (exists fuel,
        compact fuel [plainItem "a" 0 0 1 1; plainItem "b" 0 0 1 1]
          Vertical 12 false = Some out)
    /\ forall k1 k2 a1 a2 o1 o2,
         [plainItem "a" 0 0 1 1; plainItem "b" 0 0 1 1] !! k1 = Some a1 ->
         [plainItem "a" 0 0 1 1; plainItem "b" 0 0 1 1] !! k2 = Some a2 ->
         out !! k1 = Some (Some o1) -> out !! k2 = Some (Some o2) ->
         collides o1 o2 = true ->
         is_static a1 = true /\ is_static a2 = true
         /\ collides a1 a2 = true.
Proof.
  apply (C1_compacted_items_do_not_collide
           [plainItem "a" 0 0 1 1; plainItem "b" 0 0 1 1] Vertical 12).
  - cbn. repeat constructor; rewrite ?list_elem_of_singleton;
      try discriminate; inversion 1.
  - repeat constructor; cbn; try lia; discriminate.
  - reflexivity.
Defined.

Lemma C10_compact_witness :
  (exists out,
      compact 4 [plainItem "a" 0 0 1 1; plainItem "b" 0 5 1 1]
        Vertical 12 false = Some out
      /\ length out
         = length [plainItem "a" 0 0 1 1; plainItem "b" 0 5 1 1]
      /\ forall k a,
           [plainItem "a" 0 0 1 1; plainItem "b" 0 5 1 1] !! k = Some a ->
           exists o,
             out !! k = Some (Some o)
             /\ Item.i o = Item.i a /\ Item.w o = Item.w a
             /\ Item.h o = Item.h a /\ Item.moved o = Some false
             /\ compactedFrom a o)
  /\ (exists out,
        (exists fuel,
            compact fuel [plainItem "a" 0 0 1 1; plainItem "b" 0 5 1 1]
              Vertical 12 false = Some out)
        /\ (forall fuel out',
               compact fuel [plainItem "a" 0 0 1 1; plainItem "b" 0 5 1 1]
                 Vertical 12 false = Some out' ->
               out' = out)).
Proof.
  destruct (C10_compact_changes_only_position
              [plainItem "a" 0 0 1 1; plainItem "b" 0 5 1 1] Vertical 12 false)
    as [Hframe Hreturns].
  split.
  - eexists. split; [reflexivity |].
    apply (Hframe 4%nat). reflexivity.
  - apply Hreturns.
    cbn. repeat constructor; rewrite ?list_elem_of_singleton;
      try discriminate; inversion 1.
Defined.

(** ** The push of later items *)

(** The item pushed by the second loop of [compactItem] ends right
    after its collider on the axis of the mode. *)
Lemma resolve_places_item_after_collider (fuel : nat)
    (fullLayout : Layout) (l c : LayoutItem) (axis : Axis)
    (store : Layout) :
  is_static l = false ->
  resolveCompactionCollision fuel (length fullLayout) (fullLayout ++ [l])
    (length fullLayout) (get_axis axis c + sizeProp axis c) axis
  = Some store ->
  store !! length fullLayout
  = Some (set_axis axis (get_axis axis c + sizeProp axis c) l).
Proof.
  intros Hst Hres.
  destruct (resolve_clone _ _ _ _ _ _ Hst Hres) as [Hstore [Hlen _]].
  rewrite Hstore. apply list_lookup_middle. symmetry. exact Hlen.
Qed.

Lemma scanLaterAlongAxis_Y (recur recur' : Layout -> nat -> Z -> option Layout)
    (item : nat) (moveToCoord : Z) :
  (forall s k mv, recur s k mv = recur' s k mv) ->
  forall count i s,
    scanLaterAlongAxis recur item moveToCoord AxisY count i s
    = scanLater recur' item moveToCoord AxisY count i s.
Proof.
  intros Hrec. induction count as [| count IH]; intros i s;
    cbn [scanLaterAlongAxis scanLater get_axis sizeProp]; [reflexivity |].
  destruct (s !! i) as [otherItem |]; [| reflexivity].
  destruct (s !! item) as [it |]; [| reflexivity].
  destruct (is_static otherItem); [apply IH |].
  destruct (Item.y otherItem >? Item.y it + Item.h it); [reflexivity |].
  destruct (collides it otherItem); [| apply IH].
  rewrite Hrec. destruct (recur' s i (moveToCoord + Item.h it));
    [apply IH | reflexivity].
Qed.

(** On the vertical axis the code scans as described. *)
Lemma resolveAlongAxis_Y (fuel n : nat) :
  forall s item moveToCoord,
    resolveAlongAxis fuel n s item moveToCoord AxisY
    = resolveCompactionCollision fuel n s item moveToCoord AxisY.
Proof.
  induction fuel as [| fuel IH]; intros s item moveToCoord;
    cbn [resolveAlongAxis resolveCompactionCollision]; [reflexivity |].
  destruct (alter _ item s !! item) as [it |]; [| reflexivity].
  rewrite (scanLaterAlongAxis_Y _
             (fun s k mv => resolveCompactionCollision fuel n s k mv AxisY)
             item moveToCoord IH).
  reflexivity.
Qed.

(** C8, at its failing input.  In horizontal mode "a" is pushed right,
    to x = 2.  The scan of the later items meets "b" first, which is in
    the same column but more than [a.h] rows below, and stops there:
    "c", which starts at x = 1, within the extent of "a", and collides
    with it, is never looked at and keeps x = 1.  Scanning until a later
    item starts beyond the far edge of "a" on the x axis pushes "c" to
    x = 4. *)
Theorem C8_horizontal_scan_stops_on_rows :
  resolveCompactionCollision 5 4
    (sortedByColumn ++ [cloneLayoutItem (plainItem "a" 0 0 2 2)]) 4 2 AxisX
  = Some (sortedByColumn
          ++ [Item.with_x 2 (cloneLayoutItem (plainItem "a" 0 0 2 2))])
  /\ collides (Item.with_x 1 (cloneLayoutItem (plainItem "a" 0 0 2 2)))
       (plainItem "c" 1 0 1 1) = true
  /\ resolveAlongAxis 5 4
       (sortedByColumn ++ [cloneLayoutItem (plainItem "a" 0 0 2 2)]) 4 2
       AxisX
     = Some (<[2%nat := plainItem "c" 4 0 1 1]> sortedByColumn
             ++ [Item.with_x 2 (cloneLayoutItem (plainItem "a" 0 0 2 2))]).
Proof. repeat split. Qed.

(** ** The sorted array is in the order of the mode *)

Lemma sort_insert_sorted {A} (R : A -> A -> Prop) (cmp : A -> A -> Z)
    (a : A) (l : list A) :
  (forall u v w, R u v -> R v w -> R u w) ->
  (forall u v, (cmp u v <? 0) = true -> R u v) ->
  (forall u v, (cmp u v <? 0) = false -> R v u) ->
  StronglySorted R l -> StronglySorted R (sort_insert cmp a l).
Proof.
  intros Htrans Hlt Hge. induction 1 as [| b rest Hs IH Hall];
    cbn [sort_insert].
  - constructor; constructor.
  - destruct (cmp a b <? 0) eqn:E.
    + constructor; [constructor; assumption |].
      constructor; [apply Hlt; exact E |].
      eapply Forall_impl; [exact Hall |].
      intros w Hw. eapply Htrans; [apply Hlt; exact E | exact Hw].
    + constructor; [exact IH |].
      rewrite sort_insert_perm. constructor; [apply Hge; exact E | exact Hall].
Qed.

Lemma js_sort_sorted {A} (R : A -> A -> Prop) (cmp : A -> A -> Z)
    (l : list A) :
  (forall u v w, R u v -> R v w -> R u w) ->
  (forall u v, (cmp u v <? 0) = true -> R u v) ->
  (forall u v, (cmp u v <? 0) = false -> R v u) ->
  StronglySorted R (js_sort cmp l).
Proof.
  intros Htrans Hlt Hge. unfold js_sort.
  assert (H : forall acc, StronglySorted R acc ->
             StronglySorted R
               (fold_left (fun acc a => sort_insert cmp a acc) l acc)).
  { induction l as [| a rest IH]; intros acc Hacc; cbn [fold_left];
      [exact Hacc |].
    apply IH. apply sort_insert_sorted; assumption. }
  apply H. constructor.
Qed.

Lemma StronglySorted_lookup {A} (R : A -> A -> Prop) (l : list A) :
  StronglySorted R l ->
  forall p q u v, (p < q)%nat -> l !! p = Some u -> l !! q = Some v -> R u v.
Proof.
  induction 1 as [| a rest Hs IH Hall]; intros p q u v Hpq Hp Hq;
    [inversion Hp |].
  destruct q as [| q]; [lia |]. cbn in Hq.
  destruct p as [| p]; cbn in Hp.
  - injection Hp as <-. rewrite Forall_forall in Hall. apply Hall.
    eapply list_elem_of_lookup_2. exact Hq.
  - apply (IH p q); [lia | exact Hp | exact Hq].
Qed.

Lemma sortOrder_trans (compactType : CompactType) (u v w : LayoutItem) :
  sortOrder compactType u v -> sortOrder compactType v w ->
  sortOrder compactType u w.
Proof. unfold sortOrder. destruct compactType; lia. Qed.

Lemma compareRowCol_order {A} (item_of : A -> LayoutItem) (u v : A) :
  ((compareRowCol item_of u v <? 0) = true ->
   sortOrder Vertical (item_of u) (item_of v))
  /\ ((compareRowCol item_of u v <? 0) = false ->
      sortOrder Vertical (item_of v) (item_of u)).
Proof.
  unfold compareRowCol, sortOrder.
  destruct (Z.gtb_spec (Item.y (item_of u)) (Item.y (item_of v)));
    destruct (Z.eqb_spec (Item.y (item_of u)) (Item.y (item_of v)));
    destruct (Z.gtb_spec (Item.x (item_of u)) (Item.x (item_of v)));
    destruct (Z.eqb_spec (Item.x (item_of u)) (Item.x (item_of v)));
    cbn; split; intros Hcmp; try discriminate; lia.
Qed.

Lemma compareColRow_order {A} (item_of : A -> LayoutItem) (u v : A) :
  ((compareColRow item_of u v <? 0) = true ->
   sortOrder Horizontal (item_of u) (item_of v))
  /\ ((compareColRow item_of u v <? 0) = false ->
      sortOrder Horizontal (item_of v) (item_of u)).
Proof.
  unfold compareColRow, sortOrder.
  destruct (Z.gtb_spec (Item.x (item_of u)) (Item.x (item_of v)));
    destruct (Z.eqb_spec (Item.x (item_of u)) (Item.x (item_of v)));
    destruct (Z.gtb_spec (Item.y (item_of u)) (Item.y (item_of v)));
    cbn; split; intros Hcmp; try discriminate; lia.
Qed.

(** In the sorted array of a compacting mode the coordinate on the
    compaction axis never decreases. *)
Lemma sortedItems_ascending (layout : Layout) (compactType : CompactType)
    (p q : nat) (u v : LayoutItem) :
  isNull compactType = false ->
  (p < q)%nat ->
  sortedItems layout compactType !! p = Some u ->
  sortedItems layout compactType !! q = Some v ->
  get_axis (axisOf compactType) u <= get_axis (axisOf compactType) v.
Proof.
  intros Hn Hpq Hp Hq. unfold sortedItems in Hp, Hq.
  rewrite list_lookup_fmap in Hp, Hq.
  destruct (sortLayoutItems snd (withOrigins layout) compactType !! p)
    as [[kp u'] |] eqn:Ep; [| discriminate].
  destruct (sortLayoutItems snd (withOrigins layout) compactType !! q)
    as [[kq v'] |] eqn:Eq; [| discriminate].
  cbn in Hp, Hq. injection Hp as ->. injection Hq as ->.
  assert (Hs : StronglySorted
                 (fun a b => sortOrder compactType (snd a) (snd b))
                 (sortLayoutItems snd (withOrigins layout) compactType)).
  { destruct compactType; try discriminate; cbn [sortLayoutItems];
      apply js_sort_sorted;
      try (intros a b c; apply sortOrder_trans);
      intros a b; first [apply (compareColRow_order snd a b)
                        | apply (compareRowCol_order snd a b)]. }
  pose proof (StronglySorted_lookup _ _ Hs p q _ _ Hpq Ep Eq) as H.
  cbn [snd] in H. unfold sortOrder in H.
  destruct compactType; try discriminate; cbn; lia.
Qed.

(** ** Compacting a compacted layout: one item *)

Lemma normal_clone (a : LayoutItem) : normal a -> cloneLayoutItem a = a.
Proof.
  unfold normal. intros H. rewrite <- H at 2.
  rewrite <- H at 1. destruct a as [? ? ? ? ? ? ? ? ? ? [[|] |] ? ? ? ?];
    reflexivity.
Qed.

Lemma normal_with_moved (a : LayoutItem) :
  normal a -> Item.with_moved false a = a.
Proof.
  intros H. rewrite <- (normal_clone a H) at 1. exact H.
Qed.

Lemma scanLater_undisturbed (recur : Layout -> nat -> Z -> option Layout)
    (item : nat) (moveToCoord : Z) (axis : Axis) (it : LayoutItem) :
  forall count i s,
    s !! item = Some it ->
    (forall k o, s !! k = Some o -> is_static o = false ->
                 collides it o = false) ->
    scanLater recur item moveToCoord axis count i s = Some s.
Proof.
  induction count as [| count IH]; intros i s Hit Hfree;
    cbn [scanLater]; [reflexivity |].
  destruct (s !! i) as [otherItem |] eqn:Ho; [| reflexivity].
  rewrite Hit.
  destruct (is_static otherItem) eqn:Hst; [apply IH; assumption |].
  destruct (Item.y otherItem >? Item.y it + Item.h it); [reflexivity |].
  rewrite (Hfree i otherItem Ho Hst). apply IH; assumption.
Qed.

(** When [item], one step further along the axis, collides with no
    movable object of the store, only [item] is assigned. *)
Lemma resolveCompactionCollision_undisturbed (fuel n : nat) (s : Layout)
    (item : nat) (moveToCoord : Z) (axis : Axis) (it : LayoutItem) :
  s !! item = Some it ->
  (forall k o, s !! k = Some o -> k <> item -> is_static o = false ->
     collides (set_axis axis (get_axis axis it + 1) it) o = false) ->
  resolveCompactionCollision (S fuel) n s item moveToCoord axis
  = Some (alter (set_axis axis moveToCoord) item
            (alter (fun l => set_axis axis (get_axis axis l + 1) l) item s)).
Proof.
  intros Hit Hfree. cbn [resolveCompactionCollision].
  set (s1 := alter (fun l => set_axis axis (get_axis axis l + 1) l) item s).
  assert (Hit1 : s1 !! item
                 = Some (set_axis axis (get_axis axis it + 1) it)).
  { unfold s1. rewrite list_lookup_alter_eq, Hit. reflexivity. }
  rewrite Hit1.
  rewrite (scanLater_undisturbed _ item moveToCoord axis _ _ _ s1 Hit1);
    [reflexivity |].
  intros k o Hk Hst. destruct (decide (k = item)) as [-> | Hne].
  - apply collides_same_id. congruence.
  - unfold s1 in Hk. rewrite list_lookup_alter_ne in Hk by auto.
    eapply Hfree; eassumption.
Qed.

Lemma pullToOrigin_at_origin (axis : Axis) (compareWith : Layout)
    (a : LayoutItem) :
  get_axis axis a = 0 -> pullToOrigin axis compareWith a = a.
Proof. intros H. unfold pullToOrigin. rewrite H. reflexivity. Qed.

(** An item that is free where it stands and blocked one step nearer
    the origin is pulled that one step. *)
Lemma pullToOrigin_one_step (axis : Axis) (compareWith : Layout)
    (a : LayoutItem) :
  0 < get_axis axis a ->
  getFirstCollision compareWith a = None ->
  is_Some (getFirstCollision compareWith
             (set_axis axis (get_axis axis a - 1) a)) ->
  pullToOrigin axis compareWith a = set_axis axis (get_axis axis a - 1) a.
Proof.
  intros Hpos Hfree Hblocked. unfold pullToOrigin.
  destruct (Z.to_nat (get_axis axis a)) as [| m] eqn:Em; [lia |].
  cbn [pullBack]. rewrite Hfree.
  replace (get_axis axis a >? 0) with true by (symmetry; lia).
  rewrite bool_decide_false by (intros [? ?]; discriminate).
  cbn [andb negb].
  destruct m as [| m]; cbn [pullBack]; [reflexivity |].
  rewrite (bool_decide_true _ Hblocked). cbn [negb].
  rewrite andb_false_r. reflexivity.
Qed.

Lemma supports_blocks (axis : Axis) (c a : LayoutItem) :
  supports axis c a ->
  1 <= sizeProp axis c -> 1 <= sizeProp axis a ->
  collides c (set_axis axis (get_axis axis a - 1) a) = true.
Proof.
  unfold supports. intros (Hid & Hedge & Hover) Hc Ha.
  apply collides_iff. rewrite set_axis_i.
  destruct axis; cbn in *; repeat split; try assumption; lia.
Qed.

(** A collider of the item one step nearer the origin that does not
    collide with the item where it stands ends exactly where the item
    starts. *)
Lemma collider_edge (axis : Axis) (c a : LayoutItem) :
  collides c (set_axis axis (get_axis axis a - 1) a) = true ->
  collides c a = false ->
  get_axis axis c + sizeProp axis c = get_axis axis a.
Proof.
  intros Hnear Hfree. apply collides_iff in Hnear.
  rewrite set_axis_i in Hnear.
  destruct (Z.eq_dec (get_axis axis c + sizeProp axis c) (get_axis axis a))
    as [E | E]; [exact E |].
  exfalso. assert (collides c a = true); [| congruence].
  destruct Hnear as (Hid & Hnear).
  apply collides_iff. split; [exact Hid |].
  destruct axis; cbn in *; lia.
Qed.

(** An item of a settled layout, compacted against the settled items
    before it, comes back as it is and leaves the store as it is. *)
Lemma resettle (fuel : nat) (compareWith sorted : Layout)
    (compactType : CompactType) (cols : Z) (allowOverlap : bool)
    (a : LayoutItem) :
  (2 <= fuel)%nat ->
  is_static a = false ->
  1 <= Item.w a -> 1 <= Item.h a ->
  0 <= Item.x a -> 0 <= Item.y a ->
  (isHorizontal compactType = true -> Item.x a + Item.w a <= cols) ->
  (isNull compactType && allowOverlap = false ->
   forall c, c ∈ compareWith -> collides c a = false) ->
  (isNull compactType && allowOverlap = false ->
   forall k o, sorted !! k = Some o -> is_static o = false ->
               collides a o = false) ->
  (isNull compactType = false ->
   get_axis (axisOf compactType) a = 0
   \/ exists c, c ∈ compareWith /\ supports (axisOf compactType) c a
                /\ 1 <= Item.w c /\ 1 <= Item.h c) ->
  pushForward fuel compareWith compactType cols allowOverlap
    (pulled compareWith compactType a) sorted
  = Some (a, sorted).
Proof.
  intros Hfuel Hst Hw Hh Hx Hy Hfit Hcw Hstore Hsup.
  destruct (isNull compactType) eqn:Hn.
  { (* no compaction: nothing is pulled *)
    destruct compactType; try discriminate. cbn [pulled].
    destruct allowOverlap.
    - apply pushForward_overlap. reflexivity.
    - apply pushForward_clear. apply getFirstCollision_None.
      apply Hcw. reflexivity. }
  assert (Hov : isNull compactType && allowOverlap = false)
    by (rewrite Hn; reflexivity).
  specialize (Hcw eq_refl). specialize (Hstore eq_refl).
  specialize (Hsup eq_refl).
  assert (Hfree : getFirstCollision compareWith a = None)
    by (apply getFirstCollision_None; exact Hcw).
  set (axis := axisOf compactType) in *.
  assert (Hg : 0 <= get_axis axis a)
    by (unfold axis; destruct compactType; cbn; assumption).
  assert (Hsize : 1 <= sizeProp axis a)
    by (unfold axis; destruct compactType; cbn; assumption).
  assert (Hpulled : pulled compareWith compactType a
                    = pullToOrigin axis compareWith a).
  { destruct compactType; try discriminate; [reflexivity |].
    cbn [pulled]. unfold axis. cbn [axisOf isHorizontal].
    replace (Z.min (bottom compareWith) (Item.y a)) with (Item.y a);
      [rewrite with_y_same; reflexivity |].
    destruct Hsup as [H0 | (c & Hc & (_ & Hedge & _) & _)].
    - cbn in H0. pose proof (bottom_nonneg compareWith). lia.
    - pose proof (bottom_ge compareWith c Hc). cbn in Hedge. lia. }
  rewrite Hpulled.
  destruct Hsup as [H0 | (c & Hc & Hsupp & Hcw1 & Hch1)].
  { rewrite pullToOrigin_at_origin by exact H0.
    apply pushForward_clear. exact Hfree. }
  destruct (Z.eq_dec (get_axis axis a) 0) as [H0 | Hpos].
  { rewrite pullToOrigin_at_origin by exact H0.
    apply pushForward_clear. exact Hfree. }
  assert (Hblock : collides c (set_axis axis (get_axis axis a - 1) a) = true).
  { apply supports_blocks; [exact Hsupp | | exact Hsize].
    unfold axis. destruct compactType; cbn; assumption. }
  set (near := set_axis axis (get_axis axis a - 1) a) in *.
  destruct (getFirstCollision compareWith near) as [c' |] eqn:Hc'.
  2:{ rewrite getFirstCollision_None in Hc'. rewrite (Hc' c Hc) in Hblock.
      discriminate. }
  rewrite (pullToOrigin_one_step axis compareWith a);
    [| lia | exact Hfree | fold near; rewrite Hc'; eauto].
  fold near.
  destruct (getFirstCollision_Some _ _ _ Hc') as [Hin' Hcol'].
  pose proof (collider_edge axis c' a Hcol' (Hcw c' Hin')) as Hedge.
  assert (Hnear_st : is_static near = false)
    by (unfold near; rewrite set_axis_static; exact Hst).
  destruct fuel as [| [| fuel]]; [lia | lia |].
  rewrite (pushForward_step _ _ _ _ _ _ _ _ Hc' Hov Hnear_st).
  fold axis. rewrite Hedge.
  rewrite (resolveCompactionCollision_undisturbed fuel (length sorted)
             (sorted ++ [near]) (length sorted) (get_axis axis a) axis near).
  - rewrite !take_alter_ge by lia. rewrite take_app_length.
    replace (advance compareWith compactType cols near c') with a.
    + apply pushForward_clear. exact Hfree.
    + unfold advance. fold axis. rewrite Hedge. unfold near.
      rewrite set_set_axis, set_get_axis.
      destruct (isHorizontal compactType) eqn:Hh'; [| reflexivity].
      specialize (Hfit eq_refl).
      replace (Item.x a + Item.w a >? cols) with false by (symmetry; lia).
      reflexivity.
  - apply list_lookup_middle. reflexivity.
  - intros k o Hk Hne Hso.
    unfold near. rewrite get_set_axis, set_set_axis.
    replace (get_axis axis a - 1 + 1) with (get_axis axis a) by lia.
    rewrite set_get_axis.
    apply lookup_app_Some in Hk as [Hk | [Hlen Hk]].
    + eapply Hstore; eassumption.
    + destruct (k - length sorted)%nat as [| m] eqn:Ek; [lia |].
      cbn in Hk. destruct m; discriminate.
Qed.

(** ** Compacting a compacted layout: the loop *)

Lemma clampOrigin_id (a : LayoutItem) :
  0 <= Item.x a -> 0 <= Item.y a -> clampOrigin a = a.
Proof.
  intros Hx Hy. unfold clampOrigin. destruct a; cbn in *.
  rewrite !Z.max_l by lia. reflexivity.
Qed.

Lemma resettledInv_step (L : Layout) (fuel : nat)
    (compactType : CompactType) (cols : Z) (allowOverlap : bool)
    (j origin : nat) (s s' : CompactState) :
  settled compactType cols allowOverlap L ->
  (2 <= fuel)%nat ->
  resettledInv L compactType j s ->
  sortedOrigins L compactType !! j = Some origin ->
  compactStep fuel compactType cols allowOverlap j origin s = Some s' ->
  resettledInv L compactType (S j) s'.
Proof.
  intros (Hnd & Hnormal & Hsizes & Hquad & Hfree & Hheld) Hfuel
    (Hsorted & Hcw & Hlen & Hout & Hdone) Htag Hstep.
  destruct (sorted_entry _ _ _ _ Htag) as (a & Ha & Hlay).
  assert (HaL : a ∈ L) by (eapply list_elem_of_lookup_2; exact Hlay).
  assert (Hitems : forall o, o ∈ sortedItems L compactType -> o ∈ L).
  { intros o Ho. rewrite (sortedItems_perm L compactType) in Ho. exact Ho. }
  assert (HcwL : forall c, c ∈ cs_compareWith s -> c ∈ L).
  { intros c Hc. rewrite Hcw in Hc. apply elem_of_app in Hc as [Hc | Hc].
    - apply getStatics_elem in Hc. tauto.
    - apply list_elem_of_filter in Hc as [_ Hc]. apply Hitems.
      apply elem_of_take in Hc as (i & Hi & _).
      eapply list_elem_of_lookup_2. exact Hi. }
  rewrite Forall_forall in Hnormal, Hsizes.
  pose proof (Hnormal a HaL) as Hna.
  assert (Hk : (origin < length (cs_out s))%nat).
  { rewrite Hlen. eapply lookup_lt_Some. exact Hlay. }
  assert (Hcur : cs_sorted s !! j = Some a) by (rewrite Hsorted; exact Ha).
  assert (Hs' : s' = mkCompactState
                       (getStatics L
                        ++ filter (fun a => is_static a = false)
                             (take (S j) (sortedItems L compactType)))
                       (sortedItems L compactType)
                       (<[origin := Some a]> (cs_out s))).
  { rewrite (take_S_r _ _ _ Ha), filter_app.
    destruct (compactStep_spec _ _ _ _ _ _ _ _ _ Hcur Hstep)
      as [[Hst ->] | (Hst & l2 & full' & Hpf & ->)].
    - rewrite Hna, Hcw, Hsorted.
      rewrite filter_cons_False by congruence.
      rewrite filter_nil, app_nil_r. reflexivity.
    - destruct (Hquad a HaL Hst) as (Hx & Hy & Hfit).
      destruct (Hsizes a HaL) as [Hw Hh].
      rewrite (normal_clone a Hna), Hsorted in Hpf.
      rewrite (resettle fuel (cs_compareWith s)
                 (sortedItems L compactType) compactType cols allowOverlap
                 a Hfuel Hst Hw Hh Hx Hy Hfit) in Hpf.
      + injection Hpf as <- <-.
        rewrite (clampOrigin_id a Hx Hy), (normal_with_moved a Hna).
        rewrite Hcw, <- app_assoc.
        rewrite filter_cons_True by exact Hst.
        rewrite filter_nil. reflexivity.
      + intros Hov c Hc. apply Hfree; auto.
      + intros Hov k o Ho Hso. apply Hfree; auto.
        apply Hitems. eapply list_elem_of_lookup_2. exact Ho.
      + intros Hn. destruct (Hheld Hn a HaL Hst) as [H0 | (c & Hc & Hsup)];
          [auto |].
        right. exists c. destruct (Hsizes c Hc) as [Hcw1 Hch1].
        split; [| auto].
        rewrite Hcw. apply elem_of_app.
        destruct (is_static c) eqn:Hsc;
          [left; apply getStatics_elem; auto |].
        right. apply list_elem_of_filter. split; [exact Hsc |].
        assert (Hc' : c ∈ sortedItems L compactType)
          by (rewrite (sortedItems_perm L compactType); exact Hc).
        apply list_elem_of_lookup_1 in Hc' as [jc Hjc].
        apply list_elem_of_lookup. exists jc.
        rewrite lookup_take_lt; [exact Hjc |].
        destruct (Nat.lt_trichotomy jc j) as [Hlt | [-> | Hgt]];
          [exact Hlt | |].
        * destruct Hsup as (Hid & _). congruence.
        * pose proof (sortedItems_ascending L compactType j jc a c Hn Hgt
                        Ha Hjc) as Hasc.
          destruct Hsup as (_ & Hedge & _).
          assert (1 <= sizeProp (axisOf compactType) c)
            by (destruct compactType; cbn; assumption).
          lia. }
  subst s'. split; [reflexivity |]. split; [reflexivity |].
  cbn [cs_out]. split; [rewrite length_insert; exact Hlen |].
  split.
  - intros k e. destruct (decide (k = origin)) as [-> | Hne].
    + rewrite list_lookup_insert_eq by exact Hk. intros [= <-].
      right. symmetry. exact Hlay.
    + rewrite list_lookup_insert_ne by auto. apply Hout.
  - intros j' k Hj' Hk'. destruct (decide (k = origin)) as [-> | Hne].
    + rewrite list_lookup_insert_eq by exact Hk. rewrite Hlay. reflexivity.
    + rewrite list_lookup_insert_ne by auto.
      apply (Hdone j'); [| exact Hk'].
      assert (j' <> j) by (intros ->; congruence). lia.
Qed.

(** Compacting a settled layout returns it. *)
Lemma compact_settled (fuel : nat) (L : Layout)
    (compactType : CompactType) (cols : Z) (allowOverlap : bool)
    (out : list (option LayoutItem)) :
  settled compactType cols allowOverlap L ->
  (2 <= fuel)%nat ->
  compact fuel L compactType cols allowOverlap = Some out ->
  out = Some <$> L.
Proof.
  intros Hsettled Hfuel. unfold compact.
  destruct (compactLoop _ _ _ _ _ _ _) as [st |] eqn:Hloop; [| discriminate].
  intros [= <-].
  fold (sortedOrigins L compactType) in Hloop.
  fold (sortedItems L compactType) in Hloop.
  assert (HI : resettledInv L compactType
                 (0 + length (sortedOrigins L compactType)) st).
  { eapply (compactLoop_invariant (resettledInv L compactType));
      [| | | exact Hloop].
    - intros j origin s s'. apply resettledInv_step; assumption.
    - intros j origin Hj. exact Hj.
    - split; [reflexivity |]. split; [rewrite app_nil_r; reflexivity |].
      cbn [cs_out]. split; [apply length_replicate |].
      split; [| intros j' k Hj'; lia].
      intros k e He. apply lookup_replicate in He as [-> _]. auto. }
  destruct HI as (_ & _ & Hlen & _ & Hdone).
  apply list_eq. intros k. rewrite list_lookup_fmap.
  destruct (L !! k) as [a |] eqn:Hk.
  - destruct (sorted_covers L compactType k a Hk) as (j & Hj & _).
    rewrite (Hdone j k); [rewrite Hk; reflexivity | | exact Hj].
    apply lookup_lt_Some in Hj. lia.
  - apply lookup_ge_None. rewrite Hlen. apply lookup_ge_None. exact Hk.
Qed.

(** ** Compacting twice *)

Lemma no_holes {A} (out : list (option A)) :
  (forall k, (k < length out)%nat -> exists o, out !! k = Some (Some o)) ->
  exists L, out = Some <$> L.
Proof.
  induction out as [| e rest IH]; intros H.
  - exists []. reflexivity.
  - destruct (H 0%nat) as [o Ho]; [cbn; lia |]. cbn in Ho.
    injection Ho as ->.
    destruct IH as [L HL].
    { intros k Hk. apply (H (S k)). cbn. lia. }
    exists (o :: L). rewrite HL. reflexivity.
Qed.

Lemma compactedFrom_normal (a o : LayoutItem) :
  compactedFrom a o -> normal o.
Proof.
  unfold compactedFrom, normal. intros ->.
  destruct a as [? ? ? ? ? ? ? ? ? ? [[|] |] ? ? ? ?]; reflexivity.
Qed.

Lemma supports_ext (axis : Axis) (c c' l : LayoutItem) :
  supports axis c l ->
  Item.i c' = Item.i c -> Item.x c' = Item.x c -> Item.y c' = Item.y c ->
  Item.w c' = Item.w c -> Item.h c' = Item.h c ->
  supports axis c' l.
Proof.
  unfold supports. intros H Hi Hx Hy Hw Hh.
  destruct axis; cbn in *; rewrite Hi, Hx, Hy, Hw, Hh; exact H.
Qed.

(** What [compact] returns for well-formed input with sizes of at least
    one unit is a settled layout. *)
Lemma compact_settles (fuel : nat) (layout : Layout)
    (compactType : CompactType) (cols : Z) (allowOverlap : bool)
    (out : list (option LayoutItem)) :
  NoDup (map Item.i layout) ->
  Forall (wellFormed compactType cols) layout ->
  Forall (fun a => 1 <= Item.w a /\ 1 <= Item.h a) layout ->
  compact fuel layout compactType cols allowOverlap = Some out ->
  exists L, out = Some <$> L /\ settled compactType cols allowOverlap L.
Proof.
  intros Hnd Hwf Hsizes Hout.
  destruct (compact_frame _ _ _ _ _ _ Hout) as [Hlen Hall].
  destruct (compact_pass _ _ _ _ _ _ Hwf Hout)
    as (st & Hst & _ & _ & placed & Hcw & Hgood & Hslots & Hkept).
  rewrite Hst in Hslots, Hkept.
  destruct (no_holes out) as [L HL].
  { intros k Hk. rewrite Hlen in Hk.
    destruct (lookup_lt_is_Some_2 layout k Hk) as [a Ha].
    destruct (Hall k a Ha) as (o & Ho & _). eauto. }
  exists L. split; [exact HL |]. clear Hst Hout. subst out.
  assert (Hslot : forall k o, L !! k = Some o ->
             (Some <$> L) !! k = Some (Some o))
    by (intros k o Hk; rewrite list_lookup_fmap, Hk; reflexivity).
  assert (Hfrom : forall k o, L !! k = Some o ->
             exists a, layout !! k = Some a /\ compactedFrom a o).
  { intros k o Hk.
    assert (Hk' : (k < length layout)%nat).
    { rewrite <- Hlen, length_fmap. eapply lookup_lt_Some. exact Hk. }
    destruct (lookup_lt_is_Some_2 layout k Hk') as [a Ha].
    destruct (Hall k a Ha) as (o' & Ho' & Hrel).
    rewrite (Hslot k o Hk) in Ho'. injection Ho' as <-. eauto. }
  assert (Hplaced : forall o, o ∈ L -> is_static o = false -> o ∈ placed).
  { intros o Ho Hso. apply list_elem_of_lookup_1 in Ho as [k Hk].
    destruct (Hslots k o (Hslot k o Hk)) as [[_ Hin] | (a & _ & Hsa & ->)];
      [exact Hin |].
    change (is_static (cloneLayoutItem a) = false) in Hso.
    rewrite cloneLayoutItem_static in Hso. congruence. }
  rewrite Forall_forall in Hgood.
  split; [| split; [| split; [| split; [| split]]]].
  - (* distinct ids *)
    replace (map Item.i L) with (map Item.i layout); [exact Hnd |].
    apply list_eq. intros k. rewrite !list_lookup_fmap.
    destruct (L !! k) as [o |] eqn:Hk.
    + destruct (Hfrom k o Hk) as (a & Ha & Hrel). rewrite Ha. cbn.
      destruct (compactedFrom_fields a o Hrel) as (-> & _). reflexivity.
    + rewrite (lookup_ge_None_2 layout k); [reflexivity |].
      rewrite <- Hlen, length_fmap. apply lookup_ge_None. exact Hk.
  - apply Forall_lookup. intros k o Hk.
    destruct (Hfrom k o Hk) as (a & _ & Hrel).
    eapply compactedFrom_normal. exact Hrel.
  - apply Forall_lookup. intros k o Hk.
    destruct (Hfrom k o Hk) as (a & Ha & Hrel).
    destruct (compactedFrom_fields a o Hrel) as (_ & -> & -> & _).
    rewrite Forall_forall in Hsizes. apply Hsizes.
    eapply list_elem_of_lookup_2. exact Ha.
  - intros o Ho Hso.
    destruct (Hgood o (Hplaced o Ho Hso))
      as (_ & (Hx & Hy & _) & Hfit & _).
    auto.
  - intros Hov a b Ha Hb Hsb.
    destruct (Hgood b (Hplaced b Hb Hsb)) as (_ & _ & _ & Hcol & _).
    specialize (Hcol Hov).
    apply list_elem_of_lookup_1 in Ha as [k Hk].
    destruct (Hslots k a (Hslot k a Hk)) as [[_ Hin] | (a0 & Ha0 & Hs0 & ->)].
    + apply Hcol. rewrite Hcw. apply elem_of_app. auto.
    + rewrite collides_with_moved_clone. apply Hcol.
      rewrite Hcw. apply elem_of_app. left. apply getStatics_elem.
      split; [eapply list_elem_of_lookup_2; exact Ha0 | exact Hs0].
  - intros Hn l Hl Hsl.
    destruct (Hgood l (Hplaced l Hl Hsl)) as (_ & _ & _ & _ & Hsup).
    destruct (Hsup Hn) as [H0 | (c & Hc & Hs)]; [auto |].
    right. rewrite Hcw in Hc. apply elem_of_app in Hc as [Hc | Hc].
    + (* a static item: its clone is in the output *)
      apply getStatics_elem in Hc as [Hc Hsc].
      apply list_elem_of_lookup_1 in Hc as [k Hk].
      destruct (Hall k c Hk) as (o & Ho & Hrel).
      exists o. split.
      * rewrite list_lookup_fmap in Ho.
        destruct (L !! k) as [o' |] eqn:Hk'; [| discriminate].
        cbn in Ho. injection Ho as ->.
        eapply list_elem_of_lookup_2. exact Hk'.
      * destruct (Hslots k o Ho) as [[Hso _] | (a0 & Ha0 & _ & ->)].
        -- destruct (compactedFrom_fields c o Hrel) as (_ & _ & _ & _ & E).
           congruence.
        -- assert (a0 = c) by congruence. subst a0.
           eapply supports_ext; [exact Hs | reflexivity ..].
    + destruct (Hkept c Hc) as (j' & k & _ & _ & Hk).
      exists c. split; [| exact Hs].
      rewrite list_lookup_fmap in Hk.
      destruct (L !! k) as [o' |] eqn:Hk'; [| discriminate].
      cbn in Hk. injection Hk as ->.
      eapply list_elem_of_lookup_2. exact Hk'.
Qed.

(** C4, as stated, fails: the layout whose second item starts left of
    the grid compacts to two items on the same cell, and compacting
    that output moves the second item one row down. *)
Lemma C4_second_compaction_moves_an_item :
  compact 5 leftOfGrid Vertical 12 false = Some (Some <$> leftOfGridOnce)
  /\ compact 5 leftOfGridOnce Vertical 12 false
     = Some (Some <$> leftOfGridTwice)
  /\ Item.y <$> leftOfGridOnce !! 1%nat = Some 0
  /\ Item.y <$> leftOfGridTwice !! 1%nat = Some 1.
Proof. repeat split. Qed.

(** C4, amended: for a layout with distinct ids whose items have
    coordinates that are not negative and sizes of at least one unit
    (and, in horizontal mode, are no wider than the grid), [compact]
    returns a layout that [compact], with the same mode, column count
    and [allowOverlap], returns unchanged: every item keeps its [x],
    [y], [w] and [h] (and every other field). *)
Theorem C4_compact_is_idempotent_on_well_formed_layouts
    (layout : Layout) (compactType : CompactType) (cols : Z)
    (allowOverlap : bool) :
  NoDup (map Item.i layout) ->
  Forall (wellFormed compactType cols) layout ->
  Forall (fun a => 1 <= Item.w a /\ 1 <= Item.h a) layout ->
  exists compacted : Layout,
    (exists fuel,
        compact fuel layout compactType cols allowOverlap
        = Some (Some <$> compacted))
    /\ (exists fuel,
           compact fuel compacted compactType cols allowOverlap
           = Some (Some <$> compacted)).
Proof.
  intros Hnd Hwf Hsizes.
  destruct (compact_terminates layout compactType cols allowOverlap Hnd)
    as (fuel & out & Hout).
  destruct (compact_settles _ _ _ _ _ _ Hnd Hwf Hsizes Hout)
    as (L & -> & Hsettled).
  exists L. split; [eauto |].
  destruct (compact_terminates L compactType cols allowOverlap
              (proj1 Hsettled)) as (fuel2 & out2 & Hout2).
  apply (compact_mono _ (Nat.max fuel2 2)) in Hout2; [| lia].
  exists (Nat.max fuel2 2). rewrite Hout2. f_equal.
  eapply compact_settled; [exact Hsettled | | exact Hout2]. lia.
Qed.

Lemma C4_compact_idempotent_witness :
  exists compacted : Layout,
    (exists fuel,
        compact fuel [plainItem "a" 0 3 1 1; plainItem "b" 0 5 2 1]
          Vertical 12 false = Some (Some <$> compacted))
    /\ (exists fuel,
           compact fuel compacted Vertical 12 false
           = Some (Some <$> compacted)).
Proof.
  apply (C4_compact_is_idempotent_on_well_formed_layouts
           [plainItem "a" 0 3 1 1; plainItem "b" 0 5 2 1] Vertical 12 false).
  - cbn. repeat constructor; rewrite ?list_elem_of_singleton;
      try discriminate; inversion 1.
  - repeat constructor; cbn; try lia; discriminate.
  - repeat constructor; cbn; lia.
Defined.

(** ** Layouts with empty items or items wider than the grid *)

(** With an item of height zero, a second vertical compaction pulls "b"
    from row 3 to row 0. *)
Lemma compact_twice_with_empty_items :
  exists once,
    compact 9 withEmptyItems Vertical 4 false = Some (Some <$> once)
    /\ positions (Some (Some <$> once))
       = Some [Some (1, 3); Some (2, 1); Some (0, 3)]
    /\ positions (compact 9 once Vertical 4 false)
       = Some [Some (1, 3); Some (2, 1); Some (0, 0)].
Proof.
  exists [Item.with_moved false (cloneLayoutItem (plainItem "a" 1 3 2 0));
          Item.with_moved false (cloneLayoutItem (staticItem "s" 2 1 0 2));
          Item.with_moved false (cloneLayoutItem (plainItem "b" 0 3 2 2))].
  repeat split.
Qed.

(** In horizontal mode an item wider than the grid is wrapped to a
    negative column and then moved to column 0, onto the static item;
    a second compaction moves it again. *)
Lemma compact_wider_than_grid :
  exists once,
    compact 9 widerThanGrid Horizontal 2 false = Some (Some <$> once)
    /\ positions (Some (Some <$> once)) = Some [Some (2, 2); Some (0, 4)]
    /\ (exists s a, once = [s; a] /\ collides s a = true)
    /\ positions (compact 9 once Horizontal 2 false)
       = Some [Some (2, 2); Some (0, 5)].
Proof.
  exists [Item.with_moved false (cloneLayoutItem (staticItem "s" 2 2 3 3));
          Item.with_moved false (cloneLayoutItem (plainItem "a" 0 4 4 3))].
  split; [reflexivity |]. split; [reflexivity |].
  split; [| reflexivity]. eexists _, _. split; reflexivity.
Qed.

(** ** The bottom of a layout *)

Lemma bottom_fold_attained (layout : Layout) (acc : Z) :
  let r := fold_left
             (fun max l =>
                let bottomY := Item.y l + Item.h l in
                if bottomY >? max then bottomY else max)
             layout acc in
  r = acc \/ exists l, l ∈ layout /\ r = Item.y l + Item.h l.
Proof.
  revert acc. induction layout as [| a rest IH]; intros acc; cbn [fold_left].
  - left. reflexivity.
  - cbn zeta in IH |- *.
    destruct (IH (if Item.y a + Item.h a >? acc
                  then Item.y a + Item.h a else acc)) as [E | (l & Hl & E)].
    + rewrite E. destruct (Item.y a + Item.h a >? acc).
      * right. exists a. split; [apply list_elem_of_here | reflexivity].
      * left. reflexivity.
    + right. exists l. split; [apply elem_of_cons; auto | exact E].
Qed.

(** X1: [bottom] is the largest bottom edge [y + h] of the layout, and 0
    when the layout is empty or no bottom edge is positive. *)
Theorem X1_bottom_is_the_lowest_edge (layout : Layout) :
  0 <= bottom layout
  /\ (forall l, l ∈ layout -> Item.y l + Item.h l <= bottom layout)
  /\ (bottom layout = 0
      \/ exists l, l ∈ layout /\ bottom layout = Item.y l + Item.h l).
Proof.
  split; [apply bottom_nonneg |].
  split; [intros l; apply bottom_ge |].
  apply (bottom_fold_attained layout 0).
Qed.

(** ** Lookup and replacement *)

Lemma getLayoutItem_Some (layout : Layout) (id : string) (l : LayoutItem) :
  getLayoutItem layout id = Some l ->
  exists k, layout !! k = Some l /\ Item.i l = id
            /\ forall k' l', (k' < k)%nat -> layout !! k' = Some l' ->
                             Item.i l' <> id.
Proof.
  induction layout as [| a rest IH]; cbn [getLayoutItem]; [discriminate |].
  destruct (String.eqb_spec (Item.i a) id) as [E | E].
  - intros [= <-]. exists 0%nat. split; [reflexivity |].
    split; [exact E | intros k' l' Hk'; lia].
  - intros H. destruct (IH H) as (k & Hk & Hid & Hfirst).
    exists (S k). split; [exact Hk |]. split; [exact Hid |].
    intros [| k'] l' Hlt Hl'; cbn in Hl'.
    + injection Hl' as <-. exact E.
    + apply (Hfirst k'); [lia | exact Hl'].
Qed.

Lemma getLayoutItem_None (layout : Layout) (id : string) :
  getLayoutItem layout id = None <-> id ∉ map Item.i layout.
Proof.
  induction layout as [| a rest IH]; cbn [getLayoutItem map].
  - split; [intros _ H; inversion H | reflexivity].
  - destruct (String.eqb_spec (Item.i a) id) as [E | E].
    + split; [discriminate |]. intros H. exfalso. apply H.
      rewrite E. apply list_elem_of_here.
    + rewrite IH. rewrite not_elem_of_cons. split; [auto | tauto].
Qed.

(** X2: [getLayoutItem] returns the first item of the layout that has
    the id asked for, and nothing exactly when no item has it. *)
Theorem X2_getLayoutItem_finds_the_first_match (layout : Layout)
    (id : string) :
  match getLayoutItem layout id with
  | Some l =>
      exists k, layout !! k = Some l /\ Item.i l = id
                /\ forall k' l', (k' < k)%nat -> layout !! k' = Some l' ->
                                 Item.i l' <> id
  | None => forall l, l ∈ layout -> Item.i l <> id
  end.
Proof.
  destruct (getLayoutItem layout id) as [l |] eqn:E.
  - apply getLayoutItem_Some. exact E.
  - apply getLayoutItem_None in E. intros l Hl Hid. apply E.
    rewrite <- Hid. apply list_elem_of_fmap. eauto.
Qed.

Lemma modifyLayout_lookup (layout : Layout) (item : LayoutItem) (k : nat) :
  modifyLayout layout item !! k
  = (fun l => if String.eqb (Item.i item) (Item.i l) then item else l)
      <$> layout !! k.
Proof. unfold modifyLayout. apply list_lookup_fmap. Qed.

Lemma getLayoutItem_modifyLayout (layout : Layout) (item : LayoutItem)
    (id : string) :
  getLayoutItem (modifyLayout layout item) id
  = if String.eqb (Item.i item) id
    then (fun _ => item) <$> getLayoutItem layout id
    else getLayoutItem layout id.
Proof.
  induction layout as [| a rest IH]; cbn [modifyLayout map getLayoutItem].
  - destruct (String.eqb (Item.i item) id); reflexivity.
  - fold (modifyLayout rest item).
    destruct (String.eqb_spec (Item.i item) (Item.i a)) as [Ea | Ea].
    + destruct (String.eqb_spec (Item.i item) id) as [Ei | Ei].
      * rewrite <- Ea, Ei, String.eqb_refl. reflexivity.
      * rewrite <- Ea. destruct (String.eqb_spec (Item.i item) id);
          [contradiction |].
        rewrite IH. destruct (String.eqb_spec (Item.i item) id);
          [contradiction | reflexivity].
    + destruct (String.eqb_spec (Item.i a) id) as [Ei | Ei].
      * destruct (String.eqb_spec (Item.i item) id) as [Ej | Ej];
          [congruence | reflexivity].
      * exact IH.
Qed.

(** X3: [modifyLayout] keeps the length and the order of the layout,
    puts the new item at every position that held its id and leaves the
    other positions alone; looking the id up afterwards gives the new
    item when the id was there, and any other id is looked up as
    before.  When no item has the id, the layout is unchanged. *)
Theorem X3_modifyLayout_replaces_by_id (layout : Layout)
    (item : LayoutItem) :
  length (modifyLayout layout item) = length layout
  /\ (forall k l, layout !! k = Some l ->
        modifyLayout layout item !! k
        = Some (if String.eqb (Item.i item) (Item.i l) then item else l))
  /\ (forall id, id <> Item.i item ->
        getLayoutItem (modifyLayout layout item) id = getLayoutItem layout id)
  /\ getLayoutItem (modifyLayout layout item) (Item.i item)
     = (fun _ => item) <$> getLayoutItem layout (Item.i item)
  /\ (getLayoutItem layout (Item.i item) = None ->
      modifyLayout layout item = layout).
Proof.
  split; [apply length_fmap |].
  split; [intros k l Hk; rewrite modifyLayout_lookup, Hk; reflexivity |].
  split.
  { intros id Hid. rewrite getLayoutItem_modifyLayout.
    destruct (String.eqb_spec (Item.i item) id); [congruence | reflexivity]. }
  split.
  { rewrite getLayoutItem_modifyLayout, String.eqb_refl. reflexivity. }
  intros Hnone. apply getLayoutItem_None in Hnone.
  apply list_eq. intros k. rewrite modifyLayout_lookup.
  destruct (layout !! k) as [l |] eqn:Hk; [| reflexivity]. cbn.
  destruct (String.eqb_spec (Item.i item) (Item.i l)) as [E | E];
    [| reflexivity].
  exfalso. apply Hnone. rewrite E. apply list_elem_of_fmap.
  exists l. split; [reflexivity |]. eapply list_elem_of_lookup_2. exact Hk.
Qed.

(** X4: [withLayoutItem] returns the layout itself and no item when the
    key is not in the layout.  Otherwise it hands a clone of the first
    item with that key to the callback and, when the callback keeps the
    id, returns a layout of the same length in which the key is looked
    up to the callback's result, every other id is looked up as before,
    and the item returned is that result. *)
Theorem X4_withLayoutItem_modifies_one_item (layout : Layout)
    (itemKey : string) (cb : LayoutItem -> LayoutItem) :
  (forall l, Item.i (cb l) = Item.i l) ->
  match getLayoutItem layout itemKey with
  | None => withLayoutItem layout itemKey cb = (layout, None)
  | Some item =>
      let item' := cb (cloneLayoutItem item) in
      snd (withLayoutItem layout itemKey cb) = Some item'
      /\ length (fst (withLayoutItem layout itemKey cb)) = length layout
      /\ getLayoutItem (fst (withLayoutItem layout itemKey cb)) itemKey
         = Some item'
      /\ forall id, id <> itemKey ->
           getLayoutItem (fst (withLayoutItem layout itemKey cb)) id
           = getLayoutItem layout id
  end.
Proof.
  intros Hcb. unfold withLayoutItem.
  destruct (getLayoutItem layout itemKey) as [item |] eqn:E; [| reflexivity].
  cbn zeta. cbn [fst snd].
  assert (Hid : Item.i (cb (cloneLayoutItem item)) = itemKey).
  { rewrite Hcb. destruct (getLayoutItem_Some _ _ _ E) as (k & _ & Hid & _).
    exact Hid. }
  split; [reflexivity |].
  split; [apply length_fmap |].
  split.
  - rewrite getLayoutItem_modifyLayout, Hid, String.eqb_refl, E. reflexivity.
  - intros id Hne. rewrite getLayoutItem_modifyLayout, Hid.
    destruct (String.eqb_spec itemKey id); [congruence | reflexivity].
Qed.

Lemma X4_withLayoutItem_witness :
  let layout := [plainItem "a" 0 0 1 1; plainItem "b" 1 0 2 1] in
  let item' := Item.with_w 5 (cloneLayoutItem (plainItem "b" 1 0 2 1)) in
  snd (withLayoutItem layout "b" (Item.with_w 5)) = Some item'
  /\ length (fst (withLayoutItem layout "b" (Item.with_w 5))) = length layout
  /\ getLayoutItem (fst (withLayoutItem layout "b" (Item.with_w 5))) "b"
     = Some item'
  /\ forall id, id <> "b"%string ->
       getLayoutItem (fst (withLayoutItem layout "b" (Item.with_w 5))) id
       = getLayoutItem layout id.
Proof.
  exact (X4_withLayoutItem_modifies_one_item
           [plainItem "a" 0 0 1 1; plainItem "b" 1 0 2 1] "b"
           (Item.with_w 5) (fun l => eq_refl)).
Defined.

(** ** Collisions *)

(** X5: [collides] is symmetric, never holds between items with the same
    id, and holds between items with different ids exactly when their
    rectangles overlap on both axes (touching edges do not overlap). *)
Theorem X5_collides_is_rectangle_overlap (l1 l2 : LayoutItem) :
  collides l1 l2 = collides l2 l1
  /\ collides l1 l1 = false
  /\ (collides l1 l2 = true <->
      Item.i l1 <> Item.i l2
      /\ Item.x l2 < Item.x l1 + Item.w l1
      /\ Item.x l1 < Item.x l2 + Item.w l2
      /\ Item.y l2 < Item.y l1 + Item.h l1
      /\ Item.y l1 < Item.y l2 + Item.h l2).
Proof.
  split; [apply collides_sym |].
  split; [apply collides_same_id; reflexivity |].
  apply collides_iff.
Qed.

Lemma getFirstCollision_head (layout : Layout) (layoutItem : LayoutItem) :
  getFirstCollision layout layoutItem
  = head (getAllCollisions layout layoutItem).
Proof.
  unfold getAllCollisions.
  induction layout as [| c rest IH]; cbn [getFirstCollision];
    [reflexivity |].
  rewrite filter_cons. destruct (collides c layoutItem) eqn:E.
  - rewrite decide_True by reflexivity. reflexivity.
  - rewrite decide_False by discriminate. exact IH.
Qed.

(** X6: [getAllCollisions] returns, in the order of the layout, exactly
    the items that collide with the given one, and [getFirstCollision]
    returns the first of them, or nothing when there is none. *)
Theorem X6_first_collision_heads_all_collisions (layout : Layout)
    (layoutItem : LayoutItem) :
  getFirstCollision layout layoutItem
  = head (getAllCollisions layout layoutItem)
  /\ sublist (getAllCollisions layout layoutItem) layout
  /\ (forall c, c ∈ getAllCollisions layout layoutItem <->
                c ∈ layout /\ collides c layoutItem = true)
  /\ (getFirstCollision layout layoutItem = None <->
      getAllCollisions layout layoutItem = []).
Proof.
  split; [apply getFirstCollision_head |].
  split; [apply sublist_filter |].
  split.
  - intros c. unfold getAllCollisions. rewrite list_elem_of_filter. tauto.
  - rewrite getFirstCollision_head.
    destruct (getAllCollisions layout layoutItem); cbn; split;
      congruence.
Qed.

(** ** Sorting *)

(** X7: in each mode [sortLayoutItems] returns a permutation of the
    layout; for the vertical mode it is in ascending order of row then
    column, for the horizontal mode of column then row, and without a
    mode it is the layout itself. *)
Theorem X7_sortLayoutItems_orders_a_permutation (layout : Layout)
    (compactType : CompactType) :
  sortLayoutItems id layout compactType ≡ₚ layout
  /\ match compactType with
     | NoCompaction => sortLayoutItems id layout compactType = layout
     | _ => StronglySorted (sortOrder compactType)
              (sortLayoutItems id layout compactType)
     end.
Proof.
  split; [apply sortLayoutItems_perm |].
  destruct compactType; cbn [sortLayoutItems]; [| | reflexivity].
  - apply js_sort_sorted.
    + intros u v w. apply sortOrder_trans.
    + intros u v. apply (compareColRow_order id u v).
    + intros u v. apply (compareColRow_order id u v).
  - apply js_sort_sorted.
    + intros u v w. apply sortOrder_trans.
    + intros u v. apply (compareRowCol_order id u v).
    + intros u v. apply (compareRowCol_order id u v).
Qed.

(** ** Resizing by a handle: what the adjusters guarantee *)

(** X8: whatever the sizes, a resize by a handle with a north or south
    part, or by the west handle, returns a top that is not negative, and
    a resize by a handle with an east or west part returns a left that
    is not negative. *)
Theorem X8_resize_keeps_top_and_left_nonnegative
    (currentSize newSize : Position.t) (containerWidth : Z) :
  Forall (fun direction =>
            0 <= Position.top (resizeItemInDirection direction currentSize
                                 newSize containerWidth))
         ["n"; "s"; "w"; "ne"; "nw"; "se"; "sw"]%string
  /\ Forall (fun direction =>
               0 <= Position.left (resizeItemInDirection direction
                                     currentSize newSize containerWidth))
            ["e"; "w"; "ne"; "nw"; "se"; "sw"]%string.
Proof.
  split; repeat constructor; cbn; unfold constrainTop, constrainLeft; lia.
Qed.





(** X11: when the current rectangle ends within the container, a resize
    by a handle with an east or west part returns a width that, counted
    from the current left, still ends within the container: a width that
    would pass the right edge is refused and the current width kept. *)
Theorem X11_resize_width_stays_in_the_container
    (currentSize newSize : Position.t) (containerWidth : Z) :
  Position.left currentSize + Position.width currentSize <= containerWidth ->
  Forall (fun direction =>
            Position.left currentSize
            + Position.width (resizeItemInDirection direction currentSize
                                newSize containerWidth)
            <= containerWidth)
         ["e"; "w"; "ne"; "nw"; "se"; "sw"]%string.
Proof.
  intros Hfit. repeat constructor; cbn; unfold constrainWidth;
    repeat match goal with
      | |- context [if ?c then _ else _] => destruct c eqn:?
      end; lia.
Qed.

Lemma X11_resize_width_witness :
  Forall (fun direction =>
            100 + Position.width
                    (resizeItemInDirection direction scenarioCurrent
                       {| Position.left := 100; Position.top := 100;
                          Position.width := 2000; Position.height := 150 |}
                       1000)
            <= 1000)
         ["e"; "w"; "ne"; "nw"; "se"; "sw"]%string.
Proof.
  apply (X11_resize_width_stays_in_the_container scenarioCurrent
           {| Position.left := 100; Position.top := 100;
              Position.width := 2000; Position.height := 150 |} 1000).
  cbn. lia.
Defined.

(** ** Pixels and grid units: bounds, and the round trip of a size *)

Local Open Scope Q_scope.

Lemma Number_below_irrefl (a : Number) : Number_below a a = false.
Proof.
  destruct a as [| [|] | | q]; try reflexivity.
  unfold Number_below. cbn [valueOf]. rewrite Qeq_bool_refl.
  cbn [isZero isNegative].
  destruct (Qeq_bool q 0); [| reflexivity].
  destruct (Qle_bool 0 q); reflexivity.
Qed.

Lemma Math_min_cases (a b : Number) :
  Math_min a b = NaN
  \/ (Math_min a b = b /\ Number_below b a = true)
  \/ (Math_min a b = a /\ Number_below b a = false).
Proof.
  unfold Math_min.
  destruct a; auto; destruct b; auto;
    match goal with
    | |- context [if ?c then _ else _] => destruct c eqn:E; auto
    end.
Qed.

Lemma Math_max_zero (a : Number) :
  Math_max a (ofZ 0) = NaN
  \/ (Math_max a (ofZ 0) = ofZ 0 /\ Number_below a (ofZ 0) = true)
  \/ (Math_max a (ofZ 0) = a /\ Number_below a (ofZ 0) = false).
Proof.
  unfold Math_max.
  destruct a; auto; unfold ofZ;
    match goal with
    | |- context [if ?c then _ else _] => destruct c eqn:E; auto
    end.
Qed.

Lemma clamp_clamped (num upperBound : Number) :
  clamped (clamp num (ofZ 0) upperBound) upperBound.
Proof.
  unfold clamped, clamp.
  destruct (Math_max_zero (Math_min num upperBound))
    as [-> | [[-> Hlt] | [-> Hge]]]; [auto | |].
  - right. split; [reflexivity | auto].
  - destruct (Math_min_cases num upperBound) as [-> | [[E Hlt] | [E Hge']]];
      [auto | |]; right; rewrite E in *.
    + split; [exact Hge |]. intros _. apply Number_below_irrefl.
    + split; [exact Hge | intros _; exact Hge'].
Qed.


Lemma Math_round_NaN (a : Number) : Math_round a = NaN <-> a = NaN.
Proof.
  destruct a as [| s | | q]; cbn [Math_round]; try (split; discriminate);
    [tauto |].
  destruct (_ && _); split; discriminate.
Qed.

Lemma Math_min_NaN (a b : Number) :
  Math_min a b = NaN <-> a = NaN \/ b = NaN.
Proof.
  unfold Math_min.
  destruct a; [tauto | | |]; (destruct b; [tauto | | |]);
    match goal with
    | |- context [if ?c then _ else _] => destruct c
    end; split; try discriminate; intros [H | H]; discriminate.
Qed.

Lemma Math_max_NaN (a b : Number) :
  Math_max a b = NaN <-> a = NaN \/ b = NaN.
Proof.
  unfold Math_max.
  destruct a; [tauto | | |]; (destruct b; [tauto | | |]);
    match goal with
    | |- context [if ?c then _ else _] => destruct c
    end; split; try discriminate; intros [H | H]; discriminate.
Qed.

Lemma clamp_NaN (num upperBound : Number) :
  clamp num (ofZ 0) upperBound = NaN <-> num = NaN \/ upperBound = NaN.
Proof.
  unfold clamp. rewrite Math_max_NaN, Math_min_NaN. unfold ofZ.
  split; [intros [H | H]; [exact H | discriminate] | auto].
Qed.

Lemma Math_max_ofZ (k : Z) : (0 <= k)%Z -> Math_max (ofZ 0) (ofZ k) = ofZ k.
Proof.
  intros Hk. destruct (Z.eq_dec k 0%Z) as [-> | Hne]; [reflexivity |].
  assert (H : 0 < inject_Z k).
  { change 0 with (inject_Z 0). rewrite <- Zlt_Qlt. lia. }
  unfold Math_max, ofZ, Number_below. cbn [valueOf].
  change (inject_Z 0) with 0.
  rewrite Qeq_bool_false by lra.
  rewrite Qle_bool_true by lra. reflexivity.
Qed.

Lemma between_closeTo (lo hi : Q) (a : Number) :
  between lo hi a -> closeTo a (valueOf a) 0.
Proof.
  intros [Hf _]. split; [exact Hf |]. apply Qabs_Qle_condition. lra.
Qed.

(** One axis of the size round trip: [n] units of [size] pixels,
    [marginPx] apart, rounded to a whole pixel, and back. *)
Lemma size_round_trip (size marginPx : Number) (n : Z) :
  between (1001 # 1000) 1073741824 (size + marginPx)%number ->
  between 0 1073741824 size ->
  between 0 1073741824 marginPx ->
  (1 <= n <= 1073741824)%Z ->
  integral
    (Math_round ((calcGridItemWHPx (ofZ n) size marginPx + marginPx)
                 / (size + marginPx))%number) n.
Proof.
  intros Hstep Hsize Hmargin Hn.
  pose proof halfLeast_nonneg as Heta0. pose proof halfLeast_small as Heta.
  pose proof pow2_1000_big as Hbig.
  set (eta := halfLeast) in *.
  pose proof (between_closeTo _ _ _ Hstep) as Hs.
  pose proof (between_closeTo _ _ _ Hsize) as Hc.
  pose proof (between_closeTo _ _ _ Hmargin) as Hm.
  destruct Hstep as [_ Hsb], Hsize as [_ Hcb], Hmargin as [_ Hmb].
  set (step := (size + marginPx)%number) in *.
  set (s := valueOf step) in *. set (c := valueOf size) in *.
  set (m := valueOf marginPx) in *.
  assert (Hx : 1 <= inject_Z n <= 1073741824).
  { change 1 with (inject_Z 1).
    change 1073741824 with (inject_Z 1073741824).
    rewrite <- !Zle_Qle. exact Hn. }
  assert (Hx1 : inject_Z (n - 1) == inject_Z n - 1).
  { unfold Zminus. rewrite inject_Z_plus. reflexivity. }
  set (x := inject_Z n) in *.
  (* the step, from its parts *)
  assert (Hsum : closeTo step (c + m) (0 + 0 + ((c + m) * unitRoundoff + eta))).
  { apply Number_add_closeTo; [exact Hc | exact Hm | |].
    - assert (H : Qabs (c + m) <= c + m) by (apply Qabs_Qle_condition; lra).
      lra.
    - lra. }
  destruct Hsum as [_ Hsum]. fold s in Hsum.
  apply Qabs_Qle_condition in Hsum. unfold unitRoundoff in Hsum.
  assert (HA : 0 <= c * x /\ c * x <= 1073741824 * c) by nra.
  assert (HM : 0 <= m * x /\ m <= m * x /\ m * x <= 1073741824 * m) by nra.
  assert (HS : 0 <= s * x /\ s * x <= 1073741824 * s) by nra.
  assert (HE : 0 <= eta * x /\ eta * x <= (1 # 18446744073709551616) * x)
    by nra.
  assert (Hes : 0 <= eta * s /\ eta * s <= (1 # 18446744073709551616) * s)
    by nra.
  assert (Hsx : s * x - (c * x + m * x)
                <= (c * x + m * x) * (1 # 9007199254740992) + eta * x
                /\ - ((c * x + m * x) * (1 # 9007199254740992) + eta * x)
                   <= s * x - (c * x + m * x)) by nra.
  (* size * n *)
  assert (H1 : closeTo (size * ofZ n)%number (c * x)
                 (c * x * unitRoundoff + eta)).
  { apply Number_mul_closeTo; [exact Hc | apply closeTo_ofZ | |].
    - apply Qabs_Qle_condition. lra.
    - lra. }
  (* max(0, n - 1) * margin *)
  assert (H2 : closeTo (Math_max (ofZ 0) (ofZ n - ofZ 1) * marginPx)%number
                 (m * x - m) (m * x * unitRoundoff + eta)).
  { rewrite Number_sub_ofZ, Math_max_ofZ by lia.
    eapply closeTo_comp.
    - apply (Number_mul_closeTo _ _ (inject_Z (n - 1)) m (m * x));
        [apply closeTo_ofZ | exact Hm | |].
      + rewrite Hx1. apply Qabs_Qle_condition. nra.
      + lra.
    - rewrite Hx1. ring. }
  set (e1 := c * x * unitRoundoff + eta) in *.
  set (e2 := m * x * unitRoundoff + eta) in *.
  assert (H3 : closeTo (size * ofZ n
                     + Math_max (ofZ 0) (ofZ n - ofZ 1) * marginPx)%number
                 (c * x + (m * x - m))
                 (e1 + e2 + ((c * x + m * x + e1 + e2) * unitRoundoff + eta))).
  { apply Number_add_closeTo; [exact H1 | exact H2 | |].
    - assert (H : Qabs (c * x + (m * x - m)) <= c * x + m * x)
        by (apply Qabs_Qle_condition; lra).
      lra.
    - unfold e1, e2, unitRoundoff. lra. }
  set (e3 := e1 + e2 + ((c * x + m * x + e1 + e2) * unitRoundoff + eta)) in *.
  (* the pixel size *)
  unfold calcGridItemWHPx. cbn [ofZ Number_isFinite negb]. fold (ofZ n).
  change (Fin (inject_Z 0)) with (ofZ 0).
  change (Fin (inject_Z 1)) with (ofZ 1).
  destruct H3 as [Hf3 H3]. apply Qabs_Qle_condition in H3.
  destruct (Math_round_finite _ Hf3) as (k & Hk & Hklo & Hkhi).
  apply integral_closeTo in Hk.
  set (px := Math_round (size * ofZ n
                         + Math_max (ofZ 0) (ofZ n - ofZ 1) * marginPx)%number)
    in *.
  set (b := valueOf (size * ofZ n
                     + Math_max (ofZ 0) (ofZ n - ofZ 1) * marginPx)%number)
    in *.
  set (kq := inject_Z k) in *.
  (* px + margin *)
  assert (H4 : closeTo (px + marginPx)%number (kq + m)
                 (0 + 0 + ((c * x + m * x + 1 + e3) * unitRoundoff + eta))).
  { apply Number_add_closeTo; [exact Hk | exact Hm | |].
    - assert (H : Qabs (kq + m) <= c * x + m * x + (1 # 2) + e3)
        by (apply Qabs_Qle_condition; lra).
      lra.
    - unfold e3, e1, e2, unitRoundoff. lra. }
  set (e4 := 0 + 0 + ((c * x + m * x + 1 + e3) * unitRoundoff + eta)) in *.
  (* ... / step *)
  assert (H5 : closeTo ((px + marginPx) / step)%number ((kq + m) / s)
                 ((1 # 1000000) + (1073741826 * unitRoundoff + eta))).
  { apply (Number_div_closeTo _ _ _ _ e4); [exact H4 | exact Hs | lra | | |].
    - unfold e4, e3, e1, e2, unitRoundoff. lra.
    - assert (H : Qabs (kq + m) <= c * x + m * x + (1 # 2) + e3)
        by (apply Qabs_Qle_condition; lra).
      unfold e4, e3, e1, e2, unitRoundoff in *. lra.
    - lra. }
  (* back to grid units *)
  eapply Math_round_closeTo; [exact H5 | |].
  - apply Qle_shift_div_l; [lra |].
    unfold e3, e1, e2, unitRoundoff in *. fold x. lra.
  - assert (H : (kq + m) / s
                < x + (1 # 2)
                  - ((1 # 1000000) + (1073741826 * unitRoundoff + eta))).
    { apply Qlt_shift_div_r; [lra |].
      unfold e3, e1, e2, unitRoundoff in *. lra. }
    fold x. lra.
Qed.

Lemma fits_limit (limit : Number) (n size : Z) :
  fits limit (n + size) -> (0 <= size)%Z ->
  limit = Infinity false
  \/ (Number_isFinite limit = true /\ inject_Z n <= valueOf limit).
Proof.
  intros [-> | (c & -> & Hc)] Hs; [left; reflexivity |].
  right. split; [reflexivity |]. cbn [ofZ valueOf]. rewrite <- Zle_Qle. lia.
Qed.

(** X12: whatever the pixel offsets and the parameters, each coordinate
    that [calcXY] returns is [NaN] or is not negative, and then it is
    at most [cols - w], respectively [maxRows - h], when that bound is
    not negative; it is [NaN] exactly when the quotient of the offset by
    the step, or the bound, is [NaN]. *)
Theorem X12_calcXY_stays_in_the_grid (p : PositionParams.t)
    (top left w h : Number) :
  clamped (fst (calcXY p top left w h)) (PositionParams.cols p - w)%number
  /\ clamped (snd (calcXY p top left w h))
       (PositionParams.maxRows p - h)%number
  /\ (fst (calcXY p top left w h) = NaN <->
      ((left - fst (PositionParams.containerPadding p))
       / columnStep p)%number = NaN
      \/ (PositionParams.cols p - w)%number = NaN)
  /\ (snd (calcXY p top left w h) = NaN <->
      ((top - snd (PositionParams.containerPadding p))
       / rowStep p)%number = NaN
      \/ (PositionParams.maxRows p - h)%number = NaN).
Proof.
  unfold calcXY. cbn [fst snd].
  fold (columnStep p). fold (rowStep p).
  split; [apply clamp_clamped |]. split; [apply clamp_clamped |].
  split; rewrite clamp_NaN, Math_round_NaN; reflexivity.
Qed.

(** The pixels are computed in doubles: in a container of 300 pixels
    with 12 columns the left edge of column 9 is 227.5 pixels in exact
    arithmetic, and would round to 228; in doubles it is just below,
    and rounds to 227.  Likewise an item as wide as a grid of 7 columns
    in 529.5 pixels is 509 pixels wide, not 510. *)
Lemma pixels_are_computed_in_doubles :
  PixelPosition.left
    (calcGridItemPosition
       (PositionParams.mk (ofZ 10, ofZ 10) (ofZ 10, ofZ 10) (ofZ 300)
          (ofZ 12) (ofZ 30) (ofZ 100))
       (ofZ 9) (ofZ 0) (ofZ 1) (ofZ 1) None)
  = ofZ 227
  /\ PixelPosition.width
       (calcGridItemPosition oddWidthParams (ofZ 0) (ofZ 0) (ofZ 7) (ofZ 1)
          None)
     = ofZ 509.
Proof. split; vm_compute; reflexivity. Qed.

(** With no width left for a column, [calcXY] divides by zero: an
    offset to the right of the padding lands in the last column that
    the item fits in, an offset equal to the padding gives [NaN]. *)
Lemma calcXY_on_a_zero_step :
  columnStep zeroStepParams = ofZ 0
  /\ calcXY zeroStepParams (ofZ 70) (ofZ 50) (ofZ 2) (ofZ 2)
     = (ofZ 10, ofZ 2)
  /\ calcXY zeroStepParams (ofZ 70) (ofZ 10) (ofZ 2) (ofZ 2) = (NaN, ofZ 2).
Proof. repeat split; vm_compute; reflexivity. Qed.

(** X13: each size that [calcWH] returns is [NaN] or is not negative,
    and then it is at most the bound of its handle, when that bound is
    not negative: [cols - x], or [cols] for the handles sw, w, nw;
    [maxRows - y], or [maxRows] for the handles nw, n, ne.  It is [NaN]
    exactly when the quotient of the size by the step, or the bound, is
    [NaN]. *)
Theorem X13_calcWH_stays_in_the_grid (p : PositionParams.t)
    (width height x y : Number) (handle : string) :
  clamped (fst (calcWH p width height x y handle)) (widthBound p x handle)
  /\ clamped (snd (calcWH p width height x y handle))
       (heightBound p y handle)
  /\ (fst (calcWH p width height x y handle) = NaN <->
      ((width + fst (PositionParams.margin p)) / columnStep p)%number = NaN
      \/ widthBound p x handle = NaN)
  /\ (snd (calcWH p width height x y handle) = NaN <->
      ((height + snd (PositionParams.margin p)) / rowStep p)%number = NaN
      \/ heightBound p y handle = NaN).
Proof.
  unfold calcWH, widthBound, heightBound. cbn [fst snd].
  fold (columnStep p). fold (rowStep p).
  destruct (includes ["sw"; "w"; "nw"]%string handle);
    destruct (includes ["nw"; "n"; "ne"]%string handle);
    (split; [apply clamp_clamped |]); (split; [apply clamp_clamped |]);
    split; rewrite clamp_NaN, Math_round_NaN; reflexivity.
Qed.

(** X14: when the steps, as the code computes them, are between 1.001
    and [2 ^ 30] pixels and the column width, the row height and the
    margins are between 0 and [2 ^ 30] pixels, [calcWH] applied to the
    pixel width and height that [calcGridItemPosition] (no override)
    computes for an item of integer size [w >= 1], [h >= 1] that fits
    the grid returns [(w, h)], whatever the handle. *)
Theorem X14_calcWH_inverts_the_pixel_size (p : PositionParams.t)
    (x y w h : Z) (handle : string) :
  between (1001 # 1000) 1073741824 (columnStep p) ->
  between (1001 # 1000) 1073741824 (rowStep p) ->
  between 0 1073741824 (calcGridColWidth p) ->
  between 0 1073741824 (PositionParams.rowHeight p) ->
  between 0 1073741824 (fst (PositionParams.margin p)) ->
  between 0 1073741824 (snd (PositionParams.margin p)) ->
  (0 <= x)%Z -> (1 <= w <= 1073741824)%Z ->
  fits (PositionParams.cols p) (x + w) ->
  (0 <= y)%Z -> (1 <= h <= 1073741824)%Z ->
  fits (PositionParams.maxRows p) (y + h) ->
  calcWH p
    (PixelPosition.width
       (calcGridItemPosition p (ofZ x) (ofZ y) (ofZ w) (ofZ h) None))
    (PixelPosition.height
       (calcGridItemPosition p (ofZ x) (ofZ y) (ofZ w) (ofZ h) None))
    (ofZ x) (ofZ y) handle
  = (ofZ w, ofZ h).
Proof.
  intros Hcs Hrs Hcw Hrh Hm0 Hm1 Hx Hw Hcols Hy Hh Hrows.
  unfold calcWH, calcGridItemPosition.
  cbn [mbind option_bind PixelPosition.width PixelPosition.height].
  pose proof (size_round_trip _ _ w Hcs Hcw Hm0 Hw) as Hwi.
  pose proof (size_round_trip _ _ h Hrs Hrh Hm1 Hh) as Hhi.
  rewrite (Z.add_comm x w) in Hcols. rewrite (Z.add_comm y h) in Hrows.
  f_equal.
  - destruct (includes ["sw"; "w"; "nw"]%string handle);
      (apply clamp_integral; [exact Hwi | lia |]).
    + apply (fits_limit _ _ x); [exact Hcols | lia].
    + apply fits_sub; [exact Hcols | lia | lia].
  - destruct (includes ["nw"; "n"; "ne"]%string handle);
      (apply clamp_integral; [exact Hhi | lia |]).
    + apply (fits_limit _ _ y); [exact Hrows | lia].
    + apply fits_sub; [exact Hrows | lia | lia].
Qed.

Lemma X14_calcWH_round_trip_witness :
  calcWH scenarioParams
    (PixelPosition.width
       (calcGridItemPosition scenarioParams (ofZ 3) (ofZ 2) (ofZ 2) (ofZ 2)
          None))
    (PixelPosition.height
       (calcGridItemPosition scenarioParams (ofZ 3) (ofZ 2) (ofZ 2) (ofZ 2)
          None))
    (ofZ 3) (ofZ 2) "se"
  = (ofZ 2, ofZ 2).
Proof.
  apply (X14_calcWH_inverts_the_pixel_size scenarioParams 3 2 2 2 "se").
  - split; [reflexivity | split; vm_compute; discriminate].
  - split; [reflexivity | split; vm_compute; discriminate].
  - split; [reflexivity | split; vm_compute; discriminate].
  - split; [reflexivity | split; vm_compute; discriminate].
  - split; [reflexivity | split; vm_compute; discriminate].
  - split; [reflexivity | split; vm_compute; discriminate].
  - lia.
  - lia.
  - right. exists 12%Z. split; [reflexivity | lia].
  - lia.
  - lia.
  - right. exists 100%Z. split; [reflexivity | lia].
Defined.

(** The product of a number known up to an error by a number known
    exactly. *)
Lemma Number_mul_closeTo_exact (a b : Number) (va vb ea M : Q) :
  closeTo a va ea -> closeTo b vb 0 -> 0 <= vb ->
  (Qabs va + ea) * vb <= M -> M <= pow2 1000 ->
  closeTo (Number_mul a b) (va * vb)
    (ea * vb + (M * unitRoundoff + halfLeast)).
Proof.
  intros [Hfa Ha] Hb Hvb HM Hbig.
  pose proof (closeTo_exact _ _ Hb) as Evb. destruct Hb as [Hfb _].
  pose proof halfLeast_nonneg as Heta.
  assert (Hu : 0 < unitRoundoff) by reflexivity.
  apply Qabs_Qle_condition in Ha.
  pose proof (Qabs_nonneg va) as Hva0.
  assert (Hea : 0 <= ea) by lra.
  assert (Hva : Qabs va <= Qabs va) by lra.
  apply Qabs_Qle_condition in Hva.
  set (A := Qabs va) in *.
  assert (HM0 : 0 <= M) by nra.
  rewrite (Number_mul_finite a b Hfa Hfb).
  rewrite (isZero_value a Hfa), (isZero_value b Hfb).
  destruct (Qeq_bool (valueOf a) 0 || Qeq_bool (valueOf b) 0) eqn:Ez.
  - split; [apply finite_signedZero |]. rewrite valueOf_signedZero.
    apply Qabs_Qle_condition.
    apply orb_true_iff in Ez as [E | E]; apply Qeq_bool_eq in E.
    + rewrite E in Ha. nra.
    + rewrite Evb in E. rewrite E. nra.
  - assert (E : valueOf a * valueOf b == valueOf a * vb)
      by (rewrite Evb; reflexivity).
    rewrite (roundDouble_comp _ _ E).
    assert (Hq : Qabs (valueOf a * vb) <= M).
    { apply Qabs_Qle_condition. set (v := valueOf a) in *. nra. }
    destruct (roundDouble_closeTo _ M Hq Hbig) as [Hf Hr].
    split; [exact Hf |].
    apply Qabs_Qle_condition in Hr. apply Qabs_Qle_condition.
    set (v := valueOf a) in *.
    set (r := valueOf (roundDouble (v * vb))) in *. nra.
Qed.

(** The width in pixels of an item that spans all the columns: the
    width of the container less its paddings, up to the rounding to a
    whole pixel. *)
Lemma full_width (containerWidth margin0 padding0 : Number) (c : Z) :
  between (-1073741824) 1073741824 containerWidth ->
  between (-32768) 32768 margin0 ->
  between (-1073741824) 1073741824 padding0 ->
  (1 <= c <= 32768)%Z ->
  exists n,
    integral
      (calcGridItemWHPx (ofZ c)
         ((containerWidth - margin0 * (ofZ c - ofZ 1) - padding0 * ofZ 2)
          / ofZ c)%number
         margin0) n
    /\ Qabs (inject_Z n - (valueOf containerWidth - 2 * valueOf padding0))
       <= (1 # 2) + (1 # 100000).
Proof.
  intros HW Hm Hp Hc.
  pose proof halfLeast_nonneg as Heta0. pose proof halfLeast_small as Heta.
  pose proof pow2_1000_big as Hbig.
  set (eta := halfLeast) in *.
  pose proof (between_closeTo _ _ _ HW) as HWn.
  pose proof (between_closeTo _ _ _ Hm) as Hmn.
  pose proof (between_closeTo _ _ _ Hp) as Hpn.
  destruct HW as [_ HWb], Hm as [_ Hmb], Hp as [_ Hpb].
  set (W := valueOf containerWidth) in *. set (m := valueOf margin0) in *.
  set (P := valueOf padding0) in *.
  assert (Hcq : 1 <= inject_Z c <= 32768).
  { change 1 with (inject_Z 1). change 32768 with (inject_Z 32768).
    rewrite <- !Zle_Qle. exact Hc. }
  assert (Hc1 : inject_Z (c - 1) == inject_Z c - 1).
  { unfold Zminus. rewrite inject_Z_plus. reflexivity. }
  set (cq := inject_Z c) in *.
  assert (Hmc : -1073741824 <= m * (cq - 1) /\ m * (cq - 1) <= 1073741824)
    by nra.
  assert (Hec : 0 <= eta * cq /\ eta * cq <= (1 # 18446744073709551616) * cq)
    by nra.
  set (mc := m * (cq - 1)) in *.
  rewrite Number_sub_ofZ by lia.
  (* margin * (cols - 1) *)
  assert (H2 : closeTo (margin0 * ofZ (c - 1))%number mc
                 (1073741824 * unitRoundoff + eta)).
  { eapply closeTo_comp.
    - apply (Number_mul_closeTo _ _ m (inject_Z (c - 1)) 1073741824);
        [exact Hmn | apply closeTo_ofZ | |].
      + rewrite Hc1. fold mc. apply Qabs_Qle_condition. lra.
      + lra.
    - rewrite Hc1. reflexivity. }
  set (e2 := 1073741824 * unitRoundoff + eta) in *.
  (* containerWidth - ... *)
  assert (H3 : closeTo (containerWidth - margin0 * ofZ (c - 1))%number
                 (W - mc) (0 + e2 + (2147483649 * unitRoundoff + eta))).
  { apply Number_sub_closeTo; [exact HWn | exact H2 | |].
    - assert (H : Qabs (W - mc) <= 2147483648)
        by (apply Qabs_Qle_condition; lra).
      unfold e2, unitRoundoff. lra.
    - lra. }
  set (e3 := 0 + e2 + (2147483649 * unitRoundoff + eta)) in *.
  (* padding * 2 *)
  assert (H4 : closeTo (padding0 * ofZ 2)%number (P * 2)
                 (2147483648 * unitRoundoff + eta)).
  { apply (Number_mul_closeTo _ _ P (inject_Z 2) 2147483648);
      [exact Hpn | apply closeTo_ofZ | |].
    - change (inject_Z 2) with 2. apply Qabs_Qle_condition. lra.
    - lra. }
  set (e4 := 2147483648 * unitRoundoff + eta) in *.
  (* ... - padding * 2 *)
  assert (H5 : closeTo (containerWidth - margin0 * ofZ (c - 1)
                        - padding0 * ofZ 2)%number
                 (W - mc - P * 2)
                 (e3 + e4 + (4294967297 * unitRoundoff + eta))).
  { apply Number_sub_closeTo; [exact H3 | exact H4 | |].
    - assert (H : Qabs (W - mc - P * 2) <= 4294967296)
        by (apply Qabs_Qle_condition; lra).
      unfold e3, e4, e2, unitRoundoff. lra.
    - lra. }
  set (e5 := e3 + e4 + (4294967297 * unitRoundoff + eta)) in *.
  (* the column width *)
  assert (HN : (W - mc - P * 2) / cq * cq == W - mc - P * 2)
    by (field; lra).
  assert (H6 : closeTo ((containerWidth - margin0 * ofZ (c - 1)
                         - padding0 * ofZ 2) / ofZ c)%number
                 ((W - mc - P * 2) / cq)
                 (e5 / cq + ((4294967297 / cq) * unitRoundoff + eta))).
  { apply (Number_div_closeTo _ _ _ _ e5);
      [exact H5 | apply closeTo_ofZ | lra | | |].
    - assert (E : e5 / cq * cq == e5) by (field; lra). lra.
    - assert (H : Qabs (W - mc - P * 2) <= 4294967296)
        by (apply Qabs_Qle_condition; lra).
      assert (E : 4294967297 / cq * cq == 4294967297) by (field; lra).
      unfold e5, e3, e4, e2, unitRoundoff. lra.
    - assert (H : 4294967297 / cq <= 4294967297).
      { apply Qle_shift_div_r; lra. }
      lra. }
  set (colWidth := ((containerWidth - margin0 * ofZ (c - 1)
                     - padding0 * ofZ 2) / ofZ c)%number) in *.
  assert (Hcw : Qabs ((W - mc - P * 2) / cq) * cq <= 4294967296).
  { rewrite <- (Qabs_pos cq) at 2 by lra.
    rewrite <- Qabs_Qmult, HN. apply Qabs_Qle_condition. lra. }
  assert (He6 : (e5 / cq + ((4294967297 / cq) * unitRoundoff + eta)) * cq
                == e5 + 4294967297 * unitRoundoff + eta * cq)
    by (field; lra).
  set (e6 := e5 / cq + ((4294967297 / cq) * unitRoundoff + eta)) in *.
  (* the pixel width *)
  unfold calcGridItemWHPx. cbn [ofZ Number_isFinite negb]. fold (ofZ c).
  change (Fin (inject_Z 0)) with (ofZ 0).
  change (Fin (inject_Z 1)) with (ofZ 1).
  rewrite Number_sub_ofZ, Math_max_ofZ by lia.
  assert (H7 : closeTo (colWidth * ofZ c)%number (W - mc - P * 2)
                 (e6 * cq + (4294967297 * unitRoundoff + eta))).
  { eapply closeTo_comp.
    - apply (Number_mul_closeTo_exact _ _ ((W - mc - P * 2) / cq) cq e6
               4294967297);
        [exact H6 | apply closeTo_ofZ | lra | |].
      + unfold e5, e3, e4, e2, unitRoundoff in He6.
        set (g := Qabs ((W - mc - P * 2) / cq)) in *. lra.
      + lra.
    - exact HN. }
  assert (H8 : closeTo (ofZ (c - 1) * margin0)%number mc
                 (1073741824 * unitRoundoff + eta)).
  { eapply closeTo_comp.
    - apply (Number_mul_closeTo _ _ (inject_Z (c - 1)) m 1073741824);
        [apply closeTo_ofZ | exact Hmn | |].
      + rewrite Hc1. apply Qabs_Qle_condition. unfold mc in Hmc. nra.
      + lra.
    - rewrite Hc1. unfold mc. ring. }
  assert (H9 : closeTo (colWidth * ofZ c + ofZ (c - 1) * margin0)%number
                 (W - mc - P * 2 + mc)
                 (e6 * cq + (4294967297 * unitRoundoff + eta) + e2
                  + (4294967298 * unitRoundoff + eta))).
  { apply Number_add_closeTo; [exact H7 | exact H8 | |].
    - assert (H : Qabs (W - mc - P * 2 + mc) <= 4294967296)
        by (apply Qabs_Qle_condition; lra).
      unfold e5, e3, e4, e2, unitRoundoff in He6. unfold e2, unitRoundoff.
      lra.
    - lra. }
  destruct H9 as [Hf9 H9]. apply Qabs_Qle_condition in H9.
  destruct (Math_round_finite _ Hf9) as (n & Hn & Hnlo & Hnhi).
  exists n. split; [exact Hn |].
  apply Qabs_Qle_condition.
  unfold e5, e3, e4, e2, unitRoundoff in He6.
  unfold e2, unitRoundoff in H9. lra.
Qed.

(** X15: for an integer number of columns between 1 and 32768, a
    container width and a padding of at most [2 ^ 30] pixels and a
    margin of at most 32768 pixels, the width in pixels that
    [calcGridItemPosition] gives an item as wide as the grid is an
    integer within half a pixel (and a hundred-thousandth) of
    [containerWidth - 2 * containerPadding[0]]: the item spans the
    container between its paddings, up to the rounding to a whole
    pixel. *)
Theorem X15_full_width_item_spans_the_container (p : PositionParams.t)
    (x y h : Number) (c : Z) :
  PositionParams.cols p = ofZ c -> (1 <= c <= 32768)%Z ->
  between (-1073741824) 1073741824 (PositionParams.containerWidth p) ->
  between (-32768) 32768 (fst (PositionParams.margin p)) ->
  between (-1073741824) 1073741824
    (fst (PositionParams.containerPadding p)) ->
  exists n,
    integral
      (PixelPosition.width (calcGridItemPosition p x y (ofZ c) h None)) n
    /\ Qabs (inject_Z n
             - (valueOf (PositionParams.containerWidth p)
                - 2 * valueOf (fst (PositionParams.containerPadding p))))
       <= (1 # 2) + (1 # 100000).
Proof.
  intros Hcols Hc HW Hm Hp.
  unfold calcGridItemPosition.
  cbn [mbind option_bind PixelPosition.width].
  unfold calcGridColWidth. rewrite Hcols.
  apply full_width; assumption.
Qed.

Lemma X15_full_width_witness :
  exists n,
    integral
      (PixelPosition.width
         (calcGridItemPosition oddWidthParams (ofZ 0) (ofZ 0) (ofZ 7)
            (ofZ 1) None)) n
    /\ Qabs (inject_Z n - ((1059 # 2) - 2 * 10)) <= (1 # 2) + (1 # 100000).
Proof.
  apply (X15_full_width_item_spans_the_container oddWidthParams
           (ofZ 0) (ofZ 0) (ofZ 1) 7).
  - reflexivity.
  - lia.
  - split; [reflexivity | split; vm_compute; discriminate].
  - split; [reflexivity | split; vm_compute; discriminate].
  - split; [reflexivity | split; vm_compute; discriminate].
Defined.

Local Close Scope Q_scope.

(** ** What [compact] puts in each slot, for every layout *)

Lemma slotInv_step (layout : Layout) (fuel : nat)
    (compactType : CompactType) (cols : Z) (allowOverlap : bool)
    (j origin : nat) (s s' : CompactState) :
  slotInv layout compactType cols allowOverlap j s ->
  sortedOrigins layout compactType !! j = Some origin ->
  compactStep fuel compactType cols allowOverlap j origin s = Some s' ->
  slotInv layout compactType cols allowOverlap (S j) s'.
Proof.
  intros [Hframe Hslots] Htag Hstep.
  split; [eapply frameInv_step; eassumption |].
  destruct Hframe as (Hlen & [Hflen Hf] & _ & _).
  destruct (sorted_entry _ _ _ _ Htag) as (a0 & Ha0 & Hlay).
  destruct (Hf j a0 Ha0) as [[v Hcur] Hstat].
  assert (Hk : (origin < length (cs_out s))%nat).
  { rewrite Hlen. eapply lookup_lt_Some. exact Hlay. }
  assert (Hnew : exists o,
             cs_out s' = <[origin := Some o]> (cs_out s)
             /\ slotSpec compactType cols allowOverlap a0 o).
  { unfold slotSpec. destruct (is_static a0) eqn:Hsa.
    - destruct (compactStep_spec _ _ _ _ _ _ _ _ _ (Hstat eq_refl) Hstep)
        as [[_ ->] | (Hst & _)]; [| congruence].
      cbn [cs_out]. eauto.
    - destruct (compactStep_spec _ _ _ _ _ _ _ _ _ Hcur Hstep)
        as [[Hst _] | (Hst & l2 & full' & Hpf & ->)].
      { rewrite set_axis_static in Hst. congruence. }
      cbn [cs_out]. eexists. split; [reflexivity |].
      exists (cs_compareWith s), v, l2. split; [| reflexivity].
      eapply pushForward_trace; [| exact Hpf].
      rewrite pulled_static, cloneLayoutItem_static. exact Hst. }
  destruct Hnew as (o & -> & Ho).
  intros k a o' Hka. destruct (decide (k = origin)) as [-> | Hne].
  - rewrite list_lookup_insert_eq by exact Hk. intros [= <-].
    assert (a = a0) by congruence. subst a. exact Ho.
  - rewrite list_lookup_insert_ne by auto. apply Hslots. exact Hka.
Qed.

(** Whatever the layout and the fuel: each item of a result of
    [compact] is the clone of the static item at its position, or a
    placement of the item at its position. *)
Lemma compact_slots (fuel : nat) (layout : Layout)
    (compactType : CompactType) (cols : Z) (allowOverlap : bool)
    (out : list (option LayoutItem)) :
  compact fuel layout compactType cols allowOverlap = Some out ->
  forall k a, layout !! k = Some a ->
    exists o, out !! k = Some (Some o)
              /\ slotSpec compactType cols allowOverlap a o.
Proof.
  intros Hout.
  destruct (compact_frame _ _ _ _ _ _ Hout) as [_ Hall].
  revert Hout. unfold compact.
  destruct (compactLoop _ _ _ _ _ _ _) as [st |] eqn:Hloop; [| discriminate].
  intros [= <-].
  fold (sortedOrigins layout compactType) in Hloop.
  fold (sortedItems layout compactType) in Hloop.
  assert (HI : slotInv layout compactType cols allowOverlap
                 (0 + length (sortedOrigins layout compactType)) st).
  { eapply (compactLoop_invariant
              (slotInv layout compactType cols allowOverlap));
      [| | | exact Hloop].
    - intros j origin s s'. apply slotInv_step.
    - intros j origin Hj. exact Hj.
    - split; [apply frameInv_start |]. cbn [cs_out].
      intros k a o _ Ho. apply lookup_replicate in Ho as [[=] _]. }
  intros k a Hk. destruct (Hall k a Hk) as (o & Ho & _).
  exists o. split; [exact Ho |]. apply (proj2 HI k a o Hk Ho).
Qed.

(** X16: whatever the layout, the mode and the other items, [compact]
    returns a static item where it was: the output holds, at the
    position of a static item, its clone with the [moved] flag
    cleared, at the same [x] and [y]. *)
Theorem X16_compact_leaves_static_items_in_place (fuel : nat)
    (layout : Layout) (compactType : CompactType) (cols : Z)
    (allowOverlap : bool) (out : list (option LayoutItem)) (k : nat)
    (a : LayoutItem) :
  compact fuel layout compactType cols allowOverlap = Some out ->
  layout !! k = Some a ->
  is_static a = true ->
  exists o,
    out !! k = Some (Some o)
    /\ o = Item.with_moved false (cloneLayoutItem a)
    /\ Item.x o = Item.x a /\ Item.y o = Item.y a
    /\ is_static o = true.
Proof.
  intros Hout Hk Hst.
  destruct (compact_slots _ _ _ _ _ _ Hout k a Hk) as (o & Ho & Hspec).
  unfold slotSpec in Hspec. rewrite Hst in Hspec. subst o.
  eexists. split; [exact Ho |]. split; [reflexivity |].
  split; [reflexivity |]. split; [reflexivity |].
  change (is_static (cloneLayoutItem a) = true).
  rewrite cloneLayoutItem_static. exact Hst.
Qed.

Lemma X16_compact_static_witness :
  exists out,
    compact 9 aroundStatic Vertical 12 false = Some out
    /\ exists o,
         out !! 1%nat = Some (Some o)
         /\ o = Item.with_moved false
                  (cloneLayoutItem (staticItem "s" 0 2 2 1))
         /\ Item.x o = 0 /\ Item.y o = 2
         /\ is_static o = true.
Proof.
  eexists. split; [vm_compute; reflexivity |].
  apply (X16_compact_leaves_static_items_in_place 9 aroundStatic Vertical
           12 false _ 1 (staticItem "s" 0 2 2 1));
    [vm_compute; reflexivity | reflexivity | reflexivity].
Defined.

(** ** Off the compaction axis *)

Lemma advance_off_axis (compareWith : Layout) (compactType : CompactType)
    (cols : Z) (l c : LayoutItem) :
  (isHorizontal compactType = false ->
   Item.x (advance compareWith compactType cols l c) = Item.x l)
  /\ (isHorizontal compactType = true ->
      Item.y l <= Item.y (advance compareWith compactType cols l c)).
Proof.
  unfold advance, axisOf. destruct (isHorizontal compactType); cbn [andb].
  - split; [discriminate |]. intros _.
    destruct (_ >? cols); [rewrite pullToOrigin_X_y |]; cbn; lia.
  - split; [reflexivity | discriminate].
Qed.

Lemma pushTrace_off_axis (compareWith : Layout) (compactType : CompactType)
    (cols : Z) (allowOverlap : bool) (l l' : LayoutItem) :
  pushTrace compareWith compactType cols allowOverlap l l' ->
  (isHorizontal compactType = false -> Item.x l' = Item.x l)
  /\ (isHorizontal compactType = true -> Item.y l <= Item.y l').
Proof.
  induction 1 as [l _ | l _ | l c l' _ _ _ IH].
  - split; intros _; [reflexivity | lia].
  - split; intros _; [reflexivity | lia].
  - destruct (advance_off_axis compareWith compactType cols l c) as [Hx Hy].
    destruct IH as [IHx IHy].
    split; intros Hh; [rewrite IHx, Hx by exact Hh; reflexivity |].
    specialize (Hy Hh). specialize (IHy Hh). lia.
Qed.

Lemma pulled_off_axis (compareWith : Layout) (compactType : CompactType)
    (l : LayoutItem) :
  (isHorizontal compactType = false ->
   Item.x (pulled compareWith compactType l) = Item.x l)
  /\ (isHorizontal compactType = true ->
      Item.y (pulled compareWith compactType l) = Item.y l).
Proof.
  destruct compactType; cbn [pulled isHorizontal];
    (split; [try discriminate | try discriminate]); intros _.
  - apply pullToOrigin_X_y.
  - rewrite pullToOrigin_Y_x. reflexivity.
  - reflexivity.
Qed.

(** Where a placement puts the item, off the compaction axis. *)
Lemma placement_off_axis (compareWith : Layout) (compactType : CompactType)
    (cols : Z) (allowOverlap : bool) (v : Z) (a o : LayoutItem) :
  placement compareWith compactType cols allowOverlap
    (set_axis (axisOf compactType) v a) o ->
  0 <= Item.x o /\ 0 <= Item.y o
  /\ (isHorizontal compactType = false -> Item.x o = Z.max (Item.x a) 0)
  /\ (isHorizontal compactType = true -> Z.max (Item.y a) 0 <= Item.y o).
Proof.
  intros (l2 & Htrace & ->).
  destruct (pushTrace_off_axis _ _ _ _ _ _ Htrace) as [Hx Hy].
  destruct (pulled_off_axis compareWith compactType
              (cloneLayoutItem (set_axis (axisOf compactType) v a)))
    as [Hpx Hpy].
  cbn [Item.x Item.y Item.with_moved clampOrigin Item.with_x Item.with_y].
  split; [lia |]. split; [lia |].
  unfold axisOf in *. destruct (isHorizontal compactType).
  - split; [discriminate |]. intros _.
    specialize (Hy eq_refl). rewrite (Hpy eq_refl) in Hy. cbn in Hy. lia.
  - split; [| discriminate]. intros _.
    rewrite (Hx eq_refl), (Hpx eq_refl). reflexivity.
Qed.

(** X17: [compact] moves an item that is not static along the axis of
    the mode only.  In the vertical mode and without a mode its column
    is the column it had, a negative one becoming 0; in the horizontal
    mode its row is never above the row it had: it only goes down, one
    row for each time the item is wrapped at the right edge. *)
Theorem X17_compact_moves_items_along_the_axis (fuel : nat)
    (layout : Layout) (compactType : CompactType) (cols : Z)
    (allowOverlap : bool) (out : list (option LayoutItem)) (k : nat)
    (a : LayoutItem) :
  compact fuel layout compactType cols allowOverlap = Some out ->
  layout !! k = Some a ->
  is_static a = false ->
  exists o,
    out !! k = Some (Some o)
    /\ (isHorizontal compactType = false -> Item.x o = Z.max (Item.x a) 0)
    /\ (isHorizontal compactType = true -> Z.max (Item.y a) 0 <= Item.y o).
Proof.
  intros Hout Hk Hst.
  destruct (compact_slots _ _ _ _ _ _ Hout k a Hk) as (o & Ho & Hspec).
  unfold slotSpec in Hspec. rewrite Hst in Hspec.
  destruct Hspec as (compareWith & v & Hplace).
  exists o. split; [exact Ho |].
  apply (placement_off_axis _ _ _ _ _ _ _ Hplace).
Qed.

Lemma X17_compact_axis_witness :
  exists out,
    compact 9 aroundStatic Vertical 12 false = Some out
    /\ exists o,
         out !! 2%nat = Some (Some o)
         /\ (isHorizontal Vertical = false -> Item.x o = Z.max 1 0)
         /\ (isHorizontal Vertical = true -> Z.max 9 0 <= Item.y o).
Proof.
  eexists. split; [vm_compute; reflexivity |].
  apply (X17_compact_moves_items_along_the_axis 9 aroundStatic Vertical
           12 false _ 2 (plainItem "b" 1 9 2 2));
    [vm_compute; reflexivity | reflexivity | reflexivity].
Defined.

(** X18: whatever the layout, the items [compact] returns that are not
    static have coordinates that are not negative. *)
Theorem X18_compacted_items_have_no_negative_position (fuel : nat)
    (layout : Layout) (compactType : CompactType) (cols : Z)
    (allowOverlap : bool) (out : list (option LayoutItem)) (k : nat)
    (o : LayoutItem) :
  compact fuel layout compactType cols allowOverlap = Some out ->
  out !! k = Some (Some o) ->
  is_static o = false ->
  0 <= Item.x o /\ 0 <= Item.y o.
Proof.
  intros Hout Ho Hst.
  destruct (compact_frame _ _ _ _ _ _ Hout) as [Hlen _].
  assert (Hk : (k < length layout)%nat).
  { rewrite <- Hlen. eapply lookup_lt_Some. exact Ho. }
  destruct (lookup_lt_is_Some_2 layout k Hk) as [a Ha].
  destruct (compact_slots _ _ _ _ _ _ Hout k a Ha) as (o' & Ho' & Hspec).
  assert (o' = o) by congruence. subst o'.
  unfold slotSpec in Hspec. destruct (is_static a) eqn:Hsa.
  - subst o. change (is_static (cloneLayoutItem a) = false) in Hst.
    rewrite cloneLayoutItem_static in Hst. congruence.
  - destruct Hspec as (compareWith & v & Hplace).
    destruct (placement_off_axis _ _ _ _ _ _ _ Hplace) as (Hx & Hy & _).
    auto.
Qed.

Lemma X18_compact_nonnegative_witness :
  exists o1 o2,
    compact 5 leftOfGrid Vertical 12 false = Some [Some o1; Some o2]
    /\ 0 <= Item.x o2 /\ 0 <= Item.y o2.
Proof.
  eexists _, _. split; [vm_compute; reflexivity |].
  eapply (X18_compacted_items_have_no_negative_position 5 leftOfGrid
            Vertical 12 false _ 1);
    [vm_compute; reflexivity | reflexivity | reflexivity].
Defined.

(** ** No mode, overlap allowed: nothing is moved *)

Lemma compactStep_overlap (fuel : nat) (cols : Z) (i origin : nat)
    (st : CompactState) (a : LayoutItem) :
  cs_sorted st !! i = Some a ->
  compactStep fuel NoCompaction cols true i origin st
  = Some (mkCompactState
            (if is_static a then cs_compareWith st
             else cs_compareWith st ++ [keptInPlace a])
            (cs_sorted st)
            (<[origin := Some (keptInPlace a)]> (cs_out st))).
Proof.
  intros Ha. unfold compactStep, keptInPlace.
  rewrite Ha, cloneLayoutItem_static.
  destruct (is_static a); cbn [negb]; [reflexivity |].
  rewrite compactItem_eq, pushForward_overlap by reflexivity.
  reflexivity.
Qed.

Lemma compactLoop_overlap_returns (fuel : nat) (cols : Z) :
  forall origins i st,
    exists st',
      compactLoop fuel NoCompaction cols true i origins st = Some st'.
Proof.
  induction origins as [| origin rest IH]; intros i st; cbn [compactLoop];
    [eauto |].
  destruct (cs_sorted st !! i) as [a |] eqn:Ha.
  - rewrite (compactStep_overlap _ _ _ _ _ _ Ha). apply IH.
  - rewrite compactStep_missing by exact Ha. apply IH.
Qed.

(** X19: without a compaction mode and with overlap allowed, [compact]
    moves nothing, whatever the layout and without any recursion: it
    returns, position by position, the clone of each item with its
    [moved] flag cleared, the negative coordinates of the items that
    are not static being replaced by 0. *)
Theorem X19_compact_without_mode_keeps_items_in_place (fuel : nat)
    (layout : Layout) (cols : Z) :
  compact fuel layout NoCompaction cols true
  = Some (map (fun a => Some (keptInPlace a)) layout).
Proof.
  destruct (compactLoop_overlap_returns fuel cols
              (sortedOrigins layout NoCompaction) 0
              (mkCompactState (getStatics layout)
                 (sortedItems layout NoCompaction)
                 (replicate (length layout) None))) as [st Hloop].
  assert (Hout : compact fuel layout NoCompaction cols true
                 = Some (cs_out st)).
  { unfold compact.
    fold (sortedOrigins layout NoCompaction).
    fold (sortedItems layout NoCompaction).
    rewrite Hloop. reflexivity. }
  rewrite Hout. f_equal.
  destruct (compact_frame _ _ _ _ _ _ Hout) as [Hlen Hall].
  assert (Hsorted : sortedItems layout NoCompaction = layout)
    by apply withOrigins_items.
  assert (HI : overlapInv layout
                 (0 + length (sortedOrigins layout NoCompaction)) st).
  { eapply (compactLoop_invariant (overlapInv layout) fuel NoCompaction
              cols true (sortedOrigins layout NoCompaction));
      [| | | exact Hloop].
    - intros j origin s s' [Hs Hslots] Htag.
      destruct (sorted_entry _ _ _ _ Htag) as (a0 & Ha0 & Hlay).
      rewrite Hsorted in Ha0. rewrite <- Hs in Ha0.
      rewrite (compactStep_overlap _ _ _ _ _ _ Ha0). intros [= <-].
      split; [exact Hs |]. cbn [cs_out]. intros k a o Hka.
      destruct (decide (k = origin)) as [-> | Hne].
      + destruct (decide (origin < length (cs_out s))%nat) as [Hlt | Hge].
        * rewrite list_lookup_insert_eq by exact Hlt. intros [= <-].
          congruence.
        * rewrite list_insert_ge by lia. apply Hslots. exact Hka.
      + rewrite list_lookup_insert_ne by auto. apply Hslots. exact Hka.
    - intros j origin Hj. exact Hj.
    - split; [exact Hsorted |]. cbn [cs_out].
      intros k a o _ Ho. apply lookup_replicate in Ho as [[=] _]. }
  apply list_eq. intros k. rewrite list_lookup_fmap.
  destruct (layout !! k) as [a |] eqn:Hk; cbn.
  - destruct (Hall k a Hk) as (o & Ho & _). rewrite Ho.
    rewrite (proj2 HI k a o Hk Ho). reflexivity.
  - apply lookup_ge_None. rewrite Hlen. apply lookup_ge_None. exact Hk.
Qed.

(** ** Compacted layouts have no gaps and fit the grid *)

(** On well-formed input, every item of the output that is not static
    is one of the items the loop of [compact] placed. *)
Lemma compact_placed (fuel : nat) (layout : Layout)
    (compactType : CompactType) (cols : Z) (allowOverlap : bool)
    (out : list (option LayoutItem)) :
  Forall (wellFormed compactType cols) layout ->
  compact fuel layout compactType cols allowOverlap = Some out ->
  exists compareWith,
    (forall k o, out !! k = Some (Some o) -> is_static o = false ->
       goodPlaced compareWith compactType cols allowOverlap o)
    /\ (forall c, c ∈ compareWith ->
          exists k c', out !! k = Some (Some c')
                       /\ Item.i c' = Item.i c /\ Item.x c' = Item.x c
                       /\ Item.y c' = Item.y c /\ Item.w c' = Item.w c
                       /\ Item.h c' = Item.h c).
Proof.
  intros Hwf Hout.
  destruct (compact_frame _ _ _ _ _ _ Hout) as [Hlen Hall].
  destruct (compact_pass _ _ _ _ _ _ Hwf Hout)
    as (st & <- & _ & _ & placed & Hcw & Hgood & Hslots & Hkept).
  exists (cs_compareWith st). rewrite Forall_forall in Hgood. split.
  - intros k o Ho Hso.
    destruct (Hslots k o Ho) as [[_ Hin] | (a & _ & Hsa & ->)];
      [apply Hgood; exact Hin |].
    change (is_static (cloneLayoutItem a) = false) in Hso.
    rewrite cloneLayoutItem_static in Hso. congruence.
  - intros c Hc. rewrite Hcw in Hc. apply elem_of_app in Hc as [Hc | Hc].
    + apply getStatics_elem in Hc as [Hc Hsc].
      apply list_elem_of_lookup_1 in Hc as [k Hk].
      destruct (Hall k c Hk) as (o & Ho & Hrel).
      exists k, o. split; [exact Ho |].
      destruct (Hslots k o Ho) as [[Hso _] | (a0 & Ha0 & _ & ->)].
      * destruct (compactedFrom_fields c o Hrel) as (_ & _ & _ & _ & E).
        congruence.
      * assert (a0 = c) by congruence. subst a0. repeat split.
    + destruct (Hkept c Hc) as (j' & k & _ & _ & Hk).
      exists k, c. split; [exact Hk |]. repeat split.
Qed.

(** X20: a layout with distinct ids and well-formed items, compacted
    vertically or horizontally, has no gap before an item that is not
    static: the item is at the origin of the compaction axis (row 0,
    or column 0), or it starts exactly where another item of the
    output ends on that axis, an item that it overlaps on the other
    axis. *)
Theorem X20_compacted_items_rest_on_something
    (layout : Layout) (compactType : CompactType) (cols : Z)
    (allowOverlap : bool) :
  NoDup (map Item.i layout) ->
  Forall (wellFormed compactType cols) layout ->
  isNull compactType = false ->
  exists out,
    (exists fuel,
        compact fuel layout compactType cols allowOverlap = Some out)
    /\ forall k o, out !! k = Some (Some o) -> is_static o = false ->
         get_axis (axisOf compactType) o = 0
         \/ exists k' c, out !! k' = Some (Some c)
                         /\ supports (axisOf compactType) c o.
Proof.
  intros Hnd Hwf Hn.
  destruct (compact_terminates layout compactType cols allowOverlap Hnd)
    as (fuel & out & Hout).
  exists out. split; [eauto |].
  destruct (compact_placed _ _ _ _ _ _ Hwf Hout)
    as (compareWith & Hgood & Hin).
  intros k o Ho Hso.
  destruct (Hgood k o Ho Hso) as (_ & _ & _ & _ & Hsup).
  destruct (Hsup Hn) as [H0 | (c & Hc & Hs)]; [auto |].
  right. destruct (Hin c Hc) as (k' & c' & Hk' & Hi & Hx & Hy & Hw & Hh).
  exists k', c'. split; [exact Hk' |].
  eapply supports_ext; eassumption.
Qed.

Lemma X20_compact_no_gap_witness :
  exists out,
    (exists fuel, compact fuel aroundStatic Vertical 12 false = Some out)
    /\ forall k o, out !! k = Some (Some o) -> is_static o = false ->
         get_axis (axisOf Vertical) o = 0
         \/ exists k' c, out !! k' = Some (Some c)
                         /\ supports (axisOf Vertical) c o.
Proof.
  apply (X20_compacted_items_rest_on_something aroundStatic Vertical 12
           false).
  - apply (bool_decide_unpack _). vm_compute. reflexivity.
  - repeat constructor; cbn; try lia; discriminate.
  - reflexivity.
Defined.

(** X21: in the horizontal mode, a layout with distinct ids whose items
    are well formed (none wider than the grid) is compacted to a layout
    in which every item that is not static ends within the columns of
    the grid. *)
Theorem X21_horizontal_compaction_fits_the_grid
    (layout : Layout) (cols : Z) (allowOverlap : bool) :
  NoDup (map Item.i layout) ->
  Forall (wellFormed Horizontal cols) layout ->
  exists out,
    (exists fuel,
        compact fuel layout Horizontal cols allowOverlap = Some out)
    /\ forall k o, out !! k = Some (Some o) -> is_static o = false ->
         0 <= Item.x o /\ Item.x o + Item.w o <= cols.
Proof.
  intros Hnd Hwf.
  destruct (compact_terminates layout Horizontal cols allowOverlap Hnd)
    as (fuel & out & Hout).
  exists out. split; [eauto |].
  destruct (compact_placed _ _ _ _ _ _ Hwf Hout)
    as (compareWith & Hgood & _).
  intros k o Ho Hso.
  destruct (Hgood k o Ho Hso) as (_ & (Hx & _) & Hfit & _).
  split; [exact Hx | apply Hfit; reflexivity].
Qed.

Lemma X21_horizontal_fit_witness :
  exists out,
    (exists fuel,
        compact fuel [plainItem "a" 1 0 2 1; plainItem "b" 1 0 2 2]
          Horizontal 3 false = Some out)
    /\ forall k o, out !! k = Some (Some o) -> is_static o = false ->
         0 <= Item.x o /\ Item.x o + Item.w o <= 3.
Proof.
  apply (X21_horizontal_compaction_fits_the_grid
           [plainItem "a" 1 0 2 1; plainItem "b" 1 0 2 2] 3 false).
  - cbn. repeat constructor; rewrite ?list_elem_of_singleton;
      try discriminate; inversion 1.
  - repeat constructor; cbn; try lia; discriminate.
Defined.

(** ** [compactItem] in the vertical mode *)

Lemma pushTrace_below_bottom (compareWith : Layout) (cols : Z)
    (allowOverlap : bool) (l l' : LayoutItem) :
  pushTrace compareWith Vertical cols allowOverlap l l' ->
  Item.y l <= bottom compareWith ->
  Item.y l' <= bottom compareWith.
Proof.
  induction 1 as [l _ | l _ | l c l' Hc _ _ IH]; [auto | auto |].
  intros _. apply IH.
  apply getFirstCollision_Some in Hc as [Hc _].
  unfold advance. cbn. apply bottom_ge. exact Hc.
Qed.

(** X22: in the vertical mode [compactItem] never leaves an item below
    the bottom of the items it is compared with, however far down the
    item starts: its row ends between 0 and [bottom(compareWith)]. *)
Theorem X22_compactItem_lands_within_the_layout (fuel : nat)
    (compareWith : Layout) (l : LayoutItem) (cols : Z)
    (fullLayout : Layout) (allowOverlap : bool) (l' : LayoutItem)
    (fullLayout' : Layout) :
  is_static l = false ->
  compactItem fuel compareWith l Vertical cols fullLayout allowOverlap
  = Some (l', fullLayout') ->
  0 <= Item.y l' <= bottom compareWith.
Proof.
  intros Hst. rewrite compactItem_eq.
  destruct (pushForward _ _ _ _ _ _ _) as [[l2 full2] |] eqn:Hpf;
    [| discriminate].
  intros [= <- <-].
  apply pushForward_trace in Hpf as [Htrace _];
    [| rewrite pulled_static; exact Hst].
  apply pushTrace_below_bottom in Htrace.
  - pose proof (bottom_nonneg compareWith). cbn. lia.
  - cbn [pulled].
    destruct (pullToOrigin_spec AxisY compareWith
                (Item.with_y (Z.min (bottom compareWith) (Item.y l)) l))
      as (v & -> & Hv & _).
    cbn in Hv |- *. lia.
Qed.

Lemma X22_compactItem_witness :
  exists l' fullLayout',
    compactItem 3 [plainItem "a" 0 0 2 3] (plainItem "b" 1 1000 1 1)
      Vertical 12 [] false = Some (l', fullLayout')
    /\ 0 <= Item.y l' <= bottom [plainItem "a" 0 0 2 3].
Proof.
  eexists _, _. split; [vm_compute; reflexivity |].
  eapply (X22_compactItem_lands_within_the_layout 3
            [plainItem "a" 0 0 2 3] (plainItem "b" 1 1000 1 1) 12 [] false);
    [reflexivity | vm_compute; reflexivity].
Defined.

(** ** The move engine: a move into free space *)

Lemma filter_none {A} (P : A -> Prop) `{!forall a, Decision (P a)}
    (l : list A) :
  (forall a, a ∈ l -> ~ P a) -> filter P l = [].
Proof.
  induction l as [| a rest IH]; intros Hall; [reflexivity |].
  rewrite filter_cons, decide_False by (apply Hall; apply list_elem_of_here).
  apply IH. intros b Hb. apply Hall. apply elem_of_cons. auto.
Qed.

Lemma sortAddrs_sub (store : Store) (addrs : list nat)
    (by_ : list (nat * LayoutItem) -> list (nat * LayoutItem)) (a : nat) :
  (forall t, by_ t ≡ₚ t) ->
  a ∈ sortAddrs store addrs by_ -> a ∈ addrs /\ is_Some (store !! a).
Proof.
  intros Hperm. unfold sortAddrs. rewrite list_elem_of_fmap.
  intros ([a' c] & -> & Hin). rewrite Hperm in Hin.
  apply list_elem_of_omap in Hin as (b & Hb & Hc).
  destruct (store !! b) as [c' |] eqn:E; [| discriminate].
  cbn in Hc. injection Hc as <- <-. cbn. split; [exact Hb | eauto].
Qed.

(** X23: when the item is not pinned, the target differs from its
    position and no item of the layout collides with the item at the
    target, [moveElement] puts the item at the target, marks it as
    moved, changes no other object and returns the input array,
    whatever the flags and the mode. *)
Theorem X23_move_into_free_space (fuel : nat) (layout : list nat)
    (l : nat) (x y : option Z) (isUserAction preventCollision : bool)
    (compactType : CompactType) (cols : Z) (allowOverlap : bool)
    (store : Store) (l0 : LayoutItem) :
  store !! l = Some l0 ->
  pinned l0 = false ->
  alreadyThere x y l0 = false ->
  ~ targetCollides store layout x y l0 ->
  moveElement fuel layout l x y isUserAction preventCollision compactType
    cols allowOverlap store
  = Some (layout, <[l := moveTarget x y l0]> store).
Proof.
  intros Hl Hpin Hthere Hfree. unfold pinned, alreadyThere in *.
  assert (Hnone : forall flip : bool,
    filter (fun a => match <[l := moveTarget x y l0]> store !! a with
                     | Some c => collides c (moveTarget x y l0)
                     | None => false
                     end = true)
           (if flip
            then reverse (sortAddrs (<[l := moveTarget x y l0]> store) layout
                            (fun t => sortLayoutItems snd t compactType))
            else sortAddrs (<[l := moveTarget x y l0]> store) layout
                   (fun t => sortLayoutItems snd t compactType))
    = []).
  { intros flip. apply filter_none. intros a Ha.
    assert (Hin : a ∈ layout).
    { destruct flip; [rewrite elem_of_reverse in Ha |];
        apply sortAddrs_sub in Ha as [Ha _]; auto;
        intros t; apply sortLayoutItems_perm. }
    destruct (decide (a = l)) as [-> | Hne].
    - rewrite list_lookup_insert_eq
        by (eapply lookup_lt_Some; exact Hl).
      rewrite collides_same_id by reflexivity. discriminate.
    - rewrite list_lookup_insert_ne by auto.
      destruct (store !! a) as [c |] eqn:Hc; [| discriminate].
      intros Hcol. apply Hfree. exists a, c. auto. }
  destruct fuel; cbn [moveElement]; rewrite Hl, Hpin, Hthere;
    fold (moveTarget x y l0); cbv zeta;
    match goal with
    | |- context [if ?b then reverse _ else _] => rewrite (Hnone b)
    end;
    reflexivity.
Qed.

Lemma X23_move_into_free_space_witness :
  moveElement 0 [0; 1; 2]%nat 1 (Some 5) None true false Vertical 12 false
    column
  = Some ([0; 1; 2]%nat,
          <[1%nat := moveTarget (Some 5) None (plainItem "b" 0 2 2 2)]>
            column).
Proof.
  apply (X23_move_into_free_space 0 [0; 1; 2]%nat 1 (Some 5) None true false
           Vertical 12 false column (plainItem "b" 0 2 2 2));
    [reflexivity | reflexivity | reflexivity |].
  intros (a & c & Ha & Hc & Hcol).
  rewrite !elem_of_cons in Ha.
  destruct Ha as [-> | [-> | [-> | Ha]]]; [| | | inversion Ha];
    cbn in Hc; injection Hc as <-; discriminate.
Defined.

(** ** The move engine: what it may change *)

Lemma sameButPosition_refl (a : LayoutItem) : sameButPosition a a.
Proof. repeat split. Qed.

Lemma sameButPosition_trans (a b c : LayoutItem) :
  sameButPosition a b -> sameButPosition b c -> sameButPosition a c.
Proof.
  unfold sameButPosition, sameOtherFields. intros H1 H2.
  decompose [and] H1. decompose [and] H2. repeat split; congruence.
Qed.

Lemma sameButPosition_pinned (a a' : LayoutItem) :
  sameButPosition a a' -> pinned a' = pinned a.
Proof.
  intros (_ & _ & _ & Hs & Hd & _). unfold pinned, is_static.
  rewrite Hs, Hd. reflexivity.
Qed.

Lemma sameButPosition_moved (x y : option Z) (b : bool) (a : LayoutItem) :
  sameButPosition a
    (Item.with_moved b
       (match y with
        | Some v => Item.with_y v
                      (match x with Some u => Item.with_x u a | None => a end)
        | None => match x with Some u => Item.with_x u a | None => a end
        end)).
Proof. destruct x, y; repeat split. Qed.

Lemma moveFrame_refl (s : Store) : moveFrame s s.
Proof.
  split; [lia |]. intros k a Hk. exists a.
  split; [exact Hk |]. split; [apply sameButPosition_refl | auto].
Qed.

Lemma moveFrame_trans (s1 s2 s3 : Store) :
  moveFrame s1 s2 -> moveFrame s2 s3 -> moveFrame s1 s3.
Proof.
  intros [Hl1 H1] [Hl2 H2]. split; [lia |].
  intros k a Hk. destruct (H1 k a Hk) as (b & Hb & Hab & Hpa).
  destruct (H2 k b Hb) as (c & Hc & Hbc & Hpb).
  exists c. split; [exact Hc |].
  split; [eapply sameButPosition_trans; eassumption |].
  intros Hp. specialize (Hpa Hp). subst b. auto.
Qed.

Lemma moveFrame_insert (s : Store) (k : nat) (a a' : LayoutItem) :
  s !! k = Some a -> sameButPosition a a' -> pinned a = false ->
  moveFrame s (<[k := a']> s).
Proof.
  intros Hk Hsame Hpin. split; [rewrite length_insert; lia |].
  intros j b Hj. destruct (decide (j = k)) as [-> | Hne].
  - rewrite list_lookup_insert_eq by (eapply lookup_lt_Some; exact Hk).
    assert (b = a) by congruence. subst b.
    exists a'. split; [reflexivity |]. split; [exact Hsame | congruence].
  - rewrite list_lookup_insert_ne by auto.
    exists b. split; [exact Hj |].
    split; [apply sameButPosition_refl | auto].
Qed.

Lemma moveFrame_app (s t : Store) : moveFrame s (s ++ t).
Proof.
  split; [rewrite length_app; lia |].
  intros k a Hk. exists a.
  split; [apply lookup_app_l_Some; exact Hk |].
  split; [apply sameButPosition_refl | auto].
Qed.

Lemma moveFrame_valid (s s' : Store) (layout : list nat) :
  moveFrame s s' ->
  Forall (fun a => is_Some (s !! a)) layout ->
  Forall (fun a => is_Some (s' !! a)) layout.
Proof.
  intros [Hlen _] Hall. eapply Forall_impl; [exact Hall |].
  intros a Ha. apply lookup_lt_is_Some. apply lookup_lt_is_Some in Ha. lia.
Qed.

Lemma moveFrame_not_pinned (s s' : Store) (l : nat) :
  moveFrame s s' ->
  (exists l0, s !! l = Some l0 /\ pinned l0 = false) ->
  exists l0, s' !! l = Some l0 /\ pinned l0 = false.
Proof.
  intros [_ H] (l0 & Hl & Hp).
  destruct (H l l0 Hl) as (l1 & Hl1 & Hsame & _).
  exists l1. split; [exact Hl1 |].
  rewrite (sameButPosition_pinned _ _ Hsame). exact Hp.
Qed.

Lemma sortAddrs_perm (store : Store) (addrs : list nat)
    (by_ : list (nat * LayoutItem) -> list (nat * LayoutItem)) :
  (forall t, by_ t ≡ₚ t) ->
  Forall (fun a => is_Some (store !! a)) addrs ->
  sortAddrs store addrs by_ ≡ₚ addrs.
Proof.
  intros Hperm Hall. unfold sortAddrs. rewrite Hperm.
  induction Hall as [| a rest [c Hc] _ IH]; [reflexivity |].
  cbn [omap list_omap]. rewrite Hc. cbn. rewrite IH. reflexivity.
Qed.

Lemma moveOk_None (layout : list nat) (s : Store) : moveOk layout s None.
Proof. intros r s' [=]. Qed.

Lemma moveOk_same (layout : list nat) (s : Store) :
  moveOk layout s (Some (layout, s)).
Proof.
  intros r s' [= <- <-]. split; [apply moveFrame_refl | reflexivity].
Qed.

Section MoveFrame.
Variable moveElement_ :
  list nat -> nat -> option Z -> option Z -> bool -> bool ->
  CompactType -> Z -> Store -> option (list nat * Store).
Hypothesis moveElement_ok :
  forall layout l x y isUserAction preventCollision compactType cols s,
    moveOk layout s
      (moveElement_ layout l x y isUserAction preventCollision compactType
         cols s).

Lemma moveElementAwayFromCollision_ok (layout : list nat)
    (collidesWith itemToMove : nat) (isUserAction : bool)
    (compactType : CompactType) (cols : Z) (noCompactTypeMovingUp : bool)
    (store : Store) :
  (forall itm, store !! itemToMove = Some itm -> pinned itm = false) ->
  moveOk layout store
    (moveElementAwayFromCollision moveElement_ layout collidesWith
       itemToMove isUserAction compactType cols noCompactTypeMovingUp
       store).
Proof.
  intros Hpin. unfold moveElementAwayFromCollision.
  destruct (store !! collidesWith) as [cw |]; [| apply moveOk_None].
  destruct (store !! itemToMove) as [itm |] eqn:Hitm; [| apply moveOk_None].
  assert (Hfallback :
    moveOk layout store
      (let newX := if isHorizontal compactType
                   then Some (Item.x itm + 1) else None in
       let newY := if isVertical compactType
                   then Some (Item.y itm + 1) else None in
       if is_null newX && is_null newY then Some (layout, store)
       else moveElement_ layout itemToMove newX newY false (is_static cw)
              compactType cols store)).
  { cbv zeta. destruct (is_null _ && is_null _);
      [apply moveOk_same | apply moveElement_ok]. }
  destruct isUserAction; [| exact Hfallback].
  destruct (getFirstCollision _ _) as [firstCollision |].
  - destruct (_ && isVertical compactType); [apply moveElement_ok |].
    destruct (_ && isNull compactType).
    + destruct noCompactTypeMovingUp.
      * intros r s' [= <- <-].
        assert (Hframe : moveFrame store
                  (alter (Item.with_y (Item.y cw + Item.h cw)) itemToMove
                     store)).
        { rewrite (alter_as_insert _ _ _ _ Hitm).
          apply (moveFrame_insert _ _ itm); [exact Hitm | | auto].
          repeat split. }
        split; [exact Hframe |]. intros Hvalid.
        apply sortAddrs_perm; [intros t; apply js_sort_perm |].
        eapply moveFrame_valid; eassumption.
      * destruct (moveElement_ layout itemToMove None _ false _ _ _ store)
          as [[r0 s0] |] eqn:Hrec; [| apply moveOk_None].
        cbn [fmap option_fmap option_map snd].
        intros r s' [= <- <-].
        destruct (moveElement_ok _ _ _ _ _ _ _ _ _ _ _ Hrec) as [Hframe _].
        split; [exact Hframe |]. intros Hvalid.
        apply sortAddrs_perm; [intros t; apply js_sort_perm |].
        eapply moveFrame_valid; eassumption.
    + destruct (_ && isHorizontal compactType);
        [apply moveElement_ok | exact Hfallback].
  - destruct (isNull compactType && negb noCompactTypeMovingUp);
      apply moveElement_ok.
Qed.

Lemma cascade_ok (collisions : list nat) (l : nat) (isUserAction : bool)
    (compactType : CompactType) (cols : Z) (noCompactTypeMovingUp : bool) :
  forall (layout : list nat) (store : Store),
    (exists l0, store !! l = Some l0 /\ pinned l0 = false) ->
    moveOk layout store
      (cascade moveElement_ collisions l isUserAction compactType cols
         noCompactTypeMovingUp layout store).
Proof.
  induction collisions as [| collision rest IH]; intros layout store Hl;
    cbn [cascade]; [apply moveOk_same |].
  destruct (store !! collision) as [c |] eqn:Hc; [| apply moveOk_None].
  destruct (is_moved c); [apply IH; exact Hl |].
  set (first :=
         if is_static c
         then moveElementAwayFromCollision moveElement_ layout collision l
                isUserAction compactType cols noCompactTypeMovingUp store
         else moveElementAwayFromCollision moveElement_ layout l collision
                isUserAction compactType cols noCompactTypeMovingUp store).
  assert (Hfirst : moveOk layout store first).
  { unfold first. destruct (is_static c) eqn:Hsc;
      apply moveElementAwayFromCollision_ok.
    - destruct Hl as (l0 & Hl0 & Hp). intros itm Hitm. congruence.
    - intros itm Hitm. assert (itm = c) by congruence. subst itm.
      unfold pinned. rewrite Hsc. reflexivity. }
  destruct first as [[layout1 store1] |]; [| apply moveOk_None].
  destruct (Hfirst _ _ eq_refl) as [Hframe1 Hperm1].
  intros r s' Hrest.
  destruct (IH layout1 store1 (moveFrame_not_pinned _ _ _ Hframe1 Hl)
              _ _ Hrest) as [Hframe2 Hperm2].
  split; [eapply moveFrame_trans; eassumption |].
  intros Hvalid. rewrite <- (Hperm1 Hvalid). apply Hperm2.
  rewrite (Hperm1 Hvalid). eapply moveFrame_valid; eassumption.
Qed.
End MoveFrame.

(** Every result of [moveElement] is within [moveFrame], and without
    [allowOverlap] the array returned is a permutation of the input
    array.  The two cases of the fuel differ only in the function that
    the cascade calls back, so one script serves both. *)
Lemma moveElement_moveOk (fuel : nat) :
  forall (layout : list nat) (l : nat) (x y : option Z)
         (isUserAction preventCollision : bool) (compactType : CompactType)
         (cols : Z) (allowOverlap : bool) (store : Store)
         (r : list nat) (s' : Store),
    moveElement fuel layout l x y isUserAction preventCollision compactType
      cols allowOverlap store = Some (r, s') ->
    moveFrame store s'
    /\ (allowOverlap = false ->
        Forall (fun a => is_Some (store !! a)) layout -> r ≡ₚ layout).
Proof.
  induction fuel as [| fuel IH];
    intros layout l x y isUserAction preventCollision compactType cols
           allowOverlap store r s';
    cbn [moveElement];
    (* the two guards return the input *)
    (destruct (store !! l) as [l0 |] eqn:Hl; [| discriminate]);
    (destruct (is_static l0 && negb (is_true (Item.isDraggable l0)))
       eqn:Hpin;
     [intros [= <- <-]; split; [apply moveFrame_refl | reflexivity] |]);
    (destruct (strict_eq (Item.y l0) y && strict_eq (Item.x l0) x);
     [intros [= <- <-]; split; [apply moveFrame_refl | reflexivity] |]);
    cbv zeta;
    (* the item is put at the target *)
    match goal with
    | |- context [<[l := ?t]> store] => set (l3 := t)
    end;
    (assert (Hsame : sameButPosition l0 l3)
       by apply sameButPosition_moved);
    (assert (Hframe1 : moveFrame store (<[l := l3]> store))
       by (apply (moveFrame_insert _ _ l0); assumption));
    match goal with
    | |- context [filter ?P ?sorted] => set (collisions := filter P sorted)
    end;
    (* the exits on a collision: clones, or the item put back *)
    (destruct (0 <? Z.of_nat (length collisions)); cbn [andb];
     [destruct allowOverlap;
      [intros [= <- <-];
       split; [eapply moveFrame_trans; [exact Hframe1 | apply moveFrame_app]
              | discriminate]
      | destruct preventCollision;
        [intros [= <- <-]; split; [| reflexivity];
         eapply moveFrame_trans; [exact Hframe1 |];
         apply (moveFrame_insert _ _ l3);
           [apply list_lookup_insert_eq; eapply lookup_lt_Some; exact Hl
           | repeat split
           | rewrite <- Hpin; apply (sameButPosition_pinned l0 l3 Hsame)]
        |] ]
     |]);
    (* the cascade, whose callback is within the frame: it returns
       nothing without fuel, and is [moveElement] with less fuel
       otherwise *)
    intros Hcascade;
    match type of Hcascade with
    | cascade ?rec _ _ _ _ _ _ _ _ = _ =>
        assert (Hrec : forall layout l x y isUserAction preventCollision
                              compactType cols s,
                   moveOk layout s
                     (rec layout l x y isUserAction preventCollision
                        compactType cols s))
    end;
    try (intros; apply moveOk_None);
    try (intros la ll lx ly lu lp lc lcols ls lr ls' Hr;
         destruct (IH _ _ _ _ _ _ _ _ _ _ _ _ Hr) as [Hf Hp];
         split; [exact Hf | apply Hp; reflexivity]);
    (eapply cascade_ok in Hcascade;
     [| exact Hrec
      | exists l3; split;
        [apply list_lookup_insert_eq; eapply lookup_lt_Some; exact Hl
        | rewrite <- Hpin; apply (sameButPosition_pinned l0 l3 Hsame)]]);
    destruct Hcascade as [Hframe2 Hperm];
    (split; [eapply moveFrame_trans; eassumption |]);
    intros _ Hvalid; apply Hperm;
    eapply moveFrame_valid; eassumption.
Qed.

(** X24: whatever the arguments, [moveElement] and the cascade of moves
    it starts only ever assign the [x], [y] and [moved] fields of the
    objects of the layout: every object that existed before the call
    still exists, with the same [i], [w], [h] and [static], and a
    pinned object (static and not draggable) is left exactly as it
    was. *)
Theorem X24_moveElement_changes_positions_only (fuel : nat)
    (layout : list nat) (l : nat) (x y : option Z)
    (isUserAction preventCollision : bool) (compactType : CompactType)
    (cols : Z) (allowOverlap : bool) (store : Store)
    (r : list nat) (store' : Store) :
  moveElement fuel layout l x y isUserAction preventCollision compactType
    cols allowOverlap store = Some (r, store') ->
  (length store <= length store')%nat
  /\ forall k a, store !! k = Some a ->
       exists a', store' !! k = Some a'
                  /\ Item.i a' = Item.i a /\ Item.w a' = Item.w a
                  /\ Item.h a' = Item.h a /\ is_static a' = is_static a
                  /\ (pinned a = true -> a' = a).
Proof.
  intros Hmove.
  destruct (moveElement_moveOk _ _ _ _ _ _ _ _ _ _ _ _ _ Hmove)
    as [[Hlen Hframe] _].
  split; [exact Hlen |]. intros k a Hk.
  destruct (Hframe k a Hk) as (a' & Ha' & (Hw & Hh & Hi & Hs & _) & Hp).
  exists a'. unfold is_static. rewrite Hs. repeat split; assumption.
Qed.

Lemma X24_moveElement_frame_witness :
  exists r store',
    moveElement 5 [0; 1; 2]%nat 0 None (Some 1) true false Vertical 12 false
      column = Some (r, store')
    /\ (length column <= length store')%nat
    /\ forall k a, column !! k = Some a ->
         exists a', store' !! k = Some a'
                    /\ Item.i a' = Item.i a /\ Item.w a' = Item.w a
                    /\ Item.h a' = Item.h a /\ is_static a' = is_static a
                    /\ (pinned a = true -> a' = a).
Proof.
  eexists _, _. split; [vm_compute; reflexivity |].
  eapply (X24_moveElement_changes_positions_only 5 [0; 1; 2]%nat 0 None
           (Some 1) true false Vertical 12 false column).
  vm_compute. reflexivity.
Defined.



(** ** Bounds correction: static items end clear of what precedes them *)

Lemma staticAddrs_elem (layout : Layout) (k : nat) :
  k ∈ staticAddrs layout <->
  exists l, layout !! k = Some l /\ is_static l = true.
Proof.
  unfold staticAddrs. rewrite list_elem_of_fmap. split.
  - intros ([k' l] & -> & Hin). apply list_elem_of_filter in Hin as [Hs Hin].
    apply withOrigins_lookup in Hin. eauto.
  - intros (l & Hk & Hs). exists (k, l). split; [reflexivity |].
    apply list_elem_of_filter. split; [exact Hs |].
    apply withOrigins_lookup. exact Hk.
Qed.

Lemma correctedItem_static (cols : Z) (l l' : LayoutItem) :
  correctedItem cols l l' -> is_static l' = is_static l.
Proof.
  intros (_ & _ & _ & Hs & _). unfold is_static. rewrite Hs. reflexivity.
Qed.

Lemma correctBoundsStep_fst (bounds : Bounds.t) (i : nat)
    (collidesWith : list nat) (store : Layout) (l : LayoutItem) :
  store !! i = Some l ->
  fst (correctBoundsStep bounds i (collidesWith, store))
  = if is_static l then collidesWith else collidesWith ++ [i].
Proof.
  intros Hi. unfold correctBoundsStep. rewrite Hi. cbv zeta.
  match goal with
  | |- context [negb (is_static ?l2)] =>
      replace (is_static l2) with (is_static l)
        by (repeat match goal with
                   | |- context [if ?c then _ else _] => destruct c
                   end; reflexivity)
  end.
  destruct (is_static l); reflexivity.
Qed.

Lemma correctBounds_clear_loop (bounds : Bounds.t) (m : nat) :
  forall (a : nat) (collidesWith : list nat) (store : Layout),
    (forall j c, store !! j = Some c ->
       (j < a)%nat \/ is_static c = true -> j ∈ collidesWith) ->
    (forall j k cj ck, (j < k < a)%nat ->
       store !! j = Some cj -> store !! k = Some ck ->
       is_static ck = true -> collides cj ck = false) ->
    let r := snd (fold_left (fun st i => correctBoundsStep bounds i st)
                    (seq a m) (collidesWith, store)) in
    forall j k cj ck, (j < k < a + m)%nat ->
      r !! j = Some cj -> r !! k = Some ck ->
      is_static ck = true -> collides cj ck = false.
Proof.
  induction m as [| m IH]; intros a collidesWith store Hcw Hclear;
    cbn [seq fold_left].
  - cbn. intros j k cj ck Hjk. apply Hclear. lia.
  - destruct (store !! a) as [l |] eqn:Ha.
    + destruct (correctBoundsStep_spec bounds a collidesWith store l Ha)
        as (l' & Hstep & Hcorr).
      pose proof (correctBoundsStep_fst bounds a collidesWith store l Ha)
        as Hfst.
      pose proof (correctBoundsStep_clear bounds a collidesWith store l Ha)
        as Hfree.
      destruct (correctBoundsStep bounds a (collidesWith, store))
        as [collidesWith' store'] eqn:E.
      cbn [fst snd] in Hstep, Hfst, Hfree. subst store'.
      assert (Hla : <[a := l']> store !! a = Some l').
      { apply list_lookup_insert_eq. eapply lookup_lt_Some. exact Ha. }
      cbn zeta in IH |- *. intros j k cj ck Hjk.
      apply (IH (S a) collidesWith' (<[a := l']> store)); [| | lia].
      * intros j' c Hj' Hor. destruct (decide (j' = a)) as [-> | Hne].
        -- rewrite Hfst. destruct (is_static l) eqn:Hsl.
           ++ apply (Hcw a l Ha). auto.
           ++ apply elem_of_app. right. apply list_elem_of_here.
        -- rewrite list_lookup_insert_ne in Hj' by auto.
           assert (j' ∈ collidesWith).
           { apply (Hcw j' c Hj'). destruct Hor; [left; lia | auto]. }
           rewrite Hfst. destruct (is_static l); [assumption |].
           apply elem_of_app. auto.
      * intros j' k' cj' ck' Hjk' Hj' Hk' Hs.
        assert (Hj'' : store !! j' = Some cj').
        { rewrite list_lookup_insert_ne in Hj' by lia. exact Hj'. }
        destruct (decide (k' = a)) as [-> | Hne].
        -- assert (ck' = l') by congruence. subst ck'.
           assert (Hsl : is_static l = true).
           { rewrite <- (correctedItem_static _ _ _ Hcorr). exact Hs. }
           specialize (Hfree Hsl l' Hla).
           rewrite getFirstCollision_None in Hfree. apply Hfree.
           apply elem_of_objects. exists j'. split; [| exact Hj'].
           apply (Hcw j' cj' Hj''). left. lia.
        -- rewrite list_lookup_insert_ne in Hk' by auto.
           apply (Hclear j' k' cj' ck'); [lia | assumption ..].
    + rewrite correctBoundsStep_missing by exact Ha.
      cbn zeta in IH |- *. intros j k cj ck Hjk.
      apply (IH (S a) collidesWith store); [| | lia].
      * intros j' c Hj' Hor. apply (Hcw j' c Hj').
        destruct Hor as [Hlt | Hs]; [| auto].
        left. assert (j' <> a) by congruence. lia.
      * intros j' k' cj' ck' Hjk' Hj' Hk'.
        apply (Hclear j' k' cj' ck'); [| assumption ..].
        assert (k' <> a) by congruence. lia.
Qed.

(** X26: in the layout that [correctBounds] returns, a static item
    collides with no item that precedes it in the array, static or not;
    in particular no two static items collide, as the one that comes
    later has been moved down until it is clear of the other. *)
Theorem X26_correctBounds_clears_static_items (layout : Layout)
    (bounds : Bounds.t) (j k : nat) (cj ck : LayoutItem) :
  (j < k)%nat ->
  correctBounds layout bounds !! j = Some cj ->
  correctBounds layout bounds !! k = Some ck ->
  is_static ck = true ->
  collides cj ck = false /\ collides ck cj = false.
Proof.
  intros Hjk Hj Hk Hs.
  assert (H : collides cj ck = false).
  { unfold correctBounds in Hj, Hk.
    apply (correctBounds_clear_loop bounds (length layout) 0
             (staticAddrs layout) layout) with (j := j) (k := k);
      try assumption.
    - intros j' c Hj' [Hlt | Hst]; [lia |].
      apply staticAddrs_elem. eauto.
    - intros j' k' cj' ck' Hlt. lia.
    - split; [exact Hjk |]. apply lookup_lt_Some in Hk.
      destruct (correctBounds_loop bounds (length layout) 0
                  (staticAddrs layout) layout) as [Hlen _].
      cbn zeta in Hlen. lia. }
  split; [exact H | rewrite collides_sym; exact H].
Qed.

Lemma X26_correctBounds_static_witness :
  exists cj ck,
    correctBounds [staticItem "s" 0 0 2 2; plainItem "a" 3 0 2 2;
                   staticItem "t" 1 1 4 1] (Bounds.mk 12) !! 1%nat = Some cj
    /\ correctBounds [staticItem "s" 0 0 2 2; plainItem "a" 3 0 2 2;
                      staticItem "t" 1 1 4 1] (Bounds.mk 12) !! 2%nat
       = Some ck
    /\ Item.y ck = 4
    /\ collides cj ck = false /\ collides ck cj = false.
Proof.
  eexists _, _. split; [vm_compute; reflexivity |].
  split; [vm_compute; reflexivity |]. split; [reflexivity |].
  apply (X26_correctBounds_clears_static_items
           [staticItem "s" 0 0 2 2; plainItem "a" 3 0 2 2;
            staticItem "t" 1 1 4 1] (Bounds.mk 12) 1 2);
    [lia | vm_compute; reflexivity | vm_compute; reflexivity | reflexivity].
Defined.

(** ** Bounds correction: how far a static item is moved *)

(** [pushDown] stops at the first position that is clear: at every
    position it has passed, the object collided with the comparison
    set. *)
Lemma pushDown_least (collidesWith : list nat) (i : nat) (count : nat) :
  forall (store : Layout) (l : LayoutItem),
    store !! i = Some l ->
    exists n : nat,
      pushDown collidesWith i count store
      = <[i := Item.with_y (Item.y l + Z.of_nat n) l]> store
      /\ forall m : nat, (m < n)%nat ->
           exists c,
             getFirstCollision
               (objects (<[i := Item.with_y (Item.y l + Z.of_nat m) l]> store)
                  collidesWith)
               (Item.with_y (Item.y l + Z.of_nat m) l) = Some c.
Proof.
  induction count as [| count IH]; intros store l Hl; cbn [pushDown].
  - exists 0%nat. split; [| intros m Hm; lia].
    rewrite Z.add_0_r, with_y_same.
    symmetry. apply list_insert_id. exact Hl.
  - rewrite Hl.
    destruct (getFirstCollision (objects store collidesWith) l) as [c0 |]
      eqn:E.
    + set (store1 := alter (fun l => Item.with_y (Item.y l + 1) l) i store).
      assert (H1 : store1 !! i = Some (Item.with_y (Item.y l + 1) l)).
      { unfold store1. rewrite list_lookup_alter_eq, Hl. reflexivity. }
      assert (Hins : forall v,
                 <[i := v]> store1 = <[i := v]> store).
      { intros v. unfold store1.
        rewrite (alter_as_insert _ _ _ _ Hl). apply list_insert_insert_eq. }
      assert (Hy : forall n : nat,
                 Item.with_y
                   (Item.y (Item.with_y (Item.y l + 1) l) + Z.of_nat n)
                   (Item.with_y (Item.y l + 1) l)
                 = Item.with_y (Item.y l + Z.of_nat (S n)) l).
      { intros n. destruct l; unfold Item.with_y; cbn. f_equal. lia. }
      destruct (IH store1 _ H1) as (n & Hn & Hleast).
      exists (S n). split.
      * rewrite Hn, Hins, Hy. reflexivity.
      * intros [| m] Hm.
        -- exists c0. rewrite Z.add_0_r, with_y_same.
           rewrite list_insert_id by exact Hl. exact E.
        -- destruct (Hleast m) as [c Hc]; [lia |].
           exists c. rewrite Hins, Hy in Hc. exact Hc.
    + exists 0%nat. split; [| intros m Hm; lia].
      rewrite Z.add_0_r, with_y_same.
      symmetry. apply list_insert_id. exact Hl.
Qed.

(** The turn of a static item: it ends clear of the comparison set, and
    it collided with the set at every position above the one it ends
    at. *)
Lemma correctBoundsStep_least (bounds : Bounds.t) (i : nat)
    (collidesWith : list nat) (store : Layout) (l : LayoutItem) :
  store !! i = Some l ->
  is_static l = true ->
  exists l',
    snd (correctBoundsStep bounds i (collidesWith, store)) = <[i := l']> store
    /\ correctedItem (Bounds.cols bounds) l l'
    /\ (forall c, c ∈ objects (<[i := l']> store) collidesWith ->
                  collides c l' = false)
    /\ forall y, Item.y l <= y < Item.y l' ->
         exists c, c ∈ objects (<[i := Item.with_y y l']> store) collidesWith
                   /\ collides c (Item.with_y y l') = true.
Proof.
  intros Hl Hst.
  destruct (correctBoundsStep_spec bounds i collidesWith store l Hl)
    as (l' & Hstep & Hcorr).
  exists l'. split; [exact Hstep |]. split; [exact Hcorr |].
  assert (Hi : <[i := l']> store !! i = Some l').
  { apply list_lookup_insert_eq. eapply lookup_lt_Some. exact Hl. }
  split.
  { pose proof (correctBoundsStep_clear bounds i collidesWith store l Hl Hst
                  l') as Hclear.
    rewrite Hstep in Hclear. specialize (Hclear Hi).
    apply getFirstCollision_None. exact Hclear. }
  revert Hstep. unfold correctBoundsStep. rewrite Hl.
  set (cols := Bounds.cols bounds).
  set (l1 := if Item.x l + Item.w l >? cols
             then Item.with_x (cols - Item.w l) l else l).
  set (l2 := if Item.x l1 <? 0
             then Item.with_w cols (Item.with_x 0 l1) else l1).
  assert (Hst2 : is_static l2 = true).
  { rewrite <- Hst. unfold l2, l1.
    destruct (Item.x l + Item.w l >? cols);
      match goal with |- context [if ?b then _ else _] => destruct b end;
      reflexivity. }
  assert (Hy2 : Item.y l2 = Item.y l).
  { unfold l2, l1.
    destruct (Item.x l + Item.w l >? cols);
      match goal with |- context [if ?b then _ else _] => destruct b end;
      reflexivity. }
  rewrite Hst2. cbn [negb snd].
  assert (Hl2 : <[i := l2]> store !! i = Some l2).
  { apply list_lookup_insert_eq. eapply lookup_lt_Some. exact Hl. }
  destruct (pushDown_least collidesWith i
              (Z.to_nat (bottom (objects (<[i:=l2]> store) collidesWith)
                         - Item.y l2))
              _ _ Hl2) as (n & Hn & Hleast).
  rewrite Hn, list_insert_insert_eq. intros Heq.
  assert (Hl' : l' = Item.with_y (Item.y l2 + Z.of_nat n) l2).
  { apply (f_equal (fun s => s !! i)) in Heq.
    rewrite !list_lookup_insert_eq in Heq
      by (eapply lookup_lt_Some; exact Hl).
    congruence. }
  intros y Hy.
  assert (Hyl' : Item.y l' = Item.y l2 + Z.of_nat n).
  { rewrite Hl'. destruct l2; reflexivity. }
  destruct (Hleast (Z.to_nat (y - Item.y l2))) as [c Hc]; [lia |].
  rewrite Z2Nat.id, list_insert_insert_eq in Hc by lia.
  replace (Item.y l2 + (y - Item.y l2)) with y in Hc by lia.
  assert (Hw : Item.with_y y l' = Item.with_y y l2).
  { rewrite Hl'. destruct l2; reflexivity. }
  rewrite Hw. exists c.
  apply getFirstCollision_Some in Hc. exact Hc.
Qed.

(** The comparison array after the turns [a .. a+m-1]: what it held
    before, and the non-static items of that range. *)
Lemma correctBounds_collidesWith (bounds : Bounds.t) (m : nat) :
  forall (a : nat) (collidesWith : list nat) (store : Layout) (j : nat),
    j ∈ fst (fold_left (fun st i => correctBoundsStep bounds i st)
               (seq a m) (collidesWith, store))
    <-> j ∈ collidesWith
        \/ ((a <= j < a + m)%nat
            /\ exists c, store !! j = Some c /\ is_static c = false).
Proof.
  induction m as [| m IH]; intros a collidesWith store j;
    cbn [seq fold_left].
  - cbn. split; [auto | intros [H | [H _]]; [exact H | lia]].
  - destruct (store !! a) as [l |] eqn:Ha.
    + destruct (correctBoundsStep_spec bounds a collidesWith store l Ha)
        as (l' & Hstep & Hcorr).
      pose proof (correctBoundsStep_fst bounds a collidesWith store l Ha)
        as Hfst.
      destruct (correctBoundsStep bounds a (collidesWith, store))
        as [collidesWith' store'] eqn:E.
      cbn [fst snd] in Hstep, Hfst. subst store' collidesWith'.
      rewrite IH. split.
      * intros [Hin | (Hr & c & Hc & Hs)].
        -- destruct (is_static l) eqn:Hsl; [auto |].
           apply elem_of_app in Hin as [Hin | Hin]; [auto |].
           apply list_elem_of_singleton in Hin. subst j.
           right. split; [lia | eauto].
        -- right. split; [lia |]. exists c. split; [| exact Hs].
           rewrite list_lookup_insert_ne in Hc by lia. exact Hc.
      * intros [Hin | (Hr & c & Hc & Hs)].
        -- left. destruct (is_static l); [exact Hin |].
           apply elem_of_app. auto.
        -- destruct (decide (j = a)) as [-> | Hne].
           ++ left. assert (c = l) by congruence. subst c. rewrite Hs.
              apply elem_of_app. right. apply list_elem_of_here.
           ++ right. split; [lia |]. exists c. split; [| exact Hs].
              rewrite list_lookup_insert_ne by auto. exact Hc.
    + rewrite correctBoundsStep_missing by exact Ha.
      rewrite IH. split.
      * intros [Hin | (Hr & c & Hc & Hs)]; [auto |].
        right. split; [lia | eauto].
      * intros [Hin | (Hr & c & Hc & Hs)]; [auto |].
        right. split; [| eauto].
        assert (j <> a) by congruence. lia.
Qed.

(** The loop of [correctBounds], cut at the turn of index [k]. *)
Lemma correctBounds_cut (layout : Layout) (bounds : Bounds.t) (k : nat) :
  (k < length layout)%nat ->
  correctBounds layout bounds
  = snd (fold_left (fun st i => correctBoundsStep bounds i st)
           (seq (S k) (length layout - S k))
           (correctBoundsStep bounds k
              (fold_left (fun st i => correctBoundsStep bounds i st)
                 (seq 0 k) (staticAddrs layout, layout)))).
Proof.
  intros Hk. unfold correctBounds.
  replace (length layout) with (k + S (length layout - S k))%nat at 1 by lia.
  rewrite seq_app, fold_left_app. cbn [seq fold_left Nat.add]. reflexivity.
Qed.

(** C5: [correctBounds] keeps the length of the layout and, for every
    item, moves [x] to [cols - w] when [x + w] exceeds [cols], then
    sets [x] to 0 and [w] to [cols] when [x] is negative; a non-static
    item keeps its [y]; a static item is only moved down, by whole
    units: it ends clear of every obstacle (the items before it, as
    corrected, and the static items after it), and at every position it
    has passed it collided with one of them; no other field changes;
    and afterwards [0 <= x] and [x + w <= cols]. *)
Theorem C5_correctBounds_corrects_every_item
    (layout : Layout) (bounds : Bounds.t) (k : nat) (l : LayoutItem) :
  layout !! k = Some l ->
  length (correctBounds layout bounds) = length layout
  /\ exists l',
       correctBounds layout bounds !! k = Some l'
       /\ correctedItem (Bounds.cols bounds) l l'
       /\ (is_static l = true -> pushedClear layout bounds k l l')
       /\ 0 <= Item.x l'
       /\ Item.x l' + Item.w l' <= Bounds.cols bounds.
Proof.
  intros Hk.
  pose proof (lookup_lt_Some _ _ _ Hk) as Hlt.
  destruct (correctBounds_loop bounds (length layout) 0
              (staticAddrs layout) layout) as [Hlen Hall].
  fold (correctBounds layout bounds) in Hlen, Hall.
  cbn zeta in Hlen, Hall. split; [exact Hlen |].
  destruct (Hall k l Hk) as [Hin _].
  destruct Hin as (l' & Hl' & Hcorr); [lia |].
  exists l'. split; [exact Hl' |]. split; [exact Hcorr |].
  split; [| eapply correctedItem_within; exact Hcorr].
  intros Hst.
  (* the state of the loop when it reaches [k] *)
  pose proof (correctBounds_cut layout bounds k Hlt) as Hcut.
  pose proof (correctBounds_collidesWith bounds k 0 (staticAddrs layout)
                layout) as Hcw.
  destruct (correctBounds_loop bounds k 0 (staticAddrs layout) layout)
    as [Hlenk Hbefore].
  cbn zeta in Hlenk, Hbefore.
  destruct (fold_left (fun st i => correctBoundsStep bounds i st)
              (seq 0 k) (staticAddrs layout, layout))
    as [collidesWith store] eqn:Ek.
  cbn [fst snd] in Hcw, Hlenk, Hbefore.
  assert (Hsk : store !! k = Some l).
  { apply (Hbefore k l Hk). lia. }
  destruct (correctBoundsStep_least bounds k collidesWith store l Hsk Hst)
    as (lk & Hstep & _ & Hclear & Hleast).
  destruct (correctBounds_loop bounds (length layout - S k) (S k)
              (fst (correctBoundsStep bounds k (collidesWith, store)))
              (<[k := lk]> store)) as [_ Hafter].
  cbn zeta in Hafter.
  rewrite <- Hstep, <- surjective_pairing, <- Hcut in Hafter.
  rewrite Hstep in Hafter.
  assert (Hlk : lk = l').
  { assert (H : <[k := lk]> store !! k = Some lk).
    { apply list_lookup_insert_eq. lia. }
    apply Hafter in H as [_ H]. rewrite H in Hl' by lia. congruence. }
  subst lk.
  (* the objects of the comparison array, other than the item itself,
     are the obstacles *)
  assert (Hobst : forall v c,
             c ∈ objects (<[k := v]> store) collidesWith ->
             c = v \/ exists j, obstacle layout bounds k j c).
  { intros v c Hc. apply elem_of_objects in Hc as (a & Ha & Hac).
    destruct (decide (a = k)) as [-> | Hne].
    - left. rewrite list_lookup_insert_eq in Hac by lia. congruence.
    - right. exists a. rewrite list_lookup_insert_ne in Hac by auto.
      destruct (lt_dec a k) as [Hak | Hak].
      + left. split; [exact Hak |].
        assert (H : <[k := l']> store !! a = Some c).
        { rewrite list_lookup_insert_ne by auto. exact Hac. }
        apply Hafter in H as [_ H]. apply H. lia.
      + right. split; [lia |].
        assert (Hla : exists la, layout !! a = Some la).
        { apply lookup_lt_is_Some. apply lookup_lt_Some in Hac. lia. }
        destruct Hla as [la Hla].
        assert (Hsa : store !! a = Some la).
        { apply (Hbefore a la Hla). lia. }
        assert (c = la) by congruence. subst la.
        split; [exact Hla |].
        apply Hcw in Ha as [Ha | (Hr & _)]; [| lia].
        apply staticAddrs_elem in Ha as (la & Hla' & Hs). congruence. }
  split.
  - intros j c [(Hj & Hc) | (Hj & Hc & Hs)]; apply Hclear;
      apply elem_of_objects; exists j.
    + assert (Hcj : exists cj, layout !! j = Some cj).
      { apply lookup_lt_is_Some. lia. }
      destruct Hcj as [cj Hcj].
      destruct (Hbefore j cj Hcj) as [Hin' _].
      destruct Hin' as (cj' & Hcj' & Hcorr'); [lia |].
      assert (H : <[k := l']> store !! j = Some cj').
      { rewrite list_lookup_insert_ne by lia. exact Hcj'. }
      pose proof H as H'. apply Hafter in H' as [_ H'].
      rewrite H' in Hc by lia. assert (cj' = c) by congruence. subst cj'.
      split; [| exact H].
      apply Hcw. destruct (is_static cj) eqn:Hs.
      * left. apply staticAddrs_elem. eauto.
      * right. split; [lia | eauto].
    + split.
      * apply Hcw. left. apply staticAddrs_elem. eauto.
      * rewrite list_lookup_insert_ne by lia. apply (Hbefore j c Hc). lia.
  - intros y Hy. destruct (Hleast y Hy) as (c & Hc & Hcol).
    destruct (Hobst _ _ Hc) as [-> | [j Hj]].
    + rewrite collides_same_id in Hcol by reflexivity. discriminate.
    + eauto.
Qed.

Lemma C5_correctBounds_witness :
  exists l',
    correctBounds [plainItem "a" 5 0 20 1; staticItem "s" (-2) 0 3 1]
      (Bounds.mk 12) !! 1%nat = Some l'
    /\ Item.y l' = 1
    /\ correctedItem 12 (staticItem "s" (-2) 0 3 1) l'
    /\ pushedClear [plainItem "a" 5 0 20 1; staticItem "s" (-2) 0 3 1]
         (Bounds.mk 12) 1 (staticItem "s" (-2) 0 3 1) l'
    /\ 0 <= Item.x l'
    /\ Item.x l' + Item.w l' <= 12.
Proof.
  destruct (C5_correctBounds_corrects_every_item
              [plainItem "a" 5 0 20 1; staticItem "s" (-2) 0 3 1]
              (Bounds.mk 12) 1 (staticItem "s" (-2) 0 3 1) eq_refl)
    as (_ & l' & Hl' & Hcorr & Hpushed & Hx & Hw).
  exists l'. split; [exact Hl' |].
  split; [vm_compute in Hl'; injection Hl' as <-; reflexivity |].
  split; [exact Hcorr |]. split; [exact (Hpushed eq_refl) |].
  split; [exact Hx | exact Hw].
Defined.

(** ** Validation *)

Lemma validateProps_Returns (item : JsValue) (contextName : string)
    (i : nat) (props : list string) :
  validateProps item contextName i props = Returns <->
  Forall (fun prop => exists n, getProp item prop = Some (JsNumber n)) props.
Proof.
  induction props as [| prop rest IH]; cbn [validateProps].
  - split; [constructor | reflexivity].
  - rewrite Forall_cons. destruct (getProp item prop) as [v |].
    + destruct v; cbn [isNumber];
        try (split; [discriminate | intros [[n [=]] _]]).
      rewrite IH. split; [eauto | tauto].
    + split; [discriminate | intros [[n [=]] _]].
Qed.

Lemma validateItems_Returns (items : list JsValue) (contextName : string) :
  forall i,
    validateItems items contextName i = Returns <->
    Forall numericItem items.
Proof.
  induction items as [| item rest IH]; intros i; cbn [validateItems].
  - split; [constructor | reflexivity].
  - rewrite Forall_cons. unfold numericItem at 1.
    rewrite <- (validateProps_Returns item contextName i subProps).
    destruct (validateProps item contextName i subProps);
      [rewrite IH; tauto | split; [discriminate | intros [[=] _]] ..].
Qed.

Lemma validateProps_Throws (item : JsValue) (contextName : string)
    (i : nat) (prop : string) (props : list string) :
  item <> JsNull -> item <> JsUndefined ->
  head (filter (fun prop => match getProp item prop with
                            | Some v => isNumber v
                            | None => false
                            end = false) props) = Some prop ->
  validateProps item contextName i props
  = Throws ("ReactGridLayout: " +:+ contextName +:+ "[" +:+ pretty i
            +:+ "]." +:+ prop +:+ " must be a number!").
Proof.
  intros Hnull Hundef.
  induction props as [| p rest IH]; [discriminate |].
  rewrite filter_cons. cbn [validateProps].
  destruct (getProp item p) as [v |] eqn:Hv.
  - destruct (isNumber v).
    + rewrite decide_False by discriminate. exact IH.
    + rewrite decide_True by reflexivity. intros [= ->]. reflexivity.
  - destruct item; try discriminate; contradiction.
Qed.

(** X27: [validateLayout] throws "<context> must be an array!" for a
    value that is not an array, where the context is "Layout" unless
    one is given.  For an array it returns normally exactly when every
    item has numbers for [x], [y], [w] and [h] (so also when the array
    is empty); and when the first item that has not, at index [i], is
    neither [null] nor [undefined], it throws "ReactGridLayout:
    <context>[i].<prop> must be a number!", where <prop> is the first
    of x, y, w, h that is not a number in that item. *)
Theorem X27_validateLayout_reports_the_first_bad_field (layout : JsValue)
    (contextName : option string) :
  match layout with
  | JsArray items =>
      (validateLayout layout contextName = Returns <->
       Forall numericItem items)
      /\ forall i item prop,
           items !! i = Some item ->
           Forall numericItem (take i items) ->
           item <> JsNull -> item <> JsUndefined ->
           firstBadProp item = Some prop ->
           validateLayout layout contextName
           = Throws ("ReactGridLayout: "
                     +:+ default "Layout"%string contextName
                     +:+ "[" +:+ pretty i +:+ "]." +:+ prop
                     +:+ " must be a number!")
  | _ =>
      validateLayout layout contextName
      = Throws (default "Layout"%string contextName
                +:+ " must be an array!")
  end.
Proof.
  destruct layout as [| | b | n | s | fields | items]; try reflexivity.
  unfold validateLayout. cbv zeta.
  split; [apply validateItems_Returns |].
  intros i item prop Hi Hbefore Hnull Hundef Hbad.
  assert (H : forall items k i0,
            items !! k = Some item ->
            Forall numericItem (take k items) ->
            validateItems items (default "Layout"%string contextName) i0
            = Throws ("ReactGridLayout: "
                      +:+ default "Layout"%string contextName
                      +:+ "[" +:+ pretty (i0 + k)%nat +:+ "]." +:+ prop
                      +:+ " must be a number!")).
  { clear items Hi Hbefore.
    induction items as [| first rest IH]; intros k i0 Hk Hall;
      [discriminate |].
    cbn [validateItems]. destruct k as [| k].
    - injection Hk as ->. rewrite Nat.add_0_r.
      rewrite (validateProps_Throws item _ i0 prop subProps Hnull Hundef
                 Hbad).
      reflexivity.
    - cbn [take] in Hall. apply Forall_cons in Hall as [Hfirst Hall].
      apply (validateProps_Returns first (default "Layout"%string
                                            contextName) i0) in Hfirst.
      rewrite Hfirst. rewrite (IH k (S i0) Hk Hall).
      replace (S i0 + k)%nat with (i0 + S k)%nat by lia. reflexivity. }
  apply (H items i 0%nat Hi Hbefore).
Qed.

Lemma X27_validateLayout_witness :
  validateLayout (JsArray stringWidth) None
  = Throws "ReactGridLayout: Layout[1].w must be a number!".
Proof.
  refine (proj2 (X27_validateLayout_reports_the_first_bad_field
                   (JsArray stringWidth) None)
            1%nat _ "w"%string eq_refl _ _ _ _).
  - repeat constructor; eexists; reflexivity.
  - discriminate.
  - discriminate.
  - reflexivity.
Defined.

(** ** Fixed points of [compact] *)

(** X29: [compact] returns unchanged, item for item and field for
    field, every layout that is settled for the mode: distinct ids,
    items as a clone leaves them with [moved] false, sizes of at least
    one unit, and, for the items that are not static, coordinates that
    are not negative, in the horizontal mode an end within the columns,
    no collision with another item unless there is no mode and overlap
    is allowed, and, in a mode, no gap before the item on the
    compaction axis. *)
Theorem X29_compact_returns_settled_layouts_unchanged (L : Layout)
    (compactType : CompactType) (cols : Z) (allowOverlap : bool) :
  settled compactType cols allowOverlap L ->
  exists fuel,
    compact fuel L compactType cols allowOverlap = Some (Some <$> L).
Proof.
  intros Hsettled.
  destruct (compact_terminates L compactType cols allowOverlap
              (proj1 Hsettled)) as (fuel & out & Hout).
  apply (compact_mono _ (Nat.max fuel 2)) in Hout; [| lia].
  exists (Nat.max fuel 2). rewrite Hout. f_equal.
  eapply compact_settled; [exact Hsettled | | exact Hout]. lia.
Qed.

Lemma X29_compact_fixed_point_witness :
  exists fuel, compact fuel stacked Vertical 12 false = Some (Some <$> stacked).
Proof.
  apply (X29_compact_returns_settled_layouts_unchanged stacked Vertical 12
           false).
  split; [apply (bool_decide_unpack _); vm_compute; reflexivity |].
  split; [repeat constructor |].
  split; [repeat constructor; cbn; lia |].
  split.
  { intros a Ha _. unfold stacked in Ha. rewrite !elem_of_cons in Ha.
    destruct Ha as [-> | [-> | Ha]]; [| | inversion Ha];
      cbn; repeat split; try lia; discriminate. }
  split.
  { intros _ a b Ha Hb _. unfold stacked in Ha, Hb.
    rewrite !elem_of_cons in Ha, Hb.
    destruct Ha as [-> | [-> | Ha]]; [| | inversion Ha];
      (destruct Hb as [-> | [-> | Hb]]; [| | inversion Hb]); reflexivity. }
  intros _ l Hl _. unfold stacked in Hl. rewrite !elem_of_cons in Hl.
  destruct Hl as [-> | [-> | Hl]]; [| | inversion Hl].
  - left. reflexivity.
  - right. eexists. split; [apply list_elem_of_here |].
    split; [discriminate |]. cbn. lia.
Defined.

(** ** The push of [resolveCompactionCollision] *)

(** X30: a call of [resolveCompactionCollision] on an item that is not
    static leaves that item at [moveToCoord] on the axis of the push,
    keeps the number of objects, changes of every other object at most
    the coordinate on that axis, and changes no static object.  With
    distinct ids in the layout and enough fuel, which the number of
    items bounds, the call returns. *)
Theorem X30_resolveCompactionCollision_pushes_along_the_axis
    (fuel n : nat) (s : Layout) (item : nat) (moveToCoord : Z)
    (axis : Axis) (it : LayoutItem) :
  s !! item = Some it ->
  is_static it = false ->
  (forall s',
      resolveCompactionCollision fuel n s item moveToCoord axis = Some s' ->
      s' !! item = Some (set_axis axis moveToCoord it)
      /\ length s' = length s
      /\ forall k a, s !! k = Some a ->
           (exists v, s' !! k = Some (set_axis axis v a))
           /\ (is_static a = true -> s' !! k = Some a))
  /\ (NoDup (map Item.i (take n s)) -> (n < fuel)%nat ->
      exists s',
        resolveCompactionCollision fuel n s item moveToCoord axis = Some s').
Proof.
  intros Hit Hst. split.
  - intros s' Hres.
    destruct (resolveCompactionCollision_frame fuel n s item moveToCoord
                axis s') as [[Hlen Hframe] Hitem]; [| exact Hres |].
    { intros a Ha. congruence. }
    split; [apply Hitem; exact Hit |]. split; [exact Hlen |]. exact Hframe.
  - intros Hnd Hfuel.
    eapply (resolveCompactionCollision_terminates n _ Hnd);
      [reflexivity | exact Hit | exact Hst |].
    lia.
Qed.

Lemma X30_resolveCompactionCollision_witness :
  (forall s',
      resolveCompactionCollision 9 3 sortedByColumn 0 2 AxisX = Some s' ->
      s' !! 0%nat = Some (set_axis AxisX 2 (plainItem "a" 0 0 2 2))
      /\ length s' = length sortedByColumn
      /\ forall k a, sortedByColumn !! k = Some a ->
           (exists v, s' !! k = Some (set_axis AxisX v a))
           /\ (is_static a = true -> s' !! k = Some a))
  /\ (NoDup (map Item.i (take 3 sortedByColumn)) -> (3 < 9)%nat ->
      exists s',
        resolveCompactionCollision 9 3 sortedByColumn 0 2 AxisX = Some s').
Proof.
  apply (X30_resolveCompactionCollision_pushes_along_the_axis 9 3
           sortedByColumn 0 2 AxisX (plainItem "a" 0 0 2 2));
    reflexivity.
Defined.
